(** * The segmented write-ahead log of oxia (package [wal]), embedded in Rocq

    The development follows the Go source of the log: the entry codec
    ([appendUvarint], [appendEntry], [loadNextEntry]), the segment list with
    its LRU cache ([pushCache], [loadSegment], [findSegment]), the directory
    scan of [load], the append path ([cycle], [writeBatch]), [Read], and the
    three truncation protocols.

    Modelling conventions.
    - An [int64] offset is a [Z]; every addition or subtraction the source
      performs on offsets is followed by [wrap64].
    - A byte is a [Byte.byte]; a slice is a list.  Go checks the upper bound
      of a slice expression against the capacity of the slice, not against
      its length.  The one place where the program reaches a bound beyond
      the length is [s.epos[:index-s.offset+1]] in [truncateBack], at an
      offset that the segment does not hold: there the capacity is modelled
      ([reslice]).  The capacity of [s.epos] is what the run-time's [append]
      gave; the source does not determine it, so it is an argument of
      [truncateBack].  Everywhere else a bound beyond the length is the
      run-time panic.
    - The log directory is a finite map from file names to contents; there
      are no sub-directories inside it (the scan of [load] receives the
      [IsDir] flag and is stated for arbitrary listings).  A segment's
      [path] is its base name inside the log directory.  File-system calls
      fail for the reasons the operating system gives on an otherwise healthy
      disk: a missing file, a closed handle.
    - [*segment] pointers: the LRU cache maps a segment index to the very
      pointer stored at [l.segments[index]] ([pushCache] is the only writer),
      so the cache is a list of indices, most recently used first, and
      eviction writes through to the segment list.
    - Locks, metrics and the in-memory file system option are not modelled. *)

From Stdlib Require Import ZArith Lia Bool.
From Stdlib Require Import Strings.Byte Strings.Ascii Strings.String.
From stdpp Require Import gmap strings list fin_maps sorting.

Open Scope Z_scope.

(** ** Machine integers *)

Definition wrap64 (z : Z) : Z := (z + 2 ^ 63) mod 2 ^ 64 - 2 ^ 63.

Definition min_int64 : Z := - 2 ^ 63.
Definition max_int64 : Z := 2 ^ 63 - 1.

Definition in_int64 (z : Z) : Prop := min_int64 <= z <= max_int64.

(** ** Bytes *)

Definition byte_to_Z (b : byte) : Z := Z.of_N (Byte.to_N b).

Definition byte_of_Z (z : Z) : byte :=
  match Byte.of_N (Z.to_N (z mod 256)) with
  | Some b => b
  | None => x00
  end.

(** ** Entry codec *)

Module Codec.

(** [binary.PutUvarint]: seven bits per byte, least significant group first,
    the high bit set on every byte but the last.  [fuel] is the size of the
    ten-byte buffer of [appendUvarint]. *)
Fixpoint putUvarint (fuel : nat) (x : Z) : list byte :=
  match fuel with
  | O => []
  | S fuel' =>
      if 128 <=? x
      then byte_of_Z (Z.lor (x mod 256) 128) :: putUvarint fuel' (Z.shiftr x 7)
      else [byte_of_Z x]
  end.

(** [appendUvarint(dst, x)], [x] already converted to [uint64]. *)
Definition appendUvarint (dst : list byte) (x : Z) : list byte :=
  dst ++ putUvarint 10 (x mod 2 ^ 64).

(** [binary.Uvarint]: the loop over [buf], with the index [i], the
    accumulator [x] and the shift [s]; returns the value and the number of
    bytes read ([0]: buffer too small, negative: overflow). *)
Fixpoint uvarint_loop (buf : list byte) (i : Z) (x : Z) (s : Z) : Z * Z :=
  match buf with
  | [] => (0, 0)
  | b :: rest =>
      if i =? 10 then (0, - (i + 1))
      else if byte_to_Z b <? 128 then
        if (i =? 9) && (1 <? byte_to_Z b) then (0, - (i + 1))
        else (Z.lor x (Z.shiftl (byte_to_Z b) s), i + 1)
      else uvarint_loop rest (i + 1)
             (Z.lor x (Z.shiftl (Z.land (byte_to_Z b) 127) s)) (s + 7)
  end.

Definition Uvarint (buf : list byte) : Z * Z := uvarint_loop buf 0 0 0.

End Codec.

(** [bpos]: the byte range of one framed entry inside a segment buffer. *)
Record bpos := Bpos { pos : nat; end_ : nat }.

(** [appendEntry(dst, data)]. *)
Definition appendEntry (dst data : list byte) : list byte * bpos :=
  let p := length dst in
  let dst1 := Codec.appendUvarint dst (Z.of_nat (length data)) in
  let dst2 := dst1 ++ data in
  (dst2, Bpos p (length dst2)).

(** The errors a caller can tell apart; file-system errors are kept apart
    from the log's own. *)
Inductive ioerror := ENoEnt | EClosedFile.

Inductive error :=
| ErrCorrupt | ErrClosed | ErrNotFound | ErrOutOfRange
| ErrInvalidSeek
| ErrIO (e : ioerror).

(** [loadNextEntry(data)]: the length of the first frame of [data]. *)
Definition loadNextEntry (data : list byte) : error + nat :=
  let '(size, n) := Codec.Uvarint data in
  if n <=? 0 then inl ErrCorrupt
  else if Z.of_nat (length data) - n <? size then inl ErrCorrupt
  else inr (Z.to_nat (n + size)).

(** The decoding loop of [loadSegmentEntries]: every round consumes at least
    one byte, so [length data] rounds are enough. *)
Fixpoint load_frames (fuel : nat) (data : list byte) (p : nat)
    : error + list bpos :=
  match data with
  | [] => inr []
  | _ :: _ =>
      match fuel with
      | O => inl ErrCorrupt
      | S fuel' =>
          match loadNextEntry data with
          | inl e => inl e
          | inr n =>
              match load_frames fuel' (drop n data) (p + n) with
              | inl e => inl e
              | inr l => inr (Bpos p (p + n) :: l)
              end
          end
      end
  end.

Definition parse_frames (data : list byte) : error + list bpos :=
  load_frames (length data) data 0%nat.

(** ** File names *)

Definition startSuffix : string := ".START".
Definition endSuffix : string := ".END".
Definition truncateSuffix : string := ".TRUNCATE".
Definition tempFileName : string := "TEMP".
Definition segmentFilenameLength : nat := 20.

Definition digit_char (d : Z) : ascii := ascii_of_nat (48 + Z.to_nat d).

(** [w] decimal digits of [n], most significant first, in front of [acc]. *)
Fixpoint pad_digits (w : nat) (n : Z) (acc : string) : string :=
  match w with
  | O => acc
  | S w' => pad_digits w' (n / 10) (String (digit_char (n mod 10)) acc)
  end.

(** [segmentName(offset)] is [fmt.Sprintf("%020d", offset)]: the sign of a
    negative number counts in the width of twenty, and no [int64] has more
    than nineteen digits. *)
Definition segmentName (offset : Z) : string :=
  if offset <? 0 then String "-" (pad_digits 19 (- offset) "")
  else pad_digits 20 offset "".

Definition digit_val (a : ascii) : option Z :=
  let n := Z.of_nat (nat_of_ascii a) in
  if (48 <=? n) && (n <=? 57) then Some (n - 48) else None.

Fixpoint parse_digits (s : string) (acc : Z) : option Z :=
  match s with
  | EmptyString => Some acc
  | String a s' =>
      match digit_val a with
      | Some d => parse_digits s' (10 * acc + d)
      | None => None
      end
  end.

(** [strconv.ParseInt(s, 10, 64)]: an optional sign, at least one digit,
    digits only, and the value must fit in an [int64]. *)
Definition ParseInt (s : string) : option Z :=
  let '(neg, body) :=
    match s with
    | String "+" r => (false, r)
    | String "-" r => (true, r)
    | _ => (false, s)
    end in
  match body with
  | EmptyString => None
  | _ =>
      match parse_digits body 0 with
      | None => None
      | Some un =>
          if neg then (if 2 ^ 63 <? un then None else Some (- un))
          else (if 2 ^ 63 <=? un then None else Some un)
      end
  end.

Definition str_prefix (n : nat) (s : string) : string := String.substring 0 n s.

(** [strings.HasSuffix]. *)
Definition HasSuffix (s suffix : string) : bool :=
  (String.length suffix <=? String.length s)%nat &&
  String.eqb
    (String.substring (String.length s - String.length suffix)
       (String.length suffix) s)
    suffix.

(** [p[:len(p)-len(suffix)]]. *)
Definition strip_suffix (p suffix : string) : string :=
  str_prefix (String.length p - String.length suffix) p.

(** ** State *)

Record Options := MkOptions {
  NoSync : bool;
  SegmentSize : Z;
  SegmentCacheSize : Z;
  NoCopy : bool
}.

Definition DefaultOptions : Options :=
  {| NoSync := false; SegmentSize := 20971520; SegmentCacheSize := 2;
     NoCopy := true |}.

Record segment := MkSegment {
  path : string;
  offset : Z;
  ebuf : list byte;
  epos : list bpos
}.

(** A file handle: never opened ([nil]), open on a file at a position, or
    closed. *)
Inductive file :=
| FNil
| FOpen (name : string) (fpos : nat)
| FClosed.

Record Log := MkLog {
  opts : Options;
  closed : bool;
  corrupt : bool;
  segments : list segment;
  firstOffset : Z;
  lastOffset : Z;
  sfile : file;
  scache : list nat
}.

Abbreviation FS := (gmap string (list byte)).

Record World := MkWorld { lg : Log; disk : FS }.

Definition set_segments (v : list segment) (l : Log) : Log :=
  MkLog (opts l) (closed l) (corrupt l) v (firstOffset l) (lastOffset l)
    (sfile l) (scache l).
Definition set_firstOffset (v : Z) (l : Log) : Log :=
  MkLog (opts l) (closed l) (corrupt l) (segments l) v (lastOffset l)
    (sfile l) (scache l).
Definition set_lastOffset (v : Z) (l : Log) : Log :=
  MkLog (opts l) (closed l) (corrupt l) (segments l) (firstOffset l) v
    (sfile l) (scache l).
Definition set_sfile (v : file) (l : Log) : Log :=
  MkLog (opts l) (closed l) (corrupt l) (segments l) (firstOffset l)
    (lastOffset l) v (scache l).
Definition set_scache (v : list nat) (l : Log) : Log :=
  MkLog (opts l) (closed l) (corrupt l) (segments l) (firstOffset l)
    (lastOffset l) (sfile l) v.
Definition set_closed (v : bool) (l : Log) : Log :=
  MkLog (opts l) v (corrupt l) (segments l) (firstOffset l) (lastOffset l)
    (sfile l) (scache l).
Definition set_corrupt (v : bool) (l : Log) : Log :=
  MkLog (opts l) (closed l) v (segments l) (firstOffset l) (lastOffset l)
    (sfile l) (scache l).

Definition set_path (v : string) (s : segment) : segment :=
  MkSegment v (offset s) (ebuf s) (epos s).
Definition set_offset (v : Z) (s : segment) : segment :=
  MkSegment (path s) v (ebuf s) (epos s).
Definition set_bufs (b : list byte) (p : list bpos) (s : segment) : segment :=
  MkSegment (path s) (offset s) b p.

(** A segment whose buffer and positions were dropped ([s.ebuf = nil;
    s.epos = nil]). *)
Definition dormant (s : segment) : segment := set_bufs [] [] s.

(** ** A monad for the method bodies

    A method runs on the world (the log object and the directory) and
    returns normally, returns an error, or panics; the world it leaves
    behind is kept in all three cases, since a returned error does not undo
    what was already done and a deferred [recover] resumes from the state at
    the panic. *)

Inductive Res (A : Type) :=
| Ok (a : A) (w : World)
| Err (e : error) (w : World)
| Panic (w : World).
Arguments Ok {A} a w.
Arguments Err {A} e w.
Arguments Panic {A} w.

Definition M (A : Type) : Type := World -> Res A.

Definition ret {A} (a : A) : M A := fun w => Ok a w.
Definition bind {A B} (m : M A) (k : A -> M B) : M B :=
  fun w =>
    match m w with
    | Ok a w' => k a w'
    | Err e w' => Err e w'
    | Panic w' => Panic w'
    end.
Definition fail {A} (e : error) : M A := fun w => Err e w.
Definition panic {A} : M A := fun w => Panic w.

Notation "'let*' x ':=' m 'in' k" := (bind m (fun x => k))
  (at level 10, x binder, m at level 200, k at level 200).
Notation "'exec' m 'then' k" := (bind m (fun _ => k))
  (at level 10, m at level 200, k at level 200).

Definition get_log : M Log := fun w => Ok (lg w) w.
Definition modify_log (f : Log -> Log) : M unit :=
  fun w => Ok tt (MkWorld (f (lg w)) (disk w)).
Definition get_disk : M FS := fun w => Ok (disk w) w.
Definition modify_disk (f : FS -> FS) : M unit :=
  fun w => Ok tt (MkWorld (lg w) (f (disk w))).

Definition when {A} (b : bool) (m : M A) : M unit :=
  if b then (exec m then ret tt) else ret tt.

Fixpoint forM_ {A} (l : list A) (f : A -> M unit) : M unit :=
  match l with
  | [] => ret tt
  | x :: l' => exec f x then forM_ l' f
  end.

(** The deferred function of the truncation protocols:
    [if v := recover(); v != nil { err = ErrCorrupt; l.corrupt = true }]. *)
Definition with_recover {A} (m : M A) : M A :=
  fun w =>
    match m w with
    | Panic w' => Err ErrCorrupt (MkWorld (set_corrupt true (lg w')) (disk w'))
    | r => r
    end.

(** Go's bounds-checked indexing and slicing. *)
Definition index_of {A} (l : list A) (i : Z) : M A :=
  if (0 <=? i) then
    match l !! Z.to_nat i with
    | Some x => ret x
    | None => panic
    end
  else panic.

Definition slice {A} (l : list A) (lo hi : Z) : M (list A) :=
  if (0 <=? lo) && (lo <=? hi) && (hi <=? Z.of_nat (length l))
  then ret (take (Z.to_nat (hi - lo)) (drop (Z.to_nat lo) l))
  else panic.

Definition len {A} (l : list A) : Z := Z.of_nat (length l).

(** [a[:n]] for a slice [a] of capacity [cap]: the bound may reach the
    capacity, and past the length the result shows the backing array, which
    holds [pad] there.  A capacity is never below the length: a smaller
    [cap] counts as the length. *)
Definition reslice {A} (pad : A) (cap : Z) (l : list A) (n : Z) : M (list A) :=
  if (0 <=? n) && (n <=? Z.max (len l) cap)
  then ret (take (Z.to_nat n) (l ++ replicate (Z.to_nat (n - len l)) pad))
  else panic.

(** ** The file system

    [newFile] opens with [O_CREATE|O_RDWR|O_TRUNC], [openFile] with
    [O_WRONLY] alone, so the latter needs the file to exist. *)

Definition write_at (p : nat) (data c : list byte) : list byte :=
  take p c ++ replicate (p - length c) x00 ++ data ++ drop (p + length data) c.

Definition newFile (name : string) : M file :=
  exec modify_disk (fun fs => <[name := []]> fs) then ret (FOpen name 0).

Definition openFile (name : string) : M file :=
  let* fs := get_disk in
  match fs !! name with
  | Some _ => ret (FOpen name 0)
  | None => fail (ErrIO ENoEnt)
  end.

Definition fs_Remove (name : string) : M unit :=
  let* fs := get_disk in
  match fs !! name with
  | Some _ => modify_disk (fun fs => delete name fs)
  | None => fail (ErrIO ENoEnt)
  end.

Definition fs_Rename (old new : string) : M unit :=
  let* fs := get_disk in
  match fs !! old with
  | Some c => modify_disk (fun fs => <[new := c]> (delete old fs))
  | None => fail (ErrIO ENoEnt)
  end.

Definition fs_ReadFile (name : string) : M (list byte) :=
  let* fs := get_disk in
  match fs !! name with
  | Some c => ret c
  | None => fail (ErrIO ENoEnt)
  end.

(** Byte-wise lexicographic order of file names, the order of [ReadDir]. *)
Definition name_le (a b : string) : Prop := String.leb a b = true.

Global Instance name_le_dec a b : Decision (name_le a b).
Proof. unfold name_le. apply _. Defined.

Record dirent := MkDirent { d_name : string; d_isDir : bool }.

Definition fs_ReadDir : M (list dirent) :=
  let* fs := get_disk in
  ret (map (fun n => MkDirent n false)
         (merge_sort name_le (map fst (map_to_list fs)))).

(** [l.sfile = f] where the call that makes [f] may fail: the source assigns
    the (nil) handle before it looks at the error. *)
Definition assign_sfile (m : M file) : M unit :=
  fun w =>
    match m w with
    | Ok f w' => Ok tt (MkWorld (set_sfile f (lg w')) (disk w'))
    | Err e w' => Err e (MkWorld (set_sfile FNil (lg w')) (disk w'))
    | Panic w' => Panic w'
    end.

(** [l.sfile.Write(data)]. *)
Definition sfile_Write (data : list byte) : M unit :=
  let* l := get_log in
  match sfile l with
  | FNil => panic
  | FClosed => fail (ErrIO EClosedFile)
  | FOpen name p =>
      exec modify_disk (fun fs =>
             match fs !! name with
             | Some c => <[name := write_at p data c]> fs
             | None => fs
             end)
      then modify_log (set_sfile (FOpen name (p + length data)))
  end.

(** [l.sfile.Seek(0, 2)]: move to the end, return the new position. *)
Definition sfile_SeekEnd : M Z :=
  let* l := get_log in
  let* fs := get_disk in
  match sfile l with
  | FNil => panic
  | FClosed => fail (ErrIO EClosedFile)
  | FOpen name _ =>
      let n := match fs !! name with Some c => length c | None => 0%nat end in
      exec modify_log (set_sfile (FOpen name n)) then ret (Z.of_nat n)
  end.

Definition sfile_Close : M unit :=
  let* l := get_log in
  match sfile l with
  | FNil => panic
  | FClosed => fail (ErrIO EClosedFile)
  | FOpen _ _ => modify_log (set_sfile FClosed)
  end.

(** Modelled from the spec: [doFSync] is defined outside the given sources;
    the spec says the writer "fsync[s] the tail file", which succeeds on an
    open handle. *)
Definition doFSync : M unit :=
  let* l := get_log in
  match sfile l with
  | FNil => panic
  | FClosed => fail (ErrIO EClosedFile)
  | FOpen _ _ => ret tt
  end.

Definition syncNoMutex : M unit := doFSync.

(** ** The segment cache *)

(** [tinylru.LRU.Resize] turns a size that is not positive into 256. *)
Definition cache_cap (o : Options) : nat :=
  if SegmentCacheSize o <=? 0 then 256%nat else Z.to_nat (SegmentCacheSize o).

(** [tinylru.LRU.SetEvicted] on the keys: a known key moves to the front; a
    new key enters at the front, and when the cache is full the least
    recently used key leaves. *)
Definition lru_set (cap : nat) (k : nat) (c : list nat) : list nat * option nat :=
  if decide (k ∈ c) then (k :: filter (fun x => x ≠ k) c, None)
  else if (length c =? cap)%nat then (k :: removelast c, last c)
  else (k :: c, None).

Definition pushCache (segIdx : Z) : M unit :=
  let* l := get_log in
  let* _ := index_of (segments l) segIdx in
  let '(c, evicted) := lru_set (cache_cap (opts l)) (Z.to_nat segIdx) (scache l) in
  modify_log (fun l =>
    set_scache c
      (match evicted with
       | Some k => set_segments (alter dormant k (segments l)) l
       | None => l
       end)).

(** [clearCache]: every cached segment is demoted, the cache is replaced by
    an empty one. *)
Definition clearCache : M unit :=
  modify_log (fun l =>
    set_scache []
      (set_segments
         (foldr (fun k segs => alter dormant k segs) (segments l) (scache l)) l)).

(** ** Loading segments *)

(** [loadSegmentEntries(s)] for the segment at index [i] of [l.segments]. *)
Definition loadSegmentEntries (i : nat) : M unit :=
  let* l := get_log in
  match segments l !! i with
  | None => panic
  | Some s =>
      let* data := fs_ReadFile (path s) in
      match parse_frames data with
      | inl e => fail e
      | inr ep => modify_log (fun l =>
                    set_segments (alter (set_bufs data ep) i (segments l)) l)
      end
  end.

(** The binary search of [findSegment]; the interval shrinks at every round. *)
Fixpoint findSegment_loop (fuel : nat) (segs : list segment) (index : Z)
    (i j : nat) : nat :=
  match fuel with
  | O => i
  | S fuel' =>
      if (i <? j)%nat then
        let h := (i + (j - i) / 2)%nat in
        match segs !! h with
        | Some s =>
            if offset s <=? index
            then findSegment_loop fuel' segs index (h + 1)%nat j
            else findSegment_loop fuel' segs index i h
        | None => i
        end
      else i
  end.

Definition findSegment (l : Log) (index : Z) : Z :=
  Z.of_nat (findSegment_loop (S (length (segments l))) (segments l) index 0
              (length (segments l))) - 1.

(** The check of the most recently used cache entry in [loadSegment]: the
    callback of [Range] returns [false], so only the first entry is seen. *)
Definition cache_hit (l : Log) (index : Z) : option nat :=
  match scache l with
  | k :: _ =>
      match segments l !! k with
      | Some s =>
          if (offset s <=? index) && (index <? wrap64 (offset s + len (epos s)))
          then Some k else None
      | None => None
      end
  | [] => None
  end.

(** [loadSegment(index)]; the result is the index in [l.segments] of the
    segment the source returns a pointer to. *)
Definition loadSegment (index : Z) : M nat :=
  let* l := get_log in
  let* lseg := index_of (segments l) (len (segments l) - 1) in
  if offset lseg <=? index then ret (length (segments l) - 1)%nat
  else
    match cache_hit l index with
    | Some k => ret k
    | None =>
        let idx := findSegment l index in
        let* s := index_of (segments l) idx in
        exec when (len (epos s) =? 0) (loadSegmentEntries (Z.to_nat idx)) then
        exec pushCache idx then
        ret (Z.to_nat idx)
    end.

(** ** Opening a log: [createInitialSegment], [load], [OpenWithShard] *)

Definition createInitialSegment (off : Z) : M unit :=
  exec modify_log (fun l =>
         set_lastOffset (wrap64 (off - 1))
           (set_firstOffset off
              (set_segments
                 (segments l ++ [MkSegment (segmentName off) off [] []]) l)))
  then
  let* l := get_log in
  let* s0 := index_of (segments l) 0 in
  assign_sfile (newFile (path s0)).

(** What the directory scan of [load] accumulates: the segments found and the
    positions of the marker files ([-1]: none). *)
Record scan_state := MkScan {
  sc_segments : list segment;
  startIdx : Z;
  endIdx : Z;
  truncateIdx : Z
}.

Definition scan_init : scan_state := MkScan [] (-1) (-1) (-1).

(** [len(name) == segmentFilenameLength+len(suffix) &&
    strings.HasSuffix(name, suffix)]. *)
Definition has_marker (name suffix : string) : bool :=
  (String.length name =? segmentFilenameLength + String.length suffix)%nat
  && HasSuffix name suffix.

(** One round of the scan loop. *)
Definition scan_entry (st : scan_state) (fi : dirent) : error + scan_state :=
  let name := d_name fi in
  if d_isDir fi || (String.length name <? segmentFilenameLength)%nat then inr st
  else
    match ParseInt (str_prefix segmentFilenameLength name) with
    | None => inr st
    | Some index =>
        if index =? -1 then inr st
        else
          let isStart := has_marker name startSuffix in
          let isEnd := has_marker name endSuffix in
          let isTruncate := has_marker name truncateSuffix in
          if (String.length name =? segmentFilenameLength)%nat
             || isStart || isEnd || isTruncate
          then
            let here := len (sc_segments st) in
            let segs := sc_segments st ++ [MkSegment name index [] []] in
            if isStart then
              inr (MkScan segs here (endIdx st) (truncateIdx st))
            else if isEnd && (endIdx st =? -1) then
              inr (MkScan segs (startIdx st) here (truncateIdx st))
            else if isTruncate then
              if negb (truncateIdx st =? -1) then inl ErrCorrupt
              else inr (MkScan segs (startIdx st) (endIdx st) here)
            else inr (MkScan segs (startIdx st) (endIdx st) (truncateIdx st))
          else inr st
    end.

Fixpoint scan (st : scan_state) (fis : list dirent) : error + scan_state :=
  match fis with
  | [] => inr st
  | fi :: fis' =>
      match scan_entry st fi with
      | inl e => inl e
      | inr st' => scan st' fis'
      end
  end.

(** The test after the scan: markers of two different kinds. *)
Definition markers_clash (st : scan_state) : bool :=
  (negb (startIdx st =? -1) && negb (endIdx st =? -1))
  || (negb (startIdx st =? -1) && negb (truncateIdx st =? -1))
  || (negb (truncateIdx st =? -1) && negb (endIdx st =? -1)).

Definition set_seg_at (i : Z) (f : segment -> segment) : M unit :=
  let* l := get_log in
  let* _ := index_of (segments l) i in
  modify_log (fun l => set_segments (alter f (Z.to_nat i) (segments l)) l).

(** Remove the files of the segments at the given indices, in that order. *)
Definition remove_segments (idxs : list Z) : M unit :=
  forM_ idxs (fun i =>
    let* l := get_log in
    let* s := index_of (segments l) i in
    fs_Remove (path s)).

(** The indices [lo, lo+1, ..., hi-1]. *)
Definition zrange (lo hi : Z) : list Z :=
  map (fun k => lo + Z.of_nat k) (seq 0 (Z.to_nat (hi - lo))).

Definition load_start (sIdx : Z) : M unit :=
  exec remove_segments (zrange 0 sIdx) then
  let* l := get_log in
  let* segs := slice (segments l) sIdx (len (segments l)) in
  exec modify_log (set_segments segs) then
  let* s0 := index_of segs 0 in
  let orgPath := path s0 in
  let finalPath := strip_suffix orgPath startSuffix in
  exec fs_Rename orgPath finalPath then
  set_seg_at 0 (set_path finalPath).

Definition load_end (eIdx : Z) : M unit :=
  let* l := get_log in
  exec remove_segments (rev (zrange (eIdx + 1) (len (segments l)))) then
  let* segs := slice (segments l) 0 (eIdx + 1) in
  exec modify_log (set_segments segs) then
  let n := len segs in
  exec (if 1 <? n then
          let* a := index_of segs (n - 2) in
          let* b := index_of segs (n - 1) in
          if offset a =? offset b
          then modify_log (set_segments
                 (take (Z.to_nat (n - 1)) (<[Z.to_nat (n - 2) := b]> segs)))
          else ret tt
        else ret tt) then
  let* l := get_log in
  let last_i := len (segments l) - 1 in
  let* sl := index_of (segments l) last_i in
  let orgPath := path sl in
  let finalPath := strip_suffix orgPath endSuffix in
  exec fs_Rename orgPath finalPath then
  set_seg_at last_i (set_path finalPath).

Definition load_truncate (tIdx : Z) : M unit :=
  let* l := get_log in
  exec remove_segments
         (filter (fun i => i ≠ tIdx) (zrange 0 (len (segments l)))) then
  let* st := index_of (segments l) tIdx in
  exec modify_log (set_segments [st]) then
  let orgPath := path st in
  let finalPath := strip_suffix orgPath truncateSuffix in
  exec fs_Rename orgPath finalPath then
  set_seg_at 0 (set_path finalPath).

Definition load : M unit :=
  let* fis := fs_ReadDir in
  match scan scan_init fis with
  | inl e => fail e
  | inr st =>
      exec modify_log (set_segments (sc_segments st)) then
      if len (sc_segments st) =? 0 then createInitialSegment 0
      else if markers_clash st then fail ErrCorrupt
      else
        exec when (negb (startIdx st =? -1)) (load_start (startIdx st)) then
        exec when (negb (endIdx st =? -1)) (load_end (endIdx st)) then
        exec when (negb (truncateIdx st =? -1)) (load_truncate (truncateIdx st)) then
        let* l := get_log in
        let* s0 := index_of (segments l) 0 in
        exec modify_log (set_firstOffset (offset s0)) then
        let last_i := len (segments l) - 1 in
        let* lseg := index_of (segments l) last_i in
        exec assign_sfile (openFile (path lseg)) then
        let* _ := sfile_SeekEnd in
        exec loadSegmentEntries (Z.to_nat last_i) then
        let* l := get_log in
        let* lseg := index_of (segments l) last_i in
        modify_log (set_lastOffset (wrap64 (wrap64 (offset lseg + len (epos lseg)) - 1)))
  end.

(** The defaults [OpenWithShard] fills in. *)
Definition normalize (o : Options) : Options :=
  {| NoSync := NoSync o;
     SegmentSize := if SegmentSize o <=? 0 then SegmentSize DefaultOptions
                    else SegmentSize o;
     SegmentCacheSize := if SegmentCacheSize o <=? 0
                         then SegmentCacheSize DefaultOptions
                         else SegmentCacheSize o;
     NoCopy := NoCopy o |}.

Definition new_log (o : Options) : Log :=
  MkLog (normalize o) false false [] 0 0 FNil [].

(** [OpenWithShard(path, ..., opts)] on the directory [fs]. *)
Definition open (o : Options) (fs : FS) : Res unit :=
  load (MkWorld (new_log o) fs).

(** ** Close, Sync, index queries *)

(** The guard every public method starts with. *)
Definition guard : M unit :=
  let* l := get_log in
  if corrupt l then fail ErrCorrupt
  else if closed l then fail ErrClosed
  else ret tt.

Definition Close : M unit :=
  let* l := get_log in
  if closed l then
    (if corrupt l then fail ErrCorrupt else fail ErrClosed)
  else
    exec syncNoMutex then
    exec sfile_Close then
    exec modify_log (set_closed true) then
    if corrupt l then fail ErrCorrupt else ret tt.

Definition Sync : M unit := exec guard then syncNoMutex.

Definition FirstIndex : M Z :=
  exec guard then let* l := get_log in ret (firstOffset l).

Definition LastIndex : M Z :=
  exec guard then let* l := get_log in ret (lastOffset l).

Definition ClearCache : M unit := exec guard then clearCache.

(** ** The append path: [cycle], [Batch], [writeBatch], [Write] *)

Definition tail_index (l : Log) : Z := len (segments l) - 1.

Definition cycle (nextOffset : Z) : M unit :=
  exec syncNoMutex then
  exec sfile_Close then
  let* l := get_log in
  let* lastSegment := index_of (segments l) (tail_index l) in
  exec (if (offset lastSegment =? 0) && (len (ebuf lastSegment) =? 0) then
          exec modify_log (set_firstOffset nextOffset) then
          fs_Remove (path lastSegment)
        else pushCache (tail_index l)) then
  let s := MkSegment (segmentName nextOffset) nextOffset [] [] in
  exec assign_sfile (newFile (path s)) then
  modify_log (fun l => set_segments (segments l ++ [s]) l).

Record batchEntry := MkEntry { be_offset : Z; be_size : nat }.

Record Batch := MkBatch { entries : list batchEntry; datas : list byte }.

Definition Batch_empty : Batch := MkBatch [] [].

(** [b.Write(offset, data)]. *)
Definition Batch_Write (b : Batch) (off : Z) (data : list byte) : Batch :=
  MkBatch (entries b ++ [MkEntry off (length data)]) (datas b ++ data).

(** The loop of [writeBatch] over the entries still to append; [mark] is the
    length of the tail buffer that is already in the tail file, [ds] the
    payload bytes not yet consumed.  Returns the final [mark]. *)
Fixpoint writeBatch_loop (es : list batchEntry) (mark : nat) (ds : list byte)
    : M nat :=
  match es with
  | [] => ret mark
  | e :: es' =>
      let* data := slice ds 0 (Z.of_nat (be_size e)) in
      let* l := get_log in
      let* s := index_of (segments l) (tail_index l) in
      let '(buf, ep) := appendEntry (ebuf s) data in
      exec set_seg_at (tail_index l) (set_bufs buf (epos s ++ [ep])) then
      let* mark' :=
        (if SegmentSize (opts l) <=? len buf then
           exec sfile_Write (drop mark buf) then
           exec modify_log (set_lastOffset (be_offset e)) then
           exec cycle (wrap64 (be_offset e + 1)) then
           ret 0%nat
         else ret mark) in
      let* ds' := slice ds (Z.of_nat (be_size e)) (len ds) in
      writeBatch_loop es' mark' ds'
  end.

Definition writeBatch (b : Batch) : M unit :=
  let* l := get_log in
  let* s := index_of (segments l) (tail_index l) in
  let* e0 := index_of (entries b) 0 in
  let firstOffsetInBatch := be_offset e0 in
  exec when ((wrap64 (lastOffset l + 1) <? firstOffsetInBatch)
             || (SegmentSize (opts l) <? len (ebuf s)))
         (cycle firstOffsetInBatch) then
  let* l := get_log in
  let* s := index_of (segments l) (tail_index l) in
  let* mark := writeBatch_loop (entries b) (length (ebuf s)) (datas b) in
  let* l := get_log in
  let* s := index_of (segments l) (tail_index l) in
  exec when (0 <? len (ebuf s) - Z.of_nat mark)
         (exec sfile_Write (drop mark (ebuf s)) then
          let* e := index_of (entries b) (len (entries b) - 1) in
          modify_log (set_lastOffset (be_offset e))) then
  when (negb (NoSync (opts l))) syncNoMutex.

Definition WriteBatch (b : Batch) : M unit :=
  exec guard then
  if len (entries b) =? 0 then ret tt else writeBatch b.

Definition Write (off : Z) (data : list byte) : M unit :=
  exec guard then
  writeBatch (Batch_Write Batch_empty off data).

(** ** Read *)

Definition Read (off : Z) : M (list byte) :=
  exec guard then
  let* l := get_log in
  if (off <? firstOffset l) || (lastOffset l <? off) then fail ErrNotFound
  else
    let* si := loadSegment off in
    let* l := get_log in
    let* s := index_of (segments l) (Z.of_nat si) in
    let* ep := index_of (epos s) (wrap64 (off - offset s)) in
    let* edata := slice (ebuf s) (Z.of_nat (pos ep)) (Z.of_nat (end_ ep)) in
    let '(size, n) := Codec.Uvarint edata in
    if n <=? 0 then fail ErrCorrupt
    else if len edata - n <? size then fail ErrCorrupt
    else if NoCopy (opts l) then slice edata n (n + size)
    else ret (take (Z.to_nat size) (drop (Z.to_nat n) edata)).

(** ** Truncation *)

(** Writing the surviving bytes to [TEMP]: an anonymous function whose error
    the source overwrites with the result of the rename that follows. *)
Definition write_temp (buf : list byte) : M unit :=
  modify_disk (fun fs => <[tempFileName := buf]> fs).

Definition str_app (a b : string) : string := String.append a b.

Definition truncateFront (index : Z) : M unit :=
  let* l := get_log in
  if (index <? firstOffset l) || (lastOffset l <? index) then fail ErrOutOfRange
  else if index =? firstOffset l then ret tt
  else
    let segIdx := findSegment l index in
    let* si := loadSegment index in
    let* l := get_log in
    let* s := index_of (segments l) (Z.of_nat si) in
    let* ep := slice (epos s) (wrap64 (index - offset s)) (len (epos s)) in
    let* ep0 := index_of ep 0 in
    let* buf := slice (ebuf s) (Z.of_nat (pos ep0)) (len (ebuf s)) in
    exec write_temp buf then
    let startName := str_app (segmentName index) startSuffix in
    exec fs_Rename tempFileName startName then
    with_recover (
      let is_tail := segIdx =? tail_index l in
      exec when is_tail sfile_Close then
      exec remove_segments (zrange 0 (segIdx + 1)) then
      let newName := segmentName index in
      exec fs_Rename startName newName then
      exec set_seg_at (Z.of_nat si) (fun s => set_offset index (set_path newName s)) then
      exec when is_tail
             (exec assign_sfile (openFile newName) then
              let* n := sfile_SeekEnd in
              if negb (n =? len buf) then fail ErrInvalidSeek
              else loadSegmentEntries si) then
      let* l := get_log in
      let* _ := slice (segments l) segIdx (len (segments l)) in
      (* the cache holds pointers into the list as it was before this
         re-slice, so it is cleared against that list *)
      exec clearCache then
      modify_log (fun l =>
        set_firstOffset index
          (set_segments (drop (Z.to_nat segIdx) (segments l)) l))).

Definition TruncateFront (index : Z) : M unit :=
  exec guard then truncateFront index.

Definition clear : M unit :=
  exec clearCache then
  let* l := get_log in
  (* os.Remove(s.path), the error is dropped *)
  exec modify_disk (fun fs => foldl (fun fs s => delete (path s) fs) fs (segments l)) then
  exec modify_log (set_segments []) then
  createInitialSegment 0.

Definition Clear : M unit := exec guard then clear.

Definition truncateBackAll (newFirstIndex : Z) : M unit :=
  let* l := get_log in
  if newFirstIndex =? lastOffset l then ret tt
  else
    let tempName := str_app (segmentName newFirstIndex) truncateSuffix in
    let* _ := openFile tempName in
    with_recover (
      exec sfile_Close then
      exec remove_segments (zrange 0 (len (segments l))) then
      let newName := segmentName newFirstIndex in
      exec fs_Rename tempName newName then
      exec assign_sfile (openFile newName) then
      exec modify_log (fun l =>
             set_scache []
               (set_lastOffset (wrap64 (newFirstIndex - 1))
                  (set_segments [MkSegment newName newFirstIndex [] []] l))) then
      loadSegmentEntries 0).

(** [ecap] is [cap(s.epos)] of the segment the call loads.  The positions
    slice is built by [append] alone ([loadSegmentEntries], [writeBatch])
    and never cut in place, so its backing array is zero past the
    length. *)
Definition truncateBack (ecap : Z) (index : Z) : M unit :=
  let* l := get_log in
  if index =? wrap64 (firstOffset l - 1) then truncateBackAll (firstOffset l)
  else if (index <? firstOffset l) || (lastOffset l <? index) then fail ErrOutOfRange
  else if index =? lastOffset l then ret tt
  else
    let segIdx := findSegment l index in
    let* si := loadSegment index in
    let* l := get_log in
    let* s := index_of (segments l) (Z.of_nat si) in
    let* ep := reslice (Bpos 0 0) ecap (epos s)
                 (wrap64 (wrap64 (index - offset s) + 1)) in
    let* epl := index_of ep (len ep - 1) in
    let* buf := slice (ebuf s) 0 (Z.of_nat (end_ epl)) in
    exec write_temp buf then
    let endName := str_app (segmentName (offset s)) endSuffix in
    exec fs_Rename tempFileName endName then
    with_recover (
      exec sfile_Close then
      exec remove_segments (zrange segIdx (len (segments l))) then
      let newName := segmentName (offset s) in
      exec fs_Rename endName newName then
      exec assign_sfile (openFile newName) then
      let* n := sfile_SeekEnd in
      if negb (n =? len buf) then fail ErrInvalidSeek
      else
        exec set_seg_at (Z.of_nat si) (set_path newName) then
        let* l := get_log in
        let* _ := slice (segments l) 0 (segIdx + 1) in
        (* as in [truncateFront]: the cache is cleared against the list
           before the re-slice *)
        exec clearCache then
        exec modify_log (fun l =>
               set_lastOffset index
                 (set_segments (take (Z.to_nat (segIdx + 1)) (segments l)) l)) then
        (* [s] may have left the list: it is then loaded all the same, and
           nothing of the log sees it *)
        let* l := get_log in
        match segments l !! si with
        | Some _ => loadSegmentEntries si
        | None =>
            let* data := fs_ReadFile newName in
            match parse_frames data with
            | inl e => fail e
            | inr _ => ret tt
            end
        end).

Definition TruncateBack (ecap : Z) (index : Z) : M unit :=
  exec guard then truncateBack ecap index.

(** ** Worlds used as concrete inputs *)

Definition bytes_of (s : string) : list byte := list_byte_of_string s.

(** The world a call leaves behind, whatever its outcome. *)
Definition world_of {A} (r : Res A) : World :=
  match r with Ok _ w => w | Err _ w => w | Panic w => w end.

(** A freshly opened log over an empty directory. *)
Definition fresh_world : World := world_of (open DefaultOptions ∅).

(** One entry at offset 0. *)
Definition one_entry_world : World :=
  world_of (Write 0 (bytes_of "a") fresh_world).

(** Two entries at offsets 0 and 1. *)
Definition two_entry_world : World :=
  world_of (Write 1 (bytes_of "b") one_entry_world).

(** Offsets 0 and 5 written one after the other: the second write jumps. *)
Definition jump_world : World :=
  world_of (Write 5 (bytes_of "bb") one_entry_world).

(** A log whose very first write is at offset 5. *)
Definition first_jump_world : World :=
  world_of (Write 5 (bytes_of "a") fresh_world).

(** A log whose very first write is at offset 5, followed by offset 6. *)
Definition late_start_world : World :=
  world_of (Write 6 (bytes_of "b") first_jump_world).

(** Offsets 0, 1 and 2 written one after the other, then offset 10: the
    last write jumps and leaves offsets 3 to 9 unwritten. *)
Definition hole_world : World :=
  world_of (Write 10 (bytes_of "d")
              (world_of (Write 2 (bytes_of "c") two_entry_world))).

(** The same log after [TruncateBack(3)], an offset that was never
    written, when the positions slice of the segment at base offset 0 (three
    elements, appended one by one) has capacity 4. *)
Definition hole_cut_world : World :=
  world_of (TruncateBack 4 3 hole_world).


(** One batch that leaves offset 1 out. *)
Definition gap_batch : Batch :=
  Batch_Write (Batch_Write Batch_empty 0 (bytes_of "a")) 2 (bytes_of "b").

Definition gap_world : World := world_of (WriteBatch gap_batch fresh_world).

(** Two entries at offsets 0 and 1, then the back truncated to offset 0
    (the positions slice of the segment has two elements; its capacity
    plays no part). *)
Definition back_world : World :=
  world_of (TruncateBack 2 0 two_entry_world).

(** Two entries at offsets 0 and 1, then the front truncated to offset 1. *)
Definition trunc_world : World :=
  world_of (TruncateFront 1 two_entry_world).

(** Close the log and open the directory it leaves. *)
Definition reopen (o : Options) (w : World) : Res unit :=
  match Close w with
  | Ok _ w' => open o (disk w')
  | Err e w' => Err e w'
  | Panic w' => Panic w'
  end.

(** What a caller sees of a call: the value or the error, not the world. *)
Inductive outcome (A : Type) :=
| Returned (a : A)
| Failed (e : error)
| Panicked.
Arguments Returned {A} a.
Arguments Failed {A} e.
Arguments Panicked {A}.

Definition outcome_of {A} (r : Res A) : outcome A :=
  match r with
  | Ok a _ => Returned a
  | Err e _ => Failed e
  | Panic _ => Panicked
  end.

(** ** Marker files in a directory listing *)

(** The entries the scan of [load] looks at: not a directory, at least
    twenty characters, the first twenty of which parse as an [int64] other
    than [-1]. *)
Definition recognized (fi : dirent) : bool :=
  negb (d_isDir fi)
  && (segmentFilenameLength <=? String.length (d_name fi))%nat
  && match ParseInt (str_prefix segmentFilenameLength (d_name fi)) with
     | Some index => negb (index =? -1)
     | None => false
     end.

Definition is_marker (suffix : string) (fi : dirent) : bool :=
  recognized fi && has_marker (d_name fi) suffix.

Definition count_markers (suffix : string) (fis : list dirent) : nat :=
  length (List.filter (is_marker suffix) fis).

(** The outcome of the marker checks of [load] on a listing: [true] when
    [load] returns [ErrCorrupt] from the scan loop or from the test that
    follows it. *)
Definition marker_check_fails (fis : list dirent) : bool :=
  match scan scan_init fis with
  | inl _ => true
  | inr st => markers_clash st
  end.

(** The listing [load] reads from a directory. *)
Definition listing (fs : FS) : list dirent :=
  map (fun n => MkDirent n false) (merge_sort name_le (map fst (map_to_list fs))).

Definition two_starts : list dirent :=
  [MkDirent "00000000000000000005.START" false;
   MkDirent "00000000000000000007.START" false].

Definition two_starts_dir : FS :=
  <["00000000000000000007.START" := []]>
    (<["00000000000000000005.START" := []]> ∅).

(** Whether the scan has met a marker of each kind so far. *)
Definition seenS (st : scan_state) : bool := negb (startIdx st =? -1).
Definition seenE (st : scan_state) : bool := negb (endIdx st =? -1).
Definition seenT (st : scan_state) : bool := negb (truncateIdx st =? -1).

Definition start_and_end_dir : FS :=
  <["00000000000000000003.END" := []]>
    (<["00000000000000000001.START" := []]> ∅).

Definition b2n (b : bool) : nat := if b then 1%nat else 0%nat.

(** A scan that has met a marker has recorded a segment for it. *)
Definition seen_nonempty (st : scan_state) : Prop :=
  seenS st || seenE st || seenT st = true -> sc_segments st <> [].

(** ** Framed payloads *)

(** The frame of one payload: its length as a uvarint, then the bytes. *)
Definition frame (d : list byte) : list byte :=
  Codec.putUvarint 10 (Z.of_nat (length d) mod 2 ^ 64) ++ d.

(** A segment buffer that holds the given payloads, in order. *)
Definition encode_all (ds : list (list byte)) : list byte :=
  concat (map frame ds).

(** The byte ranges of the frames of [ds] in a buffer that starts at [p]. *)
Fixpoint positions (p : nat) (ds : list (list byte)) : list bpos :=
  match ds with
  | [] => []
  | d :: ds' =>
      Bpos p (p + length (frame d)) :: positions (p + length (frame d)) ds'
  end.

(** Payloads a Go slice can hold: the length fits in an [int]. *)
Definition small (d : list byte) : Prop := Z.of_nat (length d) < 2 ^ 63.

(** ** Partial correctness *)

(** [post m w Q]: if [m] returns normally from [w], [Q] holds of its value
    and of the world it leaves. *)
Definition post {A} (m : M A) (w : World) (Q : A -> World -> Prop) : Prop :=
  forall a w', m w = Ok a w' -> Q a w'.

Definition same_flags (w w' : World) : Prop :=
  closed (lg w') = closed (lg w) /\ corrupt (lg w') = corrupt (lg w).

Definition same_bounds (w w' : World) : Prop :=
  firstOffset (lg w') = firstOffset (lg w) /\
  lastOffset (lg w') = lastOffset (lg w) /\
  same_flags w w'.

(** [keeps m]: a normal return of [m] leaves the two bounds and the
    [closed] and [corrupt] flags as they were. *)
Definition keeps {A} (m : M A) : Prop :=
  forall w, post m w (fun _ w' => same_bounds w w').

(** The length of the buffer of the tail segment. *)
Definition tail_ebuf_len (w : World) : nat :=
  match last (segments (lg w)) with
  | Some s => length (ebuf s)
  | None => 0%nat
  end.

(** ** The append contract and the steps of a log's life *)

(** A batch built from a list of (offset, payload) pairs with [b.Write]. *)
Definition mkBatch (es : list (Z * list byte)) : Batch :=
  foldl (fun b e => Batch_Write b (fst e) (snd e)) Batch_empty es.

(** The contract of spec section 4.5 for a batch appended to a log whose
    last offset is [lst]: offsets are [int64] values, strictly increasing,
    and the first one is at least [lst + 1]. *)
Definition batch_ok (lst : Z) (es : list (Z * list byte)) : Prop :=
  es <> [] /\
  Forall (fun e => in_int64 (fst e)) es /\
  StronglySorted Z.lt (map fst es) /\
  (forall e, e ∈ es -> lst + 1 <= fst e).

(** One successful public operation. *)
Inductive step : World -> World -> Prop :=
| step_Write off d w w' :
    in_int64 off -> lastOffset (lg w) + 1 <= off ->
    Write off d w = Ok tt w' -> step w w'
| step_WriteBatch es w w' :
    batch_ok (lastOffset (lg w)) es ->
    WriteBatch (mkBatch es) w = Ok tt w' -> step w w'
| step_Read off d w w' : Read off w = Ok d w' -> step w w'
| step_TruncateFront i w w' : TruncateFront i w = Ok tt w' -> step w w'
| step_TruncateBack ecap i w w' : TruncateBack ecap i w = Ok tt w' -> step w w'
| step_Clear w w' : Clear w = Ok tt w' -> step w w'
| step_Sync w w' : Sync w = Ok tt w' -> step w w'
| step_ClearCache w w' : ClearCache w = Ok tt w' -> step w w'.


Definition bounds_inv (w : World) : Prop :=
  closed (lg w) = false /\ corrupt (lg w) = false /\
  in_int64 (firstOffset (lg w)) /\ in_int64 (lastOffset (lg w)) /\
  firstOffset (lg w) <= lastOffset (lg w) + 1.

(** The part of a world the bounds invariant speaks about. *)
Definition bsig (w : World) : Z * Z * bool * bool :=
  (firstOffset (lg w), lastOffset (lg w), closed (lg w), corrupt (lg w)).

(** [bpost T m]: a normal return of [m] takes the signature of the world
    from [s] to some [s'] with [T s s']. *)
Definition bpost {A} (T : Z * Z * bool * bool -> Z * Z * bool * bool -> Prop)
    (m : M A) : Prop :=
  forall w, post m w (fun _ w' => T (bsig w) (bsig w')).

(** ** The effect of the cache and of [cycle] on the log *)

(** [pushCache(i)] when [i] is an index of [l.segments]. *)
Definition pushCache_log (i : nat) (l : Log) : Log :=
  let '(c, evicted) := lru_set (cache_cap (opts l)) i (scache l) in
  set_scache c
    (match evicted with
     | Some k => set_segments (alter dormant k (segments l)) l
     | None => l
     end).

(** [cycle(next)] when the tail is not the empty segment at offset 0. *)
Definition cycle_log (next : Z) (l : Log) : Log :=
  let l1 := pushCache_log (length (segments l) - 1) (set_sfile FClosed l) in
  set_segments (segments l1 ++ [MkSegment (segmentName next) next [] []])
    (set_sfile (FOpen (segmentName next) 0) l1).

(** A write of [data] at position [p] through a handle on [n]. *)
Definition write_file (n : string) (p : nat) (data : list byte) (fs : FS) : FS :=
  match fs !! n with
  | Some c => <[n := write_at p data c]> fs
  | None => fs
  end.

(** What stays true while a batch is appended to a log whose first write
    jumped to offset [k]: the tail file is open, the file of the initial
    segment is gone, and the segment at base offset [k] and its file are
    there. *)
Definition jump_inv (k : Z) (w : World) : Prop :=
  (exists n p, sfile (lg w) = FOpen n p) /\
  segments (lg w) <> [] /\
  disk w !! segmentName 0 = None /\
  is_Some (disk w !! segmentName k) /\
  (exists s, s ∈ segments (lg w) /\ offset s = k /\ path s = segmentName k).

(** ** The log seen as lists of payloads

    A well-formed log is described by, for every segment, its base offset,
    the payloads its file holds and whether its buffer is resident; the tail
    is kept apart, and [a_stale] records the initial segment at offset 0
    that [cycle] leaves in [l.segments] after removing its file. *)

Record aseg := MkASeg { a_off : Z; a_ds : list (list byte); a_res : bool }.

Record astate := MkAState {
  a_opts : Options;
  a_stale : bool;
  a_pre : list aseg;
  a_toff : Z;
  a_tds : list (list byte);
  a_cache : list nat
}.

Definition cseg (s : aseg) : segment :=
  MkSegment (segmentName (a_off s)) (a_off s)
    (if a_res s then encode_all (a_ds s) else [])
    (if a_res s then positions 0 (a_ds s) else []).

Definition stale_seg : segment := MkSegment (segmentName 0) 0 [] [].

Definition ctail (a : astate) : segment :=
  MkSegment (segmentName (a_toff a)) (a_toff a)
    (encode_all (a_tds a)) (positions 0 (a_tds a)).

(** The index in [l.segments] of the first segment that has a file. *)
Definition sh (a : astate) : nat := if a_stale a then 1%nat else 0%nat.

Definition csegs (a : astate) : list segment :=
  (if a_stale a then [stale_seg] else []) ++ map cseg (a_pre a) ++ [ctail a].

Definition afirst (a : astate) : Z :=
  match a_pre a with
  | s :: _ => a_off s
  | [] => a_toff a
  end.

Definition alast (a : astate) : Z := a_toff a + len (a_tds a) - 1.

(** The files of the log when the first [m] entries of the tail are in the
    tail file. *)
Definition afiles (a : astate) (m : nat) : list (string * list byte) :=
  map (fun s => (segmentName (a_off s), encode_all (a_ds s))) (a_pre a)
  ++ [(segmentName (a_toff a), encode_all (take m (a_tds a)))].

(** The world of a log in state [a] whose tail file holds the first [m]
    entries of the tail and whose last offset is [lst]. *)
Definition repr (a : astate) (m : nat) (lst : Z) : World :=
  MkWorld
    (MkLog (a_opts a) false false (csegs a) (afirst a) lst
       (FOpen (segmentName (a_toff a))
          (length (encode_all (take m (a_tds a)))))
       (a_cache a))
    (list_to_map (afiles a m)).

(** The world between two operations: the tail file is up to date. *)
Definition repr0 (a : astate) : World :=
  repr a (length (a_tds a)) (alast a).

(** Base offset and entry count of every segment, tail included. *)
Definition aspans (a : astate) : list (Z * nat) :=
  map (fun s => (a_off s, length (a_ds s))) (a_pre a)
  ++ [(a_toff a, length (a_tds a))].

(** A segment ends before the next one starts, and base offsets increase. *)
Definition span_lt (x y : Z * nat) : Prop :=
  fst x + Z.of_nat (snd x) <= fst y /\ fst x < fst y.

Record valid (a : astate) : Prop := MkValid {
  v_chain : StronglySorted span_lt (aspans a);
  v_first : 0 <= afirst a;
  v_last : a_toff a + len (a_tds a) <= max_int64;
  v_small_pre : Forall (fun s => Forall small (a_ds s)) (a_pre a);
  v_small_tl : Forall small (a_tds a);
  v_cache : Forall (fun k => (k < sh a + length (a_pre a))%nat) (a_cache a);
  v_stale : a_stale a = true -> 0 < afirst a;
  v_size : 0 < SegmentSize (a_opts a);
  v_csize : 0 < SegmentCacheSize (a_opts a)
}.

(** Base offset and payloads of every segment, tail included. *)
Definition content (a : astate) : list (Z * list (list byte)) :=
  map (fun s => (a_off s, a_ds s)) (a_pre a) ++ [(a_toff a, a_tds a)].

(** Every segment that has a file, the tail last (its buffer is always
    resident). *)
Definition allsegs (a : astate) : list aseg :=
  a_pre a ++ [MkASeg (a_toff a) (a_tds a) true].

(** [aholds a off d]: the log holds payload [d] at offset [off]. *)
Definition aholds (a : astate) (off : Z) (d : list byte) : Prop :=
  exists o ds, (o, ds) ∈ content a /\ o <= off /\
               ds !! Z.to_nat (off - o) = Some d.

(** Two states with the same options, segments and payloads (residency,
    cache and the stale initial segment may differ). *)
Definition same_content (a a' : astate) : Prop :=
  a_opts a' = a_opts a /\ content a' = content a.

Definition set_res (b : bool) (s : aseg) : aseg := MkASeg (a_off s) (a_ds s) b.

Definition set_a_pre (p : list aseg) (a : astate) : astate :=
  MkAState (a_opts a) (a_stale a) p (a_toff a) (a_tds a) (a_cache a).
Definition set_a_cache (c : list nat) (a : astate) : astate :=
  MkAState (a_opts a) (a_stale a) (a_pre a) (a_toff a) (a_tds a) c.
Definition set_a_tds (ds : list (list byte)) (a : astate) : astate :=
  MkAState (a_opts a) (a_stale a) (a_pre a) (a_toff a) ds (a_cache a).

(** The state after the segment at index [j] of [l.segments] left the
    cache. *)
Definition a_evict (j : nat) (a : astate) : astate :=
  if (j <? sh a)%nat then a
  else set_a_pre (alter (set_res false) (j - sh a)%nat (a_pre a)) a.

(** The state after [pushCache(k)]. *)
Definition a_push (k : nat) (a : astate) : astate :=
  let '(c, evicted) := lru_set (cache_cap (a_opts a)) k (a_cache a) in
  set_a_cache c
    (match evicted with
     | Some j => a_evict j a
     | None => a
     end).

(** The state after [clearCache]. *)
Definition a_clear (a : astate) : astate :=
  set_a_cache [] (foldr a_evict a (a_cache a)).

(** The state after [loadSegmentEntries] on the [i]-th segment with a file. *)
Definition a_load (i : nat) (a : astate) : astate :=
  set_a_pre (alter (set_res true) i (a_pre a)) a.

(** The segment of [s] once its file is loaded. *)
Definition full (s : aseg) : segment := cseg (set_res true s).

(** The state after [cycle(next)] when the tail is not the empty initial
    segment: the tail joins the earlier segments. *)
Definition a_cycle (next : Z) (a : astate) : astate :=
  let b := a_push (sh a + length (a_pre a)) a in
  MkAState (a_opts b) (a_stale b)
    (a_pre b ++ [MkASeg (a_toff b) (a_tds b) true]) next [] (a_cache b).

(** The state after [cycle(next)] on a log that never held an entry: the
    initial segment loses its file and stays in [l.segments]. *)
Definition a_jump (next : Z) (a : astate) : astate :=
  MkAState (a_opts a) true [] next [] [].

(** The state after one more payload entered the tail buffer. *)
Definition a_snoc (d : list byte) (a : astate) : astate :=
  set_a_tds (a_tds a ++ [d]) a.

(** The state a reopened log starts in. *)
Definition a_reopen (a : astate) : astate :=
  MkAState (a_opts a) false (map (set_res false) (a_pre a))
    (a_toff a) (a_tds a) [].

(** ** Appends that follow the contract *)

(** The entries are at offsets [x], [x+1], ... *)
Fixpoint contig_from (x : Z) (es : list (Z * list byte)) : Prop :=
  match es with
  | [] => True
  | e :: es' => fst e = x /\ contig_from (x + 1) es'
  end.

(** A batch for a log whose last offset is [lst]: it is not empty, starts
    after [lst], its offsets follow one another and stay below the largest
    [int64], and every payload fits a Go slice. *)
Definition batch_contig (lst : Z) (es : list (Z * list byte)) : Prop :=
  match es with
  | [] => False
  | e :: _ =>
      lst + 1 <= fst e /\ contig_from (fst e) es /\
      fst e + len es <= max_int64 /\
      Forall (fun e => small (snd e)) es
  end.

(** The state of a log opened on an empty directory. *)
Definition a_init (o : Options) : astate :=
  MkAState (normalize o) false [] 0 [] [].

(** [appended o w hist]: [w] is the world of a log that was opened with
    options [o] on an empty directory and then only appended to, with batches
    that follow the contract, and read; [hist] lists what was appended, in
    order. *)
Inductive appended (o : Options) : World -> list (Z * list byte) -> Prop :=
| appended_open w : open o ∅ = Ok tt w -> appended o w []
| appended_WriteBatch w w' hist es :
    appended o w hist -> batch_contig (lastOffset (lg w)) es ->
    WriteBatch (mkBatch es) w = Ok tt w' -> appended o w' (hist ++ es)
| appended_Write w w' hist off d :
    appended o w hist -> batch_contig (lastOffset (lg w)) [(off, d)] ->
    Write off d w = Ok tt w' -> appended o w' (hist ++ [(off, d)])
| appended_Read w w' hist off d :
    appended o w hist -> Read off w = Ok d w' -> appended o w' hist.

(** [reached o w]: [w] is the world of a log that was opened with options
    [o] on an empty directory and then taken through calls that returned
    normally: appends of a batch that is not empty, starts after the last
    offset (a jump is allowed), has offsets that follow one another and stay
    below the largest [int64], and payloads that fit a Go slice
    ([batch_contig]); [TruncateFront]; [TruncateBack] at an offset for which
    [Read] returns an entry (whatever the capacity of the positions slice);
    reads; [Clear], [ClearCache] and [Sync]; closing followed by reopening.
    Appends with a gap inside the batch and [TruncateBack] at an offset
    that no segment holds are left out: the log they leave is not described
    by its segment files any more. *)
Inductive reached (o : Options) : World -> Prop :=
| reached_open w : open o ∅ = Ok tt w -> reached o w
| reached_WriteBatch w w' es :
    reached o w -> batch_contig (lastOffset (lg w)) es ->
    WriteBatch (mkBatch es) w = Ok tt w' -> reached o w'
| reached_Write w w' off d :
    reached o w -> batch_contig (lastOffset (lg w)) [(off, d)] ->
    Write off d w = Ok tt w' -> reached o w'
| reached_TruncateFront w w' i :
    reached o w -> TruncateFront i w = Ok tt w' -> reached o w'
| reached_TruncateBack w w' ecap i d w1 :
    reached o w -> Read i w = Ok d w1 ->
    TruncateBack ecap i w = Ok tt w' -> reached o w'
| reached_Read w w' off d :
    reached o w -> Read off w = Ok d w' -> reached o w'
| reached_reopen w w' :
    reached o w -> reopen o w = Ok tt w' -> reached o w'
| reached_Clear w w' :
    reached o w -> Clear w = Ok tt w' -> reached o w'
| reached_ClearCache w w' :
    reached o w -> ClearCache w = Ok tt w' -> reached o w'
| reached_Sync w w' :
    reached o w -> Sync w = Ok tt w' -> reached o w'.

(** The base offsets of the segments of a described log, in order. *)
Definition aoffsets (a : astate) : list Z := map a_off (a_pre a) ++ [a_toff a].

(** A dormant segment, as the scan makes it. *)
Definition dseg (x : Z) : segment := MkSegment (segmentName x) x [] [].

(** The directory after the files of the segments [ss] are removed. *)
Definition delete_paths (ss : list segment) (fs : FS) : FS :=
  foldl (fun D s => delete (path s) D) fs ss.

(** [no_nf m]: [m] never returns [ErrNotFound]. *)
Definition no_nf {A} (m : M A) : Prop :=
  forall w e w', m w = Err e w' -> e <> ErrNotFound.

(** ** What a truncation keeps *)

(** [holds c off d]: one of the segments of [c] (base offset and payloads)
    has payload [d] at offset [off]. *)
Definition holds (c : list (Z * list (list byte))) (off : Z) (d : list byte)
    : Prop :=
  exists o ds, (o, ds) ∈ c /\ o <= off /\
               ds !! Z.to_nat (off - o) = Some d.

(** Base offset and entry count of every segment of [c]. *)
Definition spans (c : list (Z * list (list byte))) : list (Z * nat) :=
  map (fun p => (fst p, length (snd p))) c.

(** [a'] holds what [a] holds from offset [i] on, and nothing else. *)
Definition front_of (i : Z) (a a' : astate) : Prop :=
  afirst a' = i /\ alast a' = alast a /\
  forall off d, aholds a' off d <-> i <= off /\ aholds a off d.

(** [a'] holds what [a] holds up to offset [i], and nothing else. *)
Definition back_of (i : Z) (a a' : astate) : Prop :=
  afirst a' = afirst a /\ alast a' = i /\
  forall off d, aholds a' off d <-> off <= i /\ aholds a off d.

(** ** Segment buffers as the code builds and reads them *)

(** The buffer and the positions [writeBatch] builds when it calls
    [appendEntry] for each payload in turn, from an empty buffer. *)
Definition appendEntries (ds : list (list byte)) : list byte * list bpos :=
  foldl (fun st d =>
           let '(buf, ep) := appendEntry (fst st) d in (buf, snd st ++ [ep]))
        ([], []) ds.

(** [s.ebuf[ep.pos:ep.end]]. *)
Definition entry_bytes (buf : list byte) (ep : bpos) : list byte :=
  take (end_ ep - pos ep) (drop (pos ep) buf).

(** [tiles p eps q]: the ranges [eps] follow one another from [p] to [q]
    and none is empty. *)
Fixpoint tiles (p : nat) (eps : list bpos) (q : nat) : Prop :=
  match eps with
  | [] => p = q
  | ep :: eps' => pos ep = p /\ (p < end_ ep)%nat /\ tiles (end_ ep) eps' q
  end.

(** ** Calls that only read *)

(** [quiet m]: whatever its outcome (a value, an error or a panic), [m]
    leaves the directory, the two bounds and the [closed] and [corrupt]
    flags as they were. *)
Definition quiet {A} (m : M A) : Prop :=
  forall w, disk (world_of (m w)) = disk w /\ bsig (world_of (m w)) = bsig w.

(** ** The commit point of a front truncation *)

(** [truncateFront] up to and including the rename of [TEMP] to the [START]
    marker, the commit point.  [None]: there is nothing to truncate.
    Otherwise the value is what the rest of the function uses: [segIdx],
    the index of the loaded segment, the log as read after [loadSegment],
    and the bytes that survive. *)
Definition truncateFront_commit (index : Z)
    : M (option (Z * nat * Log * list byte)) :=
  let* l := get_log in
  if (index <? firstOffset l) || (lastOffset l <? index) then fail ErrOutOfRange
  else if index =? firstOffset l then ret None
  else
    let segIdx := findSegment l index in
    let* si := loadSegment index in
    let* l := get_log in
    let* s := index_of (segments l) (Z.of_nat si) in
    let* ep := slice (epos s) (wrap64 (index - offset s)) (len (epos s)) in
    let* ep0 := index_of ep 0 in
    let* buf := slice (ebuf s) (Z.of_nat (pos ep0)) (len (ebuf s)) in
    exec write_temp buf then
    let startName := str_app (segmentName index) startSuffix in
    exec fs_Rename tempFileName startName then
    ret (Some (segIdx, si, l, buf)).

(** The start of the clean-up of [truncateFront]: the tail file is closed
    when the cut is in the tail segment, and the removal loop runs for the
    indices below [j] (the whole loop: [j = segIdx + 1]). *)
Definition truncateFront_removals (segIdx : Z) (l : Log) (j : Z) : M unit :=
  exec when (segIdx =? tail_index l) sfile_Close then
  remove_segments (zrange 0 j).

(** The end of the clean-up of [truncateFront], after the removal loop. *)
Definition truncateFront_finish (index segIdx : Z) (si : nat) (l : Log)
    (buf : list byte) : M unit :=
  let startName := str_app (segmentName index) startSuffix in
  let is_tail := segIdx =? tail_index l in
  let newName := segmentName index in
  exec fs_Rename startName newName then
  exec set_seg_at (Z.of_nat si) (fun s => set_offset index (set_path newName s)) then
  exec when is_tail
         (exec assign_sfile (openFile newName) then
          let* n := sfile_SeekEnd in
          if negb (n =? len buf) then fail ErrInvalidSeek
          else loadSegmentEntries si) then
  let* l := get_log in
  let* _ := slice (segments l) segIdx (len (segments l)) in
  exec clearCache then
  modify_log (fun l =>
    set_firstOffset index
      (set_segments (drop (Z.to_nat segIdx) (segments l)) l)).

(** The rest of [truncateFront]: the clean-up under the deferred
    [recover]. *)
Definition truncateFront_cleanup (index : Z) (x : Z * nat * Log * list byte)
    : M unit :=
  let '(segIdx, si, l, buf) := x in
  with_recover (
    exec truncateFront_removals segIdx l (segIdx + 1) then
    truncateFront_finish index segIdx si l buf).

(** ** The commit point of a back truncation *)

(** Where [truncateBack] stands after its first part. *)
Inductive back_commit :=
  (* the whole log goes: [truncateBackAll] takes over *)
| BackAll (first : Z)
  (* [index] is the last offset: nothing to do *)
| BackNothing
  (* the [END] marker is in place *)
| BackCut (segIdx : Z) (si : nat) (l : Log) (s : segment) (buf : list byte).

(** [truncateBack] up to and including the rename of [TEMP] to the [END]
    marker, the commit point.  [BackCut] carries what the rest of the
    function uses: [segIdx], the index of the loaded segment, the log as
    read after [loadSegment], the segment and the bytes that survive. *)
Definition truncateBack_commit (ecap : Z) (index : Z) : M back_commit :=
  let* l := get_log in
  if index =? wrap64 (firstOffset l - 1) then ret (BackAll (firstOffset l))
  else if (index <? firstOffset l) || (lastOffset l <? index) then fail ErrOutOfRange
  else if index =? lastOffset l then ret BackNothing
  else
    let segIdx := findSegment l index in
    let* si := loadSegment index in
    let* l := get_log in
    let* s := index_of (segments l) (Z.of_nat si) in
    let* ep := reslice (Bpos 0 0) ecap (epos s)
                 (wrap64 (wrap64 (index - offset s) + 1)) in
    let* epl := index_of ep (len ep - 1) in
    let* buf := slice (ebuf s) 0 (Z.of_nat (end_ epl)) in
    exec write_temp buf then
    let endName := str_app (segmentName (offset s)) endSuffix in
    exec fs_Rename tempFileName endName then
    ret (BackCut segIdx si l s buf).

(** The start of the clean-up of [truncateBack]: the tail file is closed
    and the removal loop runs for the indices from [segIdx] up to, not
    including, [hi] (the whole loop: [hi = len(l.segments)]). *)
Definition truncateBack_removals (segIdx hi : Z) : M unit :=
  exec sfile_Close then
  remove_segments (zrange segIdx hi).

(** The end of the clean-up of [truncateBack], after the removal loop. *)
Definition truncateBack_finish (index segIdx : Z) (si : nat) (s : segment)
    (buf : list byte) : M unit :=
  let endName := str_app (segmentName (offset s)) endSuffix in
  let newName := segmentName (offset s) in
  exec fs_Rename endName newName then
  exec assign_sfile (openFile newName) then
  let* n := sfile_SeekEnd in
  if negb (n =? len buf) then fail ErrInvalidSeek
  else
    exec set_seg_at (Z.of_nat si) (set_path newName) then
    let* l := get_log in
    let* _ := slice (segments l) 0 (segIdx + 1) in
    exec clearCache then
    exec modify_log (fun l =>
           set_lastOffset index
             (set_segments (take (Z.to_nat (segIdx + 1)) (segments l)) l)) then
    let* l := get_log in
    match segments l !! si with
    | Some _ => loadSegmentEntries si
    | None =>
        let* data := fs_ReadFile newName in
        match parse_frames data with
        | inl e => fail e
        | inr _ => ret tt
        end
    end.

(** The rest of [truncateBack]: the clean-up under the deferred
    [recover]. *)
Definition truncateBack_cleanup (index segIdx : Z) (si : nat) (l : Log)
    (s : segment) (buf : list byte) : M unit :=
  with_recover (
    exec truncateBack_removals segIdx (len (segments l)) then
    truncateBack_finish index segIdx si s buf).

(** The end of [load], after the markers were dealt with: the first
    offset, the tail file and the entries of the tail segment. *)
Definition load_finish : M unit :=
  let* l := get_log in
  let* s0 := index_of (segments l) 0 in
  exec modify_log (set_firstOffset (offset s0)) then
  let last_i := len (segments l) - 1 in
  let* lseg := index_of (segments l) last_i in
  exec assign_sfile (openFile (path lseg)) then
  let* _ := sfile_SeekEnd in
  exec loadSegmentEntries (Z.to_nat last_i) then
  let* l := get_log in
  let* lseg := index_of (segments l) last_i in
  modify_log (set_lastOffset (wrap64 (wrap64 (offset lseg + len (epos lseg)) - 1))).

(** The state of a freshly opened log whose segments hold [c]. *)
Definition a_of (o : Options) (c : list (Z * list (list byte))) : astate :=
  MkAState o false
    (map (fun p => MkASeg (fst p) (snd p) false) (removelast c))
    (match last c with Some p => fst p | None => 0 end)
    (match last c with Some p => snd p | None => [] end)
    [].

(** The segment files of a log whose segments hold [c]. *)
Definition files (c : list (Z * list (list byte))) : list (string * list byte) :=
  map (fun p => (segmentName (fst p), encode_all (snd p))) c.

(** The log whose first write was at offset 5 and second at offset 6, when
    [truncateFront(6)] has just renamed [TEMP] to the [START] marker. *)
Definition front_commit_world : World :=
  world_of (truncateFront_commit 6 late_start_world).

(** Two entries at offsets 0 and 1, when [truncateBack(0)] has just renamed
    [TEMP] to the [END] marker. *)
Definition back_commit_world : World :=
  world_of (truncateBack_commit 2 0 two_entry_world).

(** Two entries at offsets 0 and 1, when [truncateFront(1)] has put the
    [START] marker in place. *)
Definition front_marked_world : World :=
  world_of (truncateFront_commit 1 two_entry_world).

(** The same log when the removal loop has then removed the file of its
    only segment. *)
Definition front_removed_world : World :=
  world_of (truncateFront_removals 0 (lg front_marked_world) 1
              front_marked_world).

(** Two entries at offsets 0 and 1, when [truncateBack(0)] has put the
    [END] marker in place and its removal loop has then removed the file
    of the only segment. *)
Definition back_removed_world : World :=
  world_of (truncateBack_removals 0 1 back_commit_world).

(** * Properties *)

(** ** The monad *)

Lemma bind_ok {A B} (m : M A) (k : A -> M B) w a w' :
  m w = Ok a w' -> bind m k w = k a w'.
Proof. unfold bind. intros ->. reflexivity. Qed.

Lemma bind_err {A B} (m : M A) (k : A -> M B) w e w' :
  m w = Err e w' -> bind m k w = Err e w'.
Proof. unfold bind. intros ->. reflexivity. Qed.

Lemma bind_panic {A B} (m : M A) (k : A -> M B) w w' :
  m w = Panic w' -> bind m k w = Panic w'.
Proof. unfold bind. intros ->. reflexivity. Qed.

Lemma guard_ok w :
  closed (lg w) = false -> corrupt (lg w) = false -> guard w = Ok tt w.
Proof.
  intros Hc Hk. unfold guard, bind, get_log. rewrite Hk, Hc. reflexivity.
Qed.

Lemma world_eta w : MkWorld (lg w) (disk w) = w.
Proof. destruct w; reflexivity. Qed.

Lemma with_recover_ok {A} (m : M A) w a w' :
  m w = Ok a w' -> with_recover m w = Ok a w'.
Proof. unfold with_recover. intros ->. reflexivity. Qed.

(** An error that the protected part of a truncation returns (as opposed to
    a panic) goes to the caller as it is: the deferred function only acts on
    [recover() != nil]. *)
Lemma with_recover_err {A} (m : M A) w e w' :
  m w = Err e w' -> with_recover m w = Err e w'.
Proof. unfold with_recover. intros ->. reflexivity. Qed.

Lemma with_recover_panic {A} (m : M A) w w' :
  m w = Panic w' ->
  with_recover m w = Err ErrCorrupt (MkWorld (set_corrupt true (lg w')) (disk w')).
Proof. unfold with_recover. intros ->. reflexivity. Qed.

(** ** Errors that a method can return *)

Lemma no_nf_ret {A} (a : A) : no_nf (ret a).
Proof. intros w e w' H. discriminate. Qed.

Lemma no_nf_panic {A} : no_nf (@panic A).
Proof. intros w e w' H. discriminate. Qed.

Lemma no_nf_fail {A} e : e <> ErrNotFound -> no_nf (@fail A e).
Proof. intros Hne w e' w' H. inversion H; subst. exact Hne. Qed.

Lemma no_nf_bind {A B} (m : M A) (k : A -> M B) :
  no_nf m -> (forall a, no_nf (k a)) -> no_nf (bind m k).
Proof.
  intros Hm Hk w e w' H. unfold bind in H.
  destruct (m w) as [a w1|e1 w1|w1] eqn:E.
  - eapply Hk; eauto.
  - inversion H; subst. eapply Hm; eauto.
  - discriminate.
Qed.

Lemma no_nf_get_log : no_nf get_log.
Proof. intros w e w' H. discriminate. Qed.

Lemma no_nf_get_disk : no_nf get_disk.
Proof. intros w e w' H. discriminate. Qed.

Lemma no_nf_modify_log f : no_nf (modify_log f).
Proof. intros w e w' H. discriminate. Qed.

Lemma no_nf_modify_disk f : no_nf (modify_disk f).
Proof. intros w e w' H. discriminate. Qed.

Lemma no_nf_index_of {A} (l : list A) i : no_nf (index_of l i).
Proof.
  unfold index_of. destruct (0 <=? i); [|apply no_nf_panic].
  destruct (l !! Z.to_nat i); [apply no_nf_ret | apply no_nf_panic].
Qed.

Lemma no_nf_slice {A} (l : list A) lo hi : no_nf (slice l lo hi).
Proof.
  unfold slice. destruct (_ && _); [apply no_nf_ret | apply no_nf_panic].
Qed.

Lemma no_nf_when {A} b (m : M A) : no_nf m -> no_nf (when b m).
Proof.
  intros H. unfold when. destruct b; [|apply no_nf_ret].
  apply no_nf_bind; [exact H | intros; apply no_nf_ret].
Qed.

Create HintDb nonf.
#[export] Hint Resolve no_nf_ret no_nf_panic no_nf_get_log no_nf_get_disk
  no_nf_modify_log no_nf_modify_disk no_nf_index_of no_nf_slice no_nf_when
  : nonf.

Ltac nonf :=
  repeat first
    [ apply no_nf_bind; [| intros ?]
    | apply no_nf_fail; discriminate
    | solve [auto with nonf] ].

Lemma loadNextEntry_err data e : loadNextEntry data = inl e -> e = ErrCorrupt.
Proof.
  unfold loadNextEntry. destruct (Codec.Uvarint data) as [size n].
  destruct (n <=? 0); [congruence|].
  destruct (_ <? size); congruence.
Qed.

Lemma load_frames_err fuel : forall data p e,
  load_frames fuel data p = inl e -> e = ErrCorrupt.
Proof.
  induction fuel as [|fuel IH]; intros data p e H; destruct data as [|b data];
    simpl in H; try congruence.
  destruct (loadNextEntry (b :: data)) as [e1|n] eqn:E.
  - apply loadNextEntry_err in E. congruence.
  - destruct (load_frames fuel _ _) as [e2|l] eqn:E2; [|congruence].
    apply IH in E2. congruence.
Qed.

Lemma parse_frames_err data e : parse_frames data = inl e -> e = ErrCorrupt.
Proof. apply load_frames_err. Qed.

Lemma no_nf_fs_ReadFile name : no_nf (fs_ReadFile name).
Proof.
  unfold fs_ReadFile. apply no_nf_bind; [auto with nonf|]. intros fs.
  destruct (fs !! name); nonf.
Qed.

Lemma no_nf_loadSegmentEntries i : no_nf (loadSegmentEntries i).
Proof.
  unfold loadSegmentEntries. apply no_nf_bind; [auto with nonf|]. intros l.
  destruct (segments l !! i); [|nonf].
  apply no_nf_bind; [apply no_nf_fs_ReadFile|]. intros data.
  destruct (parse_frames data) eqn:E; [|nonf].
  apply parse_frames_err in E. subst. nonf.
Qed.

Lemma no_nf_pushCache i : no_nf (pushCache i).
Proof.
  unfold pushCache. apply no_nf_bind; [auto with nonf|]. intros l.
  apply no_nf_bind; [auto with nonf|]. intros _.
  destruct (lru_set _ _ _). nonf.
Qed.

Lemma no_nf_loadSegment index : no_nf (loadSegment index).
Proof.
  unfold loadSegment. apply no_nf_bind; [auto with nonf|]. intros l.
  apply no_nf_bind; [auto with nonf|]. intros lseg.
  destruct (offset lseg <=? index); [nonf|].
  destruct (cache_hit l index); [nonf|].
  apply no_nf_bind; [auto with nonf|]. intros s.
  apply no_nf_bind.
  { apply no_nf_when, no_nf_loadSegmentEntries. }
  intros _. apply no_nf_bind; [apply no_nf_pushCache|]. intros _. nonf.
Qed.

(** ** Running the primitives *)

Lemma bind_ret {A B} (a : A) (k : A -> M B) w : bind (ret a) k w = k a w.
Proof. reflexivity. Qed.

Lemma bind_get_log {B} (k : Log -> M B) w : bind get_log k w = k (lg w) w.
Proof. reflexivity. Qed.

Lemma bind_get_disk {B} (k : FS -> M B) w : bind get_disk k w = k (disk w) w.
Proof. reflexivity. Qed.

Lemma bind_modify_log {B} f (k : unit -> M B) w :
  bind (modify_log f) k w = k tt (MkWorld (f (lg w)) (disk w)).
Proof. reflexivity. Qed.

Lemma bind_modify_disk {B} f (k : unit -> M B) w :
  bind (modify_disk f) k w = k tt (MkWorld (lg w) (f (disk w))).
Proof. reflexivity. Qed.

Lemma bind_fail {A B} e (k : A -> M B) w : bind (fail e) k w = Err e w.
Proof. reflexivity. Qed.

Lemma bind_panic_l {A B} (k : A -> M B) w : bind panic k w = Panic w.
Proof. reflexivity. Qed.

Lemma bind_assoc {A B C} (m : M A) (k : A -> M B) (h : B -> M C) w :
  bind (bind m k) h w = bind m (fun a => bind (k a) h) w.
Proof. unfold bind. destruct (m w); reflexivity. Qed.

Lemma index_of_Some {A} (l : list A) (i : nat) x w :
  l !! i = Some x -> index_of l (Z.of_nat i) w = Ok x w.
Proof.
  intros H. unfold index_of.
  destruct (Z.leb_spec 0 (Z.of_nat i)); [|lia].
  rewrite Nat2Z.id, H. reflexivity.
Qed.

Lemma index_of_Z {A} (l : list A) (i : Z) x w :
  0 <= i -> l !! Z.to_nat i = Some x -> index_of l i w = Ok x w.
Proof.
  intros Hi H. unfold index_of.
  destruct (Z.leb_spec 0 i); [|lia]. rewrite H. reflexivity.
Qed.

Lemma index_of_Ok_inv {A} (l : list A) i x w w' :
  index_of l i w = Ok x w' -> 0 <= i /\ l !! Z.to_nat i = Some x /\ w' = w.
Proof.
  unfold index_of. destruct (Z.leb_spec 0 i) as [Hi|Hi]; [|discriminate].
  destruct (l !! Z.to_nat i) eqn:E; [|discriminate].
  unfold ret. intros HH. inversion HH; subst. auto.
Qed.

Lemma index_of_not_Err {A} (l : list A) i e w w' : index_of l i w <> Err e w'.
Proof.
  unfold index_of. destruct (0 <=? i); [|discriminate].
  destruct (l !! Z.to_nat i); discriminate.
Qed.

Lemma index_of_tail {A} (pre : list A) (x : A) w :
  index_of (pre ++ [x]) (len (pre ++ [x]) - 1) w = Ok x w.
Proof.
  apply index_of_Z.
  - unfold len. rewrite length_app. simpl. lia.
  - unfold len. rewrite length_app. simpl.
    replace (Z.to_nat (Z.of_nat (length pre + 1) - 1)) with (length pre) by lia.
    rewrite lookup_app_r by lia. rewrite Nat.sub_diag. reflexivity.
Qed.

Lemma index_of_nil {A} i w : index_of (@nil A) i w = Panic w.
Proof. unfold index_of. destruct (0 <=? i); reflexivity. Qed.

Lemma slice_ok {A} (l : list A) lo hi w :
  0 <= lo <= hi -> hi <= len l ->
  slice l lo hi w = Ok (take (Z.to_nat (hi - lo)) (drop (Z.to_nat lo) l)) w.
Proof.
  intros H1 H2. unfold slice, len in *.
  destruct (Z.leb_spec 0 lo); [|lia].
  destruct (Z.leb_spec lo hi); [|lia].
  destruct (Z.leb_spec hi (Z.of_nat (length l))); [|lia].
  reflexivity.
Qed.

Lemma slice_Ok_inv {A} (l : list A) lo hi r w w' :
  slice l lo hi w = Ok r w' ->
  0 <= lo <= hi /\ hi <= len l /\
  r = take (Z.to_nat (hi - lo)) (drop (Z.to_nat lo) l) /\ w' = w.
Proof.
  unfold slice, len.
  destruct (Z.leb_spec 0 lo) as [H1|H1]; [|discriminate].
  destruct (Z.leb_spec lo hi) as [H2|H2]; [|discriminate].
  destruct (Z.leb_spec hi (Z.of_nat (length l))) as [H3|H3]; [|discriminate].
  simpl. unfold ret. intros HH. inversion HH; subst. repeat split; auto.
Qed.

Lemma when_true {A} (m : M A) : when true m = bind m (fun _ => ret tt).
Proof. reflexivity. Qed.

Lemma when_false {A} (m : M A) : when false m = ret tt.
Proof. reflexivity. Qed.

Lemma bind_ret_tt (m : M unit) w : bind m (fun _ => ret tt) w = m w.
Proof. unfold bind. destruct (m w) as [[] ?| |]; reflexivity. Qed.

Lemma ret_eq {A} (a : A) w : ret a w = Ok a w.
Proof. reflexivity. Qed.

Lemma modify_log_eq f w : modify_log f w = Ok tt (MkWorld (f (lg w)) (disk w)).
Proof. reflexivity. Qed.

Lemma modify_disk_eq f w : modify_disk f w = Ok tt (MkWorld (lg w) (f (disk w))).
Proof. reflexivity. Qed.

(** Normalise a run: re-associate binds and run the state primitives. *)
Ltac msimp :=
  repeat first
    [ rewrite bind_assoc
    | rewrite bind_ret
    | rewrite bind_get_log
    | rewrite bind_get_disk
    | rewrite bind_modify_log
    | rewrite bind_modify_disk
    | rewrite when_true
    | rewrite when_false
    | rewrite ret_eq
    | rewrite modify_log_eq
    | rewrite modify_disk_eq ];
  cbn [lg disk].

(** Run the first call of a sequence with an equation for it. *)
Ltac mrun H := rewrite (bind_ok _ _ _ _ _ H); msimp.

(** ** Front truncation at the first offset (C4) *)

(** C4, as the code has it: on an open log that is not corrupt,
    [TruncateFront(first_index())] returns success when the log holds at
    least one entry and [ErrOutOfRange] when it is empty; in both cases the
    log and the directory are left exactly as they were, so [first_index],
    [last_index] and every [Read] are unchanged. *)
Theorem C4_truncate_front_at_first (w : World) :
  closed (lg w) = false -> corrupt (lg w) = false ->
  (firstOffset (lg w) <= lastOffset (lg w) ->
     TruncateFront (firstOffset (lg w)) w = Ok tt w) /\
  (lastOffset (lg w) < firstOffset (lg w) ->
     TruncateFront (firstOffset (lg w)) w = Err ErrOutOfRange w).
Proof.
  intros Hc Hk. unfold TruncateFront.
  rewrite (bind_ok _ _ _ _ _ (guard_ok w Hc Hk)).
  unfold truncateFront, bind, get_log. split; intros H.
  - rewrite Z.ltb_irrefl. simpl.
    destruct (Z.ltb_spec (lastOffset (lg w)) (firstOffset (lg w))); [lia|].
    rewrite Z.eqb_refl. reflexivity.
  - rewrite Z.ltb_irrefl. simpl.
    destruct (Z.ltb_spec (lastOffset (lg w)) (firstOffset (lg w))); [|lia].
    reflexivity.
Qed.

Lemma C4_truncate_front_at_first_witness :
  TruncateFront (firstOffset (lg one_entry_world)) one_entry_world
    = Ok tt one_entry_world /\
  TruncateFront (firstOffset (lg fresh_world)) fresh_world
    = Err ErrOutOfRange fresh_world.
Proof.
  split.
  - apply (C4_truncate_front_at_first one_entry_world); [reflexivity | reflexivity |].
    vm_compute. discriminate.
  - apply (C4_truncate_front_at_first fresh_world); [reflexivity | reflexivity |].
    vm_compute. reflexivity.
Defined.

(** C4 as stated fails on the empty log: a freshly opened log is open and
    not corrupt, yet [TruncateFront(first_index())] returns [ErrOutOfRange]
    instead of success. *)
Lemma C4_counterexample :
  closed (lg fresh_world) = false /\ corrupt (lg fresh_world) = false /\
  firstOffset (lg fresh_world) = 0 /\ lastOffset (lg fresh_world) = -1 /\
  TruncateFront (firstOffset (lg fresh_world)) fresh_world
    = Err ErrOutOfRange fresh_world.
Proof. vm_compute. repeat split; reflexivity. Qed.

(** ** Reads outside the bounds (C7) *)

Lemma Read_out_of_range w off :
  closed (lg w) = false -> corrupt (lg w) = false ->
  off < firstOffset (lg w) \/ lastOffset (lg w) < off ->
  Read off w = Err ErrNotFound w.
Proof.
  intros Hc Hk Hr. unfold Read.
  rewrite (bind_ok _ _ _ _ _ (guard_ok w Hc Hk)).
  unfold bind, get_log.
  destruct (Z.ltb_spec off (firstOffset (lg w)));
    destruct (Z.ltb_spec (lastOffset (lg w)) off); simpl; try reflexivity.
  lia.
Qed.

Lemma Read_in_range_not_NotFound w off e w' :
  closed (lg w) = false -> corrupt (lg w) = false ->
  firstOffset (lg w) <= off <= lastOffset (lg w) ->
  Read off w = Err e w' -> e <> ErrNotFound.
Proof.
  intros Hc Hk Hr. unfold Read.
  rewrite (bind_ok _ _ _ _ _ (guard_ok w Hc Hk)).
  unfold bind at 1, get_log.
  destruct (Z.ltb_spec off (firstOffset (lg w))) as [?|_]; [lia|].
  destruct (Z.ltb_spec (lastOffset (lg w)) off) as [?|_]; [lia|]. simpl.
  clear Hc Hk Hr. revert w e w'.
  match goal with |- forall w e w', ?m w = Err e w' -> _ => change (no_nf m) end.
  apply no_nf_bind; [apply no_nf_loadSegment|]. intros si.
  apply no_nf_bind; [auto with nonf|]. intros l.
  apply no_nf_bind; [auto with nonf|]. intros s.
  apply no_nf_bind; [auto with nonf|]. intros ep.
  apply no_nf_bind; [auto with nonf|]. intros edata.
  destruct (Codec.Uvarint edata) as [size n].
  destruct (n <=? 0); [nonf|].
  destruct (_ <? size); [nonf|].
  destruct (NoCopy (opts l)); nonf.
Qed.

Lemma open_empty_dir o :
  open o ∅ =
    Ok tt (MkWorld
             (MkLog (normalize o) false false
                [MkSegment (segmentName 0) 0 [] []] 0 (-1)
                (FOpen (segmentName 0) 0) [])
             (<[segmentName 0 := []]> ∅)).
Proof.
  unfold open, load, bind, fs_ReadDir, get_disk, ret. simpl.
  rewrite map_to_list_empty. reflexivity.
Qed.

Lemma Read_not_found_iff w off :
  closed (lg w) = false -> corrupt (lg w) = false ->
  (outcome_of (Read off w) = Failed ErrNotFound <->
   off < firstOffset (lg w) \/ lastOffset (lg w) < off).
Proof.
  intros Hc Hk. split.
  - intros H.
    destruct (Z.ltb_spec off (firstOffset (lg w))) as [?|H1]; [lia|].
    destruct (Z.ltb_spec (lastOffset (lg w)) off) as [?|H2]; [lia|].
    exfalso. destruct (Read off w) as [a w'|e w'|w'] eqn:E; simpl in H;
      try discriminate.
    inversion H; subst.
    eapply Read_in_range_not_NotFound; eauto.
  - intros H. rewrite (Read_out_of_range w off Hc Hk H). reflexivity.
Qed.

(** C7: on an open log that is not corrupt, [Read(offset)] returns
    [ErrNotFound] exactly when [offset < first_index()] or
    [offset > last_index()]; and opening an empty directory (with any
    options) gives [first_index() = 0], [last_index() = -1] and
    [Read(0) = ErrNotFound]. *)
Theorem C7_read_not_found :
  (forall w off,
     closed (lg w) = false -> corrupt (lg w) = false ->
     (outcome_of (Read off w) = Failed ErrNotFound <->
      off < firstOffset (lg w) \/ lastOffset (lg w) < off)) /\
  (forall o, exists w,
     open o ∅ = Ok tt w /\
     closed (lg w) = false /\ corrupt (lg w) = false /\
     FirstIndex w = Ok 0 w /\ LastIndex w = Ok (-1) w /\
     Read 0 w = Err ErrNotFound w).
Proof.
  split.
  - intros w off Hc Hk. split.
    + intros H.
      destruct (Z.ltb_spec off (firstOffset (lg w))) as [?|H1]; [lia|].
      destruct (Z.ltb_spec (lastOffset (lg w)) off) as [?|H2]; [lia|].
      exfalso. destruct (Read off w) as [a w'|e w'|w'] eqn:E; simpl in H;
        try discriminate.
      inversion H; subst.
      eapply Read_in_range_not_NotFound; eauto.
    + intros H. rewrite (Read_out_of_range w off Hc Hk H). reflexivity.
  - intros o. eexists. split; [apply open_empty_dir|].
    repeat split.
Qed.

Lemma C7_read_not_found_witness :
  (outcome_of (Read 1 one_entry_world) = Failed ErrNotFound <->
   1 < firstOffset (lg one_entry_world) \/ lastOffset (lg one_entry_world) < 1) /\
  (outcome_of (Read 0 one_entry_world) = Failed ErrNotFound <->
   0 < firstOffset (lg one_entry_world) \/ lastOffset (lg one_entry_world) < 0).
Proof.
  split; apply (proj1 C7_read_not_found one_entry_world); reflexivity.
Defined.

(** ** Emptying the log from the back (C3) *)

(** With [first_index() = last_index()] the call [TruncateBack(first - 1)]
    reaches [truncateBackAll(first)], whose first test
    [newFirstIndex == l.lastOffset] holds: it returns success and changes
    nothing. *)
Lemma truncateBack_single_entry_noop ecap w :
  closed (lg w) = false -> corrupt (lg w) = false ->
  firstOffset (lg w) = lastOffset (lg w) ->
  TruncateBack ecap (wrap64 (firstOffset (lg w) - 1)) w = Ok tt w.
Proof.
  intros Hc Hk Heq. unfold TruncateBack.
  rewrite (bind_ok _ _ _ _ _ (guard_ok w Hc Hk)).
  unfold truncateBack, bind, get_log. rewrite Z.eqb_refl.
  unfold truncateBackAll, bind, get_log. rewrite Heq, Z.eqb_refl. reflexivity.
Qed.

(** C3 at its failing inputs.  A log holding exactly one entry (offset 0):
    [TruncateBack(first_index() - 1)] returns success and leaves the log as
    it was, so [last_index()] is still 0 and [Read(0)] still returns the
    entry.  A log holding two entries: the same call fails with the
    file-system error of opening the [.TRUNCATE] file, which nothing has
    created, and the log again keeps its entries.  The capacity [ecap] of
    the positions slice plays no part on this path. *)
Theorem C3_truncate_back_to_empty_fails (ecap : Z) :
  (closed (lg one_entry_world) = false /\ corrupt (lg one_entry_world) = false /\
   firstOffset (lg one_entry_world) = 0 /\ lastOffset (lg one_entry_world) = 0 /\
   TruncateBack ecap (firstOffset (lg one_entry_world) - 1) one_entry_world
     = Ok tt one_entry_world /\
   outcome_of (Read 0 one_entry_world) = Returned (bytes_of "a")) /\
  (firstOffset (lg two_entry_world) = 0 /\ lastOffset (lg two_entry_world) = 1 /\
   TruncateBack ecap (firstOffset (lg two_entry_world) - 1) two_entry_world
     = Err (ErrIO ENoEnt) two_entry_world /\
   outcome_of (Read 1 two_entry_world) = Returned (bytes_of "b")).
Proof. vm_compute. repeat split; reflexivity. Qed.


(** ** Errors after the commit rename (C5) *)

(** C5 at its failing input.  The log was opened empty and its first write
    went to offset 5, so [cycle] deleted the file of the initial segment but
    left that segment in [l.segments].  [TruncateFront(6)] renames [TEMP] to
    the [.START] marker (the commit), then fails to delete the file of the
    initial segment: the file-system error is returned as it is, the log is
    not marked corrupt, and the next [Read] returns data instead of
    [ErrCorrupt]. *)
Theorem C5_error_after_commit_not_corrupt :
  closed (lg late_start_world) = false /\
  corrupt (lg late_start_world) = false /\
  firstOffset (lg late_start_world) = 5 /\
  lastOffset (lg late_start_world) = 6 /\
  let r := TruncateFront 6 late_start_world in
  outcome_of r = Failed (ErrIO ENoEnt) /\
  is_Some (disk (world_of r) !! str_app (segmentName 6) startSuffix) /\
  disk (world_of r) !! tempFileName = None /\
  corrupt (lg (world_of r)) = false /\
  closed (lg (world_of r)) = false /\
  outcome_of (Read 6 (world_of r)) = Returned (bytes_of "b") /\
  outcome_of (LastIndex (world_of r)) = Returned 6.
Proof. vm_compute. repeat split; try reflexivity. eexists; reflexivity. Qed.

(** ** Reads between segments (C10) *)

(** C10 at its failing input.  After [Write(0, "a")] and [Write(5, "bb")]
    the log has [first_index() = 0] and [last_index() = 5], with one segment
    at base offset 0 holding one entry and the tail at base offset 5.
    [Read(3)] passes the bounds test, [loadSegment] returns the segment at
    base offset 0, and [s.epos[3]] is an index into a slice of length 1: the
    run-time panic. *)
Theorem C10_read_between_segments_panics :
  closed (lg jump_world) = false /\ corrupt (lg jump_world) = false /\
  firstOffset (lg jump_world) = 0 /\ lastOffset (lg jump_world) = 5 /\
  map (fun s => (offset s, length (epos s))) (segments (lg jump_world))
    = [(0, 1%nat); (5, 1%nat)] /\
  outcome_of (Read 3 jump_world) = Panicked /\
  outcome_of (Read 0 jump_world) = Returned (bytes_of "a") /\
  outcome_of (Read 5 jump_world) = Returned (bytes_of "bb").
Proof. vm_compute. repeat split; reflexivity. Qed.

(** ** A batch that leaves an offset out *)

(** C1 at its failing input.  A batch whose offsets are strictly increasing
    but not consecutive is stored by position: [WriteBatch [(0, "a"); (2, "b")]]
    returns normally on a freshly opened log and sets [last_index() = 2],
    but the second entry sits at position 1 of the segment: [Read(2)]
    indexes the positions slice (of length 2) at 2 and panics, and
    [Read(1)], an offset that was never written, returns ["b"]. *)
Theorem C1_gap_batch_misread :
  map be_offset (entries gap_batch) = [0; 2] /\
  closed (lg fresh_world) = false /\ corrupt (lg fresh_world) = false /\
  outcome_of (WriteBatch gap_batch fresh_world) = Returned tt /\
  outcome_of (LastIndex gap_world) = Returned 2 /\
  outcome_of (Read 0 gap_world) = Returned (bytes_of "a") /\
  outcome_of (Read 2 gap_world) = Panicked /\
  outcome_of (Read 1 gap_world) = Returned (bytes_of "b").
Proof. vm_compute. repeat split; reflexivity. Qed.

(** C2 at its failing input.  The same log, reached by one append that
    returned normally, changes when it is closed and opened again:
    [first_index()] is 0 and [last_index()] is 2 before [Close]; after the
    directory is opened again [last_index()] is 1 (the tail segment holds
    two entries from base offset 0), [Read(1)] still returns ["b"], and
    [Read(2)], in the range of the log before [Close], returns
    [ErrNotFound]. *)
Theorem C2_gap_batch_reopen_differs :
  map be_offset (entries gap_batch) = [0; 2] /\
  outcome_of (WriteBatch gap_batch fresh_world) = Returned tt /\
  outcome_of (FirstIndex gap_world) = Returned 0 /\
  outcome_of (LastIndex gap_world) = Returned 2 /\
  outcome_of (reopen DefaultOptions gap_world) = Returned tt /\
  outcome_of (FirstIndex (world_of (reopen DefaultOptions gap_world)))
    = Returned 0 /\
  outcome_of (LastIndex (world_of (reopen DefaultOptions gap_world)))
    = Returned 1 /\
  outcome_of (Read 1 (world_of (reopen DefaultOptions gap_world)))
    = Returned (bytes_of "b") /\
  outcome_of (Read 2 gap_world) = Panicked /\
  outcome_of (Read 2 (world_of (reopen DefaultOptions gap_world)))
    = Failed ErrNotFound.
Proof. vm_compute. repeat split; reflexivity. Qed.

(** ** A first write that jumps *)

(** C8 at its failing input.  A freshly opened log has the initial segment
    at offset 0 as its only segment.  [Write(5, "a")] returns normally and
    sets [first_index() = 5] and [last_index() = 5]; [cycle] removes the
    file of the initial segment and appends the segment at base offset 5,
    but the initial segment stays in [l.segments], at index 0: the list
    holds the segments at offsets 0 and 5, the first of them without a
    file, and the base offset of [l.segments[0]] is not [first_index()]. *)
Theorem C8_initial_segment_stays :
  closed (lg fresh_world) = false /\ corrupt (lg fresh_world) = false /\
  map (fun s => (path s, offset s)) (segments (lg fresh_world))
    = [(segmentName 0, 0)] /\
  is_Some (disk fresh_world !! segmentName 0) /\
  Write 5 (bytes_of "a") fresh_world = Ok tt first_jump_world /\
  FirstIndex first_jump_world = Ok 5 first_jump_world /\
  LastIndex first_jump_world = Ok 5 first_jump_world /\
  map (fun s => (path s, offset s)) (segments (lg first_jump_world))
    = [(segmentName 0, 0); (segmentName 5, 5)] /\
  disk first_jump_world !! segmentName 0 = None /\
  is_Some (disk first_jump_world !! segmentName 5).
Proof.
  vm_compute. repeat split; try reflexivity; eexists; reflexivity.
Qed.

(** ** The marker checks of [load] (C6) *)

Lemma has_marker_exclusive name s1 s2 :
  String.length s1 <> String.length s2 ->
  has_marker name s1 = true -> has_marker name s2 = false.
Proof.
  unfold has_marker. intros Hne H.
  apply andb_true_iff in H as [H _]. apply Nat.eqb_eq in H.
  apply andb_false_iff. left. apply Nat.eqb_neq. lia.
Qed.

Lemma len_not_minus1 {A} (l : list A) : (len l =? -1) = false.
Proof.
  unfold len. destruct (Z.eqb_spec (Z.of_nat (length l)) (-1)); [lia|reflexivity].
Qed.

Lemma app_not_nil {A} (l : list A) x : l ++ [x] <> [].
Proof. destruct l; discriminate. Qed.

Ltac scan_fin := try solve [
  unfold seenS, seenE, seenT; cbn [startIdx endIdx truncateIdx sc_segments];
  rewrite ?len_not_minus1;
  repeat match goal with
         | |- context [?x =? -1] => destruct (x =? -1)
         end;
  cbn; repeat split; auto; try discriminate; intros; try apply app_not_nil;
  auto ];
  match goal with |- ?G => fail 1 "scan_fin:" G | _ => idtac end.

(** One round of the scan in terms of the kind of the entry. *)
Lemma scan_entry_spec st fi :
  match scan_entry st fi with
  | inl e =>
      e = ErrCorrupt /\ is_marker truncateSuffix fi = true /\ seenT st = true
  | inr st' =>
      seenS st' = seenS st || is_marker startSuffix fi /\
      seenE st' = seenE st || is_marker endSuffix fi /\
      seenT st' = seenT st || is_marker truncateSuffix fi /\
      (is_marker truncateSuffix fi = true -> seenT st = false) /\
      ((seenS st || seenE st || seenT st = true -> sc_segments st <> []) ->
       seenS st' || seenE st' || seenT st' = true -> sc_segments st' <> [])
  end.
Proof.
  unfold scan_entry, is_marker, recognized.
  destruct (d_isDir fi); cbn [negb andb orb]; [scan_fin|].
  destruct (Nat.ltb_spec (String.length (d_name fi)) segmentFilenameLength) as [Hl|Hl].
  { destruct (Nat.leb_spec segmentFilenameLength (String.length (d_name fi)));
      [lia|]. cbn [negb andb orb]. scan_fin. }
  destruct (Nat.leb_spec segmentFilenameLength (String.length (d_name fi))); [|lia].
  cbn [negb andb orb].
  destruct (ParseInt _) as [index|]; [|scan_fin].
  destruct (index =? -1); cbn [negb andb orb]; [scan_fin|].
  destruct (has_marker (d_name fi) startSuffix) eqn:ES.
  { assert (has_marker (d_name fi) endSuffix = false) as ->
      by (eapply has_marker_exclusive; [|exact ES]; simpl; lia).
    assert (has_marker (d_name fi) truncateSuffix = false) as ->
      by (eapply has_marker_exclusive; [|exact ES]; simpl; lia).
    rewrite orb_true_r. cbn [negb andb orb]. scan_fin. }
  destruct (has_marker (d_name fi) endSuffix) eqn:EE.
  { assert (has_marker (d_name fi) truncateSuffix = false) as ->
      by (eapply has_marker_exclusive; [|exact EE]; simpl; lia).
    rewrite !orb_true_r. cbn [negb andb orb].
    destruct (endIdx st =? -1) eqn:E1; cbn [negb andb orb].
    - scan_fin.
    - unfold seenE at 1 3. cbn [endIdx]. rewrite E1. scan_fin. }
  destruct (has_marker (d_name fi) truncateSuffix) eqn:ET.
  { rewrite !orb_true_r. cbn [negb andb orb].
    destruct (truncateIdx st =? -1) eqn:E1; cbn [negb andb orb].
    - unfold seenT at 2 3. rewrite E1. scan_fin.
    - unfold seenT. rewrite E1. auto. }
  rewrite !orb_false_r.
  destruct (String.length (d_name fi) =? segmentFilenameLength)%nat;
    cbn [negb andb orb]; scan_fin.
Qed.

Lemma count_markers_cons suffix fi fis :
  count_markers suffix (fi :: fis)
  = (b2n (is_marker suffix fi) + count_markers suffix fis)%nat.
Proof.
  unfold count_markers. simpl. destruct (is_marker suffix fi); reflexivity.
Qed.

(** The scan loop: it fails exactly when it meets a second [.TRUNCATE]
    marker, and otherwise records which kinds of marker it has met. *)
Lemma scan_spec fis : forall st,
  seen_nonempty st ->
  match scan st fis with
  | inl e =>
      e = ErrCorrupt /\
      (2 <= b2n (seenT st) + count_markers truncateSuffix fis)%nat
  | inr st' =>
      seenS st' = seenS st || (0 <? count_markers startSuffix fis)%nat /\
      seenE st' = seenE st || (0 <? count_markers endSuffix fis)%nat /\
      seenT st' = seenT st || (0 <? count_markers truncateSuffix fis)%nat /\
      (b2n (seenT st) + count_markers truncateSuffix fis <= 1)%nat /\
      seen_nonempty st'
  end.
Proof.
  induction fis as [|fi fis IH]; intros st Hne.
  - simpl. unfold count_markers. simpl. rewrite !orb_false_r.
    repeat split; auto. destruct (seenT st); simpl; lia.
  - simpl. pose proof (scan_entry_spec st fi) as Hs.
    rewrite !count_markers_cons.
    destruct (scan_entry st fi) as [e|st1].
    + destruct Hs as (-> & HT & HsT). split; [reflexivity|].
      rewrite HT, HsT. simpl. lia.
    + destruct Hs as (HS & HE & HT & HT1 & Hne1).
      specialize (IH st1 (Hne1 Hne)).
      destruct (scan st1 fis) as [e|st2].
      * destruct IH as (-> & IH). split; [reflexivity|].
        rewrite HT in IH.
        destruct (is_marker truncateSuffix fi); simpl.
        -- rewrite HT1 in IH by reflexivity. simpl in IH. lia.
        -- rewrite orb_false_r in IH. lia.
      * destruct IH as (IS & IE & IT & IT1 & Hne2).
        rewrite IS, IE, IT, HS, HE, HT. rewrite HT in IT1.
        repeat split; auto.
        -- rewrite <- orb_assoc. f_equal.
           destruct (is_marker startSuffix fi); simpl; [reflexivity|].
           reflexivity.
        -- rewrite <- orb_assoc. f_equal.
           destruct (is_marker endSuffix fi); simpl; reflexivity.
        -- rewrite <- orb_assoc. f_equal.
           destruct (is_marker truncateSuffix fi); simpl; reflexivity.
        -- destruct (is_marker truncateSuffix fi); simpl.
           ++ rewrite HT1 by reflexivity. rewrite orb_true_r in IT1.
              simpl in IT1. simpl. lia.
           ++ rewrite orb_false_r in IT1. lia.
Qed.

Lemma seen_nonempty_init : seen_nonempty scan_init.
Proof. intros H. discriminate. Qed.

Lemma ltb0_true n : (0 <? n)%nat = true <-> (0 < n)%nat.
Proof. apply Nat.ltb_lt. Qed.

Lemma marker_check_fails_iff fis :
  marker_check_fails fis = true <->
  (2 <= count_markers truncateSuffix fis)%nat
  \/ (0 < count_markers startSuffix fis /\ 0 < count_markers endSuffix fis)%nat
  \/ (0 < count_markers startSuffix fis /\ 0 < count_markers truncateSuffix fis)%nat
  \/ (0 < count_markers truncateSuffix fis /\ 0 < count_markers endSuffix fis)%nat.
Proof.
  unfold marker_check_fails.
  pose proof (scan_spec fis scan_init seen_nonempty_init) as H.
  destruct (scan scan_init fis) as [e|st].
  - destruct H as (_ & H). simpl in H. split; auto.
  - destruct H as (HS & HE & HT & H1 & _). simpl in H1, HS, HE, HT.
    unfold markers_clash. fold (seenS st) (seenE st) (seenT st).
    rewrite HS, HE, HT.
    rewrite !orb_true_iff, !andb_true_iff, !ltb0_true. split.
    + intros [[H|H]|H]; auto.
    + intros [H|[H|[H|H]]]; auto. lia.
Qed.

Lemma fs_ReadDir_eq w : fs_ReadDir w = Ok (listing (disk w)) w.
Proof. reflexivity. Qed.

Lemma open_marker_check_fails o fs :
  marker_check_fails (listing fs) = true ->
  exists w, open o fs = Err ErrCorrupt w.
Proof.
  unfold marker_check_fails, open, load.
  rewrite (bind_ok _ _ _ _ _ (fs_ReadDir_eq _)). cbn [disk].
  pose proof (scan_spec (listing fs) scan_init seen_nonempty_init) as H.
  destruct (scan scan_init (listing fs)) as [e|st].
  - destruct H as (-> & _). intros _. eexists. reflexivity.
  - destruct H as (_ & _ & _ & _ & Hne). intros Hc.
    unfold bind at 1. unfold modify_log at 1. cbn [lg disk].
    assert (sc_segments st <> []) as Hseg.
    { apply Hne. unfold markers_clash in Hc.
      fold (seenS st) (seenE st) (seenT st) in Hc.
      destruct (seenS st), (seenE st), (seenT st); simpl in *; auto; discriminate. }
    destruct (Z.eqb_spec (len (sc_segments st)) 0) as [E|_].
    { unfold len in E. destruct (sc_segments st); [congruence|simpl in E; lia]. }
    rewrite Hc. eexists. reflexivity.
Qed.

(** C6, as the code has it: the marker checks of [load] answer [ErrCorrupt]
    exactly when the listing holds two [.TRUNCATE] markers or markers of two
    different kinds (a [.START] and an [.END], a [.START] and a
    [.TRUNCATE], a [.TRUNCATE] and an [.END]); when they do, opening the
    directory fails with [ErrCorrupt]. *)
Theorem C6_marker_checks :
  (forall fis,
     marker_check_fails fis = true <->
     (2 <= count_markers truncateSuffix fis)%nat
     \/ (0 < count_markers startSuffix fis /\ 0 < count_markers endSuffix fis)%nat
     \/ (0 < count_markers startSuffix fis
         /\ 0 < count_markers truncateSuffix fis)%nat
     \/ (0 < count_markers truncateSuffix fis
         /\ 0 < count_markers endSuffix fis)%nat) /\
  (forall o fs,
     marker_check_fails (listing fs) = true ->
     exists w, open o fs = Err ErrCorrupt w).
Proof.
  split; [apply marker_check_fails_iff | apply open_marker_check_fails].
Qed.

Lemma C6_marker_checks_witness :
  marker_check_fails (listing start_and_end_dir) = true /\
  exists w, open DefaultOptions start_and_end_dir = Err ErrCorrupt w.
Proof.
  split; [vm_compute; reflexivity|].
  apply (proj2 C6_marker_checks DefaultOptions start_and_end_dir).
  vm_compute. reflexivity.
Defined.

(** C6 as stated fails on two [.START] markers: the directory holds more
    than one marker file, the marker checks pass, and the log opens (the
    later marker wins). *)
Lemma C6_counterexample :
  (count_markers startSuffix (listing two_starts_dir)
   + count_markers endSuffix (listing two_starts_dir)
   + count_markers truncateSuffix (listing two_starts_dir) = 2)%nat /\
  marker_check_fails (listing two_starts_dir) = false /\
  outcome_of (open DefaultOptions two_starts_dir) = Returned tt /\
  firstOffset (lg (world_of (open DefaultOptions two_starts_dir))) = 7.
Proof. vm_compute. repeat split; reflexivity. Qed.

(** ** The entry codec *)

Lemma wrap64_id z : in_int64 z -> wrap64 z = z.
Proof.
  unfold in_int64, min_int64, max_int64, wrap64. intros H.
  rewrite Z.mod_small; lia.
Qed.

Lemma wrap64_range z : in_int64 (wrap64 z).
Proof.
  unfold in_int64, min_int64, max_int64, wrap64.
  pose proof (Z.mod_pos_bound (z + 2 ^ 63) (2 ^ 64) ltac:(lia)). lia.
Qed.

Lemma byte_to_Z_range b : 0 <= byte_to_Z b < 256.
Proof.
  unfold byte_to_Z. pose proof (Byte.to_N_bounded b). lia.
Qed.

Lemma byte_to_of_Z z : 0 <= z < 256 -> byte_to_Z (byte_of_Z z) = z.
Proof.
  intros H. unfold byte_to_Z, byte_of_Z. rewrite Z.mod_small by lia.
  destruct (Byte.of_N (Z.to_N z)) as [b|] eqn:E.
  - apply Byte.to_of_N in E. rewrite E. lia.
  - apply Byte.of_N_None_iff in E. lia.
Qed.

Lemma lor_mod256_128_range x : 0 <= x -> 128 <= Z.lor (x mod 256) 128 < 256.
Proof.
  intros Hx.
  assert (0 <= x mod 256 < 256) as Hm by (apply Z.mod_pos_bound; lia).
  pose proof (Z.log2_lor (x mod 256) 128 ltac:(lia) ltac:(lia)) as HL.
  replace (Z.log2 128) with 7 in HL by reflexivity.
  pose proof (Z.le_max_r (Z.log2 (x mod 256)) 7) as Hmax.
  pose proof (Z.max_lub_lt (Z.log2 (x mod 256)) 7 8) as Hlub.
  assert (Z.log2 (x mod 256) < 8) as Hl8.
  { destruct (Z.eq_dec (x mod 256) 0) as [->|Hne]; [reflexivity|].
    apply Z.log2_lt_pow2; lia. }
  assert (0 < Z.lor (x mod 256) 128) as Hpos.
  { destruct (Z.ltb_spec 0 (Z.lor (x mod 256) 128)); [assumption|].
    rewrite (Z.log2_nonpos (Z.lor (x mod 256) 128)) in HL by lia.
    rewrite <- HL in Hmax. lia. }
  specialize (Hlub Hl8 eq_refl). rewrite <- HL in Hmax, Hlub.
  split.
  - apply (proj2 (Z.log2_le_pow2 _ 7 Hpos)). exact Hmax.
  - apply (proj2 (Z.log2_lt_pow2 _ 8 Hpos)). exact Hlub.
Qed.

Lemma land_lor_mod256_127 x :
  0 <= x -> Z.land (Z.lor (x mod 256) 128) 127 = x mod 128.
Proof.
  intros Hx. apply Z.bits_inj'. intros n Hn.
  rewrite Z.land_spec, Z.lor_spec.
  change 127 with (Z.ones 7). rewrite Z.testbit_ones_nonneg by lia.
  change 256 with (2 ^ 8). change 128 with (2 ^ 7).
  destruct (Z.ltb_spec n 7).
  - rewrite !Z.mod_pow2_bits_low by lia. rewrite Z.pow2_bits_eqb by lia.
    destruct (Z.eqb_spec 7 n); [lia|].
    rewrite orb_false_r, andb_true_r. reflexivity.
  - rewrite (Z.mod_pow2_bits_high x 7) by lia. apply andb_false_r.
Qed.

Lemma split_low7 x s :
  0 <= x -> 0 <= s ->
  Z.lor (Z.shiftl (x mod 128) s) (Z.shiftl (Z.shiftr x 7) (s + 7))
  = Z.shiftl x s.
Proof.
  intros Hx Hs. apply Z.bits_inj'. intros n Hn.
  rewrite Z.lor_spec, !Z.shiftl_spec by lia.
  destruct (Z.ltb_spec n s).
  - rewrite !Z.testbit_neg_r by lia. reflexivity.
  - destruct (Z.ltb_spec (n - s) 7).
    + change 128 with (2 ^ 7). rewrite Z.mod_pow2_bits_low by lia.
      rewrite (Z.testbit_neg_r _ (n - (s + 7))) by lia. apply orb_false_r.
    + change 128 with (2 ^ 7). rewrite Z.mod_pow2_bits_high by lia.
      rewrite Z.shiftr_spec by lia. simpl. f_equal. lia.
Qed.

Lemma putUvarint_length_pos fuel x : (0 < fuel)%nat ->
  (0 < length (Codec.putUvarint fuel x))%nat.
Proof.
  destruct fuel; [lia|]. intros _. simpl.
  destruct (128 <=? x); simpl; lia.
Qed.

(** Decoding what [PutUvarint] wrote, from inside the loop of [Uvarint]. *)
Lemma uvarint_loop_put fuel : forall x i acc rest,
  (0 < fuel)%nat -> 0 <= i -> i + Z.of_nat fuel <= 10 ->
  0 <= x < 2 ^ (7 * Z.of_nat fuel) ->
  x * 2 ^ (7 * i) < 2 ^ 64 ->
  Codec.uvarint_loop (Codec.putUvarint fuel x ++ rest) i acc (7 * i)
  = (Z.lor acc (Z.shiftl x (7 * i)),
     i + Z.of_nat (length (Codec.putUvarint fuel x))).
Proof.
  induction fuel as [|fuel IH]; intros x i acc rest Hf Hi Hif Hx Hb; [lia|].
  simpl Codec.putUvarint.
  destruct (Z.leb_spec 128 x) as [Hge|Hlt].
  - (* a continuation byte *)
    simpl. destruct (Z.eqb_spec i 10); [lia|].
    pose proof (lor_mod256_128_range x ltac:(lia)) as Hr.
    rewrite byte_to_of_Z by lia.
    destruct (Z.ltb_spec (Z.lor (x mod 256) 128) 128); [lia|].
    rewrite land_lor_mod256_127 by lia.
    assert (fuel <> 0%nat) as Hf0.
    { intros ->. simpl in Hx. lia. }
    replace (7 * i + 7) with (7 * (i + 1)) by lia.
    rewrite IH; try lia.
    + f_equal.
      * rewrite <- Z.lor_assoc. f_equal.
        replace (7 * (i + 1)) with (7 * i + 7) by lia.
        apply split_low7; lia.
      * lia.
    + rewrite Z.shiftr_div_pow2 by lia. split.
      * apply Z.div_pos; lia.
      * apply Z.div_lt_upper_bound; [lia|].
        rewrite <- Z.pow_add_r by lia.
        replace (7 + 7 * Z.of_nat fuel) with (7 * Z.of_nat (S fuel)) by lia. lia.
    + rewrite Z.shiftr_div_pow2 by lia.
      replace (7 * (i + 1)) with (7 + 7 * i) by lia.
      rewrite Z.pow_add_r by lia.
      assert (x / 2 ^ 7 * 2 ^ 7 <= x).
      { pose proof (Z.mul_div_le x (2 ^ 7) ltac:(lia)). lia. }
      assert (0 < 2 ^ (7 * i)) by (apply Z.pow_pos_nonneg; lia).
      nia.
  - (* the last byte *)
    simpl. destruct (Z.eqb_spec i 10); [lia|].
    rewrite byte_to_of_Z by lia.
    destruct (Z.ltb_spec x 128); [|lia].
    assert ((i =? 9) && (1 <? x) = false) as ->.
    { destruct (Z.eqb_spec i 9) as [->|]; [|reflexivity].
      destruct (Z.ltb_spec 1 x); [|reflexivity].
      exfalso. change (7 * 9) with 63 in Hb. lia. }
    f_equal; lia.
Qed.

Lemma Uvarint_put x rest :
  0 <= x < 2 ^ 64 ->
  Codec.Uvarint (Codec.putUvarint 10 x ++ rest)
  = (x, Z.of_nat (length (Codec.putUvarint 10 x))).
Proof.
  intros Hx. unfold Codec.Uvarint.
  change 0 with (7 * 0) at 3.
  rewrite uvarint_loop_put.
  - rewrite Z.shiftl_0_r. reflexivity.
  - lia.
  - lia.
  - lia.
  - change (7 * Z.of_nat 10) with 70. split; [lia|].
    eapply Z.lt_trans; [apply Hx|]. reflexivity.
  - simpl. lia.
Qed.

(** ** Frames *)

Lemma small_mod d : small d -> Z.of_nat (length d) mod 2 ^ 64 = Z.of_nat (length d).
Proof. unfold small. intros H. apply Z.mod_small. lia. Qed.

Lemma frame_length d :
  length (frame d)
  = (length (Codec.putUvarint 10 (Z.of_nat (length d) mod 2 ^ 64)) + length d)%nat.
Proof. unfold frame. apply length_app. Qed.

Lemma frame_length_pos d : (0 < length (frame d))%nat.
Proof.
  rewrite frame_length.
  pose proof (putUvarint_length_pos 10 (Z.of_nat (length d) mod 2 ^ 64) ltac:(lia)).
  lia.
Qed.

Lemma encode_all_cons d ds : encode_all (d :: ds) = frame d ++ encode_all ds.
Proof. reflexivity. Qed.

Lemma encode_all_app ds1 ds2 :
  encode_all (ds1 ++ ds2) = encode_all ds1 ++ encode_all ds2.
Proof. unfold encode_all. rewrite map_app, concat_app. reflexivity. Qed.

Lemma encode_all_snoc ds d : encode_all (ds ++ [d]) = encode_all ds ++ frame d.
Proof. rewrite encode_all_app. unfold encode_all. simpl. rewrite app_nil_r. reflexivity. Qed.

Lemma Uvarint_frame d rest :
  small d ->
  Codec.Uvarint (frame d ++ rest)
  = (Z.of_nat (length d),
     Z.of_nat (length (Codec.putUvarint 10 (Z.of_nat (length d) mod 2 ^ 64)))).
Proof.
  intros Hs. unfold frame. rewrite <- app_assoc.
  rewrite Uvarint_put.
  - rewrite small_mod by assumption. reflexivity.
  - apply Z.mod_pos_bound. lia.
Qed.

Lemma loadNextEntry_frame d rest :
  small d -> loadNextEntry (frame d ++ rest) = inr (length (frame d)).
Proof.
  intros Hs. unfold loadNextEntry. rewrite Uvarint_frame by assumption.
  pose proof (putUvarint_length_pos 10 (Z.of_nat (length d) mod 2 ^ 64) ltac:(lia)) as Hp.
  destruct (Z.leb_spec (Z.of_nat (length (Codec.putUvarint 10 (Z.of_nat (length d) mod 2 ^ 64)))) 0);
    [lia|].
  rewrite length_app, frame_length.
  match goal with |- context [?a <? ?b] => destruct (Z.ltb_spec a b); [lia|] end.
  f_equal. lia.
Qed.

Lemma load_frames_encode ds : forall fuel p,
  Forall small ds -> (length (encode_all ds) <= fuel)%nat ->
  load_frames fuel (encode_all ds) p = inr (positions p ds).
Proof.
  induction ds as [|d ds IH]; intros fuel p Hs Hf.
  - destruct fuel; reflexivity.
  - rewrite encode_all_cons in *. inversion Hs as [|? ? Hd Hds]; subst.
    pose proof (frame_length_pos d) as Hp. rewrite length_app in Hf.
    destruct (frame d ++ encode_all ds) as [|b rest] eqn:E.
    { apply (f_equal length) in E. rewrite length_app in E. simpl in E. lia. }
    destruct fuel as [|fuel]; [lia|].
    cbn [load_frames]. rewrite <- E.
    rewrite loadNextEntry_frame by assumption.
    rewrite drop_app_length.
    rewrite IH by (auto; lia). reflexivity.
Qed.

Lemma parse_frames_encode ds :
  Forall small ds -> parse_frames (encode_all ds) = inr (positions 0 ds).
Proof. intros Hs. apply load_frames_encode; auto. Qed.

Lemma positions_length ds : forall p, length (positions p ds) = length ds.
Proof. induction ds; intros p; simpl; auto. Qed.

Lemma positions_snoc ds : forall p d,
  positions p (ds ++ [d])
  = positions p ds
    ++ [Bpos (p + length (encode_all ds))
             (p + length (encode_all (ds ++ [d])))].
Proof.
  induction ds as [|d0 ds IH]; intros p d.
  - simpl. unfold encode_all. simpl. rewrite app_nil_r.
    rewrite Nat.add_0_r. reflexivity.
  - simpl. rewrite IH. rewrite !encode_all_cons, !length_app, !Nat.add_assoc.
    reflexivity.
Qed.

Lemma appendEntry_encode ds d :
  appendEntry (encode_all ds) d
  = (encode_all (ds ++ [d]),
     Bpos (length (encode_all ds)) (length (encode_all (ds ++ [d])))).
Proof.
  unfold appendEntry, Codec.appendUvarint. rewrite encode_all_snoc.
  unfold frame. rewrite <- app_assoc. reflexivity.
Qed.

Lemma positions_lookup ds : forall p k d,
  ds !! k = Some d ->
  positions p ds !! k
  = Some (Bpos (p + length (encode_all (take k ds)))
               (p + length (encode_all (take (S k) ds)))).
Proof.
  induction ds as [|d0 ds IH]; intros p k d H; [discriminate|].
  destruct k as [|k].
  - simpl. unfold encode_all. simpl. rewrite app_nil_r, Nat.add_0_r. reflexivity.
  - simpl in H. cbn [positions lookup list_lookup]. simpl.
    rewrite (IH _ _ _ H). rewrite !encode_all_cons, !length_app, !Nat.add_assoc.
    reflexivity.
Qed.

Lemma encode_all_take_S ds k d :
  ds !! k = Some d ->
  encode_all (take (S k) ds) = encode_all (take k ds) ++ frame d.
Proof.
  intros H. rewrite (take_S_r _ _ _ H). apply encode_all_snoc.
Qed.

Lemma encode_all_split ds k :
  encode_all ds = encode_all (take k ds) ++ encode_all (drop k ds).
Proof. rewrite <- encode_all_app, take_drop. reflexivity. Qed.

(** The bytes between the two ends of the [k]-th position are the [k]-th
    frame. *)
Lemma frame_at ds k d :
  ds !! k = Some d ->
  take (length (encode_all (take (S k) ds)) - length (encode_all (take k ds)))
    (drop (length (encode_all (take k ds))) (encode_all ds))
  = frame d.
Proof.
  intros H. rewrite (encode_all_take_S _ _ _ H), length_app.
  rewrite (encode_all_split ds k) at 1. rewrite drop_app_length.
  rewrite (drop_S _ _ _ H), encode_all_cons.
  replace (length (encode_all (take k ds)) + length (frame d)
           - length (encode_all (take k ds)))%nat with (length (frame d)) by lia.
  apply take_app_length.
Qed.

(** What [Read] computes from a frame. *)
Lemma decode_frame d :
  small d ->
  let '(size, n) := Codec.Uvarint (frame d) in
  0 < n /\ size <= len (frame d) - n /\
  n + size = len (frame d) /\
  take (Z.to_nat size) (drop (Z.to_nat n) (frame d)) = d.
Proof.
  intros Hs. pose proof (Uvarint_frame d [] Hs) as H.
  rewrite app_nil_r in H. rewrite H.
  pose proof (putUvarint_length_pos 10 (Z.of_nat (length d) mod 2 ^ 64) ltac:(lia)) as Hp.
  unfold len. rewrite frame_length. repeat split; try lia.
  rewrite !Nat2Z.id. unfold frame. rewrite drop_app_length.
  rewrite firstn_all. reflexivity.
Qed.

(** ** Segment file names *)

Lemma pad_digits_length w : forall n acc,
  String.length (pad_digits w n acc) = (w + String.length acc)%nat.
Proof.
  induction w as [|w IH]; intros n acc; simpl; [reflexivity|].
  rewrite IH. simpl. lia.
Qed.

Lemma segmentName_length x : String.length (segmentName x) = 20%nat.
Proof.
  unfold segmentName. destruct (x <? 0).
  - cbn [String.length]. rewrite pad_digits_length. reflexivity.
  - rewrite pad_digits_length. reflexivity.
Qed.

Lemma digit_cases d :
  0 <= d < 10 ->
  d = 0 \/ d = 1 \/ d = 2 \/ d = 3 \/ d = 4 \/ d = 5 \/ d = 6 \/ d = 7 \/ d = 8 \/ d = 9.
Proof. lia. Qed.

Lemma digit_val_char d : 0 <= d < 10 -> digit_val (digit_char d) = Some d.
Proof.
  intros H. destruct (digit_cases d H) as [->|[->|[->|[->|[->|[->|[->|[->|[->| ->]]]]]]]]];
    reflexivity.
Qed.

Lemma parse_pad_digits w : forall n acc a,
  0 <= n < 10 ^ Z.of_nat w ->
  parse_digits (pad_digits w n acc) a
  = parse_digits acc (a * 10 ^ Z.of_nat w + n).
Proof.
  induction w as [|w IH]; intros n acc a Hn.
  - simpl in *. f_equal. lia.
  - rewrite Nat2Z.inj_succ, Z.pow_succ_r in * by lia.
    cbn [pad_digits]. rewrite IH.
    + cbn [parse_digits]. rewrite digit_val_char by (apply Z.mod_pos_bound; lia).
      f_equal. pose proof (Z.div_mod n 10 ltac:(lia)). lia.
    + split; [apply Z.div_pos; lia|]. apply Z.div_lt_upper_bound; lia.
Qed.

(** A padded number starts with a digit. *)
Lemma pad_digits_head w : forall n acc,
  exists d r, 0 <= d < 10 /\ pad_digits (S w) n acc = String (digit_char d) r.
Proof.
  induction w as [|w IH]; intros n acc.
  - exists (n mod 10), acc. split; [apply Z.mod_pos_bound; lia|reflexivity].
  - change (pad_digits (S (S w)) n acc)
      with (pad_digits (S w) (n / 10) (String (digit_char (n mod 10)) acc)).
    apply IH.
Qed.

Lemma ParseInt_digit_head d r :
  0 <= d < 10 ->
  ParseInt (String (digit_char d) r)
  = match parse_digits (String (digit_char d) r) 0 with
    | None => None
    | Some un => if 2 ^ 63 <=? un then None else Some un
    end.
Proof.
  intros H. destruct (digit_cases d H) as [->|[->|[->|[->|[->|[->|[->|[->|[->| ->]]]]]]]]];
    reflexivity.
Qed.

Lemma ParseInt_segmentName x :
  0 <= x <= max_int64 -> ParseInt (segmentName x) = Some x.
Proof.
  intros Hx. unfold segmentName.
  destruct (Z.ltb_spec x 0); [lia|].
  destruct (pad_digits_head 19 x "") as (d & r & Hd & E).
  rewrite E, ParseInt_digit_head by assumption. rewrite <- E.
  rewrite parse_pad_digits.
  - cbn [parse_digits]. unfold max_int64 in Hx.
    destruct (Z.leb_spec (2 ^ 63) (0 * 10 ^ Z.of_nat 20 + x)); [lia|].
    f_equal.
  - unfold max_int64 in Hx. split; [lia|].
    eapply Z.le_lt_trans; [apply Hx|]. reflexivity.
Qed.

Lemma segmentName_inj x y :
  0 <= x <= max_int64 -> 0 <= y <= max_int64 ->
  segmentName x = segmentName y -> x = y.
Proof.
  intros Hx Hy E. apply (f_equal ParseInt) in E.
  rewrite !ParseInt_segmentName in E by assumption. congruence.
Qed.

(** The name of segment 0 is not the name of any other [int64] offset. *)
Lemma segmentName_eq_0 x :
  in_int64 x -> segmentName x = segmentName 0 -> x = 0.
Proof.
  intros Hx E. destruct (Z.ltb_spec x 0) as [Hneg|Hpos].
  - exfalso. unfold segmentName in E at 1.
    destruct (Z.ltb_spec x 0); [|lia]. discriminate.
  - apply segmentName_inj; auto; unfold in_int64, max_int64 in *; lia.
Qed.

Lemma str_app_length a b :
  String.length (str_app a b) = (String.length a + String.length b)%nat.
Proof. unfold str_app. induction a; simpl; auto. Qed.

Lemma marker_name_not_segment x suffix y :
  (0 < String.length suffix)%nat ->
  str_app (segmentName x) suffix <> segmentName y.
Proof.
  intros Hs E. apply (f_equal String.length) in E.
  rewrite str_app_length, !segmentName_length in E. lia.
Qed.

Lemma temp_not_segment y : tempFileName <> segmentName y.
Proof.
  intros E. apply (f_equal String.length) in E.
  rewrite segmentName_length in E. discriminate.
Qed.

Lemma temp_not_marker x suffix : tempFileName <> str_app (segmentName x) suffix.
Proof.
  intros E. apply (f_equal String.length) in E.
  rewrite str_app_length, segmentName_length in E. simpl in E. lia.
Qed.

(** ** Rules for [post] *)

Lemma post_conseq {A} (m : M A) w (Q Q' : A -> World -> Prop) :
  post m w Q -> (forall a w', Q a w' -> Q' a w') -> post m w Q'.
Proof. intros H HQ a w' E. apply HQ, H, E. Qed.

Lemma post_bind {A B} (m : M A) (k : A -> M B) w Q :
  post m w (fun a w1 => post (k a) w1 Q) -> post (bind m k) w Q.
Proof.
  intros H b w' E. unfold bind in E.
  destruct (m w) as [a w1|e w1|w1] eqn:Em; try discriminate.
  exact (H a w1 Em b w' E).
Qed.

Lemma post_ret {A} (a : A) w (Q : A -> World -> Prop) : Q a w -> post (ret a) w Q.
Proof. intros H a' w' E. inversion E; subst. exact H. Qed.

Lemma post_fail {A} e w (Q : A -> World -> Prop) : post (fail e) w Q.
Proof. intros a w' E. discriminate. Qed.

Lemma post_panic {A} w (Q : A -> World -> Prop) : post panic w Q.
Proof. intros a w' E. discriminate. Qed.

Lemma post_get_log w (Q : Log -> World -> Prop) : Q (lg w) w -> post get_log w Q.
Proof. intros H a w' E. inversion E; subst. exact H. Qed.

Lemma post_get_disk w (Q : FS -> World -> Prop) : Q (disk w) w -> post get_disk w Q.
Proof. intros H a w' E. inversion E; subst. exact H. Qed.

Lemma post_modify_log f w (Q : unit -> World -> Prop) :
  Q tt (MkWorld (f (lg w)) (disk w)) -> post (modify_log f) w Q.
Proof. intros H a w' E. inversion E; subst. exact H. Qed.

Lemma post_modify_disk f w (Q : unit -> World -> Prop) :
  Q tt (MkWorld (lg w) (f (disk w))) -> post (modify_disk f) w Q.
Proof. intros H a w' E. inversion E; subst. exact H. Qed.

Lemma post_index_of {A} (l : list A) i w (Q : A -> World -> Prop) :
  (forall x, 0 <= i -> l !! Z.to_nat i = Some x -> Q x w) ->
  post (index_of l i) w Q.
Proof.
  intros H a w' E. apply index_of_Ok_inv in E as (Hi & E & ->). auto.
Qed.

Lemma post_slice {A} (l : list A) lo hi w (Q : list A -> World -> Prop) :
  (0 <= lo <= hi -> hi <= len l ->
   Q (take (Z.to_nat (hi - lo)) (drop (Z.to_nat lo) l)) w) ->
  post (slice l lo hi) w Q.
Proof.
  intros H a w' E. apply slice_Ok_inv in E as (H1 & H2 & -> & ->). auto.
Qed.

Lemma post_when {A} b (m : M A) w (Q : unit -> World -> Prop) :
  (b = true -> post m w (fun _ w' => Q tt w')) ->
  (b = false -> Q tt w) ->
  post (when b m) w Q.
Proof.
  intros Ht Hf. destruct b; unfold when.
  - apply post_bind. eapply post_conseq; [apply Ht; reflexivity|].
    intros a w' HQ. apply post_ret. exact HQ.
  - apply post_ret. auto.
Qed.

Lemma post_with_recover {A} (m : M A) w Q : post m w Q -> post (with_recover m) w Q.
Proof.
  intros H a w' E. unfold with_recover in E.
  destruct (m w) as [a1 w1|e w1|w1] eqn:Em; try discriminate.
  inversion E; subst. apply H. exact Em.
Qed.

Lemma post_assign_sfile (m : M file) w (Q : unit -> World -> Prop) :
  post m w (fun f w' => Q tt (MkWorld (set_sfile f (lg w')) (disk w'))) ->
  post (assign_sfile m) w Q.
Proof.
  intros H a w' E. unfold assign_sfile in E.
  destruct (m w) as [f w1|e w1|w1] eqn:Em; try discriminate.
  inversion E; subst. apply (H f w1 Em).
Qed.

(** ** Operations that leave the bounds alone *)

Lemma same_bounds_refl w : same_bounds w w.
Proof. repeat split; reflexivity. Qed.

Lemma same_bounds_trans w1 w2 w3 :
  same_bounds w1 w2 -> same_bounds w2 w3 -> same_bounds w1 w3.
Proof.
  unfold same_bounds, same_flags. intros (?&?&?&?) (?&?&?&?).
  repeat split; congruence.
Qed.

Lemma keeps_bind {A B} (m : M A) (k : A -> M B) :
  keeps m -> (forall a, keeps (k a)) -> keeps (bind m k).
Proof.
  intros Hm Hk w. apply post_bind. eapply post_conseq; [apply Hm|].
  intros a w1 H1. eapply post_conseq; [apply Hk|].
  intros b w2 H2. cbv beta in *. exact (same_bounds_trans _ _ _ H1 H2).
Qed.

Lemma keeps_ret {A} (a : A) : keeps (ret a).
Proof. intros w. apply post_ret, same_bounds_refl. Qed.

Lemma keeps_fail {A} e : keeps (@fail A e).
Proof. intros w. apply post_fail. Qed.

Lemma keeps_panic {A} : keeps (@panic A).
Proof. intros w. apply post_panic. Qed.

Lemma keeps_get_log : keeps get_log.
Proof. intros w. apply post_get_log, same_bounds_refl. Qed.

Lemma keeps_get_disk : keeps get_disk.
Proof. intros w. apply post_get_disk, same_bounds_refl. Qed.

Lemma keeps_modify_disk f : keeps (modify_disk f).
Proof. intros w. apply post_modify_disk. repeat split; reflexivity. Qed.

Lemma keeps_index_of {A} (l : list A) i : keeps (index_of l i).
Proof. intros w. apply post_index_of. intros. apply same_bounds_refl. Qed.

Lemma keeps_slice {A} (l : list A) lo hi : keeps (slice l lo hi).
Proof. intros w. apply post_slice. intros. apply same_bounds_refl. Qed.

Lemma keeps_reslice {A} (pad : A) cap l n : keeps (reslice pad cap l n).
Proof.
  intros w a w' E. unfold reslice in E.
  destruct (_ && _); inversion E. apply same_bounds_refl.
Qed.

Lemma keeps_when {A} b (m : M A) : keeps m -> keeps (when b m).
Proof.
  intros H w. apply post_when.
  - intros _. eapply post_conseq; [apply H|]. auto.
  - intros _. apply same_bounds_refl.
Qed.

Lemma keeps_modify_segments f : keeps (modify_log (fun l => set_segments (f l) l)).
Proof. intros w. apply post_modify_log. repeat split; reflexivity. Qed.

Lemma keeps_modify_sfile f : keeps (modify_log (set_sfile f)).
Proof. intros w. apply post_modify_log. repeat split; reflexivity. Qed.

Lemma keeps_assign_sfile m : keeps m -> keeps (assign_sfile m).
Proof.
  intros H w. apply post_assign_sfile. eapply post_conseq; [apply H|].
  intros f w' (H1 & H2 & H3 & H4). repeat split; assumption.
Qed.

Lemma keeps_forM_ {A} (l : list A) f : (forall x, keeps (f x)) -> keeps (forM_ l f).
Proof.
  intros H. induction l as [|x l IH]; simpl.
  - apply keeps_ret.
  - apply keeps_bind; auto.
Qed.

Lemma keeps_with_recover {A} (m : M A) : keeps m -> keeps (with_recover m).
Proof. intros H w. apply post_with_recover, H. Qed.

Create HintDb keeps.
#[export] Hint Resolve keeps_ret keeps_fail keeps_panic keeps_get_log
  keeps_get_disk keeps_modify_disk keeps_index_of keeps_slice keeps_reslice
  keeps_modify_segments keeps_modify_sfile : keeps.

Ltac keeps :=
  repeat first
    [ solve [auto with keeps]
    | apply keeps_bind; [| intros ?]
    | apply keeps_when
    | apply keeps_assign_sfile
    | apply keeps_forM_; intros ?
    | apply keeps_with_recover
    | match goal with
      | |- keeps (match ?x with _ => _ end) => destruct x
      | |- keeps (if ?x then _ else _) => destruct x
      | |- keeps (let '(_, _) := ?x in _) => destruct x
      end ].

Lemma keeps_newFile n : keeps (newFile n).
Proof. unfold newFile. keeps. Qed.

Lemma keeps_openFile n : keeps (openFile n).
Proof. unfold openFile. keeps. Qed.

Lemma keeps_fs_Remove n : keeps (fs_Remove n).
Proof. unfold fs_Remove. keeps. Qed.

Lemma keeps_fs_Rename a b : keeps (fs_Rename a b).
Proof. unfold fs_Rename. keeps. Qed.

Lemma keeps_fs_ReadFile n : keeps (fs_ReadFile n).
Proof. unfold fs_ReadFile. keeps. Qed.

Lemma keeps_sfile_Write d : keeps (sfile_Write d).
Proof. unfold sfile_Write. keeps. Qed.

Lemma keeps_sfile_SeekEnd : keeps sfile_SeekEnd.
Proof. unfold sfile_SeekEnd. keeps. Qed.

Lemma keeps_sfile_Close : keeps sfile_Close.
Proof. unfold sfile_Close. keeps. Qed.

Lemma keeps_syncNoMutex : keeps syncNoMutex.
Proof. unfold syncNoMutex, doFSync. keeps. Qed.

Lemma keeps_write_temp b : keeps (write_temp b).
Proof. unfold write_temp. keeps. Qed.

#[export] Hint Resolve keeps_newFile keeps_openFile keeps_fs_Remove
  keeps_fs_Rename keeps_fs_ReadFile keeps_sfile_Write keeps_sfile_SeekEnd
  keeps_sfile_Close keeps_syncNoMutex keeps_write_temp : keeps.

Lemma keeps_pushCache i : keeps (pushCache i).
Proof.
  unfold pushCache. keeps.
  intros w. apply post_modify_log. destruct o; repeat split; reflexivity.
Qed.

Lemma keeps_clearCache : keeps clearCache.
Proof.
  unfold clearCache. intros w. apply post_modify_log. repeat split; reflexivity.
Qed.

Lemma keeps_loadSegmentEntries i : keeps (loadSegmentEntries i).
Proof. unfold loadSegmentEntries. keeps. Qed.

Lemma keeps_set_seg_at i f : keeps (set_seg_at i f).
Proof. unfold set_seg_at. keeps. Qed.

Lemma keeps_remove_segments l : keeps (remove_segments l).
Proof. unfold remove_segments. keeps. Qed.

#[export] Hint Resolve keeps_pushCache keeps_clearCache
  keeps_loadSegmentEntries keeps_set_seg_at keeps_remove_segments : keeps.

Lemma keeps_loadSegment index : keeps (loadSegment index).
Proof. unfold loadSegment. keeps. Qed.

#[export] Hint Resolve keeps_loadSegment : keeps.

Lemma keeps_guard : keeps guard.
Proof. unfold guard. keeps. Qed.

#[export] Hint Resolve keeps_guard : keeps.

(** ** The bounds [first_index() <= last_index() + 1] *)

Lemma post_keeps {A} (m : M A) w (Q : A -> World -> Prop) :
  keeps m -> (forall a w', same_bounds w w' -> Q a w') -> post m w Q.
Proof. intros H HQ. eapply post_conseq; [apply H|]. exact HQ. Qed.

Lemma post_syncNoMutex w (Q : unit -> World -> Prop) :
  Q tt w -> post syncNoMutex w Q.
Proof.
  intros H a w' E. unfold syncNoMutex, doFSync in E.
  rewrite bind_get_log in E. destruct (sfile (lg w)); try discriminate.
  inversion E; subst. exact H.
Qed.

Lemma post_sfile_Close w (Q : unit -> World -> Prop) :
  Q tt (MkWorld (set_sfile FClosed (lg w)) (disk w)) -> post sfile_Close w Q.
Proof.
  intros H a w' E. unfold sfile_Close in E.
  rewrite bind_get_log in E. destruct (sfile (lg w)); try discriminate.
  inversion E; subst. exact H.
Qed.

Lemma post_set_seg_at i f w (Q : unit -> World -> Prop) :
  (forall s, 0 <= i -> segments (lg w) !! Z.to_nat i = Some s ->
     Q tt (MkWorld (set_segments (alter f (Z.to_nat i) (segments (lg w))) (lg w))
             (disk w))) ->
  post (set_seg_at i f) w Q.
Proof.
  intros H. unfold set_seg_at. apply post_bind, post_get_log.
  apply post_bind, post_index_of. intros s Hi Hs.
  apply post_modify_log. eapply H; eauto.
Qed.

Lemma last_lookup_Z {A} (l : list A) x :
  l !! Z.to_nat (len l - 1) = Some x -> 0 <= len l - 1 -> last l = Some x.
Proof.
  intros H Hl. rewrite last_lookup. unfold len in *.
  replace (Nat.pred (length l)) with (Z.to_nat (Z.of_nat (length l) - 1)) by lia.
  exact H.
Qed.

Lemma last_alter_tail {A} (f : A -> A) (l : list A) :
  last (alter f (Z.to_nat (len l - 1)) l) = f <$> last l.
Proof.
  rewrite !last_lookup, length_alter. unfold len.
  destruct l as [|x l]; [reflexivity|].
  replace (Z.to_nat (Z.of_nat (length (x :: l)) - 1))
    with (Nat.pred (length (x :: l))) by (simpl; lia).
  rewrite list_lookup_alter_eq. reflexivity.
Qed.

(** [cycle] keeps the last offset; it moves the first offset exactly when
    the tail is the empty segment at offset 0. *)
Lemma cycle_post next w :
  post (cycle next) w (fun _ w' =>
    same_flags w w' /\
    lastOffset (lg w') = lastOffset (lg w) /\
    exists tl, last (segments (lg w)) = Some tl /\
      firstOffset (lg w')
      = if (offset tl =? 0) && (len (ebuf tl) =? 0) then next
        else firstOffset (lg w)).
Proof.
  unfold cycle.
  apply post_bind, post_syncNoMutex.
  apply post_bind, post_sfile_Close.
  apply post_bind, post_get_log. cbn [lg disk].
  apply post_bind, post_index_of. intros tl Hi Htl.
  unfold tail_index in *. cbn [segments set_sfile] in *.
  apply last_lookup_Z in Htl; [|exact Hi].
  apply post_bind.
  destruct ((offset tl =? 0) && (len (ebuf tl) =? 0)) eqn:Est.
  - apply post_bind, post_modify_log.
    apply post_keeps; [auto with keeps|]. intros _ w1 Hb.
    apply post_bind, post_keeps; [keeps|]. intros _ w2 Hb2.
    apply post_modify_log.
    pose proof (same_bounds_trans _ _ _ Hb Hb2) as (H1 & H2 & H3 & H4).
    cbn in *. repeat split; auto. exists tl. rewrite Est. auto.
  - apply post_keeps; [auto with keeps|]. intros _ w1 Hb.
    apply post_bind, post_keeps; [keeps|]. intros _ w2 Hb2.
    apply post_modify_log.
    pose proof (same_bounds_trans _ _ _ Hb Hb2) as (H1 & H2 & H3 & H4).
    cbn in *. repeat split; auto. exists tl. rewrite Est. auto.
Qed.

Lemma putUvarint_nonempty x : Codec.putUvarint 10 x <> [].
Proof.
  pose proof (putUvarint_length_pos 10 x ltac:(lia)) as H.
  destruct (Codec.putUvarint 10 x); [simpl in H; lia|discriminate].
Qed.

Lemma appendEntry_length dst d :
  (length dst < length (fst (appendEntry dst d)))%nat.
Proof.
  unfold appendEntry, Codec.appendUvarint. cbn [fst].
  rewrite !length_app.
  pose proof (putUvarint_length_pos 10 (Z.of_nat (length d) mod 2 ^ 64) ltac:(lia)).
  lia.
Qed.

Lemma same_bounds_bsig w w' : same_bounds w w' <-> bsig w' = bsig w.
Proof.
  unfold same_bounds, same_flags, bsig. split.
  - intros (-> & -> & -> & ->). reflexivity.
  - intros H. inversion H. auto.
Qed.

Lemma bpost_bind_keeps {A B} T (m : M A) (k : A -> M B) :
  keeps m -> (forall a, bpost T (k a)) -> bpost T (bind m k).
Proof.
  intros Hm Hk w. apply post_bind. eapply post_conseq; [apply Hm|].
  intros a w1 H1. apply same_bounds_bsig in H1. rewrite <- H1. apply Hk.
Qed.

Lemma bpost_bind_then_keeps {A B} T (m : M A) (k : A -> M B) :
  bpost T m -> (forall a, keeps (k a)) -> bpost T (bind m k).
Proof.
  intros Hm Hk w. apply post_bind. eapply post_conseq; [apply Hm|].
  intros a w1 H1. eapply post_conseq; [apply Hk|].
  intros b w2 H2. apply same_bounds_bsig in H2. cbv beta. rewrite H2. exact H1.
Qed.

Lemma bpost_modify_log T f :
  (forall l, T (firstOffset l, lastOffset l, closed l, corrupt l)
               (firstOffset (f l), lastOffset (f l), closed (f l), corrupt (f l))) ->
  bpost T (modify_log f).
Proof. intros H w. apply post_modify_log. apply H. Qed.

Lemma bpost_fail {A} T e : bpost T (@fail A e).
Proof. intros w. apply post_fail. Qed.

Lemma bpost_panic {A} T : bpost T (@panic A).
Proof. intros w. apply post_panic. Qed.

Lemma bpost_with_recover {A} T (m : M A) : bpost T m -> bpost T (with_recover m).
Proof. intros H w. apply post_with_recover, H. Qed.

Lemma bpost_post {A} T (m : M A) w : bpost T m -> post m w (fun _ w' => T (bsig w) (bsig w')).
Proof. intros H. apply H. Qed.

Ltac bp :=
  repeat first
    [ apply bpost_fail
    | apply bpost_panic
    | apply bpost_with_recover
    | apply bpost_bind_keeps; [solve [keeps] | intros ?]
    | apply bpost_bind_then_keeps; [| intros ?; solve [keeps]]
    | apply bpost_modify_log; intros ?; cbn; solve [auto 10]
    | match goal with
      | |- bpost _ (match ?x with _ => _ end) => destruct x
      | |- bpost _ (if ?x then _ else _) => destruct x
      end ].

(** What the truncations and [Clear] do to the bounds. *)

Lemma truncateFront_post index w :
  post (truncateFront index) w (fun _ w' =>
    same_flags w w' /\ lastOffset (lg w') = lastOffset (lg w) /\
    (firstOffset (lg w') = firstOffset (lg w) \/
     (firstOffset (lg w') = index /\
      firstOffset (lg w) <= index <= lastOffset (lg w)))).
Proof.
  unfold truncateFront. apply post_bind, post_get_log.
  destruct (Z.ltb_spec index (firstOffset (lg w))); [apply post_fail|].
  destruct (Z.ltb_spec (lastOffset (lg w)) index); [apply post_fail|].
  cbn [orb].
  destruct (Z.eqb_spec index (firstOffset (lg w))).
  { apply post_ret. repeat split; auto. }
  eapply post_conseq.
  - apply (bpost_post (fun s s' =>
             s'.2 = s.2 /\ s'.1.2 = s.1.2 /\ s'.1.1.2 = s.1.1.2 /\
             (s'.1.1.1 = s.1.1.1 \/ s'.1.1.1 = index))).
    bp.
  - cbn. intros _ w' (H1 & H2 & H3 & H4). unfold same_flags.
    repeat split; auto.
    destruct H4 as [H4|H4]; [left; exact H4 | right; split; [exact H4 | lia]].
Qed.

Lemma truncateBackAll_post n w :
  post (truncateBackAll n) w (fun _ w' =>
    same_flags w w' /\ firstOffset (lg w') = firstOffset (lg w) /\
    (lastOffset (lg w') = lastOffset (lg w) \/
     lastOffset (lg w') = wrap64 (n - 1))).
Proof.
  unfold truncateBackAll. apply post_bind, post_get_log.
  destruct (n =? lastOffset (lg w)).
  { apply post_ret. repeat split; auto. }
  eapply post_conseq.
  - apply (bpost_post (fun s s' =>
             s'.2 = s.2 /\ s'.1.2 = s.1.2 /\ s'.1.1.1 = s.1.1.1 /\
             (s'.1.1.2 = s.1.1.2 \/ s'.1.1.2 = wrap64 (n - 1)))).
    bp.
  - cbn. intros _ w' (H1 & H2 & H3 & H4). unfold same_flags.
    repeat split; auto.
Qed.

Lemma truncateBack_post ecap index w :
  post (truncateBack ecap index) w (fun _ w' =>
    same_flags w w' /\ firstOffset (lg w') = firstOffset (lg w) /\
    (lastOffset (lg w') = lastOffset (lg w) \/
     lastOffset (lg w') = wrap64 (firstOffset (lg w) - 1) \/
     (lastOffset (lg w') = index /\
      firstOffset (lg w) <= index <= lastOffset (lg w)))).
Proof.
  unfold truncateBack. apply post_bind, post_get_log.
  destruct (index =? wrap64 (firstOffset (lg w) - 1)).
  { eapply post_conseq; [apply truncateBackAll_post|].
    cbv beta. intros _ w' (H1 & H2 & H3). split; [exact H1|]. split; [exact H2|].
    destruct H3 as [H3|H3]; [left; exact H3 | right; left; exact H3]. }
  destruct (Z.ltb_spec index (firstOffset (lg w))); [apply post_fail|].
  destruct (Z.ltb_spec (lastOffset (lg w)) index); [apply post_fail|].
  cbn [orb].
  destruct (Z.eqb_spec index (lastOffset (lg w))).
  { apply post_ret. repeat split; auto. }
  eapply post_conseq.
  - apply (bpost_post (fun s s' =>
             s'.2 = s.2 /\ s'.1.2 = s.1.2 /\ s'.1.1.1 = s.1.1.1 /\
             (s'.1.1.2 = s.1.1.2 \/ s'.1.1.2 = index))).
    bp.
  - cbn. intros _ w' (H1 & H2 & H3 & H4). unfold same_flags.
    repeat split; auto.
    destruct H4 as [H4|H4]; [left; exact H4 | right; right; split; [exact H4 | lia]].
Qed.

Lemma createInitialSegment_post off w :
  post (createInitialSegment off) w (fun _ w' =>
    same_flags w w' /\ firstOffset (lg w') = off /\
    lastOffset (lg w') = wrap64 (off - 1)).
Proof.
  eapply post_conseq.
  - apply (bpost_post (fun s s' =>
             s'.2 = s.2 /\ s'.1.2 = s.1.2 /\ s'.1.1.1 = off /\
             s'.1.1.2 = wrap64 (off - 1))).
    unfold createInitialSegment. bp.
  - cbn. intros _ w' (H1 & H2 & H3 & H4). unfold same_flags. auto.
Qed.

Lemma clear_post w :
  post clear w (fun _ w' =>
    same_flags w w' /\ firstOffset (lg w') = 0 /\ lastOffset (lg w') = -1).
Proof.
  unfold clear.
  apply post_bind, post_keeps; [keeps|]. intros _ w1 H1.
  apply post_bind, post_get_log.
  apply post_bind, post_modify_disk.
  apply post_bind, post_modify_log.
  eapply post_conseq; [apply createInitialSegment_post|].
  cbv beta. intros _ w' (H2 & H3 & H4).
  destruct H1 as (_ & _ & Hc & Hk). destruct H2 as [Hc2 Hk2].
  cbn in Hc2, Hk2.
  split; [split; congruence|]. split; [exact H3|]. rewrite H4. reflexivity.
Qed.

Lemma tail_ebuf_len_set_tail w buf ep :
  segments (lg w) <> [] ->
  tail_ebuf_len
    (MkWorld
       (set_segments
          (alter (set_bufs buf ep) (Z.to_nat (tail_index (lg w))) (segments (lg w)))
          (lg w))
       (disk w))
  = length buf.
Proof.
  intros Hne. unfold tail_ebuf_len, tail_index. cbn [lg segments set_segments].
  rewrite last_alter_tail.
  destruct (last (segments (lg w))) eqn:E; [reflexivity|].
  apply last_None in E. contradiction.
Qed.

Lemma post_sfile_Write d w (Q : unit -> World -> Prop) :
  (forall f fs, Q tt (MkWorld (set_sfile f (lg w)) fs)) ->
  post (sfile_Write d) w Q.
Proof.
  intros H a w' E. unfold sfile_Write in E. rewrite bind_get_log in E.
  destruct (sfile (lg w)); try discriminate.
  rewrite bind_modify_disk in E. inversion E; subst. apply H.
Qed.

(** The loop of [writeBatch]: the first offset stays; after the last entry
    either bytes are waiting to be flushed or the last offset is the offset
    of that entry. *)
Lemma writeBatch_loop_post es : forall mark ds w,
  (mark <= tail_ebuf_len w)%nat ->
  post (writeBatch_loop es mark ds) w (fun mark' w' =>
    same_flags w w' /\
    firstOffset (lg w') = firstOffset (lg w) /\
    (es = [] -> w' = w /\ mark' = mark) /\
    (forall el, last es = Some el ->
       (mark' < tail_ebuf_len w')%nat \/ lastOffset (lg w') = be_offset el)).
Proof.
  induction es as [|e es IH]; intros mark ds w Hm.
  - simpl. apply post_ret. repeat split; auto. intros el H. discriminate.
  - cbn [writeBatch_loop].
    apply post_bind, post_slice. intros _ _.
    apply post_bind, post_get_log.
    apply post_bind, post_index_of. intros s Hi Hs.
    destruct (appendEntry (ebuf s) (take _ _)) as [buf ep] eqn:Eap.
    pose proof (appendEntry_length (ebuf s) (take (Z.to_nat (Z.of_nat (be_size e) - 0)) (drop (Z.to_nat 0) ds))) as Hlen.
    rewrite Eap in Hlen. cbn [fst] in Hlen.
    assert (segments (lg w) <> []) as Hne.
    { intros E. rewrite E in Hs. discriminate. }
    assert (tail_ebuf_len w = length (ebuf s)) as Htel.
    { unfold tail_ebuf_len. unfold tail_index in *.
      rewrite (last_lookup_Z _ _ Hs Hi). reflexivity. }
    apply post_bind, post_set_seg_at. intros s' _ _.
    pose proof (tail_ebuf_len_set_tail w buf (epos s ++ [ep]) Hne) as Htel1.
    set (w1 := MkWorld _ _) in *.
    apply post_bind.
    destruct (SegmentSize (opts (lg w)) <=? len buf).
    + (* the segment is full: flush, move the last offset, cycle *)
      apply post_bind, post_sfile_Write. intros f fs.
      apply post_bind, post_modify_log.
      apply post_bind. eapply post_conseq; [apply cycle_post|].
      cbv beta. intros _ w3 (Hf3 & Hl3 & tl3 & Htl3 & Hfi3).
      apply post_ret.
      apply post_bind, post_slice. intros _ _.
      eapply post_conseq; [apply (IH 0%nat _ w3); lia|].
      cbv beta. intros mark' w' (Hf & Hfi & Hnil & HG).
      assert (firstOffset (lg w3) = firstOffset (lg w)) as Hfirst.
      { assert (last (segments (lg w1)) = Some tl3) as Htl3' by exact Htl3.
        assert (length (ebuf tl3) = length buf) as Hb3.
        { unfold tail_ebuf_len in Htel1. rewrite Htl3' in Htel1. exact Htel1. }
        destruct (Z.eqb_spec (len (ebuf tl3)) 0) as [Ez|_].
        { unfold len in Ez. lia. }
        rewrite andb_false_r in Hfi3. exact Hfi3. }
      assert (lastOffset (lg w3) = be_offset e) as Hl3' by exact Hl3.
      assert (closed (lg w3) = closed (lg w) /\ corrupt (lg w3) = corrupt (lg w))
        as [Hc3 Hk3] by exact Hf3.
      destruct Hf as [Hc Hk].
      split; [split; congruence|]. split; [congruence|].
      split; [intros; discriminate|].
      intros el Hel. destruct es as [|e2 es].
      * destruct (Hnil eq_refl) as [-> _]. simpl in Hel. inversion Hel; subst.
        right. exact Hl3'.
      * apply HG. rewrite <- Hel. reflexivity.
    + apply post_ret.
      apply post_bind, post_slice. intros _ _.
      eapply post_conseq; [apply (IH mark _ w1); lia|].
      cbv beta. intros mark' w' (Hf & Hfi & Hnil & HG).
      assert (closed (lg w') = closed (lg w) /\ corrupt (lg w') = corrupt (lg w))
        as Hf' by exact Hf.
      assert (firstOffset (lg w') = firstOffset (lg w)) as Hfi' by exact Hfi.
      split; [exact Hf'|]. split; [exact Hfi'|].
      split; [intros; discriminate|].
      intros el Hel. destruct es as [|e2 es].
      * destruct (Hnil eq_refl) as [-> ->]. left. lia.
      * apply HG. rewrite <- Hel. reflexivity.
Qed.

Lemma last_lookup_entries {A} (l : list A) x :
  l !! Z.to_nat (len l - 1) = Some x -> l <> [] -> last l = Some x.
Proof.
  intros H Hne. apply last_lookup_Z; [exact H|].
  unfold len. destruct l; [congruence|simpl; lia].
Qed.

(** [writeBatch]: the last offset becomes the offset of the last entry of
    the batch; the first offset becomes the first offset of the batch exactly
    when the batch makes the log cycle away from the empty segment at
    offset 0. *)
Lemma writeBatch_post b e0 w :
  entries b !! 0%nat = Some e0 ->
  post (writeBatch b) w (fun _ w' =>
    same_flags w w' /\
    (exists s, last (segments (lg w)) = Some s /\
       firstOffset (lg w')
       = if ((wrap64 (lastOffset (lg w) + 1) <? be_offset e0)
             || (SegmentSize (opts (lg w)) <? len (ebuf s)))
            && ((offset s =? 0) && (len (ebuf s) =? 0))
         then be_offset e0 else firstOffset (lg w)) /\
    exists el, last (entries b) = Some el /\
               lastOffset (lg w') = be_offset el).
Proof.
  intros He0. unfold writeBatch.
  apply post_bind, post_get_log.
  apply post_bind, post_index_of. intros s0 Hi0 Hs0.
  unfold tail_index in *. apply last_lookup_Z in Hs0; [|exact Hi0].
  apply post_bind, post_index_of. intros e0' _ He0'.
  change (Z.to_nat 0) with 0%nat in He0'. rewrite He0 in He0'.
  inversion He0'; subst e0'. clear He0'.
  assert (entries b <> []) as Hne.
  { intros E. rewrite E in He0. discriminate. }
  apply post_bind.
  eapply (post_conseq _ _ (fun _ w1 =>
            same_flags w w1 /\
            firstOffset (lg w1)
            = if ((wrap64 (lastOffset (lg w) + 1) <? be_offset e0)
                  || (SegmentSize (opts (lg w)) <? len (ebuf s0)))
                 && ((offset s0 =? 0) && (len (ebuf s0) =? 0))
              then be_offset e0 else firstOffset (lg w))).
  { apply post_when.
    - intros ->. eapply post_conseq; [apply cycle_post|].
      cbv beta. intros _ w1 (Hf & Hl & tl & Htl & Hfi).
      split; [exact Hf|]. rewrite Hs0 in Htl. inversion Htl; subst tl.
      cbn [andb]. exact Hfi.
    - intros ->. cbn [andb]. repeat split; auto. }
  cbv beta. intros _ w1 (Hf1 & Hfi1).
  apply post_bind, post_get_log.
  apply post_bind, post_index_of. intros s1 Hi1 Hs1.
  assert (tail_ebuf_len w1 = length (ebuf s1)) as Htel1.
  { unfold tail_ebuf_len, tail_index in *.
    rewrite (last_lookup_Z _ _ Hs1 Hi1). reflexivity. }
  apply post_bind.
  eapply post_conseq; [apply (writeBatch_loop_post _ _ _ w1); lia|].
  cbv beta. intros mark w2 (Hf2 & Hfi2 & _ & HG).
  apply post_bind, post_get_log.
  apply post_bind, post_index_of. intros s2 Hi2 Hs2.
  assert (tail_ebuf_len w2 = length (ebuf s2)) as Htel2.
  { unfold tail_ebuf_len, tail_index in *.
    rewrite (last_lookup_Z _ _ Hs2 Hi2). reflexivity. }
  apply post_bind.
  eapply (post_conseq _ _ (fun _ w3 =>
            same_bounds (MkWorld (set_lastOffset (lastOffset (lg w3)) (lg w2)) (disk w2)) w3
            /\ exists el, last (entries b) = Some el /\
                          lastOffset (lg w3) = be_offset el)).
  { apply post_when.
    - intros _. apply post_bind, post_keeps; [keeps|]. intros _ w3 H3.
      apply post_bind, post_index_of. intros el _ Hel.
      apply post_modify_log.
      apply last_lookup_entries in Hel; [|exact Hne].
      destruct H3 as (H3a & H3b & H3c & H3d).
      split; [|exists el; split; [exact Hel|reflexivity]].
      repeat split; cbn; auto.
    - intros Hz. apply Z.ltb_ge in Hz. unfold len in Hz.
      destruct (last (entries b)) as [el|] eqn:El;
        [|apply last_None in El; contradiction].
      destruct (HG el eq_refl) as [HG'|HG']; [lia|].
      split; [|exists el; auto]. repeat split; reflexivity. }
  cbv beta. intros _ w3 (H3 & HP3).
  apply post_keeps; [keeps|]. intros _ w4 H4.
  pose proof (same_bounds_trans _ _ _ H3 H4) as (Ha & Hb & Hc & Hd).
  cbn in Ha, Hb, Hc, Hd.
  destruct Hf1 as [? ?]. destruct Hf2 as [? ?].
  split; [split; congruence|].
  split.
  - exists s0. split; [exact Hs0|]. rewrite Ha, Hfi2. exact Hfi1.
  - destruct HP3 as (el & Hel & Hl3). exists el. split; [exact Hel|congruence].
Qed.

Lemma entries_mkBatch_aux es : forall b,
  entries (foldl (fun b e => Batch_Write b (fst e) (snd e)) b es)
  = entries b ++ map (fun e => MkEntry (fst e) (length (snd e))) es.
Proof.
  induction es as [|e es IH]; intros b; simpl.
  - rewrite app_nil_r. reflexivity.
  - rewrite IH. simpl. rewrite <- app_assoc. reflexivity.
Qed.

Lemma entries_mkBatch es :
  entries (mkBatch es) = map (fun e => MkEntry (fst e) (length (snd e))) es.
Proof. unfold mkBatch. rewrite entries_mkBatch_aux. reflexivity. Qed.

Lemma datas_mkBatch_aux es : forall b,
  datas (foldl (fun b e => Batch_Write b (fst e) (snd e)) b es)
  = datas b ++ concat (map snd es).
Proof.
  induction es as [|e es IH]; intros b; simpl.
  - rewrite app_nil_r. reflexivity.
  - rewrite IH. simpl. rewrite <- app_assoc. reflexivity.
Qed.

Lemma datas_mkBatch es : datas (mkBatch es) = concat (map snd es).
Proof. unfold mkBatch. rewrite datas_mkBatch_aux. reflexivity. Qed.

Lemma batch_ok_entries lst es :
  batch_ok lst es ->
  exists e0, entries (mkBatch es) !! 0%nat = Some e0 /\
    lst + 1 <= be_offset e0 /\
    Forall (fun e => be_offset e0 <= be_offset e /\ in_int64 (be_offset e))
      (entries (mkBatch es)).
Proof.
  intros (Hne & Hin & Hs & Hlo). rewrite entries_mkBatch.
  destruct es as [|[o d] es]; [congruence|].
  exists (MkEntry o (length d)). split; [reflexivity|].
  split; [apply (Hlo (o, d)); left|].
  cbn [map fst] in Hs. apply StronglySorted_inv in Hs as [_ Hlt].
  apply Forall_cons in Hin as [Hin0 Hin'].
  constructor; [cbn; split; [lia|exact Hin0]|].
  rewrite Forall_forall. intros e He.
  apply list_elem_of_fmap in He as ([o' d'] & -> & He). cbn.
  rewrite Forall_forall in Hlt. rewrite Forall_forall in Hin'.
  split.
  - assert (o < o') by (apply Hlt, list_elem_of_fmap; exists (o', d'); auto). lia.
  - apply (Hin' (o', d') He).
Qed.

Lemma post_guard w (Q : unit -> World -> Prop) :
  (closed (lg w) = false -> corrupt (lg w) = false -> Q tt w) -> post guard w Q.
Proof.
  intros H a w' E. unfold guard in E. rewrite bind_get_log in E.
  destruct (corrupt (lg w)) eqn:Ek; [discriminate|].
  destruct (closed (lg w)) eqn:Ec; [discriminate|].
  inversion E; subst. auto.
Qed.

(** X26: the bounds are kept from any state.  For every log that is open
    and not corrupt, whose first and last offsets are [int64] values with
    [first_index() <= last_index() + 1] (however it was reached, holes
    included), each call that returns normally leaves such a log: [Write]
    and [WriteBatch] with [int64] offsets that are strictly increasing and
    start after [last_index()], [Read], [TruncateFront], [TruncateBack]
    (at any offset and whatever the capacity of the positions slice),
    [Clear], [Sync] and [ClearCache]. *)
Theorem step_keeps_bounds w w' : bounds_inv w -> step w w' -> bounds_inv w'.
Proof.
  intros (Hc & Hk & Hf & Hl & Hb) Hstep.
  destruct Hstep as [off d w w' Hoff Hlo E|es w w' Hok E|off d w w' E
                    |i w w' E|ecap i w w' E|w w' E|w w' E|w w' E].
  - (* Write *)
    revert E. unfold Write.
    rewrite (bind_ok _ _ _ _ _ (guard_ok w Hc Hk)). intros E.
    pose proof (writeBatch_post (Batch_Write Batch_empty off d)
                  (MkEntry off (length d)) w eq_refl tt w' E) as HW.
    cbv beta in HW. cbn [be_offset] in HW.
    destruct HW as ([Hc' Hk'] & (s & _ & Hfi) & el & Hel & Hl').
    cbn in Hel. inversion Hel; subst el. cbn in Hl'.
    unfold bounds_inv. rewrite Hl', Hfi.
    repeat split; try congruence; try apply Hoff.
    + destruct (_ && _); [apply Hoff|apply Hf].
    + destruct (_ && _); [apply Hoff|apply Hf].
    + destruct (_ && _); lia.
  - (* WriteBatch *)
    revert E. unfold WriteBatch.
    rewrite (bind_ok _ _ _ _ _ (guard_ok w Hc Hk)).
    destruct (batch_ok_entries _ _ Hok) as (e0 & He0 & Hlo & HF).
    destruct (Z.eqb_spec (len (entries (mkBatch es))) 0) as [Ez|_].
    { unfold len in Ez. destruct (entries (mkBatch es)); [discriminate|simpl in Ez; lia]. }
    intros E.
    pose proof (writeBatch_post _ e0 w He0 tt w' E) as HW.
    cbv beta in HW. destruct HW as ([Hc' Hk'] & (s & _ & Hfi) & el & Hel & Hl').
    rewrite Forall_forall in HF.
    pose proof (HF e0 (list_elem_of_lookup_2 _ _ _ He0)) as [_ Hin0].
    assert (el ∈ entries (mkBatch es)) as Hin_el.
    { rewrite last_lookup in Hel. eapply list_elem_of_lookup_2; eauto. }
    pose proof (HF el Hin_el) as [Hge Hinl].
    unfold bounds_inv. rewrite Hl', Hfi.
    repeat split; try congruence; try apply Hinl.
    + destruct (_ && _); [apply Hin0|apply Hf].
    + destruct (_ && _); [apply Hin0|apply Hf].
    + destruct (_ && _); lia.
  - (* Read *)
    assert (keeps (Read off)) as HK by (unfold Read; keeps).
    destruct (HK w d w' E) as (H1 & H2 & H3 & H4).
    unfold bounds_inv. rewrite H1, H2, H3, H4. auto.
  - (* TruncateFront *)
    revert E. unfold TruncateFront.
    rewrite (bind_ok _ _ _ _ _ (guard_ok w Hc Hk)). intros E.
    destruct (truncateFront_post i w tt w' E) as ([Hc' Hk'] & Hl' & Hfi).
    unfold bounds_inv. rewrite Hl'.
    repeat split; try congruence; try apply Hl.
    + destruct Hfi as [->|[-> ?]]; [apply Hf|]. unfold in_int64 in *. lia.
    + destruct Hfi as [->|[-> ?]]; [apply Hf|]. unfold in_int64 in *. lia.
    + destruct Hfi as [->|[-> ?]]; lia.
  - (* TruncateBack *)
    revert E. unfold TruncateBack.
    rewrite (bind_ok _ _ _ _ _ (guard_ok w Hc Hk)). intros E.
    destruct (truncateBack_post ecap i w tt w' E) as ([Hc' Hk'] & Hfi & Hl').
    unfold bounds_inv. rewrite Hfi.
    repeat split; try congruence; try apply Hf.
    + destruct Hl' as [->|[->|[-> ?]]]; [apply Hl|apply wrap64_range|].
      unfold in_int64 in *. lia.
    + destruct Hl' as [->|[->|[-> ?]]]; [apply Hl|apply wrap64_range|].
      unfold in_int64 in *. lia.
    + destruct Hl' as [->|[->|[-> ?]]]; [lia| |lia].
      unfold in_int64, min_int64, max_int64 in Hf.
      destruct (Z.eq_dec (firstOffset (lg w)) (- 2 ^ 63)) as [->|Hne].
      * vm_compute. discriminate.
      * rewrite wrap64_id; [lia|]. unfold in_int64, min_int64, max_int64. lia.
  - (* Clear *)
    revert E. unfold Clear.
    rewrite (bind_ok _ _ _ _ _ (guard_ok w Hc Hk)). intros E.
    destruct (clear_post w tt w' E) as ([Hc' Hk'] & Hfi & Hl').
    unfold bounds_inv. rewrite Hfi, Hl'.
    repeat split; try congruence; vm_compute; discriminate.
  - (* Sync *)
    assert (keeps Sync) as HK by (unfold Sync; keeps).
    destruct (HK w tt w' E) as (H1 & H2 & H3 & H4).
    unfold bounds_inv. rewrite H1, H2, H3, H4. auto.
  - (* ClearCache *)
    assert (keeps ClearCache) as HK by (unfold ClearCache; keeps).
    destruct (HK w tt w' E) as (H1 & H2 & H3 & H4).
    unfold bounds_inv. rewrite H1, H2, H3, H4. auto.
Qed.

Lemma step_keeps_bounds_witness : bounds_inv first_jump_world.
Proof.
  apply (step_keeps_bounds fresh_world first_jump_world).
  - unfold bounds_inv. vm_compute. repeat split; try reflexivity; discriminate.
  - apply (step_Write 5 (bytes_of "a")).
    + vm_compute. split; discriminate.
    + vm_compute. discriminate.
    + vm_compute. reflexivity.
Defined.

(** ** A first batch that jumps *)

Lemma pushCache_eq (i : nat) s w :
  segments (lg w) !! i = Some s ->
  pushCache (Z.of_nat i) w = Ok tt (MkWorld (pushCache_log i (lg w)) (disk w)).
Proof.
  intros H. unfold pushCache. rewrite bind_get_log.
  rewrite (bind_ok _ _ _ _ _ (index_of_Some _ _ _ _ H)).
  unfold pushCache_log. rewrite Nat2Z.id.
  destruct (lru_set _ _ _) as [c ev]. reflexivity.
Qed.

Lemma sfile_Write_eq data n p w :
  sfile (lg w) = FOpen n p ->
  sfile_Write data w
  = Ok tt (MkWorld (set_sfile (FOpen n (p + length data)) (lg w))
             (write_file n p data (disk w))).
Proof.
  intros H. unfold sfile_Write. rewrite bind_get_log, H.
  rewrite bind_modify_disk. reflexivity.
Qed.

Lemma syncNoMutex_eq n p w : sfile (lg w) = FOpen n p -> syncNoMutex w = Ok tt w.
Proof.
  intros H. unfold syncNoMutex, doFSync. rewrite bind_get_log, H. reflexivity.
Qed.

Lemma sfile_Close_eq n p w :
  sfile (lg w) = FOpen n p ->
  sfile_Close w = Ok tt (MkWorld (set_sfile FClosed (lg w)) (disk w)).
Proof.
  intros H. unfold sfile_Close. rewrite bind_get_log, H. reflexivity.
Qed.

Lemma last_Some_lookup {A} (l : list A) x :
  last l = Some x -> l !! (length l - 1)%nat = Some x.
Proof.
  rewrite last_lookup. intros H.
  replace (length l - 1)%nat with (Nat.pred (length l)) by lia. exact H.
Qed.

Lemma index_of_last {A} (l : list A) x w :
  last l = Some x -> index_of l (len l - 1) w = Ok x w.
Proof.
  intros H. pose proof (last_Some_lookup l x H) as Hl.
  assert (l <> []) by (intros ->; discriminate).
  apply index_of_Z.
  - unfold len. destruct l; [congruence|simpl; lia].
  - unfold len. replace (Z.to_nat (Z.of_nat (length l) - 1)) with (length l - 1)%nat by lia.
    exact Hl.
Qed.

Lemma tail_index_nat l :
  segments l <> [] -> tail_index l = Z.of_nat (length (segments l) - 1).
Proof.
  intros H. unfold tail_index, len. destruct (segments l); [congruence|simpl; lia].
Qed.

Lemma assign_sfile_newFile_eq n w :
  assign_sfile (newFile n) w
  = Ok tt (MkWorld (set_sfile (FOpen n 0) (lg w)) (<[n := []]> (disk w))).
Proof. reflexivity. Qed.

(** [cycle] when the tail is not the empty segment at offset 0. *)
Lemma cycle_eq next n p tl w :
  sfile (lg w) = FOpen n p ->
  last (segments (lg w)) = Some tl ->
  (offset tl =? 0) && (len (ebuf tl) =? 0) = false ->
  cycle next w
  = Ok tt (MkWorld (cycle_log next (lg w))
             (<[segmentName next := []]> (disk w))).
Proof.
  intros Hs Htl Hst. unfold cycle.
  rewrite (bind_ok _ _ _ _ _ (syncNoMutex_eq _ _ _ Hs)).
  rewrite (bind_ok _ _ _ _ _ (sfile_Close_eq _ _ _ Hs)).
  rewrite bind_get_log. cbn [lg disk].
  unfold tail_index. cbn [segments set_sfile].
  rewrite (bind_ok _ _ _ _ _ (index_of_last _ _ _ Htl)).
  rewrite Hst.
  assert (segments (lg w) <> []) as Hne by (intros E; rewrite E in Htl; discriminate).
  pose proof (tail_index_nat (lg w) Hne) as Hti. unfold tail_index in Hti.
  rewrite Hti.
  pose proof (pushCache_eq (length (segments (lg w)) - 1) tl
                (MkWorld (set_sfile FClosed (lg w)) (disk w))
                (last_Some_lookup _ _ Htl)) as Hpc.
  rewrite (bind_ok _ _ _ _ _ Hpc).
  cbn [path].
  rewrite (bind_ok _ _ _ _ _ (assign_sfile_newFile_eq _ _)).
  reflexivity.
Qed.

Lemma segments_pushCache_log i l :
  map (fun s => (offset s, path s)) (segments (pushCache_log i l))
  = map (fun s => (offset s, path s)) (segments l).
Proof.
  unfold pushCache_log. destruct (lru_set _ _ _) as [c [k|]]; [|reflexivity].
  cbn [segments set_scache set_segments].
  apply list_eq. intros j. rewrite !list_lookup_fmap.
  destruct (decide (j = k)) as [->|Hne].
  - rewrite list_lookup_alter_eq. destruct (segments l !! k); reflexivity.
  - rewrite list_lookup_alter_ne by auto. reflexivity.
Qed.

Lemma elem_ids {A B} (f : A -> B) (l1 l2 : list A) x :
  map f l1 = map f l2 -> x ∈ l1 -> exists y, y ∈ l2 /\ f y = f x.
Proof.
  intros E Hx. assert (f x ∈ map f l2) as H.
  { rewrite <- E. apply list_elem_of_fmap. eauto. }
  apply list_elem_of_fmap in H as (y & Hy & Hin). eauto.
Qed.

Lemma write_file_lookup_None n p d fs m :
  fs !! m = None -> write_file n p d fs !! m = None.
Proof.
  intros H. unfold write_file. destruct (fs !! n) eqn:E; [|exact H].
  rewrite lookup_insert_ne; [exact H|]. intros ->. congruence.
Qed.

Lemma write_file_lookup_Some n p d fs m :
  is_Some (fs !! m) -> is_Some (write_file n p d fs !! m).
Proof.
  intros H. unfold write_file. destruct (fs !! n) eqn:E; [|exact H].
  destruct (decide (n = m)) as [->|Hne].
  - rewrite lookup_insert_eq. eauto.
  - rewrite lookup_insert_ne by auto. exact H.
Qed.

Lemma jump_inv_cycle k next w :
  jump_inv k w -> in_int64 next -> next <> 0 ->
  jump_inv k (MkWorld (cycle_log next (lg w)) (<[segmentName next := []]> (disk w))).
Proof.
  intros (Hs & Hne & H0 & Hk & (s & Hin & Ho & Hp)) Hnext Hn0.
  unfold jump_inv. cbn [lg disk]. repeat split.
  - unfold cycle_log. cbn. eauto.
  - unfold cycle_log. cbn [segments set_segments]. apply app_not_nil.
  - rewrite lookup_insert_ne; [exact H0|].
    intros E. apply segmentName_eq_0 in E; auto.
  - destruct (decide (segmentName next = segmentName k)) as [->|Hne'].
    + rewrite lookup_insert_eq. eauto.
    + rewrite lookup_insert_ne by auto. exact Hk.
  - unfold cycle_log. cbn [segments set_segments set_sfile].
    pose proof (segments_pushCache_log (length (segments (lg w)) - 1)
                  (set_sfile FClosed (lg w))) as E.
    cbn [segments set_sfile] in E.
    destruct (elem_ids _ _ _ s (eq_sym E) Hin) as (y & Hy & Hf).
    inversion Hf. exists y. split; [|split; congruence].
    apply elem_of_app. left. exact Hy.
Qed.

Lemma ids_alter (f : segment -> segment) i l :
  (forall s, offset (f s) = offset s /\ path (f s) = path s) ->
  map (fun s => (offset s, path s)) (alter f i l)
  = map (fun s => (offset s, path s)) l.
Proof.
  intros Hf. apply list_eq. intros j. rewrite !list_lookup_fmap.
  destruct (decide (j = i)) as [->|Hne].
  - rewrite list_lookup_alter_eq. destruct (l !! i) as [s|]; [|reflexivity].
    cbn. destruct (Hf s) as [-> ->]. reflexivity.
  - rewrite list_lookup_alter_ne by auto. reflexivity.
Qed.

Lemma set_seg_at_tail_eq f s w :
  last (segments (lg w)) = Some s ->
  set_seg_at (tail_index (lg w)) f w
  = Ok tt (MkWorld
             (set_segments (alter f (length (segments (lg w)) - 1)%nat (segments (lg w)))
                (lg w))
             (disk w)).
Proof.
  intros H. unfold set_seg_at. rewrite bind_get_log.
  unfold tail_index.
  rewrite (bind_ok _ _ _ _ _ (index_of_last _ _ _ H)).
  unfold modify_log.
  assert (segments (lg w) <> []) as Hne by (intros E; rewrite E in H; discriminate).
  pose proof (tail_index_nat (lg w) Hne) as Hti. unfold tail_index in Hti.
  rewrite Hti, Nat2Z.id. reflexivity.
Qed.

Lemma last_alter_last {A} (f : A -> A) (l : list A) :
  last (alter f (length l - 1)%nat l) = f <$> last l.
Proof.
  rewrite !last_lookup, length_alter.
  replace (Nat.pred (length l)) with (length l - 1)%nat by lia.
  destruct (l !! (length l - 1)%nat) eqn:E.
  - rewrite list_lookup_alter_eq, E. reflexivity.
  - rewrite list_lookup_alter_eq, E. reflexivity.
Qed.

Lemma wrap64_succ_ne0 off : in_int64 off -> off <> -1 -> wrap64 (off + 1) <> 0.
Proof.
  unfold in_int64, min_int64, max_int64. intros H Hne.
  destruct (Z.eq_dec off (2 ^ 63 - 1)) as [->|Hm].
  - vm_compute. discriminate.
  - rewrite wrap64_id; [lia|]. unfold in_int64, min_int64, max_int64. lia.
Qed.

Lemma jump_inv_segments k w segs' :
  jump_inv k w ->
  map (fun s => (offset s, path s)) segs'
  = map (fun s => (offset s, path s)) (segments (lg w)) ->
  jump_inv k (MkWorld (set_segments segs' (lg w)) (disk w)).
Proof.
  intros (Hs & Hne & H0 & Hk & (s & Hin & Ho & Hp)) E.
  unfold jump_inv. cbn [lg disk segments set_segments sfile].
  repeat split; auto.
  - intros ->. destruct (segments (lg w)); [congruence|discriminate].
  - destruct (elem_ids _ _ _ s (eq_sym E) Hin) as (y & Hy & Hf).
    inversion Hf. exists y. split; [exact Hy|split; congruence].
Qed.

Lemma jump_inv_write k w n p data lst :
  jump_inv k w -> sfile (lg w) = FOpen n p ->
  jump_inv k
    (MkWorld (set_lastOffset lst (set_sfile (FOpen n (p + length data)) (lg w)))
       (write_file n p data (disk w))).
Proof.
  intros (Hs & Hne & H0 & Hk & Hseg) Hsf.
  unfold jump_inv. cbn [lg disk segments set_lastOffset set_sfile sfile].
  repeat split; eauto.
  - apply write_file_lookup_None. exact H0.
  - apply write_file_lookup_Some. exact Hk.
Qed.

Lemma sum_list_cons_le (a : nat) l n :
  (sum_list (a :: l) <= n)%nat -> (a <= n)%nat /\ (sum_list l <= n - a)%nat.
Proof. simpl. lia. Qed.

(** From a world that satisfies [jump_inv], the loop of [writeBatch]
    returns normally and [jump_inv] still holds. *)
Lemma writeBatch_loop_jump k es : forall mark ds w,
  jump_inv k w ->
  (sum_list (map be_size es) <= length ds)%nat ->
  Forall (fun e => be_offset e <> -1 /\ in_int64 (be_offset e)) es ->
  exists mark' w', writeBatch_loop es mark ds w = Ok mark' w' /\ jump_inv k w'.
Proof.
  induction es as [|e es IH]; intros mark ds w Hinv Hsum HF.
  - simpl. eauto.
  - cbn [map] in Hsum. apply sum_list_cons_le in Hsum as [Hsz Hsum].
    apply Forall_cons in HF as [[Hm1 Hin] HF].
    cbn [writeBatch_loop].
    assert (forall w0, slice ds 0 (Z.of_nat (be_size e)) w0
            = Ok (take (Z.to_nat (Z.of_nat (be_size e) - 0)) (drop (Z.to_nat 0) ds)) w0)
      as Hsl1 by (intros; apply slice_ok; unfold len; lia).
    assert (forall w0, slice ds (Z.of_nat (be_size e)) (len ds) w0
            = Ok (take (Z.to_nat (len ds - Z.of_nat (be_size e)))
                    (drop (Z.to_nat (Z.of_nat (be_size e))) ds)) w0)
      as Hsl2 by (intros; apply slice_ok; unfold len; lia).
    rewrite (bind_ok _ _ _ _ _ (Hsl1 _)).
    rewrite bind_get_log.
    pose proof Hinv as ((n & p & Hsf) & Hne & _).
    destruct (last (segments (lg w))) as [s|] eqn:Hlast;
      [|apply last_None in Hlast; contradiction].
    unfold tail_index at 1.
    rewrite (bind_ok _ _ _ _ _ (index_of_last _ _ _ Hlast)).
    destruct (appendEntry (ebuf s) _) as [buf ep] eqn:Eap.
    pose proof (appendEntry_length (ebuf s)
                  (take (Z.to_nat (Z.of_nat (be_size e) - 0)) (drop (Z.to_nat 0) ds))) as Hlen.
    rewrite Eap in Hlen. cbn [fst] in Hlen.
    rewrite (bind_ok _ _ _ _ _ (set_seg_at_tail_eq _ _ _ Hlast)).
    set (segs1 := alter _ _ _).
    assert (jump_inv k (MkWorld (set_segments segs1 (lg w)) (disk w))) as Hinv1.
    { apply jump_inv_segments; [exact Hinv|]. apply ids_alter. intros; split; reflexivity. }
    assert (last segs1 = Some (set_bufs buf (epos s ++ [ep]) s)) as Hlast1.
    { unfold segs1. rewrite last_alter_last, Hlast. reflexivity. }
    assert ((sum_list (map be_size es)
             <= length (take (Z.to_nat (len ds - Z.of_nat (be_size e)))
                          (drop (Z.to_nat (Z.of_nat (be_size e))) ds)))%nat) as Hsum'.
    { rewrite length_take, length_drop. unfold len. lia. }
    destruct (SegmentSize (opts (lg w)) <=? len buf).
    + rewrite bind_assoc.
      rewrite (bind_ok _ _ _ _ _
                 (sfile_Write_eq _ n p
                    (MkWorld (set_segments segs1 (lg w)) (disk w)) Hsf)).
      rewrite bind_assoc, bind_modify_log. cbn [lg disk].
      rewrite bind_assoc.
      assert ((offset (set_bufs buf (epos s ++ [ep]) s) =? 0)
              && (len (ebuf (set_bufs buf (epos s ++ [ep]) s)) =? 0) = false) as Hst.
      { cbn [ebuf set_bufs]. apply andb_false_iff. right.
        apply Z.eqb_neq. unfold len. lia. }
      rewrite (bind_ok _ _ _ _ _
                 (cycle_eq (wrap64 (be_offset e + 1)) n (p + length (drop mark buf)) _
                    (MkWorld (set_lastOffset (be_offset e)
                                (set_sfile (FOpen n (p + length (drop mark buf)))
                                   (set_segments segs1 (lg w))))
                       (write_file n p (drop mark buf) (disk w)))
                    eq_refl Hlast1 Hst)).
      rewrite bind_ret.
      rewrite (bind_ok _ _ _ _ _ (Hsl2 _)).
      apply IH; [|exact Hsum'|exact HF].
      apply (jump_inv_cycle k _
               (MkWorld (set_lastOffset (be_offset e)
                           (set_sfile (FOpen n (p + length (drop mark buf)))
                              (set_segments segs1 (lg w))))
                  (write_file n p (drop mark buf) (disk w)))).
      * apply (jump_inv_write k (MkWorld (set_segments segs1 (lg w)) (disk w))).
        -- exact Hinv1.
        -- exact Hsf.
      * apply wrap64_range.
      * apply wrap64_succ_ne0; assumption.
    + rewrite bind_ret.
      rewrite (bind_ok _ _ _ _ _ (Hsl2 _)).
      apply IH; [exact Hinv1|exact Hsum'|exact HF].
Qed.

(** [cycle] away from the empty segment at offset 0. *)
Lemma cycle_stale_eq next n p tl c w :
  sfile (lg w) = FOpen n p ->
  last (segments (lg w)) = Some tl ->
  (offset tl =? 0) && (len (ebuf tl) =? 0) = true ->
  disk w !! path tl = Some c ->
  cycle next w
  = Ok tt (MkWorld
             (set_segments
                (segments (lg w) ++ [MkSegment (segmentName next) next [] []])
                (set_sfile (FOpen (segmentName next) 0)
                   (set_firstOffset next (set_sfile FClosed (lg w)))))
             (<[segmentName next := []]> (delete (path tl) (disk w)))).
Proof.
  intros Hs Htl Hst Hc. unfold cycle.
  rewrite (bind_ok _ _ _ _ _ (syncNoMutex_eq _ _ _ Hs)).
  rewrite (bind_ok _ _ _ _ _ (sfile_Close_eq _ _ _ Hs)).
  rewrite bind_get_log. cbn [lg disk].
  unfold tail_index. cbn [segments set_sfile].
  rewrite (bind_ok _ _ _ _ _ (index_of_last _ _ _ Htl)).
  rewrite Hst. rewrite bind_assoc, bind_modify_log. cbn [lg disk].
  unfold fs_Remove. rewrite bind_assoc, bind_get_disk. cbn [disk]. rewrite Hc.
  rewrite bind_modify_disk. cbn [lg disk path].
  rewrite (bind_ok _ _ _ _ _ (assign_sfile_newFile_eq _ _)).
  reflexivity.
Qed.

Lemma sum_sizes_mkBatch es :
  sum_list (map be_size (entries (mkBatch es))) = length (datas (mkBatch es)).
Proof.
  rewrite entries_mkBatch, datas_mkBatch.
  induction es as [|[o d] es IH]; [reflexivity|].
  cbn [map sum_list concat snd be_size]. rewrite length_app, IH. reflexivity.
Qed.

(** The part of [writeBatch] after the loop. *)
Lemma writeBatch_finish_jump k b mark w :
  jump_inv k w -> entries b <> [] ->
  exists w',
    (let* l := get_log in
     let* s := index_of (segments l) (tail_index l) in
     exec when (0 <? len (ebuf s) - Z.of_nat mark)
            (exec sfile_Write (drop mark (ebuf s)) then
             let* e := index_of (entries b) (len (entries b) - 1) in
             modify_log (set_lastOffset (be_offset e))) then
     when (negb (NoSync (opts l))) syncNoMutex) w = Ok tt w' /\
    jump_inv k w'.
Proof.
  intros Hinv Hne.
  pose proof Hinv as ((n & p & Hsf) & Hsne & _).
  destruct (last (segments (lg w))) as [s|] eqn:Hlast;
    [|apply last_None in Hlast; contradiction].
  destruct (last (entries b)) as [el|] eqn:Hel;
    [|apply last_None in Hel; contradiction].
  rewrite bind_get_log. unfold tail_index.
  rewrite (bind_ok _ _ _ _ _ (index_of_last _ _ _ Hlast)).
  pose proof (jump_inv_write k w n p (drop mark (ebuf s)) (be_offset el) Hinv Hsf) as Hinv'.
  destruct (0 <? len (ebuf s) - Z.of_nat mark); msimp.
  - mrun (sfile_Write_eq (drop mark (ebuf s)) n p w Hsf).
    mrun (index_of_last _ _ (MkWorld (set_sfile (FOpen n (p + length (drop mark (ebuf s)))) (lg w))
                               (write_file n p (drop mark (ebuf s)) (disk w))) Hel).
    destruct (NoSync (opts (lg w))); cbn [negb]; msimp.
    + eauto.
    + mrun (syncNoMutex_eq n (p + length (drop mark (ebuf s)))
              (MkWorld (set_lastOffset (be_offset el)
                          (set_sfile (FOpen n (p + length (drop mark (ebuf s)))) (lg w)))
                 (write_file n p (drop mark (ebuf s)) (disk w))) eq_refl).
      eauto.
  - destruct (NoSync (opts (lg w))); cbn [negb]; msimp.
    + eauto.
    + mrun (syncNoMutex_eq _ _ _ Hsf). eauto.
Qed.

Lemma writeBatch_fresh_jump o k d es :
  0 < k -> batch_ok (-1) ((k, d) :: es) ->
  exists w0 w',
    open o ∅ = Ok tt w0 /\
    closed (lg w0) = false /\ corrupt (lg w0) = false /\
    segments (lg w0) = [MkSegment (segmentName 0) 0 [] []] /\
    firstOffset (lg w0) = 0 /\ lastOffset (lg w0) = -1 /\
    disk w0 !! segmentName 0 = Some [] /\
    writeBatch (mkBatch ((k, d) :: es)) w0 = Ok tt w' /\
    jump_inv k w'.
Proof.
  intros Hk Hok.
  assert (Hopen := open_empty_dir o).
  set (w0 := MkWorld _ _) in Hopen. exists w0.
  assert (exists w', writeBatch (mkBatch ((k, d) :: es)) w0 = Ok tt w' /\ jump_inv k w')
    as (w' & HW & Hinv).
  2:{ exists w'. split; [exact Hopen|]. do 5 (split; [reflexivity|]).
      split; [|split; [exact HW|exact Hinv]].
      unfold w0. cbn [disk]. apply lookup_insert_eq. }
  destruct Hok as (_ & Hin & Hsorted & Hlo).
  set (b := mkBatch ((k, d) :: es)).
  assert (entries b !! 0%nat = Some (MkEntry k (length d))) as He0.
  { unfold b. rewrite entries_mkBatch. reflexivity. }
  assert (entries b <> []) as Hne by (intros E; rewrite E in He0; discriminate).
  unfold writeBatch. rewrite bind_get_log.
  unfold tail_index at 1.
  rewrite (bind_ok _ _ _ _ _
             (index_of_last [MkSegment (segmentName 0) 0 [] []]
                (MkSegment (segmentName 0) 0 [] []) _ eq_refl)).
  rewrite (bind_ok _ _ _ _ _ (index_of_Some _ 0 _ _ He0)).
  cbn [be_offset lg lastOffset w0].
  assert ((wrap64 (-1 + 1) <? k) = true) as ->.
  { change (wrap64 (-1 + 1)) with 0. apply Z.ltb_lt. exact Hk. }
  cbn [orb]. rewrite when_true, bind_assoc.
  assert (in_int64 k) as Hink.
  { apply Forall_cons in Hin as [H _]. exact H. }
  rewrite (bind_ok _ _ _ _ _
             (cycle_stale_eq k (segmentName 0) 0 (MkSegment (segmentName 0) 0 [] []) [] w0
                eq_refl eq_refl eq_refl (lookup_insert_eq _ _ _))).
  rewrite bind_ret.
  set (w1 := MkWorld _ _).
  assert (jump_inv k w1) as Hinv1.
  { unfold jump_inv, w1. cbn [lg disk segments set_segments sfile set_sfile path].
    repeat split.
    - eauto.
    - discriminate.
    - rewrite lookup_insert_ne.
      + cbn [path]. apply lookup_delete_eq.
      + intros E. apply segmentName_eq_0 in E; [lia|exact Hink].
    - rewrite lookup_insert_eq. eauto.
    - exists (MkSegment (segmentName k) k [] []). split; [|split; reflexivity].
      apply elem_of_app. right. apply list_elem_of_singleton. reflexivity. }
  rewrite bind_get_log. unfold tail_index at 1.
  rewrite (bind_ok _ _ _ _ _
             (index_of_last [MkSegment (segmentName 0) 0 [] []; MkSegment (segmentName k) k [] []]
                (MkSegment (segmentName k) k [] []) _ eq_refl)).
  destruct (writeBatch_loop_jump k (entries b) (length (ebuf (MkSegment (segmentName k) k [] [])))
              (datas b) w1 Hinv1) as (mark' & w2 & Hloop & Hinv2).
  { unfold b. rewrite sum_sizes_mkBatch. lia. }
  { unfold b. rewrite entries_mkBatch. rewrite Forall_forall. intros e He.
    apply list_elem_of_fmap in He as ([o' d'] & -> & He). cbn [be_offset fst].
    rewrite Forall_forall in Hin. split; [|apply (Hin _ He)].
    specialize (Hlo _ He). cbn in Hlo. lia. }
  rewrite (bind_ok _ _ _ _ _ Hloop).
  apply (writeBatch_finish_jump k b mark' w2 Hinv2 Hne).
Qed.

Lemma FirstIndex_eq w :
  closed (lg w) = false -> corrupt (lg w) = false ->
  FirstIndex w = Ok (firstOffset (lg w)) w.
Proof.
  intros Hc Hk. unfold FirstIndex.
  rewrite (bind_ok _ _ _ _ _ (guard_ok w Hc Hk)). reflexivity.
Qed.

Lemma LastIndex_eq w :
  closed (lg w) = false -> corrupt (lg w) = false ->
  LastIndex w = Ok (lastOffset (lg w)) w.
Proof.
  intros Hc Hk. unfold LastIndex.
  rewrite (bind_ok _ _ _ _ _ (guard_ok w Hc Hk)). reflexivity.
Qed.

Lemma sorted_last_max (l : list Z) x :
  StronglySorted Z.lt l -> last l = Some x -> forall y, y ∈ l -> y <= x.
Proof.
  induction 1 as [|a l Hs IH Ha]; intros Hl y Hy; [discriminate|].
  destruct l as [|b l].
  - simpl in Hl. inversion Hl; subst. apply list_elem_of_singleton in Hy. lia.
  - change (last (a :: b :: l)) with (last (b :: l)) in Hl.
    apply elem_of_cons in Hy as [->|Hy]; [|apply IH; auto].
    rewrite Forall_forall in Ha.
    assert (x ∈ b :: l) as Hx.
    { rewrite last_lookup in Hl. eapply list_elem_of_lookup_2; eauto. }
    specialize (Ha x Hx). lia.
Qed.

(** X24: for every [k > 0] and every batch whose offsets are [int64]
    values, strictly increasing, with first offset [k], written to a log
    freshly opened on an empty directory (any options): the write returns
    normally, the file of the initial segment at offset 0 is removed, a
    segment with base offset [k] is in [l.segments] and its file exists,
    [first_index() = k], and [last_index()] is the offset of the last entry
    of the batch, which is its highest offset.  (The initial segment itself
    stays in [l.segments].) *)
Theorem first_write_jumps (o : Options) (k : Z) (d : list byte)
    (es : list (Z * list byte)) :
  0 < k -> batch_ok (-1) ((k, d) :: es) ->
  exists w0 w' el,
    open o ∅ = Ok tt w0 /\
    segments (lg w0) = [MkSegment (segmentName 0) 0 [] []] /\
    disk w0 !! segmentName 0 = Some [] /\
    WriteBatch (mkBatch ((k, d) :: es)) w0 = Ok tt w' /\
    disk w' !! segmentName 0 = None /\
    is_Some (disk w' !! segmentName k) /\
    (exists s, s ∈ segments (lg w') /\ offset s = k /\ path s = segmentName k) /\
    FirstIndex w' = Ok k w' /\
    last ((k, d) :: es) = Some el /\
    LastIndex w' = Ok (fst el) w' /\
    (forall e, e ∈ (k, d) :: es -> fst e <= fst el).
Proof.
  intros Hk Hok.
  destruct (writeBatch_fresh_jump o k d es Hk Hok)
    as (w0 & w' & Hopen & Hc0 & Hk0 & Hsegs & Hf0 & Hl0 & Hd0 & HW & Hinv).
  assert (entries (mkBatch ((k, d) :: es)) !! 0%nat = Some (MkEntry k (length d))) as He0.
  { rewrite entries_mkBatch. reflexivity. }
  pose proof (writeBatch_post _ _ w0 He0 tt w' HW) as HP. cbv beta in HP.
  destruct HP as ([Hc' Hk'] & (s & Hs & Hfi) & bel & Hbel & Hl').
  rewrite Hsegs in Hs. cbn in Hs. inversion Hs; subst s. clear Hs.
  rewrite Hl0 in Hfi. cbn [offset ebuf be_offset] in Hfi.
  change (wrap64 (-1 + 1)) with 0 in Hfi.
  destruct (Z.ltb_spec 0 k) as [_|]; [|lia].
  assert (firstOffset (lg w') = k) as Hfi' by (rewrite Hfi; reflexivity).
  rewrite entries_mkBatch in Hbel.
  rewrite fmap_last in Hbel.
  destruct (last ((k, d) :: es)) as [el|] eqn:Hel; [|discriminate].
  cbn in Hbel. inversion Hbel; subst bel. cbn [be_offset] in Hl'.
  exists w0, w', el.
  destruct Hinv as (_ & _ & Hn0 & Hnk & Hseg).
  split; [exact Hopen|]. split; [exact Hsegs|]. split; [exact Hd0|].
  split.
  { unfold WriteBatch. rewrite (bind_ok _ _ _ _ _ (guard_ok w0 Hc0 Hk0)).
    rewrite entries_mkBatch. cbn [map len length].
    destruct (Z.eqb_spec (Z.of_nat (S (length (map (fun e : Z * list byte => MkEntry e.1 (length e.2)) es)))) 0);
      [lia|exact HW]. }
  split; [exact Hn0|]. split; [exact Hnk|]. split; [exact Hseg|].
  split.
  { rewrite <- Hfi'. apply FirstIndex_eq; congruence. }
  split; [reflexivity|].
  split.
  { rewrite <- Hl'. apply LastIndex_eq; congruence. }
  intros e He. destruct Hok as (_ & _ & Hsorted & _).
  apply (sorted_last_max (map fst ((k, d) :: es)) (fst el) Hsorted).
  - rewrite fmap_last, Hel. reflexivity.
  - apply list_elem_of_fmap. eauto.
Qed.

Lemma first_write_jumps_witness :
  exists w0 w' el,
    open DefaultOptions ∅ = Ok tt w0 /\
    segments (lg w0) = [MkSegment (segmentName 0) 0 [] []] /\
    disk w0 !! segmentName 0 = Some [] /\
    WriteBatch (mkBatch [(5, bytes_of "a"); (6, bytes_of "b")]) w0 = Ok tt w' /\
    disk w' !! segmentName 0 = None /\
    is_Some (disk w' !! segmentName 5) /\
    (exists s, s ∈ segments (lg w') /\ offset s = 5 /\ path s = segmentName 5) /\
    FirstIndex w' = Ok 5 w' /\
    last [(5, bytes_of "a"); (6, bytes_of "b")] = Some el /\
    LastIndex w' = Ok (fst el) w' /\
    (forall e, e ∈ [(5, bytes_of "a"); (6, bytes_of "b")] -> fst e <= fst el).
Proof.
  apply (first_write_jumps DefaultOptions 5 (bytes_of "a") [(6, bytes_of "b")]).
  - lia.
  - unfold batch_ok. split; [discriminate|]. split; [|split].
    + repeat constructor; vm_compute; discriminate.
    + repeat constructor; lia.
    + intros e He. apply elem_of_cons in He as [->|He]; [simpl; lia|].
      apply list_elem_of_singleton in He as ->. simpl. lia.
Defined.

(** ** Well-formed logs *)

Lemma csegs_length a : length (csegs a) = (sh a + length (a_pre a) + 1)%nat.
Proof.
  unfold csegs, sh. rewrite !length_app, length_map.
  destruct (a_stale a); simpl; lia.
Qed.

Lemma csegs_lookup_pre a i s :
  a_pre a !! i = Some s -> csegs a !! (sh a + i)%nat = Some (cseg s).
Proof.
  intros H. unfold csegs, sh. destruct (a_stale a); simpl.
  - rewrite lookup_app_l by (rewrite length_map; eapply lookup_lt_Some; eauto).
    rewrite list_lookup_fmap, H. reflexivity.
  - rewrite lookup_app_l by (rewrite length_map; eapply lookup_lt_Some; eauto).
    rewrite list_lookup_fmap, H. reflexivity.
Qed.

Lemma csegs_lookup_tail a :
  csegs a !! (sh a + length (a_pre a))%nat = Some (ctail a).
Proof.
  unfold csegs, sh. destruct (a_stale a); simpl.
  - rewrite lookup_app_r by (rewrite length_map; lia).
    rewrite length_map, Nat.sub_diag. reflexivity.
  - rewrite lookup_app_r by (rewrite length_map; lia).
    rewrite length_map, Nat.sub_diag. reflexivity.
Qed.

Lemma csegs_last a : last (csegs a) = Some (ctail a).
Proof.
  unfold csegs. rewrite app_assoc. apply last_snoc.
Qed.

Lemma csegs_lookup_stale a :
  a_stale a = true -> csegs a !! 0%nat = Some stale_seg.
Proof. intros H. unfold csegs. rewrite H. reflexivity. Qed.

Lemma csegs_nonempty a : csegs a <> [].
Proof.
  intros E. apply (f_equal length) in E. rewrite csegs_length in E. simpl in E. lia.
Qed.

Lemma tail_index_csegs a :
  len (csegs a) - 1 = Z.of_nat (sh a + length (a_pre a)).
Proof. unfold len. rewrite csegs_length. lia. Qed.

(** *** Consequences of the chain condition *)

Lemma span_lt_trans : Transitive span_lt.
Proof.
  intros [o1 n1] [o2 n2] [o3 n3]. unfold span_lt. simpl. lia.
Qed.

Lemma aspans_lookup_pre a i s :
  a_pre a !! i = Some s -> aspans a !! i = Some (a_off s, length (a_ds s)).
Proof.
  intros H. unfold aspans.
  rewrite lookup_app_l by (rewrite length_map; eapply lookup_lt_Some; eauto).
  rewrite list_lookup_fmap, H. reflexivity.
Qed.

Lemma aspans_lookup_tail a :
  aspans a !! length (a_pre a) = Some (a_toff a, length (a_tds a)).
Proof.
  unfold aspans. rewrite lookup_app_r by (rewrite length_map; lia).
  rewrite length_map, Nat.sub_diag. reflexivity.
Qed.

Lemma chain_lookup (l : list (Z * nat)) i j x y :
  StronglySorted span_lt l -> (i < j)%nat ->
  l !! i = Some x -> l !! j = Some y -> span_lt x y.
Proof.
  intros Hs. revert i j. induction Hs as [|z l Hs IH Hz]; intros i j Hij Hi Hj.
  - discriminate.
  - destruct j as [|j]; [lia|]. simpl in Hj.
    destruct i as [|i].
    + simpl in Hi. inversion Hi; subst. rewrite Forall_forall in Hz.
      apply Hz. eapply list_elem_of_lookup_2; eauto.
    + simpl in Hi. apply (IH i j); [lia | exact Hi | exact Hj].
Qed.

Lemma valid_pre_pre a i j s t :
  valid a -> (i < j)%nat -> a_pre a !! i = Some s -> a_pre a !! j = Some t ->
  a_off s + len (a_ds s) <= a_off t /\ a_off s < a_off t.
Proof.
  intros Hv Hij Hi Hj.
  apply (chain_lookup _ i j _ _ (v_chain a Hv) Hij
           (aspans_lookup_pre a i s Hi) (aspans_lookup_pre a j t Hj)).
Qed.

Lemma valid_pre_tail a i s :
  valid a -> a_pre a !! i = Some s ->
  a_off s + len (a_ds s) <= a_toff a /\ a_off s < a_toff a.
Proof.
  intros Hv Hi.
  apply (chain_lookup _ i (length (a_pre a)) _ _ (v_chain a Hv)
           (lookup_lt_Some _ _ _ Hi)
           (aspans_lookup_pre a i s Hi) (aspans_lookup_tail a)).
Qed.

Lemma valid_first_le a i s :
  valid a -> a_pre a !! i = Some s -> afirst a <= a_off s.
Proof.
  intros Hv Hi. unfold afirst. destruct (a_pre a) as [|s0 pre] eqn:E; [discriminate|].
  destruct i as [|i].
  - simpl in Hi. inversion Hi; subst. lia.
  - assert (a_pre a !! 0%nat = Some s0) as H0 by (rewrite E; reflexivity).
    assert (a_pre a !! S i = Some s) as Hs by (rewrite E; exact Hi).
    pose proof (valid_pre_pre a 0 (S i) s0 s Hv ltac:(lia) H0 Hs). lia.
Qed.

Lemma valid_first_le_tail a : valid a -> afirst a <= a_toff a.
Proof.
  intros Hv. unfold afirst. destruct (a_pre a) as [|s0 pre] eqn:E; [lia|].
  assert (a_pre a !! 0%nat = Some s0) as H0 by (rewrite E; reflexivity).
  pose proof (valid_pre_tail a 0 s0 Hv H0). lia.
Qed.

Lemma valid_toff_range a : valid a -> 0 <= a_toff a <= max_int64.
Proof.
  intros Hv. pose proof (valid_first_le_tail a Hv). pose proof (v_first a Hv).
  pose proof (v_last a Hv). unfold len in *. lia.
Qed.

Lemma valid_off_range a i s :
  valid a -> a_pre a !! i = Some s -> 0 <= a_off s < max_int64.
Proof.
  intros Hv Hi. pose proof (valid_first_le a i s Hv Hi).
  pose proof (valid_pre_tail a i s Hv Hi). pose proof (v_first a Hv).
  pose proof (valid_toff_range a Hv). lia.
Qed.

Lemma valid_first_range a : valid a -> 0 <= afirst a <= max_int64.
Proof.
  intros Hv. pose proof (valid_first_le_tail a Hv). pose proof (v_first a Hv).
  pose proof (valid_toff_range a Hv). lia.
Qed.

Lemma valid_last_range a : valid a -> -1 <= alast a < max_int64.
Proof.
  intros Hv. pose proof (valid_toff_range a Hv). pose proof (v_last a Hv).
  unfold alast, len in *. lia.
Qed.


(** ** Files, segments and the cache of a well-formed log *)

Lemma StronglySorted_lookup {A} (R : relation A) (l : list A) i j x y :
  StronglySorted R l -> (i < j)%nat ->
  l !! i = Some x -> l !! j = Some y -> R x y.
Proof.
  intros Hs. revert i j. induction Hs as [|z l Hs IH Hz]; intros i j Hij Hi Hj.
  - discriminate.
  - destruct j as [|j]; [lia|]. simpl in Hj.
    destruct i as [|i].
    + simpl in Hi. inversion Hi; subst. rewrite Forall_forall in Hz.
      apply Hz. eapply list_elem_of_lookup_2; eauto.
    + simpl in Hi. apply (IH i j); [lia | exact Hi | exact Hj].
Qed.

Lemma StronglySorted_NoDup {A} (R : relation A) (l : list A) :
  (forall x, ~ R x x) -> StronglySorted R l -> NoDup l.
Proof.
  intros Hir Hs. induction Hs as [|z l Hs IH Hz]; constructor; auto.
  intros Hin. rewrite Forall_forall in Hz. apply (Hir z). auto.
Qed.

Lemma map_alter_same {A B} (f : A -> B) (g : A -> A) i (l : list A) :
  (forall x, f (g x) = f x) -> map f (alter g i l) = map f l.
Proof.
  intros H. revert i. induction l as [|x l IH]; intros i; [reflexivity|].
  destruct i; simpl; f_equal; auto. apply IH.
Qed.

Lemma fmap_alter_at {A B} (f : A -> B) (g : A -> A) (h : B -> B) i (l : list A) x :
  l !! i = Some x -> f (g x) = h (f x) ->
  f <$> alter g i l = alter h i (f <$> l).
Proof.
  revert i. induction l as [|y l IH]; intros i Hi H; [discriminate|].
  destruct i as [|i]; simpl in *.
  - inversion Hi; subst. f_equal. exact H.
  - f_equal. apply IH; auto.
Qed.

Lemma head_alter_same {A B} (f : A -> B) (g : A -> A) i (l : list A) :
  (forall x, f (g x) = f x) -> f <$> head (alter g i l) = f <$> head l.
Proof.
  intros H. destruct l as [|x l]; [reflexivity|].
  destruct i; simpl; rewrite ?H; reflexivity.
Qed.

Lemma aoffsets_spans a : aoffsets a = fst <$> aspans a.
Proof.
  unfold aoffsets, aspans. rewrite fmap_app, <- list_fmap_compose. reflexivity.
Qed.

Lemma afiles_names a m : (afiles a m).*1 = segmentName <$> aoffsets a.
Proof.
  unfold afiles, aoffsets. rewrite !fmap_app, <- !list_fmap_compose. reflexivity.
Qed.

Lemma aoffsets_sorted a : valid a -> StronglySorted Z.lt (aoffsets a).
Proof.
  intros Hv. rewrite aoffsets_spans.
  apply (StronglySorted_fmap fst span_lt Z.lt); [|apply (v_chain a Hv)].
  intros x y [_ H]. exact H.
Qed.

Lemma aoffsets_range a x : valid a -> x ∈ aoffsets a -> 0 <= x <= max_int64.
Proof.
  intros Hv Hx. unfold aoffsets in Hx. apply elem_of_app in Hx as [Hx|Hx].
  - apply list_elem_of_fmap in Hx as (s & -> & Hs).
    apply list_elem_of_lookup_1 in Hs as [i Hi].
    pose proof (valid_off_range a i s Hv Hi). lia.
  - apply list_elem_of_singleton in Hx as ->. apply valid_toff_range; auto.
Qed.

Lemma valid_names_NoDup a m : valid a -> NoDup (afiles a m).*1.
Proof.
  intros Hv. rewrite afiles_names. apply NoDup_fmap_2_strong.
  - intros x y Hx Hy. apply segmentName_inj; eapply aoffsets_range; eauto.
  - apply (StronglySorted_NoDup Z.lt); [intros x; lia|]. apply aoffsets_sorted; auto.
Qed.

Lemma disk_lookup_pre a m lst i s :
  valid a -> a_pre a !! i = Some s ->
  disk (repr a m lst) !! segmentName (a_off s) = Some (encode_all (a_ds s)).
Proof.
  intros Hv Hi. unfold repr. cbn [disk].
  apply elem_of_list_to_map_1; [apply valid_names_NoDup; auto|].
  unfold afiles. apply elem_of_app. left.
  apply list_elem_of_fmap. exists s. split; [reflexivity|].
  eapply list_elem_of_lookup_2; eauto.
Qed.

Lemma disk_lookup_tail a m lst :
  valid a ->
  disk (repr a m lst) !! segmentName (a_toff a)
  = Some (encode_all (take m (a_tds a))).
Proof.
  intros Hv. unfold repr. cbn [disk].
  apply elem_of_list_to_map_1; [apply valid_names_NoDup; auto|].
  unfold afiles. apply elem_of_app. right. apply list_elem_of_singleton. reflexivity.
Qed.

Lemma disk_lookup_other a m lst n :
  (forall x, x ∈ aoffsets a -> n <> segmentName x) ->
  disk (repr a m lst) !! n = None.
Proof.
  intros H. unfold repr. cbn [disk]. apply not_elem_of_list_to_map_1.
  rewrite afiles_names. intros Hin.
  apply list_elem_of_fmap in Hin as (x & -> & Hx). apply (H x Hx). reflexivity.
Qed.

(** *** Evicting, pushing, loading *)

Lemma sh_set_a_pre p a : sh (set_a_pre p a) = sh a.
Proof. reflexivity. Qed.

Lemma afirst_alter g i a :
  (forall x, a_off (g x) = a_off x) ->
  afirst (set_a_pre (alter g i (a_pre a)) a) = afirst a.
Proof.
  intros H. unfold afirst. cbn [a_pre set_a_pre a_toff].
  destruct (a_pre a) as [|x l]; [reflexivity|].
  destruct i; simpl; rewrite ?H; reflexivity.
Qed.

Lemma afiles_alter g i a m :
  (forall x, a_off (g x) = a_off x) -> (forall x, a_ds (g x) = a_ds x) ->
  afiles (set_a_pre (alter g i (a_pre a)) a) m = afiles a m.
Proof.
  intros H1 H2. unfold afiles. cbn [a_pre set_a_pre a_toff a_tds].
  f_equal. apply map_alter_same. intros x. rewrite H1, H2. reflexivity.
Qed.

Lemma content_alter g i a :
  (forall x, a_off (g x) = a_off x) -> (forall x, a_ds (g x) = a_ds x) ->
  content (set_a_pre (alter g i (a_pre a)) a) = content a.
Proof.
  intros H1 H2. unfold content. cbn [a_pre set_a_pre a_toff a_tds].
  f_equal. apply map_alter_same. intros x. rewrite H1, H2. reflexivity.
Qed.

Lemma aspans_alter g i a :
  (forall x, a_off (g x) = a_off x) -> (forall x, a_ds (g x) = a_ds x) ->
  aspans (set_a_pre (alter g i (a_pre a)) a) = aspans a.
Proof.
  intros H1 H2. unfold aspans. cbn [a_pre set_a_pre a_toff a_tds].
  f_equal. apply map_alter_same. intros x. rewrite H1, H2. reflexivity.
Qed.

Lemma csegs_alter (g : aseg -> aseg) (h : segment -> segment) i s a :
  a_pre a !! i = Some s ->
  cseg (g s) = h (cseg s) ->
  csegs (set_a_pre (alter g i (a_pre a)) a) = alter h (sh a + i)%nat (csegs a).
Proof.
  intros Hs H. pose proof (lookup_lt_Some _ _ _ Hs) as Hi. unfold csegs, sh. cbn [a_pre set_a_pre a_stale]. unfold ctail at 1.
  cbn [a_toff a_tds set_a_pre]. fold (ctail a).
  assert (map cseg (alter g i (a_pre a)) ++ [ctail a]
          = alter h i (map cseg (a_pre a) ++ [ctail a])) as E.
  { rewrite alter_app_l by (rewrite length_map; exact Hi).
    f_equal. apply (fmap_alter_at cseg g h i _ s); auto. }
  destruct (a_stale a); cbn [app Nat.add]; rewrite E; reflexivity.
Qed.

Lemma csegs_evict a j :
  (j < sh a + length (a_pre a))%nat ->
  alter dormant j (csegs a) = csegs (a_evict j a).
Proof.
  intros Hj. unfold a_evict. destruct (Nat.ltb_spec j (sh a)) as [Hlt|Hge].
  - unfold sh in Hlt. unfold csegs. destruct (a_stale a); [|lia].
    assert (j = 0)%nat as -> by lia. reflexivity.
  - destruct (lookup_lt_is_Some_2 (a_pre a) (j - sh a)) as [s Hs]; [lia|].
    rewrite (csegs_alter (set_res false) dormant _ s) by (exact Hs || reflexivity).
    f_equal. lia.
Qed.

Lemma repr_evict a j m lst :
  repr (a_evict j a) m lst
  = MkWorld (set_segments (csegs (a_evict j a)) (lg (repr a m lst)))
      (disk (repr a m lst)).
Proof.
  unfold a_evict. destruct (j <? sh a)%nat; [reflexivity|].
  unfold repr. rewrite afiles_alter, afirst_alter by reflexivity. reflexivity.
Qed.

Lemma repr_set_cache c a m lst :
  repr (set_a_cache c a) m lst
  = MkWorld (set_scache c (lg (repr a m lst))) (disk (repr a m lst)).
Proof. reflexivity. Qed.

Lemma lru_set_evicted cap k c c' j :
  lru_set cap k c = (c', Some j) -> j ∈ c /\ j <> k.
Proof.
  unfold lru_set. destruct (decide (k ∈ c)) as [Hin|Hnin]; [discriminate|].
  destruct (length c =? cap)%nat; [|discriminate].
  intros H. inversion H; subst. 
  assert (j ∈ c) as Hj.
  { destruct c as [|x c] using rev_ind; [discriminate|].
    rewrite last_snoc in H2. inversion H2; subst.
    apply elem_of_app. right. apply list_elem_of_singleton. reflexivity. }
  split; [exact Hj|]. intros ->. contradiction.
Qed.

Lemma lru_set_keys cap k c c' ev x :
  lru_set cap k c = (c', ev) -> x ∈ c' -> x = k \/ x ∈ c.
Proof.
  unfold lru_set. destruct (decide (k ∈ c)) as [Hin|Hnin].
  - intros H Hx. inversion H; subst. apply elem_of_cons in Hx as [->|Hx]; [auto|].
    right. apply list_elem_of_filter in Hx. tauto.
  - destruct (length c =? cap)%nat; intros H Hx; inversion H; subst;
      apply elem_of_cons in Hx as [->|Hx]; auto.
    right. destruct c as [|y c] using rev_ind; [inversion Hx|].
    rewrite removelast_last in Hx. apply elem_of_app. auto.
Qed.

(** [pushCache(k)] on a well-formed log. *)
Lemma pushCache_repr a k m lst :
  (k < length (csegs a))%nat ->
  Forall (fun j => (j < sh a + length (a_pre a))%nat) (a_cache a) ->
  pushCache (Z.of_nat k) (repr a m lst) = Ok tt (repr (a_push k a) m lst).
Proof.
  intros Hk Hc. destruct (lookup_lt_is_Some_2 _ _ Hk) as [s Hs].
  rewrite (pushCache_eq k s) by exact Hs. f_equal.
  unfold pushCache_log, a_push. cbn [lg repr opts scache].
  destruct (lru_set _ _ _) as [c ev] eqn:E.
  destruct ev as [j|]; [|reflexivity].
  apply lru_set_evicted in E as [Hj _].
  rewrite Forall_forall in Hc. specialize (Hc j Hj).
  cbn [segments]. rewrite (csegs_evict a j Hc).
  rewrite repr_set_cache, repr_evict. reflexivity.
Qed.

(** [loadSegmentEntries] on the [i]-th segment that has a file. *)
Lemma loadSegmentEntries_repr a i s m lst :
  valid a -> a_pre a !! i = Some s ->
  loadSegmentEntries (sh a + i)%nat (repr a m lst) = Ok tt (repr (a_load i a) m lst).
Proof.
  intros Hv Hi. unfold loadSegmentEntries. rewrite bind_get_log.
  cbn [lg repr segments]. rewrite (csegs_lookup_pre a i s Hi).
  unfold fs_ReadFile. rewrite bind_assoc, bind_get_disk.
  cbn [path cseg]. rewrite (disk_lookup_pre a m lst i s Hv Hi). rewrite bind_ret.
  pose proof (v_small_pre a Hv) as Hsm. rewrite Forall_forall in Hsm.
  rewrite parse_frames_encode by (apply Hsm; eapply list_elem_of_lookup_2; eauto).
  unfold modify_log. f_equal. unfold a_load, repr.
  rewrite afiles_alter, afirst_alter by reflexivity.
  rewrite (csegs_alter (set_res true)
             (set_bufs (encode_all (a_ds s)) (positions 0 (a_ds s))) i s)
    by (exact Hi || reflexivity).
  reflexivity.
Qed.

(** ** Reading from a well-formed log *)

Lemma same_content_refl a : same_content a a.
Proof. split; reflexivity. Qed.

Lemma same_content_trans a b c :
  same_content a b -> same_content b c -> same_content a c.
Proof. intros [H1 H2] [H3 H4]. split; congruence. Qed.

Lemma same_content_alter g i a :
  (forall x, a_off (g x) = a_off x) -> (forall x, a_ds (g x) = a_ds x) ->
  same_content a (set_a_pre (alter g i (a_pre a)) a).
Proof. intros H1 H2. split; [reflexivity|]. apply content_alter; auto. Qed.

Lemma same_content_evict j a : same_content a (a_evict j a).
Proof.
  unfold a_evict. destruct (j <? sh a)%nat; [apply same_content_refl|].
  apply same_content_alter; reflexivity.
Qed.

Lemma same_content_push k a : same_content a (a_push k a).
Proof.
  unfold a_push. destruct (lru_set _ _ _) as [c [j|]].
  - destruct (same_content_evict j a) as [H1 H2]. split; [exact H1 | exact H2].
  - split; reflexivity.
Qed.

Lemma same_content_load i a : same_content a (a_load i a).
Proof. apply same_content_alter; reflexivity. Qed.

Lemma valid_alter g i a :
  (forall x, a_off (g x) = a_off x) -> (forall x, a_ds (g x) = a_ds x) ->
  valid a -> valid (set_a_pre (alter g i (a_pre a)) a).
Proof.
  intros H1 H2 Hv. constructor.
  - rewrite aspans_alter by auto. apply (v_chain a Hv).
  - rewrite afirst_alter by auto. apply (v_first a Hv).
  - apply (v_last a Hv).
  - cbn [a_pre set_a_pre]. apply Forall_alter; [apply (v_small_pre a Hv)|].
    intros x _ Hx. rewrite H2. exact Hx.
  - apply (v_small_tl a Hv).
  - cbn [a_cache a_pre set_a_pre]. rewrite length_alter. apply (v_cache a Hv).
  - rewrite afirst_alter by auto. apply (v_stale a Hv).
  - apply (v_size a Hv).
  - apply (v_csize a Hv).
Qed.

Lemma valid_evict j a : valid a -> valid (a_evict j a).
Proof.
  intros Hv. unfold a_evict. destruct (j <? sh a)%nat; [exact Hv|].
  apply valid_alter; auto.
Qed.

Lemma valid_load i a : valid a -> valid (a_load i a).
Proof. intros Hv. apply valid_alter; auto. Qed.

Lemma evict_length j a : length (a_pre (a_evict j a)) = length (a_pre a).
Proof.
  unfold a_evict. destruct (j <? sh a)%nat; [reflexivity|].
  cbn [a_pre set_a_pre]. apply length_alter.
Qed.

Lemma evict_stale j a : a_stale (a_evict j a) = a_stale a.
Proof. unfold a_evict. destruct (j <? sh a)%nat; reflexivity. Qed.

Lemma evict_sh j a : sh (a_evict j a) = sh a.
Proof. unfold sh. rewrite evict_stale. reflexivity. Qed.

Lemma valid_set_cache c a :
  valid a -> Forall (fun k => (k < sh a + length (a_pre a))%nat) c ->
  valid (set_a_cache c a).
Proof.
  intros Hv Hc. constructor; try apply Hv. exact Hc.
Qed.

Lemma valid_push k a :
  valid a -> (k < sh a + length (a_pre a))%nat -> valid (a_push k a).
Proof.
  intros Hv Hk. unfold a_push. destruct (lru_set _ _ _) as [c ev] eqn:E.
  assert (Forall (fun j => (j < sh a + length (a_pre a))%nat) c) as Hc.
  { apply Forall_forall. intros x Hx.
    destruct (lru_set_keys _ _ _ _ _ x E Hx) as [->|Hin]; [exact Hk|].
    pose proof (v_cache a Hv) as Hca. rewrite Forall_forall in Hca. auto. }
  destruct ev as [j|].
  - apply valid_set_cache; [apply valid_evict; auto|].
    rewrite evict_sh, evict_length. exact Hc.
  - apply valid_set_cache; auto.
Qed.

Lemma push_stale k a : a_stale (a_push k a) = a_stale a.
Proof.
  unfold a_push. destruct (lru_set _ _ _) as [c [j|]]; cbn [a_stale set_a_cache];
    [apply evict_stale | reflexivity].
Qed.

Lemma push_length k a : length (a_pre (a_push k a)) = length (a_pre a).
Proof.
  unfold a_push. destruct (lru_set _ _ _) as [c [j|]]; cbn [a_pre set_a_cache];
    [apply evict_length | reflexivity].
Qed.

Lemma csegs_set_cache c a : csegs (set_a_cache c a) = csegs a.
Proof. reflexivity. Qed.

Lemma lru_set_head cap k c c' ev : lru_set cap k c = (c', ev) -> k ∈ c'.
Proof.
  unfold lru_set. destruct (decide (k ∈ c)); [|destruct (length c =? cap)%nat];
    intros H; inversion H; subst; apply elem_of_cons; auto.
Qed.

Lemma push_cache_head k a : k ∈ a_cache (a_push k a).
Proof.
  unfold a_push. destruct (lru_set _ _ _) as [c ev] eqn:E.
  cbn [a_cache set_a_cache]. eapply lru_set_head; eauto.
Qed.

(** The segment pushed to the cache is not the one evicted. *)
Lemma csegs_push_lookup k a :
  Forall (fun j => (j < sh a + length (a_pre a))%nat) (a_cache a) ->
  csegs (a_push k a) !! k = csegs a !! k.
Proof.
  intros Hc. unfold a_push. destruct (lru_set _ _ _) as [c ev] eqn:E.
  rewrite csegs_set_cache. destruct ev as [j|]; [|reflexivity].
  apply lru_set_evicted in E as [Hj Hne].
  rewrite Forall_forall in Hc. specialize (Hc j Hj).
  rewrite <- (csegs_evict a j Hc). apply list_lookup_alter_ne. exact Hne.
Qed.

(** *** The binary search *)

Lemma findSegment_loop_spec segs index :
  StronglySorted Z.lt (offset <$> segs) ->
  forall fuel i j, (i <= j <= length segs)%nat -> (j - i < fuel)%nat ->
  (forall k s, (k < i)%nat -> segs !! k = Some s -> offset s <= index) ->
  (forall k s, (j <= k)%nat -> segs !! k = Some s -> index < offset s) ->
  (i <= findSegment_loop fuel segs index i j <= j)%nat /\
  (forall k s, (k < findSegment_loop fuel segs index i j)%nat ->
               segs !! k = Some s -> offset s <= index) /\
  (forall k s, (findSegment_loop fuel segs index i j <= k)%nat ->
               segs !! k = Some s -> index < offset s).
Proof.
  intros Hs.
  assert (forall k1 k2 s1 s2, (k1 <= k2)%nat -> segs !! k1 = Some s1 ->
            segs !! k2 = Some s2 -> offset s1 <= offset s2) as Hmono.
  { intros k1 k2 s1 s2 Hk H1 H2. destruct (decide (k1 = k2)) as [->|Hne].
    - rewrite H1 in H2. inversion H2. lia.
    - assert ((offset <$> segs) !! k1 = Some (offset s1)) as E1
        by (rewrite list_lookup_fmap, H1; reflexivity).
      assert ((offset <$> segs) !! k2 = Some (offset s2)) as E2
        by (rewrite list_lookup_fmap, H2; reflexivity).
      pose proof (StronglySorted_lookup Z.lt _ k1 k2 _ _ Hs ltac:(lia) E1 E2). lia. }
  induction fuel as [|fuel IH]; intros i j Hij Hf Hlo Hhi; [lia|].
  cbn [findSegment_loop]. destruct (Nat.ltb_spec i j) as [Hlt|Hge].
  - set (h := (i + (j - i) / 2)%nat).
    assert (i <= h < j)%nat as Hh.
    { unfold h. pose proof (Nat.div_lt (j - i) 2 ltac:(lia) ltac:(lia)). lia. }
    destruct (lookup_lt_is_Some_2 segs h ltac:(lia)) as [s Hsh]. rewrite Hsh.
    destruct (Z.leb_spec (offset s) index) as [Hle|Hgt].
    + destruct (IH (h + 1)%nat j ltac:(lia) ltac:(lia)) as (R1 & R2 & R3).
      * intros k s' Hk Hs'. pose proof (Hmono k h s' s ltac:(lia) Hs' Hsh). lia.
      * exact Hhi.
      * split; [lia|]. split; assumption.
    + destruct (IH i h ltac:(lia) ltac:(lia)) as (R1 & R2 & R3).
      * exact Hlo.
      * intros k s' Hk Hs'. pose proof (Hmono h k s s' ltac:(lia) Hsh Hs'). lia.
      * split; [lia|]. split; assumption.
  - assert (i = j) by lia. subst j. split; [lia|]. split; assumption.
Qed.

Lemma csegs_offsets a :
  offset <$> csegs a = (if a_stale a then [0] else []) ++ aoffsets a.
Proof.
  unfold csegs, aoffsets. rewrite !fmap_app, <- list_fmap_compose.
  destruct (a_stale a); reflexivity.
Qed.

Lemma csegs_sorted a : valid a -> StronglySorted Z.lt (offset <$> csegs a).
Proof.
  intros Hv. rewrite csegs_offsets. destruct (a_stale a) eqn:E.
  - cbn [app]. constructor; [apply aoffsets_sorted; auto|].
    apply Forall_forall. intros x Hx.
    pose proof (v_stale a Hv E) as Hf.
    unfold aoffsets in Hx. apply elem_of_app in Hx as [Hx|Hx].
    + apply list_elem_of_fmap in Hx as (s & -> & Hin).
      apply list_elem_of_lookup_1 in Hin as [i Hi].
      pose proof (valid_first_le a i s Hv Hi). lia.
    + apply list_elem_of_singleton in Hx as ->.
      pose proof (valid_first_le_tail a Hv). lia.
  - apply aoffsets_sorted; auto.
Qed.

Lemma csegs_lookup_first a :
  exists s, csegs a !! sh a = Some s /\ offset s = afirst a.
Proof.
  unfold afirst. destruct (a_pre a) as [|s0 pre] eqn:E.
  - exists (ctail a). split; [|reflexivity].
    pose proof (csegs_lookup_tail a) as H. rewrite E in H. simpl in H.
    rewrite Nat.add_0_r in H. exact H.
  - exists (cseg s0). split; [|reflexivity].
    pose proof (csegs_lookup_pre a 0 s0) as H. rewrite E in H.
    rewrite Nat.add_0_r in H. apply H. reflexivity.
Qed.

Lemma len_positions ds p : len (positions p ds) = len ds.
Proof. unfold len. rewrite positions_length. reflexivity. Qed.

(** *** [loadSegment] *)

Lemma loadSegment_tail a m lst index :
  a_toff a <= index ->
  loadSegment index (repr a m lst)
  = Ok (sh a + length (a_pre a))%nat (repr a m lst).
Proof.
  intros Hi. unfold loadSegment. rewrite bind_get_log. cbn [lg repr segments].
  rewrite (bind_ok _ _ _ _ _ (index_of_last (csegs a) (ctail a) _ (csegs_last a))).
  cbn [offset ctail]. destruct (Z.leb_spec (a_toff a) index); [|lia].
  unfold ret. f_equal. rewrite csegs_length. lia.
Qed.

Lemma loadSegment_pre a m lst index :
  valid a -> afirst a <= index < a_toff a ->
  exists i s a',
    a_pre a !! i = Some s /\ a_off s <= index /\
    (forall j t, (i < j)%nat -> a_pre a !! j = Some t -> index < a_off t) /\
    loadSegment index (repr a m lst) = Ok (sh a + i)%nat (repr a' m lst) /\
    valid a' /\ same_content a a' /\ a_stale a' = a_stale a /\
    csegs a' !! (sh a + i)%nat = Some (full s) /\
    (sh a + i)%nat ∈ a_cache a'.
Proof.
  intros Hv Hr. unfold loadSegment. rewrite bind_get_log. cbn [lg repr segments].
  rewrite (bind_ok _ _ _ _ _ (index_of_last (csegs a) (ctail a) _ (csegs_last a))).
  cbn [offset ctail]. destruct (Z.leb_spec (a_toff a) index); [lia|].
  destruct (cache_hit _ index) as [k|] eqn:Ehit.
  - (* the most recently used segment holds the offset *)
    unfold cache_hit in Ehit. cbn [scache segments] in Ehit.
    destruct (a_cache a) as [|k0 c] eqn:Ec; [discriminate|].
    destruct (csegs a !! k0) as [sg|] eqn:Ek; [|discriminate].
    destruct ((offset sg <=? index) && (index <? wrap64 (offset sg + len (epos sg))))
      eqn:Econd; [|discriminate].
    inversion Ehit; subst k0. clear Ehit.
    apply andb_true_iff in Econd as [C1 C2].
    apply Z.leb_le in C1. apply Z.ltb_lt in C2.
    pose proof (v_cache a Hv) as Hca. rewrite Ec in Hca.
    apply Forall_cons in Hca as [Hk _].
    destruct (Nat.lt_ge_cases k (sh a)) as [Hlt|Hge].
    { exfalso. unfold sh in Hlt. destruct (a_stale a) eqn:Est; [|lia].
      assert (k = 0)%nat as -> by lia.
      rewrite (csegs_lookup_stale a Est) in Ek. inversion Ek; subst sg.
      cbn in C1, C2. change (wrap64 (0 + len (@nil bpos))) with 0 in C2. lia. }
    destruct (lookup_lt_is_Some_2 (a_pre a) (k - sh a)) as [s Hs]; [lia|].
    pose proof (csegs_lookup_pre a _ s Hs) as Hcs.
    replace (sh a + (k - sh a))%nat with k in Hcs by lia.
    rewrite Hcs in Ek. inversion Ek; subst sg. clear Ek.
    pose proof (valid_pre_tail a _ s Hv Hs) as [Hend _].
    pose proof (valid_off_range a _ s Hv Hs) as Hor.
    pose proof (valid_toff_range a Hv) as Htr.
    assert (a_res s = true /\ index < a_off s + len (a_ds s)) as [Hres Hlt].
    { cbn [offset epos cseg] in C1, C2. destruct (a_res s).
      - rewrite len_positions in C2. rewrite wrap64_id in C2; [auto|].
        unfold in_int64, min_int64, max_int64, len in *. lia.
      - exfalso. change (len (@nil bpos)) with 0 in C2.
        rewrite Z.add_0_r, wrap64_id in C2; [lia|].
        unfold in_int64, min_int64, max_int64 in *. lia. }
    exists (k - sh a)%nat, s, a. split; [exact Hs|]. split; [exact C1|].
    split.
    { intros j t Hj Ht.
      pose proof (valid_pre_pre a _ j s t Hv Hj Hs Ht). lia. }
    split. { unfold ret. f_equal. lia. }
    split; [exact Hv|]. split; [apply same_content_refl|]. split; [reflexivity|].
    replace (sh a + (k - sh a))%nat with k by lia. rewrite Hcs.
    split; [|rewrite Ec; apply elem_of_cons; auto].
    unfold full. destruct s as [o ds r]. cbn in Hres. subst r. reflexivity.
  - (* binary search, then the file is read if the segment is dormant *)
    clear Ehit. unfold findSegment. cbn [segments].
    pose proof (findSegment_loop_spec (csegs a) index (csegs_sorted a Hv)
                  (S (length (csegs a))) 0 (length (csegs a))
                  ltac:(lia) ltac:(lia)) as Hspec.
    destruct Hspec as (R1 & R2 & R3).
    { intros k s Hk. lia. }
    { intros k s Hk Hs. apply lookup_lt_Some in Hs. lia. }
    set (r := findSegment_loop _ _ _ _ _) in *.
    destruct (csegs_lookup_first a) as (sf & Hsf & Hoff).
    assert (sh a < r)%nat as Hlo.
    { destruct (Nat.lt_ge_cases (sh a) r) as [?|Hge]; [assumption|].
      pose proof (R3 _ _ Hge Hsf). lia. }
    assert (r <= sh a + length (a_pre a))%nat as Hhi.
    { destruct (Nat.le_gt_cases r (sh a + length (a_pre a))) as [?|Hgt]; [assumption|].
      pose proof (R2 _ _ Hgt (csegs_lookup_tail a)) as Hc. cbn in Hc. lia. }
    destruct (lookup_lt_is_Some_2 (a_pre a) (r - 1 - sh a)) as [s Hs]; [lia|].
    pose proof (csegs_lookup_pre a _ s Hs) as Hcs.
    replace (sh a + (r - 1 - sh a))%nat with (r - 1)%nat in Hcs by lia.
    replace (Z.of_nat r - 1) with (Z.of_nat (r - 1)) by lia.
    rewrite (bind_ok _ _ _ _ _ (index_of_Some _ _ _ _ Hcs)).
    rewrite Nat2Z.id.
    set (b := if len (epos (cseg s)) =? 0 then a_load (r - 1 - sh a) a else a).
    assert (valid b) as Hvb by (unfold b; destruct (_ =? _); auto using valid_load).
    assert (same_content a b) as Hcb
      by (unfold b; destruct (_ =? _); auto using same_content_load, same_content_refl).
    assert (a_stale b = a_stale a) as Hstb by (unfold b; destruct (_ =? _); reflexivity).
    assert (length (a_pre b) = length (a_pre a)) as Hlb.
    { unfold b; destruct (_ =? _); [|reflexivity]. cbn [a_load a_pre set_a_pre].
      apply length_alter. }
    assert (csegs b !! (r - 1)%nat = Some (full s)) as Hfull.
    { unfold b. destruct (Z.eqb_spec (len (epos (cseg s))) 0) as [E0|E0].
      - unfold a_load.
        rewrite (csegs_alter (set_res true)
                   (set_bufs (encode_all (a_ds s)) (positions 0 (a_ds s)))
                   (r - 1 - sh a) s) by (exact Hs || reflexivity).
        replace (sh a + (r - 1 - sh a))%nat with (r - 1)%nat by lia.
        rewrite list_lookup_alter_eq, Hcs. reflexivity.
      - rewrite Hcs. unfold full. destruct s as [o ds [|]]; [reflexivity|].
        exfalso. apply E0. reflexivity. }
    assert ((exec when (len (epos (cseg s)) =? 0)
                    (loadSegmentEntries (r - 1)) then
             exec pushCache (Z.of_nat (r - 1)) then ret (r - 1)%nat)
              (repr a m lst)
            = Ok (r - 1)%nat (repr (a_push (r - 1) b) m lst)) as Hrun.
    { assert (when (len (epos (cseg s)) =? 0) (loadSegmentEntries (r - 1))
                (repr a m lst) = Ok tt (repr b m lst)) as Hw.
      { unfold b. destruct (len (epos (cseg s)) =? 0).
        - rewrite when_true.
          pose proof (loadSegmentEntries_repr a _ s m lst Hv Hs) as Hl.
          replace (sh a + (r - 1 - sh a))%nat with (r - 1)%nat in Hl by lia.
          rewrite (bind_ok _ _ _ _ _ Hl). reflexivity.
        - rewrite when_false. reflexivity. }
      rewrite (bind_ok _ _ _ _ _ Hw).
      rewrite (bind_ok _ _ _ _ _ (pushCache_repr b (r - 1) m lst
                 ltac:(rewrite csegs_length, Hlb; unfold sh; rewrite Hstb; fold (sh a); lia)
                 ltac:(apply (v_cache b Hvb)))).
      reflexivity. }
    rewrite Hrun.
    exists (r - 1 - sh a)%nat, s, (a_push (r - 1) b).
    split; [exact Hs|]. split; [apply (R2 (r - 1)%nat (cseg s)); [lia | exact Hcs]|].
    split.
    { intros j t Hj Ht. pose proof (csegs_lookup_pre a j t Ht) as Hct.
      apply (R3 (sh a + j)%nat (cseg t)); [lia | exact Hct]. }
    split; [f_equal; lia|].
    split. { apply valid_push; auto. unfold sh. rewrite Hstb, Hlb. fold (sh a). lia. }
    split. { eapply same_content_trans; [exact Hcb | apply same_content_push]. }
    split. { rewrite push_stale. exact Hstb. }
    replace (sh a + (r - 1 - sh a))%nat with (r - 1)%nat by lia.
    split; [|apply push_cache_head].
    rewrite csegs_push_lookup by apply (v_cache b Hvb). exact Hfull.
Qed.

(** *** Which payload an offset holds *)

Lemma content_lookup_pre a i s :
  a_pre a !! i = Some s -> content a !! i = Some (a_off s, a_ds s).
Proof.
  intros H. unfold content.
  rewrite lookup_app_l by (rewrite length_map; eapply lookup_lt_Some; eauto).
  rewrite list_lookup_fmap, H. reflexivity.
Qed.

Lemma content_elem a o ds :
  (o, ds) ∈ content a ->
  (exists i s, a_pre a !! i = Some s /\ a_off s = o /\ a_ds s = ds)
  \/ (o = a_toff a /\ ds = a_tds a).
Proof.
  unfold content. intros H. apply elem_of_app in H as [H|H].
  - left. apply list_elem_of_fmap in H as (s & E & Hin).
    apply list_elem_of_lookup_1 in Hin as [i Hi]. inversion E; subst.
    exists i, s. auto.
  - right. apply list_elem_of_singleton in H. inversion H. auto.
Qed.

Lemma same_content_tail a a' :
  same_content a a' ->
  a_toff a' = a_toff a /\ a_tds a' = a_tds a /\
  map (fun s => (a_off s, a_ds s)) (a_pre a')
  = map (fun s => (a_off s, a_ds s)) (a_pre a).
Proof.
  intros [_ H]. unfold content in H. apply app_inj_tail in H as [H1 H2].
  inversion H2. auto.
Qed.

Lemma same_content_first a a' : same_content a a' -> afirst a' = afirst a.
Proof.
  intros H. destruct (same_content_tail a a' H) as (Ht & _ & Hp).
  unfold afirst. destruct (a_pre a) as [|s l], (a_pre a') as [|s' l'];
    try discriminate; auto.
  simpl in Hp. inversion Hp. reflexivity.
Qed.

Lemma same_content_last a a' : same_content a a' -> alast a' = alast a.
Proof.
  intros H. destruct (same_content_tail a a' H) as (Ht & Hd & _).
  unfold alast. rewrite Ht, Hd. reflexivity.
Qed.

Lemma same_content_aholds a a' off d :
  same_content a a' -> aholds a off d <-> aholds a' off d.
Proof. intros [_ H]. unfold aholds. rewrite H. reflexivity. Qed.

Lemma lookup_Some_lt_len {A} (l : list A) (o off : Z) x :
  o <= off -> l !! Z.to_nat (off - o) = Some x -> off < o + len l.
Proof. intros Ho H. apply lookup_lt_Some in H. unfold len. lia. Qed.

Lemma aholds_tail a off d :
  valid a -> a_toff a <= off ->
  aholds a off d <-> a_tds a !! Z.to_nat (off - a_toff a) = Some d.
Proof.
  intros Hv Ht. split.
  - intros (o & ds & Hin & Ho & Hd).
    apply content_elem in Hin as [(i & s & Hs & E1 & E2)|[E1 E2]];
      subst o ds; [|exact Hd].
    exfalso. pose proof (lookup_Some_lt_len _ _ _ _ Ho Hd).
    pose proof (valid_pre_tail a i s Hv Hs). lia.
  - intros Hd. exists (a_toff a), (a_tds a). split; [|auto].
    unfold content. apply elem_of_app. right. apply list_elem_of_singleton. reflexivity.
Qed.

Lemma aholds_pre a i s off d :
  valid a -> a_pre a !! i = Some s -> a_off s <= off -> off < a_toff a ->
  (forall j t, (i < j)%nat -> a_pre a !! j = Some t -> off < a_off t) ->
  aholds a off d <-> a_ds s !! Z.to_nat (off - a_off s) = Some d.
Proof.
  intros Hv Hs Ho Ht Hnext. split.
  - intros (o & ds & Hin & Hle & Hd).
    apply content_elem in Hin as [(j & t & Hj & E1 & E2)|[E1 E2]];
      subst o ds; [|lia].
    pose proof (lookup_Some_lt_len _ _ _ _ Hle Hd) as Hlt.
    destruct (lt_eq_lt_dec i j) as [[Hij| ->]|Hji].
    + pose proof (Hnext j t Hij Hj). lia.
    + rewrite Hs in Hj. inversion Hj; subst. exact Hd.
    + pose proof (valid_pre_pre a j i t s Hv Hji Hj Hs). lia.
  - intros Hd. exists (a_off s), (a_ds s). split; [|auto].
    eapply list_elem_of_lookup_2. apply content_lookup_pre. exact Hs.
Qed.

(** *** [Read] *)

Lemma index_of_None {A} (l : list A) (i : Z) w :
  0 <= i -> l !! Z.to_nat i = None -> index_of l i w = Panic w.
Proof.
  intros Hi H. unfold index_of. destruct (Z.leb_spec 0 i); [|lia].
  rewrite H. reflexivity.
Qed.

(** What [Read] does once [loadSegment] has returned a loaded segment. *)
Lemma Read_segment (w : World) si name o ds off :
  segments (lg w) !! si = Some (MkSegment name o (encode_all ds) (positions 0 ds)) ->
  Forall small ds -> 0 <= off - o <= max_int64 ->
  (let* l := get_log in
   let* s := index_of (segments l) (Z.of_nat si) in
   let* ep := index_of (epos s) (wrap64 (off - offset s)) in
   let* edata := slice (ebuf s) (Z.of_nat (pos ep)) (Z.of_nat (end_ ep)) in
   let '(size, n) := Codec.Uvarint edata in
   if n <=? 0 then fail ErrCorrupt
   else if len edata - n <? size then fail ErrCorrupt
   else if NoCopy (opts l) then slice edata n (n + size)
   else ret (take (Z.to_nat size) (drop (Z.to_nat n) edata))) w
  = match ds !! Z.to_nat (off - o) with
    | Some d => Ok d w
    | None => Panic w
    end.
Proof.
  intros Hseg Hsm Hr. rewrite bind_get_log.
  rewrite (bind_ok _ _ _ _ _ (index_of_Some _ _ _ _ Hseg)).
  cbn [epos offset ebuf].
  rewrite wrap64_id by (unfold in_int64, min_int64, max_int64 in *; lia).
  destruct (ds !! Z.to_nat (off - o)) as [d|] eqn:Ed.
  - pose proof (positions_lookup ds 0 _ d Ed) as Hp.
    rewrite (bind_ok _ _ _ _ _ (index_of_Z _ (off - o) _ _ (proj1 Hr) Hp)).
    cbn [pos end_]. rewrite !Nat.add_0_l.
    set (k := Z.to_nat (off - o)) in *.
    assert (length (encode_all (take k ds)) <= length (encode_all (take (S k) ds))
            <= length (encode_all ds))%nat as Hlen.
    { pose proof (f_equal length (encode_all_split ds (S k))) as E1.
      pose proof (f_equal length (encode_all_take_S _ _ _ Ed)) as E2.
      rewrite length_app in E1, E2. lia. }
    assert (0 <= Z.of_nat (length (encode_all (take k ds)))
            <= Z.of_nat (length (encode_all (take (S k) ds)))) as Hs1 by lia.
    assert (Z.of_nat (length (encode_all (take (S k) ds))) <= len (encode_all ds))
      as Hs2 by (unfold len; lia).
    rewrite (bind_ok _ _ _ _ _ (slice_ok (encode_all ds) _ _ _ Hs1 Hs2)).
    replace (Z.to_nat (Z.of_nat (length (encode_all (take (S k) ds)))
                       - Z.of_nat (length (encode_all (take k ds)))))
      with (length (encode_all (take (S k) ds)) - length (encode_all (take k ds)))%nat
      by lia.
    rewrite Nat2Z.id, (frame_at ds k d Ed).
    assert (small d) as Hd.
    { rewrite Forall_forall in Hsm. apply Hsm. eapply list_elem_of_lookup_2; eauto. }
    pose proof (decode_frame d Hd) as Hdec.
    pose proof (Uvarint_frame d [] Hd) as HU. rewrite app_nil_r in HU.
    destruct (Codec.Uvarint (frame d)) as [size n].
    destruct Hdec as (Hn & Hsz & Hsum & Htake).
    assert (size = Z.of_nat (length d)) as Hsize by congruence.
    destruct (Z.leb_spec n 0); [lia|].
    destruct (Z.ltb_spec (len (frame d) - n) size); [lia|].
    destruct (NoCopy (opts (lg w))).
    + rewrite slice_ok by lia.
      replace (n + size - n) with size by lia. rewrite Htake. reflexivity.
    + rewrite Htake. reflexivity.
  - assert (positions 0 ds !! Z.to_nat (off - o) = None) as Hp.
    { apply lookup_ge_None. rewrite positions_length.
      apply lookup_ge_None in Ed. exact Ed. }
    rewrite (bind_panic _ _ _ _ (index_of_None _ (off - o) _ (proj1 Hr) Hp)). reflexivity.
Qed.

Lemma repr0_same a a' :
  same_content a a' -> repr a' (length (a_tds a)) (alast a) = repr0 a'.
Proof.
  intros H. unfold repr0. rewrite (same_content_last a a' H).
  destruct (same_content_tail a a' H) as (_ & -> & _). reflexivity.
Qed.

Lemma repr0_flags a : closed (lg (repr0 a)) = false /\ corrupt (lg (repr0 a)) = false.
Proof. split; reflexivity. Qed.

(** [Read] on a well-formed log: an offset within the bounds yields the
    payload the log holds there, and panics where the log holds none. *)
Lemma Read_repr a off :
  valid a -> afirst a <= off <= alast a ->
  exists a', valid a' /\ same_content a a' /\ a_stale a' = a_stale a /\
    ((exists d, aholds a off d /\ Read off (repr0 a) = Ok d (repr0 a'))
     \/ ((forall d, ~ aholds a off d) /\ Read off (repr0 a) = Panic (repr0 a'))).
Proof.
  intros Hv Hr. remember (Read off (repr0 a)) as R eqn:ER.
  unfold Read in ER.
  rewrite (bind_ok _ _ _ _ _ (guard_ok (repr0 a) eq_refl eq_refl)) in ER.
  rewrite bind_get_log in ER.
  change (firstOffset (lg (repr0 a))) with (afirst a) in ER.
  change (lastOffset (lg (repr0 a))) with (alast a) in ER.
  unfold repr0 in ER.
  destruct (Z.ltb_spec off (afirst a)); [lia|].
  destruct (Z.ltb_spec (alast a) off); [lia|]. cbn [orb] in ER.
  pose proof (valid_first_range a Hv) as Hfr.
  pose proof (valid_last_range a Hv) as Hlr.
  destruct (Z.le_gt_cases (a_toff a) off) as [Htl|Hpre].
  - (* the tail *)
    rewrite (bind_ok _ _ _ _ _ (loadSegment_tail a _ _ off Htl)) in ER.
    pose proof (valid_toff_range a Hv) as Htr.
    assert (0 <= off - a_toff a <= max_int64) as Hrange by lia.
    pose proof (Read_segment (repr a (length (a_tds a)) (alast a))
                  (sh a + length (a_pre a)) (segmentName (a_toff a)) (a_toff a)
                  (a_tds a) off (csegs_lookup_tail a) (v_small_tl a Hv)
                  Hrange) as HR.
    exists a. split; [exact Hv|]. split; [apply same_content_refl|].
    split; [reflexivity|]. left.
    destruct (lookup_lt_is_Some_2 (a_tds a) (Z.to_nat (off - a_toff a))) as [d Hd].
    { unfold alast, len in Hr. lia. }
    exists d. split; [apply aholds_tail; auto|].
    rewrite Hd in HR. rewrite ER. exact HR.
  - assert (afirst a <= off < a_toff a) as Hin by lia.
    destruct (loadSegment_pre a (length (a_tds a)) (alast a) off Hv Hin)
      as (i & s & a' & Hs & Ho & Hnext & Hload & Hv' & Hsc & Hst & Hfull & _).
    rewrite (bind_ok _ _ _ _ _ Hload) in ER.
    pose proof (v_small_pre a Hv) as Hsm. rewrite Forall_forall in Hsm.
    pose proof (valid_off_range a i s Hv Hs) as Hor.
    assert (0 <= off - a_off s <= max_int64) as Hrange by lia.
    pose proof (Read_segment (repr a' (length (a_tds a)) (alast a))
                  (sh a + i) (segmentName (a_off s)) (a_off s)
                  (a_ds s) off Hfull
                  (Hsm s (list_elem_of_lookup_2 _ _ _ Hs))
                  Hrange) as HR.
    rewrite <- ER in HR. clear ER.
    rewrite (repr0_same a a' Hsc) in HR.
    exists a'. split; [exact Hv'|]. split; [exact Hsc|]. split; [exact Hst|].
    destruct (a_ds s !! Z.to_nat (off - a_off s)) as [d|] eqn:Ed.
    + left. exists d. split; [|exact HR].
      apply (aholds_pre a i s off d Hv Hs Ho Hpre Hnext). exact Ed.
    + right. split; [|exact HR]. intros d Hd.
      apply (aholds_pre a i s off d Hv Hs Ho Hpre Hnext) in Hd. congruence.
Qed.

Lemma Read_repr_out a off :
  off < afirst a \/ alast a < off ->
  Read off (repr0 a) = Err ErrNotFound (repr0 a).
Proof. intros H. apply Read_out_of_range; auto. Qed.

(** ** Appending to a well-formed log *)

Lemma aspans_content a :
  aspans a = map (fun p => (fst p, length (snd p))) (content a).
Proof.
  unfold aspans, content. rewrite map_app, map_map. reflexivity.
Qed.

Lemma afiles_content a :
  afiles a (length (a_tds a))
  = map (fun p => (segmentName (fst p), encode_all (snd p))) (content a).
Proof.
  unfold afiles, content. rewrite map_app, map_map, firstn_all. reflexivity.
Qed.

Lemma small_pre_content a a' :
  same_content a a' ->
  Forall (fun s => Forall small (a_ds s)) (a_pre a) ->
  Forall (fun s => Forall small (a_ds s)) (a_pre a').
Proof.
  intros H Hs. destruct (same_content_tail a a' H) as (_ & _ & Hp).
  assert (forall l, Forall (fun s => Forall small (a_ds s)) l
            <-> Forall (fun p => Forall small (snd p))
                  (map (fun s => (a_off s, a_ds s)) l)) as E.
  { intros l. rewrite Forall_fmap. reflexivity. }
  apply E. rewrite Hp. apply E. exact Hs.
Qed.

Lemma pre_map_content {B} (G : Z -> list (list byte) -> B) a a' :
  same_content a a' ->
  map (fun s => G (a_off s) (a_ds s)) (a_pre a')
  = map (fun s => G (a_off s) (a_ds s)) (a_pre a).
Proof.
  intros H. destruct (same_content_tail a a' H) as (_ & _ & Hp).
  assert (forall l, map (fun s => G (a_off s) (a_ds s)) l
            = map (fun p => G (fst p) (snd p))
                (map (fun s => (a_off s, a_ds s)) l)) as E.
  { intros l. rewrite map_map. reflexivity. }
  rewrite !E, Hp. reflexivity.
Qed.

Lemma push_opts k a : a_opts (a_push k a) = a_opts a.
Proof. destruct (same_content_push k a) as [H _]. exact H. Qed.

Lemma push_cache_bound k a n :
  (k < n)%nat -> Forall (fun j => (j < n)%nat) (a_cache a) ->
  Forall (fun j => (j < n)%nat) (a_cache (a_push k a)).
Proof.
  intros Hk Hc. unfold a_push. destruct (lru_set _ _ _) as [c ev] eqn:E.
  cbn [a_cache set_a_cache]. apply Forall_forall. intros x Hx.
  destruct (lru_set_keys _ _ _ _ _ x E Hx) as [->|Hin]; [exact Hk|].
  rewrite Forall_forall in Hc. auto.
Qed.

Lemma encode_all_nil_inv ds : encode_all ds = [] -> ds = [].
Proof.
  destruct ds as [|d ds]; [reflexivity|]. rewrite encode_all_cons. intros E.
  apply (f_equal length) in E. rewrite length_app in E.
  pose proof (frame_length_pos d). simpl in E. lia.
Qed.

Lemma encode_all_drop_length ds m :
  drop (length (encode_all (take m ds))) (encode_all ds) = encode_all (drop m ds).
Proof.
  rewrite (encode_all_split ds m) at 1. apply drop_app_length.
Qed.

Lemma encode_all_take_length ds m :
  (length (encode_all (take m ds)) + length (encode_all (drop m ds))
   = length (encode_all ds))%nat.
Proof.
  rewrite (encode_all_split ds m) at 1. rewrite length_app. reflexivity.
Qed.

(** The tail name is not the name of an earlier segment. *)
Lemma tail_name_fresh a :
  valid a ->
  segmentName (a_toff a)
  ∉ (map (fun s => (segmentName (a_off s), encode_all (a_ds s))) (a_pre a)).*1.
Proof.
  intros Hv Hin. pose proof (valid_names_NoDup a 0 Hv) as Hnd.
  unfold afiles in Hnd. rewrite fmap_app in Hnd.
  apply NoDup_app in Hnd as (_ & Hdisj & _).
  apply (Hdisj _ Hin). cbn. apply list_elem_of_singleton. reflexivity.
Qed.

(** *** One more entry in the tail buffer *)

Lemma set_tail_repr a d m lst :
  (m <= length (a_tds a))%nat ->
  set_seg_at (tail_index (lg (repr a m lst)))
    (set_bufs (encode_all (a_tds a ++ [d]))
       (positions 0 (a_tds a)
        ++ [Bpos (length (encode_all (a_tds a)))
                 (length (encode_all (a_tds a ++ [d])))]))
    (repr a m lst)
  = Ok tt (repr (a_snoc d a) m lst).
Proof.
  intros Hm. rewrite (set_seg_at_tail_eq _ (ctail a)) by apply csegs_last.
  f_equal. unfold repr. cbn [lg disk segments set_segments].
  assert (alter
            (set_bufs (encode_all (a_tds a ++ [d]))
               (positions 0 (a_tds a)
                ++ [Bpos (length (encode_all (a_tds a)))
                      (length (encode_all (a_tds a ++ [d])))]))
            (length (csegs a) - 1)%nat (csegs a) = csegs (a_snoc d a)) as ->.
  { unfold csegs. rewrite !app_assoc.
    set (l1 := (if a_stale a then [stale_seg] else []) ++ map cseg (a_pre a)).
    replace (length (l1 ++ [ctail a]) - 1)%nat with (length l1 + 0)%nat
      by (rewrite length_app; simpl; lia).
    rewrite alter_app_r. cbn [a_stale a_snoc set_a_tds a_pre]. fold l1.
    f_equal.
    match goal with |- alter ?f 0%nat [?x] = _ => change (alter f 0%nat [x]) with [f x] end.
    f_equal. unfold ctail, a_snoc, set_a_tds, set_bufs.
    cbn [path offset a_toff a_tds]. rewrite positions_snoc. reflexivity. }
  unfold afiles. cbn [a_opts a_snoc set_a_tds a_toff a_tds a_pre a_cache].
  rewrite take_app_le by exact Hm. reflexivity.
Qed.

(** *** Writing the unwritten part of the tail buffer *)

Lemma sfile_Write_repr a m lst :
  valid a -> (m <= length (a_tds a))%nat ->
  sfile_Write (drop (length (encode_all (take m (a_tds a)))) (encode_all (a_tds a)))
    (repr a m lst)
  = Ok tt (repr a (length (a_tds a)) lst).
Proof.
  intros Hv Hm.
  rewrite (sfile_Write_eq _ (segmentName (a_toff a))
             (length (encode_all (take m (a_tds a))))) by reflexivity.
  f_equal. unfold write_file. rewrite (disk_lookup_tail a m lst Hv).
  rewrite encode_all_drop_length.
  unfold repr. cbn [lg disk set_sfile opts closed corrupt segments firstOffset
                    lastOffset scache].
  rewrite firstn_all, encode_all_take_length.
  f_equal. unfold afiles. rewrite firstn_all.
  rewrite !list_to_map_snoc by (apply tail_name_fresh; exact Hv).
  rewrite insert_insert_eq. f_equal.
  unfold write_at. rewrite firstn_all, Nat.sub_diag. cbn [replicate app].
  rewrite (drop_ge (encode_all (take m (a_tds a)))) by lia. rewrite app_nil_r.
  rewrite <- encode_all_app, take_drop. reflexivity.
Qed.

(** *** [cycle] *)

Lemma pushCache_world a k m lst :
  Forall (fun j => (j < sh a + length (a_pre a))%nat) (a_cache a) ->
  MkWorld (pushCache_log k (lg (repr a m lst))) (disk (repr a m lst))
  = repr (a_push k a) m lst.
Proof.
  intros Hc. unfold pushCache_log, a_push.
  change (opts (lg (repr a m lst))) with (a_opts a).
  change (scache (lg (repr a m lst))) with (a_cache a).
  destruct (lru_set _ _ _) as [c ev] eqn:E.
  destruct ev as [j|]; [|reflexivity].
  apply lru_set_evicted in E as [Hj _].
  rewrite Forall_forall in Hc. specialize (Hc j Hj).
  change (segments (lg (repr a m lst))) with (csegs a).
  rewrite (csegs_evict a j Hc).
  rewrite repr_set_cache, repr_evict. reflexivity.
Qed.

Lemma pushCache_log_repr a k m lst :
  Forall (fun j => (j < sh a + length (a_pre a))%nat) (a_cache a) ->
  pushCache_log k (lg (repr a m lst)) = lg (repr (a_push k a) m lst).
Proof.
  intros Hc. rewrite <- (pushCache_world a k m lst Hc). reflexivity.
Qed.

Lemma pushCache_log_set_sfile f k l :
  pushCache_log k (set_sfile f l) = set_sfile f (pushCache_log k l).
Proof.
  unfold pushCache_log. cbn [opts scache set_sfile].
  destruct (lru_set _ _ _) as [c [j|]]; reflexivity.
Qed.

Lemma csegs_cycle next a :
  csegs (a_cycle next a)
  = csegs (a_push (sh a + length (a_pre a)) a)
    ++ [MkSegment (segmentName next) next [] []].
Proof.
  unfold a_cycle, csegs. cbn [a_stale a_pre]. rewrite map_app, <- !app_assoc.
  reflexivity.
Qed.

Lemma afirst_cycle next a : afirst (a_cycle next a) = afirst a.
Proof.
  rewrite <- (same_content_first a _ (same_content_push (sh a + length (a_pre a)) a)).
  unfold a_cycle, afirst. cbn [a_pre a_toff].
  destruct (a_pre (a_push _ a)); reflexivity.
Qed.

Lemma content_cycle next a :
  content (a_cycle next a) = content a ++ [(next, [])].
Proof.
  destruct (same_content_push (sh a + length (a_pre a)) a) as [_ H].
  rewrite <- H. unfold a_cycle, content. cbn [a_pre a_toff a_tds].
  rewrite map_app. reflexivity.
Qed.

Lemma span_in_valid a x :
  valid a -> x ∈ aspans a ->
  fst x + Z.of_nat (snd x) <= a_toff a + len (a_tds a) /\ fst x <= a_toff a.
Proof.
  intros Hv Hx. unfold aspans in Hx. apply elem_of_app in Hx as [Hx|Hx].
  - apply list_elem_of_fmap in Hx as (s & -> & Hin).
    apply list_elem_of_lookup_1 in Hin as [i Hi].
    pose proof (valid_pre_tail a i s Hv Hi). unfold len in *. cbn [fst snd]. lia.
  - apply list_elem_of_singleton in Hx as ->. cbn [fst snd]. unfold len. lia.
Qed.

Lemma valid_cycle next a :
  valid a -> a_toff a + len (a_tds a) <= next <= max_int64 -> a_toff a < next ->
  valid (a_cycle next a).
Proof.
  intros Hv Hn Hlt.
  pose proof (same_content_push (sh a + length (a_pre a)) a) as Hsc.
  destruct (same_content_tail _ _ Hsc) as (Ht & Hd & _).
  constructor.
  - rewrite aspans_content, content_cycle, map_app, <- aspans_content.
    apply StronglySorted_app_2.
    + intros x1 x2 H1 H2. apply list_elem_of_singleton in H2 as ->.
      pose proof (span_in_valid a x1 Hv H1). unfold span_lt. cbn [fst snd]. lia.
    + apply (v_chain a Hv).
    + repeat constructor.
  - rewrite afirst_cycle. apply (v_first a Hv).
  - unfold a_cycle. cbn [a_toff a_tds]. unfold len. cbn [length]. lia.
  - unfold a_cycle. cbn [a_pre]. apply Forall_app. split.
    + apply (small_pre_content a _ Hsc), (v_small_pre a Hv).
    + repeat constructor. cbn [a_ds]. rewrite Hd. apply (v_small_tl a Hv).
  - constructor.
  - unfold a_cycle. cbn [a_cache a_pre]. unfold sh. cbn [a_stale].
    rewrite push_stale, length_app, push_length. fold (sh a). cbn [length].
    apply push_cache_bound; [lia|].
    eapply Forall_impl; [apply (v_cache a Hv)|]. intros j Hj. simpl in Hj. lia.
  - rewrite afirst_cycle. unfold a_cycle. cbn [a_stale]. rewrite push_stale.
    apply (v_stale a Hv).
  - unfold a_cycle. cbn [a_opts]. rewrite push_opts. apply (v_size a Hv).
  - unfold a_cycle. cbn [a_opts]. rewrite push_opts. apply (v_csize a Hv).
Qed.

Lemma next_name_fresh a m next :
  valid a -> a_toff a < next <= max_int64 ->
  segmentName next ∉ (afiles a m).*1.
Proof.
  intros Hv Hn. rewrite afiles_names. intros Hin.
  apply list_elem_of_fmap in Hin as (x & E & Hx).
  pose proof (aoffsets_range a x Hv Hx) as Hr.
  pose proof (valid_toff_range a Hv) as Htr.
  apply segmentName_inj in E; [|lia|lia]. subst x.
  rewrite aoffsets_spans in Hx. apply list_elem_of_fmap in Hx as (sp & E & Hsp).
  pose proof (span_in_valid a sp Hv Hsp). lia.
Qed.

Lemma cycle_repr a next lst :
  valid a -> a_toff a + len (a_tds a) <= next <= max_int64 -> a_toff a < next ->
  (a_toff a =? 0) && (len (encode_all (a_tds a)) =? 0) = false ->
  cycle next (repr a (length (a_tds a)) lst)
  = Ok tt (repr (a_cycle next a) 0 lst).
Proof.
  intros Hv Hn Hlt Hst.
  rewrite (cycle_eq next (segmentName (a_toff a))
             (length (encode_all (take (length (a_tds a)) (a_tds a))))
             (ctail a)); [|reflexivity|apply csegs_last|exact Hst].
  f_equal. unfold cycle_log.
  rewrite pushCache_log_set_sfile.
  change (segments (lg (repr a (length (a_tds a)) lst))) with (csegs a).
  replace (length (csegs a) - 1)%nat with (sh a + length (a_pre a))%nat
    by (rewrite csegs_length; lia).
  rewrite pushCache_log_repr by apply (v_cache a Hv).
  pose proof (same_content_push (sh a + length (a_pre a)) a) as Hsc.
  destruct (same_content_tail _ _ Hsc) as (Ht & Hd & _).
  set (b := a_push (sh a + length (a_pre a)) a) in *.
  pose proof (proj1 Hsc) as Hopts.
  pose proof (same_content_first a b Hsc) as Hfirst.
  pose proof (pre_map_content (fun o ds => (segmentName o, encode_all ds)) a b Hsc)
    as Hfiles.
  transitivity
    (MkWorld
       (MkLog (a_opts a) false false
          (csegs b ++ [MkSegment (segmentName next) next [] []])
          (afirst a) lst (FOpen (segmentName next) 0) (a_cache b))
       (list_to_map (afiles a (length (a_tds a)) ++ [(segmentName next, [])]))).
  - f_equal.
    + unfold repr. cbn [lg set_sfile set_segments segments opts closed corrupt
                        firstOffset lastOffset scache sfile].
      rewrite Hopts, Hfirst. reflexivity.
    + rewrite list_to_map_snoc by (apply next_name_fresh; auto; lia). reflexivity.
  - unfold repr. f_equal.
    + rewrite csegs_cycle, afirst_cycle. fold b. f_equal.
      unfold a_cycle. cbn [a_opts]. fold b. symmetry. exact Hopts.
    + f_equal. unfold afiles, a_cycle. fold b. cbn [a_pre a_toff a_tds].
      rewrite map_app, firstn_all, <- app_assoc. cbn [map app a_off a_ds].
      cbv beta in Hfiles. rewrite Hfiles, Ht, Hd, <- ?app_assoc. reflexivity.
Qed.

Lemma valid_toff0 a :
  valid a -> a_toff a = 0 ->
  a_pre a = [] /\ a_stale a = false /\ a_cache a = [].
Proof.
  intros Hv H0.
  assert (a_pre a = []) as Hp.
  { destruct (a_pre a) as [|s l] eqn:E; [reflexivity|]. exfalso.
    assert (a_pre a !! 0%nat = Some s) as Hs by (rewrite E; reflexivity).
    pose proof (valid_off_range a 0 s Hv Hs).
    pose proof (valid_pre_tail a 0 s Hv Hs). lia. }
  split; [exact Hp|].
  assert (a_stale a = false) as Hst.
  { destruct (a_stale a) eqn:E; [|reflexivity]. exfalso.
    pose proof (v_stale a Hv E) as H. unfold afirst in H. rewrite Hp in H. lia. }
  split; [exact Hst|].
  pose proof (v_cache a Hv) as Hc. unfold sh in Hc. rewrite Hst, Hp in Hc.
  destruct (a_cache a) as [|k c]; [reflexivity|].
  apply Forall_cons in Hc as [Hk _]. simpl in Hk. lia.
Qed.

Lemma valid_jump next a :
  valid a -> 0 < next <= max_int64 -> valid (a_jump next a).
Proof.
  intros Hv Hn. constructor.
  - repeat constructor.
  - cbn. lia.
  - unfold a_jump. cbn [a_toff a_tds]. unfold len. cbn [length]. lia.
  - constructor.
  - constructor.
  - constructor.
  - intros _. cbn. lia.
  - apply (v_size a Hv).
  - apply (v_csize a Hv).
Qed.

(** [cycle] on a log that never held an entry. *)
Lemma cycle_stale_repr a next lst :
  valid a -> a_toff a = 0 -> a_tds a = [] -> 0 < next <= max_int64 ->
  cycle next (repr a 0 lst) = Ok tt (repr (a_jump next a) 0 lst).
Proof.
  intros Hv H0 Hd Hn. destruct (valid_toff0 a Hv H0) as (Hp & Hst & Hc).
  destruct a as [o st pre toff tds c]. cbn in H0, Hd, Hp, Hst, Hc. subst.
  rewrite (cycle_stale_eq next (segmentName 0) 0 stale_seg []);
    [|reflexivity|reflexivity|reflexivity|].
  - unfold repr, a_jump. cbn [lg disk a_opts a_stale a_pre a_toff a_tds a_cache
                               afiles map app take].
    f_equal.
  - cbn [path stale_seg]. unfold repr. cbn [disk afiles map app take a_pre a_toff a_tds].
    change (encode_all []) with (@nil byte).
    cbn [list_to_map foldr fst snd uncurry]. apply lookup_insert_eq.
Qed.

(** *** How the tail buffer grows *)

Lemma chain_tail_len (l : list (Z * nat)) o n n' :
  StronglySorted span_lt (l ++ [(o, n)]) -> StronglySorted span_lt (l ++ [(o, n')]).
Proof.
  intros H. apply StronglySorted_app in H as (H1 & H2 & _).
  apply StronglySorted_app_2; [|exact H2|repeat constructor].
  intros x1 x2 Hx1 Hx2. apply list_elem_of_singleton in Hx2 as ->.
  apply (H1 x1 (o, n) Hx1). apply list_elem_of_singleton. reflexivity.
Qed.

Lemma valid_snoc d a :
  valid a -> small d -> a_toff a + len (a_tds a) + 1 <= max_int64 ->
  valid (a_snoc d a).
Proof.
  intros Hv Hd Hn. constructor; try apply Hv.
  - unfold aspans, a_snoc. cbn [a_pre a_toff a_tds set_a_tds].
    eapply chain_tail_len. apply (v_chain a Hv).
  - unfold a_snoc. cbn [a_toff a_tds set_a_tds]. unfold len in *.
    rewrite length_app. cbn [length]. lia.
  - unfold a_snoc. cbn [a_tds set_a_tds]. apply Forall_app. split.
    + apply (v_small_tl a Hv).
    + repeat constructor. exact Hd.
Qed.

Lemma aholds_snoc d a off x :
  aholds (a_snoc d a) off x
  <-> aholds a off x \/ (off = a_toff a + len (a_tds a) /\ x = d).
Proof.
  unfold aholds, content, a_snoc. cbn [a_pre a_toff a_tds set_a_tds]. split.
  - intros (o & ds & Hin & Ho & Hl). apply elem_of_app in Hin as [Hin|Hin].
    + left. exists o, ds. split; [apply elem_of_app; auto|auto].
    + apply list_elem_of_singleton in Hin. inversion Hin; subst o ds. clear Hin.
      destruct (Nat.lt_ge_cases (Z.to_nat (off - a_toff a)) (length (a_tds a)))
        as [Hlt|Hge].
      * left. exists (a_toff a), (a_tds a).
        split; [apply elem_of_app; right; apply list_elem_of_singleton; reflexivity|].
        split; [exact Ho|]. rewrite lookup_app_l in Hl by exact Hlt. exact Hl.
      * right. rewrite lookup_app_r in Hl by exact Hge.
        destruct (Z.to_nat (off - a_toff a) - length (a_tds a))%nat eqn:E;
          [|destruct n; discriminate].
        cbn in Hl. inversion Hl. unfold len. split; [lia|reflexivity].
  - intros [(o & ds & Hin & Ho & Hl)|[-> ->]].
    + apply elem_of_app in Hin as [Hin|Hin].
      * exists o, ds. split; [apply elem_of_app; auto|auto].
      * apply list_elem_of_singleton in Hin. inversion Hin; subst o ds.
        exists (a_toff a), (a_tds a ++ [d]).
        split; [apply elem_of_app; right; apply list_elem_of_singleton; reflexivity|].
        split; [exact Ho|]. apply lookup_app_l_Some. exact Hl.
    + exists (a_toff a), (a_tds a ++ [d]).
      split; [apply elem_of_app; right; apply list_elem_of_singleton; reflexivity|].
      unfold len. split; [lia|].
      replace (Z.to_nat (a_toff a + Z.of_nat (length (a_tds a)) - a_toff a))
        with (length (a_tds a) + 0)%nat by lia.
      rewrite lookup_app_r by lia.
      replace (length (a_tds a) + 0 - length (a_tds a))%nat with 0%nat by lia.
      reflexivity.
Qed.

Lemma aholds_cycle next a off x : aholds (a_cycle next a) off x <-> aholds a off x.
Proof.
  unfold aholds. rewrite content_cycle. split.
  - intros (o & ds & Hin & Ho & Hl). apply elem_of_app in Hin as [Hin|Hin].
    + exists o, ds. auto.
    + apply list_elem_of_singleton in Hin. inversion Hin; subst. discriminate.
  - intros (o & ds & Hin & Ho & Hl). exists o, ds.
    split; [apply elem_of_app; auto|auto].
Qed.

Lemma aholds_jump next a off x :
  a_pre a = [] -> a_tds a = [] ->
  aholds (a_jump next a) off x <-> aholds a off x.
Proof.
  intros Hp Hd. unfold aholds, content, a_jump. cbn [a_pre a_toff a_tds map app].
  rewrite Hp, Hd. cbn [map app]. split.
  - intros (o & ds & Hin & _ & Hl). apply list_elem_of_singleton in Hin.
    inversion Hin; subst. discriminate.
  - intros (o & ds & Hin & _ & Hl). apply list_elem_of_singleton in Hin.
    inversion Hin; subst. discriminate.
Qed.

Lemma set_lastOffset_repr a m lst v :
  modify_log (set_lastOffset v) (repr a m lst) = Ok tt (repr a m v).
Proof. reflexivity. Qed.

Lemma cycle_opts next a : a_opts (a_cycle next a) = a_opts a.
Proof. unfold a_cycle. cbn [a_opts]. apply push_opts. Qed.

Lemma cycle_stale next a : a_stale (a_cycle next a) = a_stale a.
Proof. unfold a_cycle. cbn [a_stale]. apply push_stale. Qed.

(** *** One round of the loop of [writeBatch] *)

Lemma writeBatch_loop_step a m lst o d es rest :
  valid a -> (m <= length (a_tds a))%nat ->
  o = a_toff a + len (a_tds a) -> o < max_int64 -> small d ->
  exists a1 m1 lst1,
    writeBatch_loop (MkEntry o (length d) :: es)
      (length (encode_all (take m (a_tds a)))) (d ++ rest) (repr a m lst)
    = writeBatch_loop es (length (encode_all (take m1 (a_tds a1)))) rest
        (repr a1 m1 lst1)
    /\ valid a1 /\ (m1 <= length (a_tds a1))%nat
    /\ (m1 = length (a_tds a1) -> lst1 = alast a1)
    /\ a_toff a1 + len (a_tds a1) = o + 1
    /\ a_opts a1 = a_opts a /\ a_stale a1 = a_stale a /\ afirst a1 = afirst a
    /\ (forall off x, aholds a1 off x <-> aholds a off x \/ (off = o /\ x = d)).
Proof.
  intros Hv Hm Ho Hmax Hd.
  assert (valid (a_snoc d a)) as Hv1 by (apply valid_snoc; auto; lia).
  cbn [writeBatch_loop be_size be_offset].
  assert (slice (d ++ rest) 0 (Z.of_nat (length d)) (repr a m lst)
          = Ok d (repr a m lst)) as Hsl.
  { rewrite slice_ok by (unfold len; rewrite ?length_app; lia).
    rewrite Z.sub_0_r, Nat2Z.id. change (Z.to_nat 0) with 0%nat.
    rewrite drop_0, take_app_length.
    reflexivity. }
  rewrite (bind_ok _ _ _ _ _ Hsl). rewrite bind_get_log.
  unfold tail_index.
  rewrite (bind_ok _ _ _ _ _
             (index_of_last (segments (lg (repr a m lst))) (ctail a) _ (csegs_last a))).
  cbn [ebuf epos ctail]. rewrite appendEntry_encode.
  fold (tail_index (lg (repr a m lst))).
  rewrite (bind_ok _ _ _ _ _ (set_tail_repr a d m lst Hm)).
  change (opts (lg (repr a m lst))) with (a_opts a).
  assert (forall w, slice (d ++ rest) (Z.of_nat (length d)) (len (d ++ rest)) w
                    = Ok rest w) as Hsl2.
  { intros w.
    rewrite slice_ok by (unfold len; rewrite ?length_app; lia).
    rewrite Nat2Z.id, drop_app_length. unfold len. rewrite length_app.
    replace (Z.to_nat (Z.of_nat (length d + length rest) - Z.of_nat (length d)))
      with (length rest) by lia.
    rewrite firstn_all. reflexivity. }
  destruct (Z.leb_spec (SegmentSize (a_opts a)) (len (encode_all (a_tds a ++ [d]))))
    as [Hfull|Hroom].
  - (* the segment is full: flush, then cycle *)
    pose proof (sfile_Write_repr (a_snoc d a) m lst Hv1) as Hw.
    cbn [a_snoc set_a_tds a_tds] in Hw.
    rewrite take_app_le in Hw by exact Hm.
    specialize (Hw ltac:(rewrite length_app; lia)).
    rewrite bind_assoc. rewrite (bind_ok _ _ _ _ _ Hw).
    rewrite bind_assoc.
    rewrite (bind_ok _ _ _ _ _ (set_lastOffset_repr _ _ lst o)).
    assert (wrap64 (o + 1) = o + 1) as Hwr.
    { apply wrap64_id. pose proof (valid_toff_range a Hv).
      unfold in_int64, min_int64, max_int64, len in *. lia. }
    rewrite Hwr.
    pose proof (cycle_repr (a_snoc d a) (o + 1) o Hv1) as Hc.
    cbn [a_snoc set_a_tds a_tds a_toff] in Hc.
    assert (len (a_tds a ++ [d]) = len (a_tds a) + 1) as Hlen
      by (unfold len; rewrite length_app; cbn [length]; lia).
    specialize (Hc ltac:(rewrite Hlen; lia) ltac:(unfold len in *; lia)).
    assert ((a_toff a =? 0) && (len (encode_all (a_tds a ++ [d])) =? 0) = false)
      as Hne.
    { apply andb_false_iff. right. apply Z.eqb_neq. intros E.
      assert (encode_all (a_tds a ++ [d]) = []) as E2
        by (unfold len in E; destruct (encode_all (a_tds a ++ [d])); [reflexivity|cbn in E; lia]).
      apply encode_all_nil_inv in E2. destruct (a_tds a); discriminate. }
    specialize (Hc Hne).
    rewrite bind_assoc. rewrite (bind_ok _ _ _ _ _ Hc). rewrite bind_ret.
    rewrite (bind_ok _ _ _ _ _ (Hsl2 _)).
    exists (a_cycle (o + 1) (a_snoc d a)), 0%nat, o.
    split; [reflexivity|].
    split. { apply valid_cycle; auto; cbn [a_snoc set_a_tds a_tds a_toff];
             rewrite ?Hlen; unfold len in *; lia. }
    split. { lia. }
    split. { intros _. unfold alast, a_cycle. cbn [a_toff a_tds]. unfold len.
             cbn [length]. lia. }
    split. { unfold a_cycle. cbn [a_toff a_tds]. unfold len. cbn [length]. lia. }
    split. { rewrite cycle_opts. reflexivity. }
    split. { rewrite cycle_stale. reflexivity. }
    split. { rewrite afirst_cycle. reflexivity. }
    intros off x. rewrite aholds_cycle, aholds_snoc, <- Ho. reflexivity.
  - rewrite bind_ret. rewrite (bind_ok _ _ _ _ _ (Hsl2 _)).
    exists (a_snoc d a), m, lst.
    split.
    { cbn [a_snoc set_a_tds a_tds]. rewrite take_app_le by exact Hm. reflexivity. }
    split; [exact Hv1|].
    assert (length (a_tds (a_snoc d a)) = S (length (a_tds a))) as Hl1
      by (cbn [a_snoc set_a_tds a_tds]; rewrite length_app; cbn [length]; lia).
    split; [lia|]. split; [intros E; lia|].
    split. { unfold len. rewrite Hl1. cbn [a_snoc set_a_tds a_toff].
             unfold len in Ho. lia. }
    split; [reflexivity|]. split; [reflexivity|]. split; [reflexivity|].
    intros off x. rewrite aholds_snoc, <- Ho. reflexivity.
Qed.

(** *** The loop of [writeBatch] *)

Lemma contig_lookup es : forall x i e,
  contig_from x es -> es !! i = Some e -> fst e = x + Z.of_nat i.
Proof.
  induction es as [|e0 es IH]; intros x i e Hc Hi; [discriminate|].
  destruct Hc as [H0 Hc]. destruct i as [|i].
  - simpl in Hi. inversion Hi; subst. lia.
  - simpl in Hi. rewrite (IH _ _ _ Hc Hi). lia.
Qed.

Lemma writeBatch_loop_repr es : forall a m lst,
  valid a -> (m <= length (a_tds a))%nat ->
  contig_from (a_toff a + len (a_tds a)) es ->
  a_toff a + len (a_tds a) + len es <= max_int64 ->
  Forall (fun e => small (snd e)) es ->
  exists a' m' lst',
    writeBatch_loop (map (fun e => MkEntry (fst e) (length (snd e))) es)
      (length (encode_all (take m (a_tds a)))) (concat (map snd es)) (repr a m lst)
    = Ok (length (encode_all (take m' (a_tds a')))) (repr a' m' lst')
    /\ valid a' /\ (m' <= length (a_tds a'))%nat
    /\ (es <> [] -> m' = length (a_tds a') -> lst' = alast a')
    /\ (es = [] -> a' = a /\ m' = m /\ lst' = lst)
    /\ a_toff a' + len (a_tds a') = a_toff a + len (a_tds a) + len es
    /\ a_opts a' = a_opts a /\ a_stale a' = a_stale a /\ afirst a' = afirst a
    /\ (forall off x, aholds a' off x <-> aholds a off x \/ (off, x) ∈ es).
Proof.
  induction es as [|[o d] es IH]; intros a m lst Hv Hm Hc Hmax Hsm.
  - exists a, m, lst. cbn [map concat writeBatch_loop]. split; [reflexivity|].
    split; [exact Hv|]. split; [exact Hm|]. split; [congruence|].
    split; [auto|]. split; [unfold len; cbn [length]; lia|].
    split; [reflexivity|]. split; [reflexivity|]. split; [reflexivity|].
    intros off x. split; [auto|]. intros [H|H]; [exact H|inversion H].
  - destruct Hc as [Ho Hc]. cbn [fst] in Ho.
    apply Forall_cons in Hsm as [Hd Hsm]. cbn [snd] in Hd.
    assert (len ((o, d) :: es) = len es + 1) as Hlen
      by (unfold len; cbn [length]; lia).
    assert (0 <= len es) as Hpos by (unfold len; lia).
    destruct (writeBatch_loop_step a m lst o d
                (map (fun e => MkEntry (fst e) (length (snd e))) es)
                (concat (map snd es)) Hv Hm Ho ltac:(lia) Hd)
      as (a1 & m1 & lst1 & Hrun & Hv1 & Hm1 & HP1 & Hend1 & Hop1 & Hst1 & Hf1 & Hh1).
    destruct (IH a1 m1 lst1 Hv1 Hm1) as
      (a' & m' & lst' & Hrun' & Hv' & Hm' & HP' & Hnil' & Hend' & Hop' & Hst' & Hf' & Hh').
    { rewrite Hend1, Ho. exact Hc. }
    { rewrite Hend1. lia. }
    { exact Hsm. }
    exists a', m', lst'. cbn [map concat fst snd]. rewrite Hrun, Hrun'.
    split; [reflexivity|]. split; [exact Hv'|]. split; [exact Hm'|].
    split.
    { intros _ E. destruct es as [|e es'].
      - destruct (Hnil' eq_refl) as (-> & -> & ->). apply HP1. exact E.
      - apply HP'; [discriminate|exact E]. }
    split; [discriminate|].
    split; [rewrite Hend', Hend1; lia|].
    split; [congruence|]. split; [congruence|]. split; [congruence|].
    intros off x. rewrite Hh', Hh1, elem_of_cons. split.
    + intros [[H|[-> ->]]|H]; auto.
    + intros [H|[H|H]]; auto. inversion H; subst. auto.
Qed.

(** *** [writeBatch] *)

Lemma alast_wrap a : valid a -> wrap64 (alast a + 1) = alast a + 1.
Proof.
  intros Hv. apply wrap64_id. pose proof (valid_last_range a Hv).
  unfold in_int64, min_int64, max_int64 in *. lia.
Qed.

Lemma len_encode_all_0 ds : len (encode_all ds) = 0 -> ds = [].
Proof.
  intros E. apply encode_all_nil_inv.
  unfold len in E. destruct (encode_all ds); [reflexivity|cbn in E; lia].
Qed.

(** The [cycle] that [writeBatch] starts with when the batch does not follow
    the last offset or the tail is over its size. *)
Lemma writeBatch_first_cycle a x (c : bool) :
  valid a -> alast a + 1 <= x <= max_int64 ->
  (c = true -> alast a + 1 < x \/ a_tds a <> []) ->
  (c = false -> x <= alast a + 1) ->
  exists a0,
    when c (cycle x) (repr0 a) = Ok tt (repr a0 (length (a_tds a0)) (alast a))
    /\ valid a0 /\ a_toff a0 + len (a_tds a0) = x
    /\ a_opts a0 = a_opts a
    /\ (forall off d, aholds a0 off d <-> aholds a off d).
Proof.
  intros Hv Hx Ht Hf. destruct c.
  - specialize (Ht eq_refl). clear Hf. rewrite when_true, bind_ret_tt.
    destruct ((a_toff a =? 0) && (len (encode_all (a_tds a)) =? 0)) eqn:Est.
    + apply andb_true_iff in Est as [E1 E2].
      apply Z.eqb_eq in E1, E2. apply len_encode_all_0 in E2.
      destruct (valid_toff0 a Hv E1) as (Hp & _ & _).
      assert (alast a + 1 < x) as Hlt by (destruct Ht; [assumption|congruence]).
      assert (alast a = -1) as Hl by (unfold alast; rewrite E1, E2; reflexivity).
      exists (a_jump x a). split.
      { unfold repr0. rewrite E2. apply cycle_stale_repr; auto. lia. }
      split; [apply valid_jump; auto; lia|].
      split; [unfold a_jump; cbn [a_toff a_tds]; unfold len; cbn [length]; lia|].
      split; [reflexivity|].
      intros off d. apply aholds_jump; auto.
    + exists (a_cycle x a).
      assert (a_toff a + len (a_tds a) <= x) as Hle by (unfold alast in Hx; lia).
      assert (a_toff a < x) as Hlt.
      { unfold alast in *. destruct Ht as [H|H]; [unfold len in *; lia|].
        destruct (a_tds a); [congruence|]. unfold len in *. cbn [length] in *. lia. }
      split.
      { unfold repr0. unfold a_cycle at 1. cbn [a_tds length].
        apply cycle_repr; auto. lia. }
      split; [apply valid_cycle; auto; lia|].
      split; [unfold a_cycle; cbn [a_toff a_tds]; unfold len; cbn [length]; lia|].
      split; [apply cycle_opts|].
      intros off d. apply aholds_cycle.
  - specialize (Hf eq_refl). rewrite when_false. exists a.
    split; [reflexivity|]. split; [exact Hv|].
    split; [unfold alast in *; lia|]. split; [reflexivity|]. reflexivity.
Qed.

Lemma batch_contig_inv lst es :
  batch_contig lst es ->
  exists e0 es', es = e0 :: es' /\ lst + 1 <= fst e0 /\ contig_from (fst e0) es /\
    fst e0 + len es <= max_int64 /\ Forall (fun e => small (snd e)) es.
Proof.
  destruct es as [|e0 es']; [contradiction|].
  intros (H1 & H2 & H3 & H4). exists e0, es'. auto.
Qed.

(** [writeBatch] with a batch that follows the contract: it returns, and the
    log then holds what it held plus the entries of the batch. *)
Lemma writeBatch_repr a es :
  valid a -> batch_contig (alast a) es ->
  exists a',
    writeBatch (mkBatch es) (repr0 a) = Ok tt (repr0 a')
    /\ valid a' /\ a_opts a' = a_opts a
    /\ (forall off d, aholds a' off d <-> aholds a off d \/ (off, d) ∈ es).
Proof.
  intros Hv Hb.
  destruct (batch_contig_inv _ _ Hb) as (e0 & es' & Ees & Hx & Hc & Hmax & Hsm).
  set (x := fst e0) in *.
  assert (0 < len es) as Hlen by (subst es; unfold len; cbn [length]; lia).
  unfold writeBatch. rewrite entries_mkBatch, datas_mkBatch.
  rewrite bind_get_log. unfold tail_index.
  rewrite (bind_ok _ _ _ _ _
             (index_of_last (segments (lg (repr0 a))) (ctail a) _ (csegs_last a))).
  assert (map (fun e => MkEntry (fst e) (length (snd e))) es !! 0%nat
          = Some (MkEntry x (length (snd e0)))) as He0
    by (subst es; reflexivity).
  rewrite (bind_ok _ _ _ _ _ (index_of_Some _ 0 _ _ He0)).
  cbn [be_offset ebuf ctail].
  change (lastOffset (lg (repr0 a))) with (alast a).
  change (opts (lg (repr0 a))) with (a_opts a).
  rewrite (alast_wrap a Hv).
  destruct (writeBatch_first_cycle a x
              ((alast a + 1 <? x) || (SegmentSize (a_opts a) <? len (encode_all (a_tds a))))
              Hv ltac:(lia)) as (a0 & Hcy & Hv0 & Hend0 & Hop0 & Hh0).
  { intros E. apply orb_true_iff in E as [E|E].
    - left. apply Z.ltb_lt in E. exact E.
    - right. apply Z.ltb_lt in E. intros Hnil. rewrite Hnil in E.
      pose proof (v_size a Hv). change (len (encode_all [])) with 0 in E. lia. }
  { intros E. apply orb_false_iff in E as [E _]. apply Z.ltb_ge in E. exact E. }
  rewrite (bind_ok _ _ _ _ _ Hcy). rewrite bind_get_log.
  rewrite (bind_ok _ _ _ _ _
             (index_of_last (segments (lg (repr a0 (length (a_tds a0)) (alast a))))
                (ctail a0) _ (csegs_last a0))).
  cbn [ebuf ctail].
  destruct (writeBatch_loop_repr es a0 (length (a_tds a0)) (alast a) Hv0 (le_n _))
    as (a' & m' & lst' & Hrun & Hv' & Hm' & HP' & _ & Hend' & Hop' & _ & _ & Hh').
  { rewrite Hend0. exact Hc. }
  { rewrite Hend0. exact Hmax. }
  { exact Hsm. }
  rewrite firstn_all in Hrun. rewrite (bind_ok _ _ _ _ _ Hrun).
  rewrite bind_get_log.
  rewrite (bind_ok _ _ _ _ _
             (index_of_last (segments (lg (repr a' m' lst'))) (ctail a') _
                (csegs_last a'))).
  cbn [ebuf ctail]. change (opts (lg (repr a' m' lst'))) with (a_opts a').
  assert (alast a' = x + len es - 1) as Hlast by (unfold alast; lia).
  assert (exists w, w = repr0 a' /\
            when (0 <? len (encode_all (a_tds a'))
                       - Z.of_nat (length (encode_all (take m' (a_tds a')))))
              (exec sfile_Write
                      (drop (length (encode_all (take m' (a_tds a'))))
                         (encode_all (a_tds a'))) then
               let* e := index_of (map (fun e => MkEntry (fst e) (length (snd e))) es)
                           (len (map (fun e => MkEntry (fst e) (length (snd e))) es) - 1) in
               modify_log (set_lastOffset (be_offset e)))
              (repr a' m' lst') = Ok tt w) as (w & Ew & Hfl).
  { exists (repr0 a'). split; [reflexivity|].
    pose proof (encode_all_take_length (a_tds a') m') as Hsplit.
    destruct (Nat.eq_dec m' (length (a_tds a'))) as [Em|Em].
    - rewrite Em, firstn_all. unfold len. rewrite Z.sub_diag.
      change (0 <? 0) with false. rewrite when_false.
      rewrite (HP' ltac:(subst es; discriminate) Em). subst m'. reflexivity.
    - assert (0 < len (encode_all (a_tds a'))
                  - Z.of_nat (length (encode_all (take m' (a_tds a'))))) as Hp.
      { unfold len. rewrite <- Hsplit.
        destruct (drop m' (a_tds a')) as [|d0 r] eqn:Ed.
        - apply (f_equal length) in Ed. rewrite length_drop in Ed. simpl in Ed. lia.
        - rewrite encode_all_cons, length_app. pose proof (frame_length_pos d0). lia. }
      apply Z.ltb_lt in Hp. rewrite Hp, when_true, bind_ret_tt.
      rewrite (bind_ok _ _ _ _ _ (sfile_Write_repr a' m' lst' Hv' Hm')).
      destruct (lookup_lt_is_Some_2 es (length es - 1)) as [el Hel];
        [unfold len in Hlen; lia|].
      assert (map (fun e => MkEntry (fst e) (length (snd e))) es
                !! (length es - 1)%nat
              = Some (MkEntry (fst el) (length (snd el)))) as Hl
        by (rewrite list_lookup_fmap, Hel; reflexivity).
      assert (len (map (fun e => MkEntry (fst e) (length (snd e))) es) - 1
              = Z.of_nat (length es - 1)) as ->
        by (unfold len in *; rewrite length_map; lia).
      rewrite (bind_ok _ _ _ _ _ (index_of_Some _ _ _ _ Hl)).
      cbn [be_offset]. rewrite set_lastOffset_repr.
      rewrite (contig_lookup es x _ el Hc Hel). unfold repr0. rewrite Hlast.
      unfold len in *. do 3 f_equal. lia. }
  rewrite (bind_ok _ _ _ _ _ Hfl). subst w.
  exists a'. split.
  { destruct (NoSync (a_opts a')); cbn [negb].
    - rewrite when_false. reflexivity.
    - rewrite when_true, bind_ret_tt. apply (syncNoMutex_eq (segmentName (a_toff a'))
        (length (encode_all (take (length (a_tds a')) (a_tds a'))))). reflexivity. }
  split; [exact Hv'|]. split; [congruence|].
  intros off d. rewrite Hh', Hh0. reflexivity.
Qed.

(** ** Round trip of appended entries *)

Lemma content_lookup_tail a :
  content a !! length (a_pre a) = Some (a_toff a, a_tds a).
Proof.
  unfold content. rewrite lookup_app_r by (rewrite length_map; lia).
  rewrite length_map, Nat.sub_diag. reflexivity.
Qed.

Lemma content_spans_lookup a i o ds :
  content a !! i = Some (o, ds) -> aspans a !! i = Some (o, length ds).
Proof.
  intros H. rewrite aspans_content, list_lookup_fmap, H. reflexivity.
Qed.

Lemma afirst_content a :
  exists ds, content a !! 0%nat = Some (afirst a, ds).
Proof.
  unfold content, afirst. destruct (a_pre a) as [|s l]; cbn; eauto.
Qed.

Lemma aholds_in_range a off d :
  valid a -> aholds a off d -> afirst a <= off <= alast a.
Proof.
  intros Hv (o & ds & Hin & Ho & Hl).
  apply list_elem_of_lookup_1 in Hin as [i Hi].
  pose proof (content_spans_lookup a i o ds Hi) as Hsp.
  pose proof (span_in_valid a _ Hv (list_elem_of_lookup_2 _ _ _ Hsp)) as [H1 H2].
  cbn [fst snd] in H1, H2. pose proof (lookup_Some_lt_len _ _ _ _ Ho Hl) as Hlt.
  unfold alast, len in *. split; [|lia].
  destruct (afirst_content a) as [ds0 H0].
  destruct i as [|i].
  - rewrite H0 in Hi. inversion Hi; subst. exact Ho.
  - pose proof (content_spans_lookup a 0 _ _ H0) as Hsp0.
    pose proof (StronglySorted_lookup span_lt _ 0 (S i) _ _ (v_chain a Hv)
                  ltac:(lia) Hsp0 Hsp) as [_ Hlt0].
    cbn [fst] in Hlt0. lia.
Qed.

Lemma aholds_fun a off d d' :
  valid a -> aholds a off d -> aholds a off d' -> d = d'.
Proof.
  intros Hv (o & ds & Hin & Ho & Hl) (o' & ds' & Hin' & Ho' & Hl').
  apply list_elem_of_lookup_1 in Hin as [i Hi].
  apply list_elem_of_lookup_1 in Hin' as [j Hj].
  pose proof (content_spans_lookup a i o ds Hi) as Hsi.
  pose proof (content_spans_lookup a j o' ds' Hj) as Hsj.
  pose proof (lookup_Some_lt_len _ _ _ _ Ho Hl) as Hlt.
  pose proof (lookup_Some_lt_len _ _ _ _ Ho' Hl') as Hlt'.
  unfold len in *.
  destruct (lt_eq_lt_dec i j) as [[Hij|E]|Hji].
  - pose proof (StronglySorted_lookup span_lt _ i j _ _ (v_chain a Hv) Hij Hsi Hsj)
      as [H1 _]. cbn [fst snd] in H1. lia.
  - subst j. rewrite Hi in Hj. inversion Hj; subst. congruence.
  - pose proof (StronglySorted_lookup span_lt _ j i _ _ (v_chain a Hv) Hji Hsj Hsi)
      as [H1 _]. cbn [fst snd] in H1. lia.
Qed.

(** Reading an offset the log holds returns its payload. *)
Lemma Read_holds a off d :
  valid a -> aholds a off d ->
  exists a', Read off (repr0 a) = Ok d (repr0 a') /\ valid a' /\ same_content a a'.
Proof.
  intros Hv Hd.
  destruct (Read_repr a off Hv (aholds_in_range a off d Hv Hd))
    as (a' & Hv' & Hsc & _ & [(d' & Hd' & HR)|(Hno & _)]).
  - exists a'. rewrite (aholds_fun a off d d' Hv Hd Hd'). auto.
  - exfalso. apply (Hno d Hd).
Qed.

(** A successful read leaves a well-formed log with the same content. *)
Lemma Read_Ok_repr a off d w' :
  valid a -> Read off (repr0 a) = Ok d w' ->
  exists a', w' = repr0 a' /\ valid a' /\ same_content a a' /\ aholds a off d.
Proof.
  intros Hv HR.
  destruct (Z.lt_ge_cases off (afirst a)) as [Hlo|Hlo].
  { rewrite Read_repr_out in HR by auto. discriminate. }
  destruct (Z.lt_ge_cases (alast a) off) as [Hhi|Hhi].
  { rewrite Read_repr_out in HR by auto. discriminate. }
  destruct (Read_repr a off Hv ltac:(lia))
    as (a' & Hv' & Hsc & _ & [(d' & Hd' & HR')|(_ & HR')]).
  - rewrite HR' in HR. inversion HR; subst. exists a'. auto.
  - rewrite HR' in HR. discriminate.
Qed.

Lemma normalize_size o : 0 < SegmentSize (normalize o).
Proof.
  unfold normalize. cbn [SegmentSize].
  destruct (Z.leb_spec (SegmentSize o) 0); [reflexivity|assumption].
Qed.

Lemma normalize_csize o : 0 < SegmentCacheSize (normalize o).
Proof.
  unfold normalize. cbn [SegmentCacheSize].
  destruct (Z.leb_spec (SegmentCacheSize o) 0); [reflexivity|assumption].
Qed.

Lemma valid_init o : valid (a_init o).
Proof.
  constructor; try (repeat constructor; fail).
  - unfold afirst, a_init. cbn [a_pre a_toff]. lia.
  - unfold a_init, len. cbn [a_toff a_tds length]. unfold max_int64. lia.
  - intros H. discriminate.
  - apply normalize_size.
  - apply normalize_csize.
Qed.

Lemma open_repr o : open o ∅ = Ok tt (repr0 (a_init o)).
Proof. rewrite open_empty_dir. reflexivity. Qed.

Lemma WriteBatch_repr a es :
  valid a -> batch_contig (alast a) es ->
  exists a',
    WriteBatch (mkBatch es) (repr0 a) = Ok tt (repr0 a')
    /\ valid a' /\ a_opts a' = a_opts a
    /\ (forall off d, aholds a' off d <-> aholds a off d \/ (off, d) ∈ es).
Proof.
  intros Hv Hb. destruct (writeBatch_repr a es Hv Hb) as (a' & Hw & Hrest).
  exists a'. split; [|exact Hrest]. unfold WriteBatch.
  rewrite (bind_ok _ _ _ _ _ (guard_ok (repr0 a) eq_refl eq_refl)).
  rewrite entries_mkBatch.
  destruct es as [|e es]; [contradiction|]. exact Hw.
Qed.

Lemma Write_WriteBatch off d w : Write off d w = WriteBatch (mkBatch [(off, d)]) w.
Proof. reflexivity. Qed.

Lemma appended_repr o w hist :
  appended o w hist ->
  exists a, w = repr0 a /\ valid a /\ a_opts a = normalize o /\
    (forall off d, aholds a off d <-> (off, d) ∈ hist).
Proof.
  induction 1 as [w Ho|w w' hist es _ IH Hb Hw|w w' hist off d _ IH Hb Hw
                  |w w' hist off d _ IH Hr].
  - rewrite open_repr in Ho. inversion Ho; subst w.
    exists (a_init o). split; [reflexivity|]. split; [apply valid_init|].
    split; [reflexivity|]. intros off d. split.
    + intros (o' & ds & Hin & _ & Hl). apply list_elem_of_singleton in Hin.
      inversion Hin; subst. discriminate.
    + intros H. inversion H.
  - destruct IH as (a & -> & Hv & Hop & Hh).
    destruct (WriteBatch_repr a es Hv Hb) as (a' & Hw' & Hv' & Hop' & Hh').
    rewrite Hw' in Hw. inversion Hw; subst w'.
    exists a'. split; [reflexivity|]. split; [exact Hv'|]. split; [congruence|].
    intros off d. rewrite Hh', Hh, elem_of_app. reflexivity.
  - destruct IH as (a & -> & Hv & Hop & Hh).
    destruct (WriteBatch_repr a [(off, d)] Hv Hb) as (a' & Hw' & Hv' & Hop' & Hh').
    rewrite Write_WriteBatch, Hw' in Hw. inversion Hw; subst w'.
    exists a'. split; [reflexivity|]. split; [exact Hv'|]. split; [congruence|].
    intros off' d'. rewrite Hh', Hh, elem_of_app. reflexivity.
  - destruct IH as (a & -> & Hv & Hop & Hh).
    destruct (Read_Ok_repr a off d w' Hv Hr) as (a' & -> & Hv' & Hsc & _).
    exists a'. split; [reflexivity|]. split; [exact Hv'|].
    split; [rewrite (proj1 Hsc); exact Hop|].
    intros off' d'. rewrite <- (same_content_aholds a a' off' d' Hsc). apply Hh.
Qed.

(** X1: a log opened on an empty directory, appended to with batches whose
    offsets follow one another, start after the last offset and stay below
    the largest [int64], and read in between: every such append returns
    normally, and [Read] returns, for every entry appended so far, exactly
    its payload. *)
Theorem round_trip_contiguous o w hist :
  appended o w hist ->
  (forall off d, (off, d) ∈ hist -> outcome_of (Read off w) = Returned d) /\
  (forall es, batch_contig (lastOffset (lg w)) es ->
     outcome_of (WriteBatch (mkBatch es) w) = Returned tt) /\
  (forall off d, batch_contig (lastOffset (lg w)) [(off, d)] ->
     outcome_of (Write off d w) = Returned tt).
Proof.
  intros H. destruct (appended_repr o w hist H) as (a & -> & Hv & _ & Hh).
  split; [|split].
  - intros off d Hin. apply Hh in Hin.
    destruct (Read_holds a off d Hv Hin) as (a' & -> & _). reflexivity.
  - intros es Hb. destruct (WriteBatch_repr a es Hv Hb) as (a' & -> & _). reflexivity.
  - intros off d Hb. rewrite Write_WriteBatch.
    destruct (WriteBatch_repr a _ Hv Hb) as (a' & -> & _). reflexivity.
Qed.

Lemma round_trip_contiguous_witness :
  (forall off d, (off, d) ∈ [(0, bytes_of "a"); (1, bytes_of "b")] ->
     outcome_of (Read off two_entry_world) = Returned d) /\
  (forall es, batch_contig (lastOffset (lg two_entry_world)) es ->
     outcome_of (WriteBatch (mkBatch es) two_entry_world) = Returned tt) /\
  (forall off d, batch_contig (lastOffset (lg two_entry_world)) [(off, d)] ->
     outcome_of (Write off d two_entry_world) = Returned tt).
Proof.
  apply (round_trip_contiguous DefaultOptions two_entry_world
           [(0, bytes_of "a"); (1, bytes_of "b")]).
  apply (appended_Write DefaultOptions one_entry_world two_entry_world
           [(0, bytes_of "a")] 1 (bytes_of "b")).
  - apply (appended_Write DefaultOptions fresh_world one_entry_world
             [] 0 (bytes_of "a")).
    + apply appended_open. vm_compute. reflexivity.
    + unfold batch_contig. cbn [fst snd].
      split; [vm_compute; discriminate|]. split; [simpl; auto|].
      split; [vm_compute; discriminate|]. repeat constructor.
    + vm_compute. reflexivity.
  - unfold batch_contig. cbn [fst snd].
    split; [vm_compute; discriminate|]. split; [simpl; auto|].
    split; [vm_compute; discriminate|]. repeat constructor.
  - vm_compute. reflexivity.
Defined.

(** ** Closing and reopening a well-formed log *)

(** *** The order of file names *)

Lemma ascii_compare_eq a b : Ascii.compare a b = Eq -> a = b.
Proof. apply Ascii.compare_eq_iff. Qed.

Lemma ascii_compare_lt_trans a b c :
  Ascii.compare a b = Lt -> Ascii.compare b c = Lt -> Ascii.compare a c = Lt.
Proof.
  unfold Ascii.compare. rewrite !N.compare_lt_iff. apply N.lt_trans.
Qed.

Lemma string_compare_le_trans s1 : forall s2 s3,
  String.compare s1 s2 <> Gt -> String.compare s2 s3 <> Gt ->
  String.compare s1 s3 <> Gt.
Proof.
  induction s1 as [|c1 s1 IH]; intros [|c2 s2] [|c3 s3]; cbn [String.compare];
    try congruence.
  destruct (Ascii.compare c1 c2) eqn:E12; [| |congruence].
  - apply ascii_compare_eq in E12. subst c2.
    destruct (Ascii.compare c1 c3); [apply IH|congruence|congruence].
  - destruct (Ascii.compare c2 c3) eqn:E23; [| |congruence].
    + apply ascii_compare_eq in E23. subst c3. rewrite E12. congruence.
    + rewrite (ascii_compare_lt_trans _ _ _ E12 E23). congruence.
Qed.

Lemma name_le_compare a b : name_le a b <-> String.compare a b <> Gt.
Proof.
  unfold name_le, String.leb. destruct (String.compare a b); split; congruence.
Qed.

Global Instance name_le_trans : Transitive name_le.
Proof.
  intros a b c. rewrite !name_le_compare. apply string_compare_le_trans.
Qed.

Global Instance name_le_total : Total name_le.
Proof. intros a b. apply String.leb_total. Qed.

Global Instance name_le_antisym : AntiSymm eq name_le.
Proof. intros a b. apply String.leb_antisym. Qed.

Lemma digit_compare a b :
  0 <= a < 10 -> 0 <= b < 10 ->
  Ascii.compare (digit_char a) (digit_char b) = Z.compare a b.
Proof.
  intros Ha Hb.
  destruct (digit_cases a Ha) as [->|[->|[->|[->|[->|[->|[->|[->|[->| ->]]]]]]]]];
  destruct (digit_cases b Hb) as [->|[->|[->|[->|[->|[->|[->|[->|[->| ->]]]]]]]]];
    reflexivity.
Qed.

Lemma pad_digits_compare w : forall n m acc1 acc2,
  0 <= n < 10 ^ Z.of_nat w -> 0 <= m < 10 ^ Z.of_nat w ->
  String.compare (pad_digits w n acc1) (pad_digits w m acc2)
  = match Z.compare n m with
    | Eq => String.compare acc1 acc2
    | c => c
    end.
Proof.
  induction w as [|w IH]; intros n m acc1 acc2 Hn Hm.
  - cbn [pad_digits]. change (10 ^ Z.of_nat 0) with 1 in *.
    assert (n = 0) as -> by lia. assert (m = 0) as -> by lia. reflexivity.
  - rewrite Nat2Z.inj_succ, Z.pow_succ_r in * by lia.
    cbn [pad_digits].
    assert (0 <= n / 10 < 10 ^ Z.of_nat w) as Hn'
      by (split; [apply Z.div_pos; lia|apply Z.div_lt_upper_bound; lia]).
    assert (0 <= m / 10 < 10 ^ Z.of_nat w) as Hm'
      by (split; [apply Z.div_pos; lia|apply Z.div_lt_upper_bound; lia]).
    rewrite (IH _ _ _ _ Hn' Hm'). cbn [String.compare].
    pose proof (Z.mod_pos_bound n 10 ltac:(lia)) as Hnm.
    pose proof (Z.mod_pos_bound m 10 ltac:(lia)) as Hmm.
    rewrite (digit_compare _ _ Hnm Hmm).
    pose proof (Z.div_mod n 10 ltac:(lia)) as En.
    pose proof (Z.div_mod m 10 ltac:(lia)) as Em.
    destruct (Z.compare_spec (n / 10) (m / 10)) as [E1|E1|E1];
      destruct (Z.compare_spec (n mod 10) (m mod 10)) as [E2|E2|E2];
      destruct (Z.compare_spec n m) as [E3|E3|E3];
      try reflexivity; exfalso; lia.
Qed.

Lemma segmentName_compare x y :
  0 <= x <= max_int64 -> 0 <= y <= max_int64 ->
  String.compare (segmentName x) (segmentName y) = Z.compare x y.
Proof.
  intros Hx Hy. unfold segmentName.
  destruct (Z.ltb_spec x 0); [lia|]. destruct (Z.ltb_spec y 0); [lia|].
  rewrite pad_digits_compare.
  - destruct (x ?= y); reflexivity.
  - unfold max_int64 in Hx. split; [lia|].
    eapply Z.le_lt_trans; [apply Hx|]. reflexivity.
  - unfold max_int64 in Hy. split; [lia|].
    eapply Z.le_lt_trans; [apply Hy|]. reflexivity.
Qed.

Lemma segmentName_mono x y :
  0 <= x <= max_int64 -> 0 <= y <= max_int64 -> x < y ->
  name_le (segmentName x) (segmentName y).
Proof.
  intros Hx Hy Hlt. apply name_le_compare.
  rewrite segmentName_compare by assumption.
  apply Z.compare_lt_iff in Hlt. congruence.
Qed.

(** *** The listing of the directory *)

Lemma StronglySorted_fmap_in {A B} (f : A -> B) (R1 : relation A) (R2 : relation B)
    (l : list A) :
  (forall x y, x ∈ l -> y ∈ l -> R1 x y -> R2 (f x) (f y)) ->
  StronglySorted R1 l -> StronglySorted R2 (f <$> l).
Proof.
  intros H Hs. induction Hs as [|x l Hs IH Hx]; [constructor|].
  cbn [fmap list_fmap]. constructor.
  - apply IH. intros a b Ha Hb. apply H; apply elem_of_cons; auto.
  - apply Forall_fmap, Forall_forall. intros y Hy. cbn.
    rewrite Forall_forall in Hx.
    apply H; [apply elem_of_cons; auto|apply elem_of_cons; auto|auto].
Qed.

Lemma names_sorted a :
  valid a -> StronglySorted name_le (segmentName <$> aoffsets a).
Proof.
  intros Hv. apply (StronglySorted_fmap_in segmentName Z.lt name_le).
  - intros x y Hx Hy Hlt.
    apply segmentName_mono; auto; eapply aoffsets_range; eauto.
  - apply aoffsets_sorted. exact Hv.
Qed.

Lemma listing_repr a m lst :
  valid a ->
  listing (disk (repr a m lst))
  = map (fun n => MkDirent n false) (segmentName <$> aoffsets a).
Proof.
  intros Hv. unfold listing. f_equal.
  apply (StronglySorted_unique name_le).
  - apply StronglySorted_merge_sort; apply _.
  - apply names_sorted. exact Hv.
  - rewrite merge_sort_Permutation. unfold repr. cbn [disk].
    rewrite <- afiles_names with (m := m).
    apply fmap_Permutation. apply map_to_list_to_map.
    apply valid_names_NoDup. exact Hv.
Qed.

(** *** The scan of a directory that holds segment files only *)

Lemma substring_all s : String.substring 0 (String.length s) s = s.
Proof. induction s as [|c s IH]; [reflexivity|]. cbn. rewrite IH. reflexivity. Qed.

Lemma has_marker_segmentName x suffix :
  (0 < String.length suffix)%nat -> has_marker (segmentName x) suffix = false.
Proof.
  intros H. unfold has_marker. rewrite segmentName_length.
  unfold segmentFilenameLength.
  destruct (Nat.eqb_spec 20 (20 + String.length suffix)); [lia|reflexivity].
Qed.

Lemma scan_entry_segment st x :
  0 <= x <= max_int64 ->
  scan_entry st (MkDirent (segmentName x) false)
  = inr (MkScan (sc_segments st ++ [dseg x]) (startIdx st) (endIdx st)
           (truncateIdx st)).
Proof.
  intros Hx. unfold scan_entry. cbn [d_name d_isDir orb].
  rewrite segmentName_length. unfold segmentFilenameLength.
  change (20 <? 20)%nat with false. cbv iota.
  unfold str_prefix. rewrite <- (segmentName_length x) at 1.
  rewrite substring_all, (ParseInt_segmentName x Hx).
  destruct (Z.eqb_spec x (-1)); [lia|].
  rewrite !has_marker_segmentName by (cbn; lia).
  change (20 =? 20)%nat with true. cbn [orb andb]. reflexivity.
Qed.

Lemma scan_segments xs : forall st,
  Forall (fun x => 0 <= x <= max_int64) xs ->
  scan st (map (fun n => MkDirent n false) (segmentName <$> xs))
  = inr (MkScan (sc_segments st ++ map dseg xs) (startIdx st) (endIdx st)
           (truncateIdx st)).
Proof.
  induction xs as [|x xs IH]; intros st Hr.
  - cbn. rewrite app_nil_r. destruct st; reflexivity.
  - apply Forall_cons in Hr as [Hx Hr]. cbn [fmap list_fmap map scan].
    rewrite (scan_entry_segment st x Hx). rewrite (IH _ Hr).
    cbn [sc_segments startIdx endIdx truncateIdx]. rewrite <- app_assoc. reflexivity.
Qed.

Lemma aoffsets_Forall_range a :
  valid a -> Forall (fun x => 0 <= x <= max_int64) (aoffsets a).
Proof. intros Hv. apply Forall_forall. intros x. apply aoffsets_range. exact Hv. Qed.

(** *** [load] *)

Lemma csegs_reopen a : csegs (a_reopen a) = map dseg (map a_off (a_pre a)) ++ [ctail a].
Proof.
  unfold csegs, a_reopen. cbn [a_stale a_pre app].
  rewrite !map_map. reflexivity.
Qed.

Lemma map_dseg_offsets a :
  map dseg (aoffsets a) = map dseg (map a_off (a_pre a)) ++ [dseg (a_toff a)].
Proof. unfold aoffsets. rewrite map_app. reflexivity. Qed.

Lemma afirst_reopen a : afirst (a_reopen a) = afirst a.
Proof.
  unfold afirst, a_reopen. cbn [a_pre a_toff]. destruct (a_pre a); reflexivity.
Qed.

Lemma afiles_reopen a m : afiles (a_reopen a) m = afiles a m.
Proof.
  unfold afiles, a_reopen. cbn [a_pre a_toff a_tds]. rewrite map_map. reflexivity.
Qed.

Lemma content_reopen a : content (a_reopen a) = content a.
Proof.
  unfold content, a_reopen. cbn [a_pre a_toff a_tds]. rewrite map_map. reflexivity.
Qed.

Lemma valid_reopen a : valid a -> valid (a_reopen a).
Proof.
  intros Hv. constructor.
  - rewrite aspans_content, content_reopen, <- aspans_content. apply (v_chain a Hv).
  - rewrite afirst_reopen. apply (v_first a Hv).
  - apply (v_last a Hv).
  - unfold a_reopen. cbn [a_pre]. apply Forall_fmap.
    eapply Forall_impl; [apply (v_small_pre a Hv)|]. intros s Hs. exact Hs.
  - apply (v_small_tl a Hv).
  - constructor.
  - intros H. discriminate.
  - apply (v_size a Hv).
  - apply (v_csize a Hv).
Qed.

Lemma head_offsets a : exists l, aoffsets a = afirst a :: l.
Proof.
  unfold aoffsets, afirst. destruct (a_pre a) as [|s l]; cbn; eauto.
Qed.

Lemma normalize_idem o : normalize (normalize o) = normalize o.
Proof.
  unfold normalize. cbn [NoSync SegmentSize SegmentCacheSize NoCopy].
  destruct (Z.leb_spec (SegmentSize o) 0) as [H1|H1];
    destruct (Z.leb_spec (SegmentCacheSize o) 0) as [H2|H2];
    cbn [SegmentSize SegmentCacheSize DefaultOptions].
  - reflexivity.
  - destruct (Z.leb_spec (SegmentCacheSize o) 0); [lia|]. reflexivity.
  - destruct (Z.leb_spec (SegmentSize o) 0); [lia|]. reflexivity.
  - destruct (Z.leb_spec (SegmentSize o) 0); [lia|].
    destruct (Z.leb_spec (SegmentCacheSize o) 0); [lia|]. reflexivity.
Qed.

(** Opening the directory of a well-formed log. *)
Lemma open_repr_disk o a :
  valid a -> a_opts a = normalize o ->
  open o (disk (repr0 a)) = Ok tt (repr0 (a_reopen a)).
Proof.
  intros Hv Hop. unfold open, load.
  rewrite (bind_ok _ _ _ _ _ (fs_ReadDir_eq _)). cbn [disk].
  fold (disk (repr0 a)). unfold repr0 at 1.
  rewrite (listing_repr a _ _ Hv).
  rewrite (scan_segments _ scan_init (aoffsets_Forall_range a Hv)).
  cbn [sc_segments scan_init app startIdx endIdx truncateIdx].
  rewrite bind_modify_log.
  destruct (head_offsets a) as [l0 Hl0].
  assert ((len (map dseg (aoffsets a)) =? 0) = false) as ->.
  { unfold len. rewrite length_map, Hl0. reflexivity. }
  change (markers_clash (MkScan (map dseg (aoffsets a)) (-1) (-1) (-1))) with false.
  cbv iota. change (negb (-1 =? -1)) with false.
  rewrite !when_false, !bind_ret, bind_get_log.
  cbn [lg disk segments set_segments new_log].
  assert (map dseg (aoffsets a) !! 0%nat = Some (dseg (afirst a))) as H0
    by (rewrite Hl0; reflexivity).
  rewrite (bind_ok _ _ _ _ _ (index_of_Some _ 0 _ _ H0)).
  rewrite bind_modify_log. cbn [lg disk offset dseg].
  assert (last (map dseg (aoffsets a)) = Some (dseg (a_toff a))) as Hlast
    by (rewrite map_dseg_offsets; apply last_snoc).
  rewrite (bind_ok _ _ _ _ _ (index_of_last _ _ _ Hlast)).
  cbn [path dseg].
  set (L1 := set_firstOffset (afirst a)
               (set_segments (map dseg (aoffsets a)) (new_log o))).
  set (fs := disk (repr0 a)).
  assert (fs !! segmentName (a_toff a) = Some (encode_all (a_tds a))) as Htail.
  { unfold fs, repr0. rewrite (disk_lookup_tail a _ _ Hv), firstn_all. reflexivity. }
  assert (assign_sfile (openFile (segmentName (a_toff a))) (MkWorld L1 fs)
          = Ok tt (MkWorld (set_sfile (FOpen (segmentName (a_toff a)) 0) L1) fs))
    as Hopen.
  { unfold assign_sfile, openFile. rewrite bind_get_disk. cbn [disk].
    rewrite Htail. reflexivity. }
  rewrite (bind_ok _ _ _ _ _ Hopen).
  assert (sfile_SeekEnd (MkWorld (set_sfile (FOpen (segmentName (a_toff a)) 0) L1) fs)
          = Ok (Z.of_nat (length (encode_all (a_tds a))))
              (MkWorld (set_sfile (FOpen (segmentName (a_toff a))
                                     (length (encode_all (a_tds a)))) L1) fs))
    as Hseek.
  { unfold sfile_SeekEnd. rewrite bind_get_log, bind_get_disk.
    cbn [lg disk sfile set_sfile L1]. rewrite Htail. reflexivity. }
  rewrite (bind_ok _ _ _ _ _ Hseek).
  assert (Z.to_nat (len (map dseg (aoffsets a)) - 1) = length (a_pre a)) as Hidx.
  { unfold len, aoffsets. rewrite length_map, length_app, length_map. cbn. lia. }
  rewrite Hidx.
  assert (map dseg (aoffsets a) !! length (a_pre a) = Some (dseg (a_toff a))) as Htl.
  { rewrite map_dseg_offsets. rewrite lookup_app_r by (rewrite !length_map; lia).
    rewrite !length_map, Nat.sub_diag. reflexivity. }
  set (L2 := set_sfile (FOpen (segmentName (a_toff a))
                          (length (encode_all (a_tds a)))) L1).
  assert (loadSegmentEntries (length (a_pre a)) (MkWorld L2 fs)
          = Ok tt (MkWorld (set_segments (csegs (a_reopen a)) L2) fs)) as Hload.
  { unfold loadSegmentEntries. rewrite bind_get_log.
    cbn [lg segments L2 L1 set_sfile set_firstOffset set_segments new_log].
    rewrite Htl. unfold fs_ReadFile. rewrite bind_assoc, bind_get_disk.
    cbn [disk path dseg]. rewrite Htail, bind_ret.
    rewrite (parse_frames_encode _ (v_small_tl a Hv)).
    unfold modify_log. f_equal. f_equal. cbn [lg].
    change (segments L2) with (map dseg (aoffsets a)). f_equal.
    rewrite csegs_reopen, map_dseg_offsets.
    replace (length (a_pre a)) with (length (map dseg (map a_off (a_pre a))) + 0)%nat
      by (rewrite !length_map; lia).
    rewrite alter_app_r. reflexivity. }
  rewrite (bind_ok _ _ _ _ _ Hload). rewrite bind_get_log.
  cbn [lg segments set_segments].
  assert (len (map dseg (aoffsets a)) - 1 = Z.of_nat (length (a_pre a))) as Hidx2.
  { unfold len, aoffsets. rewrite length_map, length_app, length_map. cbn. lia. }
  rewrite Hidx2.
  assert (csegs (a_reopen a) !! length (a_pre a) = Some (ctail a)) as Htl2.
  { rewrite csegs_reopen. rewrite lookup_app_r by (rewrite !length_map; lia).
    rewrite !length_map, Nat.sub_diag. reflexivity. }
  rewrite (bind_ok _ _ _ _ _ (index_of_Some _ _ _ _ Htl2)).
  unfold modify_log. f_equal. cbn [lg disk offset epos ctail].
  rewrite len_positions.
  pose proof (valid_toff_range a Hv) as Htr. pose proof (v_last a Hv) as Hl.
  assert (0 <= len (a_tds a)) as Hpos by (unfold len; lia).
  rewrite (wrap64_id (a_toff a + len (a_tds a)))
    by (unfold in_int64, min_int64, max_int64 in *; lia).
  rewrite wrap64_id by (unfold in_int64, min_int64, max_int64 in *; lia).
  unfold repr0, repr. f_equal.
  - unfold L2, L1, new_log.
    cbn [set_lastOffset set_segments set_sfile set_firstOffset opts closed corrupt
         segments firstOffset lastOffset sfile scache].
    rewrite afirst_reopen, firstn_all, <- Hop. reflexivity.
  - unfold fs, repr0, repr. cbn [disk]. rewrite afiles_reopen. reflexivity.
Qed.

(** [Close] on a well-formed log. *)
Lemma Close_repr a :
  Close (repr0 a)
  = Ok tt (MkWorld (set_closed true (set_sfile FClosed (lg (repr0 a))))
             (disk (repr0 a))).
Proof. reflexivity. Qed.

Lemma reopen_repr o a :
  valid a -> a_opts a = normalize o ->
  reopen o (repr0 a) = Ok tt (repr0 (a_reopen a)).
Proof.
  intros Hv Hop. unfold reopen. rewrite Close_repr. cbn [disk].
  apply open_repr_disk; auto.
Qed.

Lemma same_content_reopen a : same_content a (a_reopen a).
Proof. split; [reflexivity|apply content_reopen]. Qed.

(** ** What the segments of a log hold, as lists *)

Lemma aholds_holds a off d : aholds a off d <-> holds (content a) off d.
Proof. reflexivity. Qed.

Lemma spans_content a : spans (content a) = aspans a.
Proof. symmetry. apply aspans_content. Qed.

Lemma holds_app c1 c2 off d :
  holds (c1 ++ c2) off d <-> holds c1 off d \/ holds c2 off d.
Proof.
  unfold holds. split.
  - intros (o & ds & Hin & H). apply elem_of_app in Hin as [Hin|Hin];
      [left|right]; eauto.
  - intros [(o & ds & Hin & H)|(o & ds & Hin & H)]; exists o, ds;
      (split; [apply elem_of_app; auto|exact H]).
Qed.

Lemma holds_single o ds off d :
  holds [(o, ds)] off d <-> o <= off /\ ds !! Z.to_nat (off - o) = Some d.
Proof.
  unfold holds. split.
  - intros (o' & ds' & Hin & H). apply list_elem_of_singleton in Hin.
    inversion Hin; subst. exact H.
  - intros H. exists o, ds. split; [apply list_elem_of_singleton; reflexivity|exact H].
Qed.

Lemma holds_cons o ds c off d :
  holds ((o, ds) :: c) off d <-> holds [(o, ds)] off d \/ holds c off d.
Proof. apply (holds_app [(o, ds)] c). Qed.

(** Segments before [(o, ds)] hold offsets below [o] only. *)
Lemma holds_before c1 o ds c2 off d :
  StronglySorted span_lt (spans (c1 ++ (o, ds) :: c2)) ->
  holds c1 off d -> off < o.
Proof.
  intros Hs (o1 & ds1 & Hin & Ho & Hl).
  unfold spans in Hs. rewrite map_app in Hs.
  apply StronglySorted_app in Hs as (Hcross & _ & _).
  assert (span_lt (o1, length ds1) (o, length ds)) as [H _].
  { apply Hcross.
    - apply list_elem_of_fmap. exists (o1, ds1). auto.
    - cbn [map fst snd]. apply elem_of_cons. left. reflexivity. }
  cbn [fst snd] in H. apply lookup_lt_Some in Hl. lia.
Qed.

(** Segments after [(o, ds)] hold offsets from [o + len ds] on only. *)
Lemma holds_after c1 o ds c2 off d :
  StronglySorted span_lt (spans (c1 ++ (o, ds) :: c2)) ->
  holds c2 off d -> o + len ds <= off.
Proof.
  intros Hs (o2 & ds2 & Hin & Ho & Hl).
  unfold spans in Hs. rewrite map_app in Hs.
  apply StronglySorted_app in Hs as (_ & _ & Hs2).
  cbn [map fst snd] in Hs2. apply StronglySorted_inv in Hs2 as [_ Hall].
  rewrite Forall_forall in Hall.
  assert (span_lt (o, length ds) (o2, length ds2)) as [H _].
  { apply Hall. apply list_elem_of_fmap. exists (o2, ds2). auto. }
  cbn [fst snd] in H. unfold len. lia.
Qed.

(** Dropping the segments before [(o, ds)] and its first [k] payloads keeps
    what is held from offset [o + k] on. *)
Lemma holds_front c1 o ds c2 (k : nat) off d :
  StronglySorted span_lt (spans (c1 ++ (o, ds) :: c2)) ->
  (k < length ds)%nat ->
  holds ((o + Z.of_nat k, drop k ds) :: c2) off d
  <-> o + Z.of_nat k <= off /\ holds (c1 ++ (o, ds) :: c2) off d.
Proof.
  intros Hs Hk.
  rewrite (holds_cons (o + Z.of_nat k) (drop k ds) c2), holds_app,
    (holds_cons o ds c2), !holds_single.
  split.
  - intros [[Ho Hl]|H2].
    + split; [exact Ho|]. right. left. split; [lia|].
      rewrite lookup_drop in Hl. rewrite <- Hl. f_equal. lia.
    + pose proof (holds_after c1 o ds c2 off d Hs H2). unfold len in *.
      split; [lia|]. auto.
  - intros [Ho [H1|[[_ Hl]|H2]]].
    + pose proof (holds_before c1 o ds c2 off d Hs H1). lia.
    + left. split; [exact Ho|]. rewrite lookup_drop. rewrite <- Hl. f_equal. lia.
    + auto.
Qed.

(** Dropping the segments after [(o, ds)] and all but its first [k + 1]
    payloads keeps what is held up to offset [o + k]. *)
Lemma holds_back c1 o ds c2 (k : nat) off d :
  StronglySorted span_lt (spans (c1 ++ (o, ds) :: c2)) ->
  (k < length ds)%nat ->
  holds (c1 ++ [(o, take (S k) ds)]) off d
  <-> off <= o + Z.of_nat k /\ holds (c1 ++ (o, ds) :: c2) off d.
Proof.
  intros Hs Hk. rewrite !holds_app, (holds_cons o ds c2), !holds_single.
  split.
  - intros [H1|[Ho Hl]].
    + pose proof (holds_before c1 o ds c2 off d Hs H1). split; [lia|]. auto.
    + apply lookup_take_Some in Hl as [Hl Hlt].
      split; [lia|]. right. left. auto.
  - intros [Ho [H1|[[Ho' Hl]|H2]]].
    + auto.
    + right. split; [exact Ho'|]. apply lookup_take_Some. split; [exact Hl|lia].
    + pose proof (holds_after c1 o ds c2 off d Hs H2). unfold len in *. lia.
Qed.

(** A log holds nothing outside its bounds, so it is the front and the back
    of itself. *)
Lemma front_of_refl a : valid a -> front_of (afirst a) a a.
Proof.
  intros Hv. split; [reflexivity|]. split; [reflexivity|].
  intros off d. split; [|tauto].
  intros H. split; [|exact H]. apply (aholds_in_range a off d Hv H).
Qed.

Lemma back_of_refl a : valid a -> back_of (alast a) a a.
Proof.
  intros Hv. split; [reflexivity|]. split; [reflexivity|].
  intros off d. split; [|tauto].
  intros H. split; [|exact H]. apply (aholds_in_range a off d Hv H).
Qed.

(** [Read] at an offset where two logs agree on the bounds test and on
    what they hold. *)
Lemma Read_outcome_agree a a' off :
  valid a -> valid a' ->
  (afirst a' <= off <= alast a' <-> afirst a <= off <= alast a) ->
  (forall d, aholds a' off d <-> aholds a off d) ->
  outcome_of (Read off (repr0 a')) = outcome_of (Read off (repr0 a)).
Proof.
  intros Hv Hv' Hr Hh.
  destruct (Z.lt_ge_cases off (afirst a)) as [Hlo|Hlo].
  { rewrite !Read_repr_out by lia. reflexivity. }
  destruct (Z.lt_ge_cases (alast a) off) as [Hhi|Hhi].
  { rewrite !Read_repr_out by lia. reflexivity. }
  destruct (Read_repr a off Hv ltac:(lia))
    as (b & _ & _ & _ & [(d & Hd & HR)|(Hno & HR)]);
    destruct (Read_repr a' off Hv' ltac:(lia))
      as (b' & _ & _ & _ & [(d' & Hd' & HR')|(Hno' & HR')]);
    rewrite HR, HR'; cbn [outcome_of].
  - apply Hh in Hd'. rewrite (aholds_fun a off d d' Hv Hd Hd'). reflexivity.
  - exfalso. apply (Hno' d). apply Hh. exact Hd.
  - exfalso. apply (Hno d'). apply Hh. exact Hd'.
  - reflexivity.
Qed.

(** ** Truncation: auxiliary facts *)

Lemma bind_Ok_inv {A B} (m : M A) (k : A -> M B) w b w' :
  bind m k w = Ok b w' -> exists a w1, m w = Ok a w1 /\ k a w1 = Ok b w'.
Proof.
  unfold bind. destruct (m w) as [a w1| |]; [eauto|discriminate|discriminate].
Qed.

Lemma with_recover_Ok_inv {A} (m : M A) w a w' :
  with_recover m w = Ok a w' -> m w = Ok a w'.
Proof.
  unfold with_recover. destruct (m w); [auto|auto|discriminate].
Qed.

Lemma slice_panic {A} (l : list A) lo hi w :
  ~ (0 <= lo <= hi /\ hi <= len l) -> slice l lo hi w = Panic w.
Proof.
  intros H. unfold slice, len in *.
  destruct (Z.leb_spec 0 lo); [|reflexivity].
  destruct (Z.leb_spec lo hi); [|reflexivity].
  destruct (Z.leb_spec hi (Z.of_nat (length l))); [lia|reflexivity].
Qed.

(** *** Removing files *)

Lemma fs_Remove_Ok_inv name w w' :
  fs_Remove name w = Ok tt w' ->
  is_Some (disk w !! name) /\ w' = MkWorld (lg w) (delete name (disk w)).
Proof.
  unfold fs_Remove. rewrite bind_get_disk.
  destruct (disk w !! name) as [c|] eqn:E; [|discriminate].
  rewrite modify_disk_eq. intros H. inversion H. eauto.
Qed.

Lemma delete_paths_cons s ss fs :
  delete_paths (s :: ss) fs = delete_paths ss (delete (path s) fs).
Proof. reflexivity. Qed.

Lemma remove_range_inv n : forall lo w w',
  remove_segments (map (fun k => lo + Z.of_nat k) (seq 0 n)) w = Ok tt w' ->
  0 <= lo ->
  w' = MkWorld (lg w)
         (delete_paths (take n (drop (Z.to_nat lo) (segments (lg w)))) (disk w))
  /\ (length (take n (drop (Z.to_nat lo) (segments (lg w)))) = n)
  /\ ((0 < n)%nat ->
      exists s, segments (lg w) !! Z.to_nat lo = Some s /\
                is_Some (disk w !! path s)).
Proof.
  induction n as [|n IH]; intros lo w w' H Hlo.
  - cbn in H. inversion H. rewrite take_0. cbn. rewrite world_eta.
    split; [reflexivity|]. split; [reflexivity|lia].
  - rewrite <- cons_seq, <- seq_shift, map_cons, map_map in H.
    unfold remove_segments in H. cbn [forM_] in H.
    apply bind_Ok_inv in H as ([] & w1 & H1 & H2).
    rewrite bind_get_log in H1.
    apply bind_Ok_inv in H1 as (s & w0 & Hs & Hrm).
    replace (lo + Z.of_nat 0) with lo in Hs by lia.
    apply index_of_Ok_inv in Hs as (_ & Hs & ->).
    apply fs_Remove_Ok_inv in Hrm as [Hin ->].
    assert (forM_ (map (fun k => (lo + 1) + Z.of_nat k) (seq 0 n))
              (fun i => let* l := get_log in
                        let* s := index_of (segments l) i in
                        fs_Remove (path s))
              (MkWorld (lg w) (delete (path s) (disk w))) = Ok tt w') as H2'.
    { rewrite <- H2. f_equal. apply map_ext. intros k. lia. }
    destruct (IH (lo + 1) _ _ H2' ltac:(lia)) as (-> & Hlen & _).
    cbn [lg disk] in *.
    replace (Z.to_nat (lo + 1)) with (S (Z.to_nat lo)) in * by lia.
    rewrite (drop_S _ _ _ Hs). cbn [take length]. rewrite delete_paths_cons.
    split; [reflexivity|]. split; [rewrite Hlen; reflexivity|].
    intros _. exists s. auto.
Qed.

Lemma delete_paths_insert_ne ss n v fs :
  n ∉ map path ss ->
  delete_paths ss (<[n := v]> fs) = <[n := v]> (delete_paths ss fs).
Proof.
  revert fs. induction ss as [|s ss IH]; intros fs Hn; [reflexivity|].
  rewrite !delete_paths_cons.
  rewrite delete_insert_ne.
  - apply IH. intros Hin. apply Hn. cbn [map]. apply elem_of_cons. auto.
  - intros E. apply Hn. cbn [map]. apply elem_of_cons. auto.
Qed.

Lemma delete_paths_lookup_ne ss n fs :
  n ∉ map path ss -> delete_paths ss fs !! n = fs !! n.
Proof.
  revert fs. induction ss as [|s ss IH]; intros fs Hn; [reflexivity|].
  rewrite delete_paths_cons.
  rewrite IH by (intros Hin; apply Hn; cbn [map]; apply elem_of_cons; auto).
  apply lookup_delete_ne. intros E. apply Hn. cbn [map]. apply elem_of_cons. auto.
Qed.

(** Deleting the first files of a directory given by a list. *)
Lemma delete_paths_list_to_map (ss : list segment) (F1 F2 : list (string * list byte)) :
  map path ss = F1.*1 -> NoDup (F1 ++ F2).*1 ->
  delete_paths ss (list_to_map (F1 ++ F2)) = list_to_map F2.
Proof.
  revert F1. induction ss as [|s ss IH]; intros F1 Hp Hnd.
  - destruct F1; [reflexivity|discriminate].
  - destruct F1 as [|[n v] F1]; [discriminate|].
    cbn [map fmap list_fmap fst] in Hp. inversion Hp as [[Hn Hrest]].
    rewrite delete_paths_cons, <- app_comm_cons, list_to_map_cons.
    cbn [app fmap list_fmap fst] in Hnd. apply NoDup_cons in Hnd as [Hnin Hnd].
    rewrite Hn.
    rewrite delete_insert_eq, delete_id by (apply not_elem_of_list_to_map_1; exact Hnin).
    apply IH; assumption.
Qed.

(** *** Altering and cutting lists *)

Lemma alter_alter_commute {A} (f g : A -> A) i j (l : list A) :
  (forall x, f (g x) = g (f x)) ->
  alter f i (alter g j l) = alter g j (alter f i l).
Proof.
  intros H. apply list_eq. intros k.
  destruct (decide (i = k)) as [Ei|Ei], (decide (j = k)) as [Ej|Ej]; subst.
  - rewrite !list_lookup_alter_eq. destruct (l !! k); cbn; [rewrite H|]; reflexivity.
  - rewrite list_lookup_alter_eq, (list_lookup_alter_ne g) by exact Ej.
    rewrite (list_lookup_alter_ne g) by exact Ej.
    rewrite list_lookup_alter_eq. reflexivity.
  - rewrite (list_lookup_alter_ne f) by exact Ei.
    rewrite !list_lookup_alter_eq.
    rewrite (list_lookup_alter_ne f) by exact Ei. reflexivity.
  - rewrite (list_lookup_alter_ne f), (list_lookup_alter_ne g) by assumption.
    rewrite (list_lookup_alter_ne g), (list_lookup_alter_ne f) by assumption.
    reflexivity.
Qed.

Lemma foldr_alter_commute {A} (f g : A -> A) i ks (l : list A) :
  (forall x, f (g x) = g (f x)) ->
  foldr (fun k segs => alter g k segs) (alter f i l) ks
  = alter f i (foldr (fun k segs => alter g k segs) l ks).
Proof.
  intros H. induction ks as [|k ks IH]; [reflexivity|].
  cbn [foldr]. rewrite IH. symmetry. apply alter_alter_commute. exact H.
Qed.

Lemma foldr_alter_drop {A} (g : A -> A) n ks (l : list A) :
  Forall (fun k => (k < n)%nat) ks ->
  drop n (foldr (fun k segs => alter g k segs) l ks) = drop n l.
Proof.
  intros H. induction H as [|k ks Hk _ IH]; [reflexivity|].
  cbn [foldr]. rewrite <- IH. apply list_eq. intros j.
  rewrite !lookup_drop. apply list_lookup_alter_ne. lia.
Qed.

Lemma drop_alter_at {A} (f : A -> A) i (l : list A) x :
  l !! i = Some x -> drop i (alter f i l) = f x :: drop (S i) l.
Proof.
  revert i. induction l as [|y l IH]; intros i H; [discriminate|].
  destruct i as [|i]; cbn in *.
  - inversion H; subst. reflexivity.
  - apply IH. exact H.
Qed.

Lemma take_alter_at {A} (f : A -> A) i (l : list A) x :
  l !! i = Some x -> take (S i) (alter f i l) = take i l ++ [f x].
Proof.
  revert i. induction l as [|y l IH]; intros i H; [discriminate|].
  destruct i as [|i]; cbn in *.
  - inversion H; subst. rewrite take_0. reflexivity.
  - f_equal. apply IH. exact H.
Qed.

(** *** Clearing the cache *)

Lemma foldr_evict_sh ks a : sh (foldr a_evict a ks) = sh a.
Proof. induction ks as [|k ks IH]; [reflexivity|]. cbn [foldr]. rewrite evict_sh. exact IH. Qed.

Lemma foldr_evict_length ks a :
  length (a_pre (foldr a_evict a ks)) = length (a_pre a).
Proof.
  induction ks as [|k ks IH]; [reflexivity|]. cbn [foldr]. rewrite evict_length. exact IH.
Qed.

Lemma foldr_evict_valid ks a : valid a -> valid (foldr a_evict a ks).
Proof.
  intros Hv. induction ks as [|k ks IH]; [exact Hv|]. cbn [foldr].
  apply valid_evict. exact IH.
Qed.

Lemma foldr_evict_content ks a : same_content a (foldr a_evict a ks).
Proof.
  induction ks as [|k ks IH]; [apply same_content_refl|]. cbn [foldr].
  eapply same_content_trans; [exact IH|apply same_content_evict].
Qed.

Lemma foldr_evict_stale ks a : a_stale (foldr a_evict a ks) = a_stale a.
Proof.
  induction ks as [|k ks IH]; [reflexivity|]. cbn [foldr]. rewrite evict_stale. exact IH.
Qed.

Lemma csegs_foldr_evict ks a :
  Forall (fun k => (k < sh a + length (a_pre a))%nat) ks ->
  foldr (fun k segs => alter dormant k segs) (csegs a) ks
  = csegs (foldr a_evict a ks).
Proof.
  intros H. induction H as [|k ks Hk _ IH]; [reflexivity|].
  cbn [foldr]. rewrite IH. apply csegs_evict.
  rewrite foldr_evict_sh, foldr_evict_length. exact Hk.
Qed.

Lemma evict_res_other j k a s :
  a_pre a !! k = Some s -> a_res s = false ->
  exists s', a_pre (a_evict j a) !! k = Some s' /\ a_res s' = false.
Proof.
  intros Hs Hr. unfold a_evict. destruct (j <? sh a)%nat; [eauto|].
  cbn [a_pre set_a_pre]. destruct (decide (j - sh a = k)%nat) as [E|E].
  - subst k. rewrite list_lookup_alter_eq, Hs. cbn. eauto.
  - rewrite list_lookup_alter_ne by exact E. eauto.
Qed.

Lemma foldr_evict_res ks a k :
  (sh a + k)%nat ∈ ks -> (k < length (a_pre a))%nat ->
  exists s', a_pre (foldr a_evict a ks) !! k = Some s' /\ a_res s' = false.
Proof.
  intros Hin Hk. induction ks as [|j ks IH]; [inversion Hin|].
  cbn [foldr]. apply elem_of_cons in Hin as [E|Hin].
  - subst j.
    destruct (lookup_lt_is_Some_2 (a_pre (foldr a_evict a ks)) k) as [s Hs].
    { rewrite foldr_evict_length. exact Hk. }
    exists (set_res false s). split; [|reflexivity].
    unfold a_evict at 1. rewrite foldr_evict_sh.
    destruct (Nat.ltb_spec (sh a + k) (sh a)); [lia|].
    cbn [a_pre set_a_pre]. replace (sh a + k - sh a)%nat with k by lia.
    rewrite list_lookup_alter_eq, Hs. reflexivity.
  - destruct (IH Hin) as (s' & Hs' & Hr'). eapply evict_res_other; eauto.
Qed.

Lemma clearCache_eq w :
  clearCache w
  = Ok tt (MkWorld
             (set_scache []
                (set_segments
                   (foldr (fun k segs => alter dormant k segs)
                      (segments (lg w)) (scache (lg w))) (lg w)))
             (disk w)).
Proof. reflexivity. Qed.

Lemma valid_clear a : valid a -> valid (a_clear a).
Proof.
  intros Hv. unfold a_clear. apply valid_set_cache; [|constructor].
  apply foldr_evict_valid. exact Hv.
Qed.

Lemma same_content_clear a : same_content a (a_clear a).
Proof.
  unfold a_clear. destruct (foldr_evict_content (a_cache a) a) as [H1 H2].
  split; [exact H1|exact H2].
Qed.

(** A record is determined by its content and its residency. *)
Lemma aseg_eta s s' :
  a_off s' = a_off s -> a_ds s' = a_ds s -> a_res s' = a_res s -> s' = s.
Proof. destruct s, s'. cbn. intros -> -> ->. reflexivity. Qed.

Lemma same_content_lookup a a' i s :
  same_content a a' -> a_pre a !! i = Some s ->
  exists s', a_pre a' !! i = Some s' /\ a_off s' = a_off s /\ a_ds s' = a_ds s.
Proof.
  intros H Hs. destruct (same_content_tail a a' H) as (_ & _ & Hp).
  assert (map (fun s => (a_off s, a_ds s)) (a_pre a') !! i = Some (a_off s, a_ds s)) as E.
  { rewrite Hp. rewrite list_lookup_fmap, Hs. reflexivity. }
  rewrite list_lookup_fmap in E. destruct (a_pre a' !! i) as [s'|]; [|discriminate].
  cbn in E. inversion E. eauto.
Qed.

(** *** Exact steps on any world *)

Lemma set_seg_at_eq i f s w :
  segments (lg w) !! i = Some s ->
  set_seg_at (Z.of_nat i) f w
  = Ok tt (MkWorld (set_segments (alter f i (segments (lg w))) (lg w)) (disk w)).
Proof.
  intros H. unfold set_seg_at. rewrite bind_get_log.
  rewrite (bind_ok _ _ _ _ _ (index_of_Some _ _ _ _ H)).
  rewrite modify_log_eq, Nat2Z.id. reflexivity.
Qed.

Lemma assign_open_eq name c w :
  disk w !! name = Some c ->
  assign_sfile (openFile name) w
  = Ok tt (MkWorld (set_sfile (FOpen name 0) (lg w)) (disk w)).
Proof.
  intros H. unfold assign_sfile, openFile. rewrite bind_get_disk, H. reflexivity.
Qed.

Lemma sfile_SeekEnd_eq name p c w :
  sfile (lg w) = FOpen name p -> disk w !! name = Some c ->
  sfile_SeekEnd w
  = Ok (Z.of_nat (length c))
      (MkWorld (set_sfile (FOpen name (length c)) (lg w)) (disk w)).
Proof.
  intros Hs Hd. unfold sfile_SeekEnd. rewrite bind_get_log, bind_get_disk, Hs, Hd.
  reflexivity.
Qed.

Lemma loadSegmentEntries_eq i s data ep w :
  segments (lg w) !! i = Some s -> disk w !! path s = Some data ->
  parse_frames data = inr ep ->
  loadSegmentEntries i w
  = Ok tt (MkWorld (set_segments (alter (set_bufs data ep) i (segments (lg w))) (lg w))
             (disk w)).
Proof.
  intros Hs Hd Hp. unfold loadSegmentEntries. rewrite bind_get_log, Hs.
  unfold fs_ReadFile. rewrite bind_assoc, bind_get_disk, Hd, bind_ret, Hp.
  reflexivity.
Qed.

Lemma alter_alter_same {A} (f g : A -> A) i (l : list A) :
  alter f i (alter g i l) = alter (fun x => f (g x)) i l.
Proof.
  apply list_eq. intros k. destruct (decide (i = k)) as [->|E].
  - rewrite !list_lookup_alter_eq. destruct (l !! k); reflexivity.
  - rewrite !list_lookup_alter_ne by exact E. reflexivity.
Qed.

(** Run the first call of the sequence in [H] with a lemma whose last
    argument before its hypotheses is the world. *)
Ltac hstep_core H lem tac :=
  rewrite ?bind_assoc in H;
  match type of H with
  | bind _ _ ?w = _ =>
      let E := fresh "E" in
      pose proof (lem w) as E;
      repeat match type of E with
             | ?P -> _ =>
                 let p := fresh "p" in
                 assert (p : P) by tac; specialize (E p); clear p
             end;
      rewrite (bind_ok _ _ _ _ _ E) in H; clear E
  end.

Tactic Notation "hstep" hyp(H) constr(lem) "by" tactic(tac) :=
  hstep_core H lem tac.

(** Two logs with the same fields are the same log. *)
Lemma Log_ext l l' :
  opts l = opts l' -> closed l = closed l' -> corrupt l = corrupt l' ->
  segments l = segments l' -> firstOffset l = firstOffset l' ->
  lastOffset l = lastOffset l' -> sfile l = sfile l' -> scache l = scache l' ->
  l = l'.
Proof. destruct l, l'. cbn. intros; subst; reflexivity. Qed.

Ltac log_fields :=
  cbn [opts closed corrupt segments firstOffset lastOffset sfile scache
       set_firstOffset set_lastOffset set_segments set_scache set_sfile
       set_closed set_corrupt lg repr].

(** ** [truncateFront] on a well-formed log *)

Lemma findSegment_at l index k0 s0 :
  StronglySorted Z.lt (offset <$> segments l) ->
  segments l !! k0 = Some s0 -> offset s0 <= index ->
  (forall k s, (k0 < k)%nat -> segments l !! k = Some s -> index < offset s) ->
  findSegment l index = Z.of_nat k0.
Proof.
  intros Hs H0 Hle Hnext. unfold findSegment.
  destruct (findSegment_loop_spec (segments l) index Hs
              (S (length (segments l))) 0 (length (segments l))
              ltac:(lia) ltac:(lia)) as (R1 & R2 & R3).
  { intros k s Hk. lia. }
  { intros k s Hk Hks. apply lookup_lt_Some in Hks. lia. }
  set (r := findSegment_loop _ _ _ _ _) in *.
  assert (k0 < r)%nat as Hlo.
  { destruct (Nat.lt_ge_cases k0 r) as [?|Hge]; [assumption|].
    pose proof (R3 _ _ Hge H0). lia. }
  assert (r <= S k0)%nat as Hhi.
  { destruct (Nat.le_gt_cases r (S k0)) as [?|Hgt]; [assumption|].
    destruct (lookup_lt_is_Some_2 (segments l) (S k0) ltac:(lia)) as [s Hs1].
    pose proof (R2 _ _ Hgt Hs1). pose proof (Hnext _ _ (Nat.lt_succ_diag_r k0) Hs1). lia. }
  lia.
Qed.

Lemma findSegment_tail a m lst index :
  valid a -> a_toff a <= index ->
  findSegment (lg (repr a m lst)) index = Z.of_nat (sh a + length (a_pre a)).
Proof.
  intros Hv Ht. apply (findSegment_at _ _ _ (ctail a)).
  - apply csegs_sorted. exact Hv.
  - apply csegs_lookup_tail.
  - exact Ht.
  - intros k s Hk Hs. apply lookup_lt_Some in Hs.
    cbn [lg repr segments] in Hs. rewrite csegs_length in Hs. lia.
Qed.

Lemma findSegment_pre a m lst index i s :
  valid a -> a_pre a !! i = Some s -> a_off s <= index -> index < a_toff a ->
  (forall j t, (i < j)%nat -> a_pre a !! j = Some t -> index < a_off t) ->
  findSegment (lg (repr a m lst)) index = Z.of_nat (sh a + i).
Proof.
  intros Hv Hs Ho Ht Hnext. apply (findSegment_at _ _ _ (cseg s)).
  - apply csegs_sorted. exact Hv.
  - apply csegs_lookup_pre. exact Hs.
  - exact Ho.
  - intros k sg Hk Hsg. cbn [lg repr segments] in Hsg.
    destruct (Nat.lt_ge_cases (k - sh a) (length (a_pre a))) as [Hlt|Hge].
    + destruct (lookup_lt_is_Some_2 _ _ Hlt) as [t Hjt].
      pose proof (csegs_lookup_pre a _ t Hjt) as Hc.
      replace (sh a + (k - sh a))%nat with k in Hc by lia.
      rewrite Hc in Hsg. inversion Hsg; subst sg. cbn [offset cseg].
      apply (Hnext (k - sh a)%nat t); [lia|exact Hjt].
    + pose proof (lookup_lt_Some _ _ _ Hsg) as Hl. rewrite csegs_length in Hl.
      assert (k = sh a + length (a_pre a))%nat as -> by lia.
      rewrite csegs_lookup_tail in Hsg. inversion Hsg; subst sg. exact Ht.
Qed.

(** The bytes [truncateFront] keeps of the segment that holds the new first
    offset. *)
Lemma front_buf {B} (K : list byte -> M B) ds k w :
  0 <= k ->
  (let* ep := slice (positions 0 ds) k (len (positions 0 ds)) in
   let* ep0 := index_of ep 0 in
   let* buf := slice (encode_all ds) (Z.of_nat (pos ep0)) (len (encode_all ds)) in
   K buf) w
  = if k <? len ds then K (encode_all (drop (Z.to_nat k) ds)) w else Panic w.
Proof.
  intros Hk. rewrite len_positions.
  destruct (Z.ltb_spec k (len ds)) as [Hlt|Hge].
  - assert (0 <= k <= len ds) as H1 by lia.
    assert (len ds <= len (positions 0 ds)) as H2 by (rewrite len_positions; lia).
    rewrite (bind_ok _ _ _ _ _ (slice_ok (positions 0 ds) k (len ds) w H1 H2)).
    destruct (lookup_lt_is_Some_2 ds (Z.to_nat k)) as [d Hd]; [unfold len in *; lia|].
    pose proof (positions_lookup ds 0 _ d Hd) as Hp.
    assert (take (Z.to_nat (len ds - k)) (drop (Z.to_nat k) (positions 0 ds)) !! 0%nat
            = Some (Bpos (0 + length (encode_all (take (Z.to_nat k) ds)))
                         (0 + length (encode_all (take (S (Z.to_nat k)) ds))))) as Hp0.
    { rewrite lookup_take. destruct (decide (0 < Z.to_nat (len ds - k))%nat); [|lia].
      rewrite lookup_drop, Nat.add_0_r. exact Hp. }
    rewrite (bind_ok _ _ _ _ _ (index_of_Some _ 0 _ _ Hp0)).
    cbn [pos]. rewrite Nat.add_0_l.
    pose proof (encode_all_take_length ds (Z.to_nat k)) as Hsplit.
    assert (0 <= Z.of_nat (length (encode_all (take (Z.to_nat k) ds)))
            <= len (encode_all ds)) as H3 by (unfold len; lia).
    rewrite (bind_ok _ _ _ _ _ (slice_ok (encode_all ds) _ _ w H3 (Z.le_refl _))).
    rewrite Nat2Z.id, encode_all_drop_length.
    rewrite take_ge; [reflexivity|]. unfold len. lia.
  - destruct (Z.eq_dec k (len ds)) as [E|E].
    + assert (0 <= k <= len ds) as H1 by lia.
      assert (len ds <= len (positions 0 ds)) as H2 by (rewrite len_positions; lia).
      rewrite (bind_ok _ _ _ _ _ (slice_ok (positions 0 ds) k (len ds) w H1 H2)).
      rewrite E, Z.sub_diag. cbn [Z.to_nat take]. rewrite take_0.
      rewrite (bind_panic _ _ _ _ (index_of_nil 0 w)). reflexivity.
    + rewrite (bind_panic _ _ _ _
                 (slice_panic (positions 0 ds) k (len ds) w ltac:(lia))).
      reflexivity.
Qed.

Lemma temp_rename_eq {B} (k : M B) buf nm w :
  nm <> tempFileName -> disk w !! tempFileName = None ->
  (exec write_temp buf then exec fs_Rename tempFileName nm then k) w
  = k (MkWorld (lg w) (<[nm := buf]> (disk w))).
Proof.
  intros Hne Hno. unfold write_temp. rewrite bind_modify_disk.
  unfold fs_Rename. rewrite bind_assoc, bind_get_disk. cbn [disk].
  rewrite lookup_insert_eq, bind_modify_disk. cbn [lg disk].
  rewrite delete_insert_eq, (delete_id _ _ Hno). reflexivity.
Qed.

Lemma fs_Rename_eq old new c w :
  disk w !! old = Some c ->
  fs_Rename old new w = Ok tt (MkWorld (lg w) (<[new := c]> (delete old (disk w)))).
Proof.
  intros H. unfold fs_Rename. rewrite bind_get_disk, H. reflexivity.
Qed.

Lemma disk_no_temp a m lst : disk (repr a m lst) !! tempFileName = None.
Proof. apply disk_lookup_other. intros x _. apply temp_not_segment. Qed.

Lemma disk_no_marker a m lst x suffix :
  (0 < String.length suffix)%nat ->
  disk (repr a m lst) !! str_app (segmentName x) suffix = None.
Proof.
  intros H. apply disk_lookup_other. intros y _. apply marker_name_not_segment. exact H.
Qed.

Lemma start_not_temp x : str_app (segmentName x) startSuffix <> tempFileName.
Proof. intros E. symmetry in E. revert E. apply temp_not_marker. Qed.

(** The paths of the segments of a log without a stale segment are the names
    of its files. *)
Lemma paths_csegs a m :
  a_stale a = false -> map path (csegs a) = (afiles a m).*1.
Proof.
  intros Hst. unfold csegs, afiles. rewrite Hst. cbn [app].
  rewrite fmap_app, map_app, map_map, <- list_fmap_compose. reflexivity.
Qed.

Lemma disk_no_zero a m lst :
  valid a -> a_stale a = true -> disk (repr a m lst) !! segmentName 0 = None.
Proof.
  intros Hv Hst. apply disk_lookup_other. intros x Hx E.
  pose proof (aoffsets_range a x Hv Hx) as Hr.
  apply segmentName_inj in E; [|unfold max_int64; lia|exact Hr]. subst x.
  pose proof (v_stale a Hv Hst) as Hf.
  unfold aoffsets in Hx. apply elem_of_app in Hx as [Hx|Hx].
  - apply list_elem_of_fmap in Hx as (s & E & Hin).
    apply list_elem_of_lookup_1 in Hin as [i Hi].
    pose proof (valid_first_le a i s Hv Hi). lia.
  - apply list_elem_of_singleton in Hx.
    pose proof (valid_first_le_tail a Hv). lia.
Qed.


(** The new first offset is in the tail segment. *)
Lemma truncateFront_tail_Ok a index w' :
  valid a -> afirst a < index <= alast a -> a_toff a <= index ->
  truncateFront index (repr0 a) = Ok tt w' ->
  exists a', w' = repr0 a' /\ valid a' /\ a_opts a' = a_opts a /\
             front_of index a a'.
Proof.
  intros Hv Hr Ht H. unfold truncateFront in H. rewrite bind_get_log in H.
  change (firstOffset (lg (repr0 a))) with (afirst a) in H.
  change (lastOffset (lg (repr0 a))) with (alast a) in H.
  destruct (Z.ltb_spec index (afirst a)); [lia|].
  destruct (Z.ltb_spec (alast a) index); [lia|]. cbn [orb] in H.
  destruct (Z.eqb_spec index (afirst a)); [lia|].
  unfold repr0 in H.
  rewrite (findSegment_tail a _ _ index Hv Ht) in H.
  rewrite (bind_ok _ _ _ _ _ (loadSegment_tail a _ _ index Ht)) in H.
  rewrite bind_get_log in H.
  rewrite (bind_ok _ _ _ _ _ (index_of_Some _ _ _ _ (csegs_lookup_tail a))) in H.
  cbn [epos ebuf offset ctail] in H.
  pose proof (valid_toff_range a Hv) as Htr.
  pose proof (valid_last_range a Hv) as Hlr.
  rewrite wrap64_id in H by (unfold in_int64, min_int64, max_int64 in *; lia).
  rewrite front_buf in H by lia.
  destruct (Z.ltb_spec (index - a_toff a) (len (a_tds a))) as [Hk|Hk]; [|discriminate].
  set (k := Z.to_nat (index - a_toff a)) in *.
  set (buf := encode_all (drop k (a_tds a))) in *.
  rewrite temp_rename_eq in H by (apply start_not_temp || apply disk_no_temp).
  apply with_recover_Ok_inv in H.
  assert (tail_index (lg (repr a (length (a_tds a)) (alast a)))
          = Z.of_nat (sh a + length (a_pre a))) as Hti
    by (unfold tail_index; apply tail_index_csegs).
  rewrite Hti, Z.eqb_refl in H.
  rewrite when_true, bind_assoc in H.
  match type of H with
  | bind sfile_Close _ ?w = _ =>
      rewrite (bind_ok _ _ _ _ _
                 (sfile_Close_eq (segmentName (a_toff a))
                    (length (encode_all (take (length (a_tds a)) (a_tds a))))
                    w eq_refl)) in H
  end.
  rewrite bind_ret in H. cbn [lg disk] in H.
  apply bind_Ok_inv in H as ([] & W4 & Hrm & H).
  unfold zrange in Hrm.
  replace (Z.to_nat (Z.of_nat (sh a + length (a_pre a)) + 1 - 0))
    with (S (sh a + length (a_pre a))) in Hrm by lia.
  apply remove_range_inv in Hrm as (-> & Hlen & Hpres); [|lia].
  cbn [lg disk segments set_sfile] in H, Hpres, Hlen.
  change (Z.to_nat 0) with 0%nat in *. rewrite drop_0 in *.
  destruct (a_stale a) eqn:Est.
  { exfalso. destruct (Hpres ltac:(lia)) as (s & Hs & Hin).
    change (segments (lg (repr a (length (a_tds a)) (alast a)))) with (csegs a) in Hs.
    rewrite (csegs_lookup_stale a Est) in Hs. inversion Hs; subst s.
    cbn [path stale_seg] in Hin.
    rewrite lookup_insert_ne in Hin
      by (apply marker_name_not_segment; cbn; lia).
    rewrite (disk_no_zero a _ _ Hv Est) in Hin. destruct Hin; discriminate. }
  clear Hpres.
  assert (sh a = 0%nat) as Hsh by (unfold sh; rewrite Est; reflexivity).
  rewrite Hsh in *. cbn [Nat.add] in *.
  change (segments (lg (repr a (length (a_tds a)) (alast a)))) with (csegs a) in *.
  assert (take (S (length (a_pre a))) (csegs a) = csegs a) as Htk
    by (apply take_ge; rewrite csegs_length, Hsh; lia).
  rewrite Htk in H. clear Hlen Htk.
  set (start := str_app (segmentName index) startSuffix) in *.
  assert (delete_paths (csegs a)
            (<[start := buf]> (disk (repr a (length (a_tds a)) (alast a))))
          = <[start := buf]> ∅) as HD.
  { rewrite delete_paths_insert_ne.
    - f_equal. unfold repr. cbn [disk].
      rewrite <- (app_nil_r (afiles a (length (a_tds a)))).
      apply delete_paths_list_to_map.
      + apply paths_csegs. exact Est.
      + rewrite app_nil_r. apply valid_names_NoDup. exact Hv.
    - rewrite (paths_csegs a 0 Est), afiles_names. intros Hin.
      apply list_elem_of_fmap in Hin as (x & E & _). revert E.
      apply marker_name_not_segment. cbn. lia. }
  rewrite HD in H. clear HD.
  hstep H (fs_Rename_eq start (segmentName index) buf)
    by (cbn [disk]; apply lookup_insert_eq).
  cbn [lg disk] in H. rewrite delete_insert_eq, delete_empty in H.
  hstep H (set_seg_at_eq (length (a_pre a))
             (fun s => set_offset index (set_path (segmentName index) s)) (ctail a))
    by (cbn [lg segments set_sfile]; pose proof (csegs_lookup_tail a) as Hl;
        rewrite Hsh in Hl; exact Hl).
  cbn [lg disk segments set_sfile set_segments] in H.
  rewrite when_true, !bind_assoc in H.
  hstep H (assign_open_eq (segmentName index) buf)
    by (cbn [disk]; apply lookup_insert_eq).
  cbn [lg disk set_sfile] in H.
  hstep H (sfile_SeekEnd_eq (segmentName index) 0 buf)
    by (first [reflexivity | cbn [disk]; apply lookup_insert_eq]).
  cbn [lg disk set_sfile] in H.
  change (Z.of_nat (length buf)) with (len buf) in H.
  rewrite Z.eqb_refl in H. cbn [negb] in H.
  assert (Forall small (drop k (a_tds a))) as Hsmd
    by (apply Forall_drop, (v_small_tl a Hv)).
  hstep H (loadSegmentEntries_eq (length (a_pre a))
             (set_offset index (set_path (segmentName index) (ctail a)))
             buf (positions 0 (drop k (a_tds a))))
    by (first [ apply parse_frames_encode; exact Hsmd
              | cbn [disk path set_offset set_path]; apply lookup_insert_eq
              | cbn [lg segments set_sfile set_segments];
                rewrite list_lookup_alter_eq;
                pose proof (csegs_lookup_tail a) as Hl; rewrite Hsh in Hl;
                cbn [Nat.add] in Hl;
                change (segments (lg (repr a (length (a_tds a)) (alast a))))
                  with (csegs a);
                rewrite Hl; reflexivity ]).
  cbn [lg disk segments set_sfile set_segments] in H.
  rewrite bind_ret, bind_get_log in H. cbn [lg disk segments set_sfile set_segments] in H.
  change (segments (lg (repr a (length (a_tds a)) (alast a)))) with (csegs a) in H.
  rewrite alter_alter_same in H.
  set (g := fun x => set_bufs buf (positions 0 (drop k (a_tds a)))
                       (set_offset index (set_path (segmentName index) x))) in *.
  assert (length (alter g (length (a_pre a)) (csegs a)) = S (length (a_pre a))) as Hla
    by (rewrite length_alter, csegs_length, Hsh; lia).
  match type of H with
  | bind (slice ?l ?lo ?hi) _ ?w = _ =>
      assert (0 <= lo <= hi) as Hb1 by (unfold len; rewrite Hla; lia);
      rewrite (bind_ok _ _ _ _ _ (slice_ok l lo hi w Hb1 (Z.le_refl _))) in H;
      clear Hb1
  end.
  rewrite (bind_ok _ _ _ _ _ (clearCache_eq _)) in H.
  rewrite modify_log_eq in H. cbn [lg disk segments set_sfile set_segments set_scache
                                   scache] in H.
  change (scache (lg (repr a (length (a_tds a)) (alast a)))) with (a_cache a) in H.
  rewrite Nat2Z.id in H.
  rewrite foldr_alter_drop in H
    by (pose proof (v_cache a Hv) as Hc; rewrite Hsh in Hc; exact Hc).
  pose proof (csegs_lookup_tail a) as Hl. rewrite Hsh in Hl. cbn [Nat.add] in Hl.
  rewrite (drop_alter_at g _ _ _ Hl) in H.
  rewrite drop_ge in H by (rewrite csegs_length, Hsh; lia).
  inversion H as [Hw]. clear H Hw.
  exists (MkAState (a_opts a) false [] index (drop k (a_tds a)) []).
  assert (len (drop k (a_tds a)) = len (a_tds a) - (index - a_toff a)) as Hld
    by (unfold len; rewrite length_drop; unfold k, len in *; lia).
  split; [|split; [|split; [reflexivity|]]].
  3:{ split; [reflexivity|]. split.
      - unfold alast. cbn [a_toff a_tds]. rewrite Hld. lia.
      - intros off d. rewrite !aholds_holds. unfold content.
        cbn [a_pre a_toff a_tds map app].
        assert (index = a_toff a + Z.of_nat k) as Hik by (unfold k; lia).
        rewrite Hik.
        apply (holds_front (map (fun s => (a_off s, a_ds s)) (a_pre a))
                 (a_toff a) (a_tds a) [] k).
        + change (StronglySorted span_lt (spans (content a))).
          rewrite spans_content. apply (v_chain a Hv).
        + unfold k, len in *. lia. }
  - unfold repr0, repr. f_equal.
    + apply Log_ext; log_fields.
      * reflexivity.
      * reflexivity.
      * reflexivity.
      * unfold csegs, ctail, g, set_bufs, set_offset, set_path.
        cbn [a_stale a_pre a_toff a_tds map app path offset]. reflexivity.
      * reflexivity.
      * unfold alast. cbn [a_toff a_tds]. rewrite Hld. lia.
      * cbn [a_toff a_tds]. rewrite firstn_all. reflexivity.
      * reflexivity.
    + unfold afiles. cbn [a_pre a_toff a_tds map app]. rewrite firstn_all.
      rewrite list_to_map_cons, list_to_map_nil. reflexivity.
  - constructor; cbn [a_pre a_toff a_tds a_cache a_stale a_opts aspans map app];
      try (repeat constructor; fail).
    + unfold afirst. cbn [a_pre a_toff]. pose proof (v_first a Hv). lia.
    + rewrite Hld. pose proof (v_last a Hv). lia.
    + exact Hsmd.
    + intros E. discriminate.
    + apply (v_size a Hv).
    + apply (v_csize a Hv).
Qed.

(** The new first offset is in an earlier segment. *)
Lemma truncateFront_pre_Ok a index w' :
  valid a -> afirst a < index <= alast a -> index < a_toff a ->
  truncateFront index (repr0 a) = Ok tt w' ->
  exists a', w' = repr0 a' /\ valid a' /\ a_opts a' = a_opts a /\
             front_of index a a'.
Proof.
  intros Hv Hr Ht H. unfold truncateFront in H. rewrite bind_get_log in H.
  change (firstOffset (lg (repr0 a))) with (afirst a) in H.
  change (lastOffset (lg (repr0 a))) with (alast a) in H.
  destruct (Z.ltb_spec index (afirst a)); [lia|].
  destruct (Z.ltb_spec (alast a) index); [lia|]. cbn [orb] in H.
  destruct (Z.eqb_spec index (afirst a)); [lia|].
  unfold repr0 in H.
  assert (afirst a <= index < a_toff a) as Hin by lia.
  destruct (loadSegment_pre a (length (a_tds a)) (alast a) index Hv Hin)
    as (i & s & a1 & Hs & Ho & Hnext & Hload & Hv1 & Hsc & Hst & Hfull & Hcache).
  rewrite (findSegment_pre a _ _ index i s Hv Hs Ho Ht Hnext) in H.
  rewrite (bind_ok _ _ _ _ _ Hload) in H.
  rewrite bind_get_log in H.
  rewrite (bind_ok _ _ _ _ _ (index_of_Some _ _ _ _ Hfull)) in H.
  cbn [epos ebuf offset full cseg set_res a_res a_off a_ds] in H.
  pose proof (valid_off_range a i s Hv Hs) as Hor.
  pose proof (valid_toff_range a Hv) as Htr.
  rewrite wrap64_id in H by (unfold in_int64, min_int64, max_int64 in *; lia).
  rewrite front_buf in H by lia.
  destruct (Z.ltb_spec (index - a_off s) (len (a_ds s))) as [Hk|Hk]; [|discriminate].
  set (k := Z.to_nat (index - a_off s)) in *.
  set (buf := encode_all (drop k (a_ds s))) in *.
  rewrite temp_rename_eq in H by (apply start_not_temp || apply disk_no_temp).
  apply with_recover_Ok_inv in H.
  destruct (same_content_tail a a1 Hsc) as (Htoff & Htds & Hpre).
  assert (length (a_pre a1) = length (a_pre a)) as Hlen1
    by (apply (f_equal length) in Hpre; rewrite !length_map in Hpre; exact Hpre).
  assert (sh a1 = sh a) as Hsh1 by (unfold sh; rewrite Hst; reflexivity).
  pose proof (lookup_lt_Some _ _ _ Hs) as Hi.
  assert (tail_index (lg (repr a1 (length (a_tds a)) (alast a)))
          = Z.of_nat (sh a + length (a_pre a))) as Hti
    by (unfold tail_index; cbn [lg repr segments];
        rewrite tail_index_csegs, Hsh1, Hlen1; reflexivity).
  rewrite Hti in H.
  destruct (Z.eqb_spec (Z.of_nat (sh a + i)) (Z.of_nat (sh a + length (a_pre a))));
    [lia|].
  rewrite !when_false, bind_ret in H.
  apply bind_Ok_inv in H as ([] & W4 & Hrm & H).
  unfold zrange in Hrm.
  replace (Z.to_nat (Z.of_nat (sh a + i) + 1 - 0)) with (S (sh a + i)) in Hrm by lia.
  apply remove_range_inv in Hrm as (-> & _ & Hpres); [|lia].
  cbn [lg disk] in H, Hpres.
  change (Z.to_nat 0) with 0%nat in *. rewrite drop_0 in *.
  change (segments (lg (repr a1 (length (a_tds a)) (alast a)))) with (csegs a1) in *.
  destruct (a_stale a) eqn:Est.
  { exfalso. destruct (Hpres ltac:(lia)) as (s0 & Hs0 & Hin0).
    rewrite (csegs_lookup_stale a1 Hst) in Hs0. inversion Hs0; subst s0.
    cbn [path stale_seg] in Hin0.
    rewrite lookup_insert_ne in Hin0
      by (apply marker_name_not_segment; cbn; lia).
    rewrite (disk_no_zero a1 _ _ Hv1 Hst) in Hin0. destruct Hin0; discriminate. }
  clear Hpres.
  assert (sh a = 0%nat) as Hsh by (unfold sh; rewrite Est; reflexivity).
  rewrite Hsh in *. cbn [Nat.add] in *.
  set (start := str_app (segmentName index) startSuffix) in *.
  set (Ff := fun s : aseg => (segmentName (a_off s), encode_all (a_ds s))).
  set (F2 := map Ff (drop (S i) (a_pre a1))
             ++ [(segmentName (a_toff a1), encode_all (a_tds a1))]).
  assert (afiles a1 (length (a_tds a)) = map Ff (take (S i) (a_pre a1)) ++ F2) as HF.
  { unfold afiles, F2. rewrite app_assoc, <- map_app, take_drop.
    rewrite Htds, firstn_all. reflexivity. }
  assert (take (S i) (csegs a1) = map cseg (take (S i) (a_pre a1))) as Htk.
  { unfold csegs. rewrite Hst. cbn [app].
    rewrite take_app_le by (rewrite length_map; lia).
    rewrite <- fmap_take. reflexivity. }
  assert (start ∉ (afiles a1 (length (a_tds a))).*1) as Hstart.
  { rewrite afiles_names. intros Hin0.
    apply list_elem_of_fmap in Hin0 as (x & E & _). revert E.
    apply marker_name_not_segment. cbn. lia. }
  assert (delete_paths (take (S i) (csegs a1))
            (<[start := buf]> (disk (repr a1 (length (a_tds a)) (alast a))))
          = <[start := buf]> (list_to_map F2)) as HD.
  { rewrite delete_paths_insert_ne.
    - f_equal. unfold repr. cbn [disk]. rewrite HF, Htk.
      apply delete_paths_list_to_map.
      + rewrite map_map, <- list_fmap_compose. reflexivity.
      + rewrite <- HF. apply valid_names_NoDup. exact Hv1.
    - rewrite Htk. intros Hin0. apply Hstart. rewrite HF, fmap_app.
      apply elem_of_app. left.
      rewrite map_map in Hin0. rewrite <- list_fmap_compose. exact Hin0. }
  rewrite HD in H. clear HD.
  hstep H (fs_Rename_eq start (segmentName index) buf)
    by (cbn [disk]; apply lookup_insert_eq).
  cbn [lg disk] in H. rewrite delete_insert_eq in H.
  rewrite delete_id in H
    by (apply not_elem_of_list_to_map_1; intros Hin0; apply Hstart;
        rewrite HF, fmap_app; apply elem_of_app; right; exact Hin0).
  hstep H (set_seg_at_eq i
             (fun s => set_offset index (set_path (segmentName index) s)) (full s))
    by (exact Hfull).
  cbn [lg disk] in H.
  rewrite bind_ret, bind_get_log in H. cbn [lg disk segments set_segments] in H.
  change (segments (lg (repr a1 (length (a_tds a)) (alast a)))) with (csegs a1) in H.
  set (f := fun s : segment => set_offset index (set_path (segmentName index) s)) in *.
  assert (length (alter f i (csegs a1)) = S (length (a_pre a))) as Hla
    by (rewrite length_alter, csegs_length, Hsh1, Hlen1; lia).
  match type of H with
  | bind (slice ?l ?lo ?hi) _ ?w = _ =>
      assert (0 <= lo <= hi) as Hb1 by (unfold len; rewrite Hla; lia);
      rewrite (bind_ok _ _ _ _ _ (slice_ok l lo hi w Hb1 (Z.le_refl _))) in H;
      clear Hb1
  end.
  rewrite (bind_ok _ _ _ _ _ (clearCache_eq _)) in H.
  rewrite modify_log_eq in H. cbn [lg disk segments set_segments set_scache scache] in H.
  change (scache (lg (repr a1 (length (a_tds a)) (alast a)))) with (a_cache a1) in H.
  rewrite Nat2Z.id in H.
  rewrite foldr_alter_commute in H by (intros x; reflexivity).
  rewrite csegs_foldr_evict in H by (apply (v_cache a1 Hv1)).
  set (b := foldr a_evict a1 (a_cache a1)) in *.
  assert (valid b) as Hvb by (apply foldr_evict_valid; exact Hv1).
  assert (same_content a1 b) as Hscb by apply foldr_evict_content.
  assert (same_content a b) as Hsab by (eapply same_content_trans; eauto).
  assert (a_stale b = false) as Hstb by (unfold b; rewrite foldr_evict_stale; exact Hst).
  assert (sh b = 0%nat) as Hshb by (unfold sh; rewrite Hstb; reflexivity).
  destruct (same_content_tail a b Hsab) as (Htoffb & Htdsb & Hpreb).
  assert (length (a_pre b) = length (a_pre a)) as Hlenb
    by (apply (f_equal length) in Hpreb; rewrite !length_map in Hpreb; exact Hpreb).
  destruct (foldr_evict_res (a_cache a1) a1 i) as (sb & Hsb & Hrb).
  { rewrite Hsh1. exact Hcache. }
  { lia. }
  fold b in Hsb.
  destruct (same_content_lookup a b i s Hsab Hs) as (sb' & Hsb' & Hob & Hdb).
  rewrite Hsb in Hsb'. inversion Hsb'; subst sb'. clear Hsb'.
  pose proof (csegs_lookup_pre b i sb Hsb) as Hcb. rewrite Hshb in Hcb.
  cbn [Nat.add] in Hcb.
  rewrite (drop_alter_at f _ _ _ Hcb) in H.
  inversion H as [Hw]. clear H Hw.
  set (snew := MkASeg index (drop k (a_ds s)) false).
  exists (MkAState (a_opts a) false (snew :: drop (S i) (a_pre b))
            (a_toff a) (a_tds a) []).
  assert (Forall small (a_ds s)) as Hsmall.
  { pose proof (v_small_pre a Hv) as Hsm. rewrite Forall_forall in Hsm.
    apply Hsm. eapply list_elem_of_lookup_2; eauto. }
  split; [|split; [|split; [reflexivity|]]].
  3:{ split; [reflexivity|]. split; [reflexivity|].
      intros off d. rewrite !aholds_holds.
      set (g := fun s : aseg => (a_off s, a_ds s)).
      assert (content a
              = map g (take i (a_pre b))
                ++ (a_off s, a_ds s)
                   :: (map g (drop (S i) (a_pre b)) ++ [(a_toff a, a_tds a)]))
        as Hca.
      { rewrite <- (proj2 Hsab). unfold content. fold g.
        rewrite <- (take_drop_middle _ _ _ Hsb) at 1.
        rewrite map_app, <- app_assoc. cbn [map app]. unfold g at 2.
        rewrite Hob, Hdb, Htoffb, Htdsb. reflexivity. }
      unfold content at 1. cbn [a_pre a_toff a_tds map snew a_off a_ds app].
      fold g. rewrite Hca.
      assert (index = a_off s + Z.of_nat k) as Hik by (unfold k; lia).
      rewrite Hik. apply holds_front.
      - rewrite <- Hca, spans_content. apply (v_chain a Hv).
      - unfold k, len in *. lia. }
  - unfold repr0, repr. f_equal.
    + apply Log_ext; log_fields.
      * apply (proj1 Hsc).
      * reflexivity.
      * reflexivity.
      * unfold csegs at 2. cbn [a_stale a_pre app map]. f_equal.
        -- unfold f, snew, cseg. destruct sb as [ob dsb rb]. cbn in Hrb. subst rb.
           reflexivity.
        -- unfold csegs. rewrite Hstb. cbn [app].
           rewrite drop_app_le by (rewrite length_map; lia).
           rewrite <- fmap_drop. f_equal. unfold ctail. cbn [a_toff a_tds].
           rewrite Htoffb, Htdsb. reflexivity.
      * reflexivity.
      * reflexivity.
      * cbn [a_toff a_tds]. rewrite Htoff, Htds. reflexivity.
      * reflexivity.
    + unfold afiles. cbn [a_pre a_toff a_tds map]. rewrite <- app_comm_cons.
      rewrite list_to_map_cons. cbn [a_off a_ds snew]. fold buf. f_equal.
      unfold F2. f_equal. rewrite firstn_all, Htoff, Htds.
      f_equal. rewrite !fmap_drop. f_equal.
      symmetry. apply (pre_map_content (fun o ds => (segmentName o, encode_all ds)) a1 b Hscb).
  - assert (length (drop k (a_ds s)) = (length (a_ds s) - k)%nat) as Hld
      by apply length_drop.
    pose proof (v_chain b Hvb) as Hch. unfold aspans in Hch.
    rewrite <- (take_drop_middle _ _ _ Hsb) in Hch at 1.
    rewrite map_app, <- app_assoc in Hch. apply StronglySorted_app_1_r in Hch.
    cbn [map app] in Hch. apply StronglySorted_inv in Hch as [Hrest Hhd].
    constructor; cbn [a_pre a_toff a_tds a_cache a_stale a_opts].
    + unfold aspans. cbn [a_pre a_toff a_tds map app snew a_off a_ds].
      rewrite <- Htoffb, <- Htdsb. constructor; [exact Hrest|].
      eapply Forall_impl; [exact Hhd|]. intros y Hy. unfold span_lt in *.
      cbn [fst snd] in *. rewrite Hob, Hdb in Hy. rewrite Hld.
      unfold k, len in *. lia.
    + unfold afirst. cbn [a_pre snew a_off]. pose proof (v_first a Hv). lia.
    + apply (v_last a Hv).
    + constructor.
      * cbn [snew a_ds]. apply Forall_drop. exact Hsmall.
      * apply Forall_drop. apply (v_small_pre b Hvb).
    + apply (v_small_tl a Hv).
    + constructor.
    + intros E. discriminate.
    + apply (v_size a Hv).
    + apply (v_csize a Hv).
Qed.

(** A successful [TruncateFront] leaves a well-formed log. *)
Lemma TruncateFront_repr a index w' :
  valid a -> TruncateFront index (repr0 a) = Ok tt w' ->
  exists a', w' = repr0 a' /\ valid a' /\ a_opts a' = a_opts a /\
             front_of index a a'.
Proof.
  intros Hv H. unfold TruncateFront in H.
  rewrite (bind_ok _ _ _ _ _ (guard_ok (repr0 a) eq_refl eq_refl)) in H.
  destruct (Z.lt_ge_cases index (afirst a)) as [Hlo|Hlo].
  { exfalso. unfold truncateFront in H. rewrite bind_get_log in H.
    change (firstOffset (lg (repr0 a))) with (afirst a) in H.
    destruct (Z.ltb_spec index (afirst a)); [|lia]. discriminate. }
  destruct (Z.lt_ge_cases (alast a) index) as [Hhi|Hhi].
  { exfalso. unfold truncateFront in H. rewrite bind_get_log in H.
    change (lastOffset (lg (repr0 a))) with (alast a) in H.
    destruct (Z.ltb_spec (alast a) index); [|lia].
    rewrite orb_true_r in H. discriminate. }
  destruct (Z.eq_dec index (afirst a)) as [E|E].
  { unfold truncateFront in H. rewrite bind_get_log in H.
    change (firstOffset (lg (repr0 a))) with (afirst a) in H.
    change (lastOffset (lg (repr0 a))) with (alast a) in H.
    destruct (Z.ltb_spec index (afirst a)); [lia|].
    destruct (Z.ltb_spec (alast a) index); [lia|]. cbn [orb] in H.
    destruct (Z.eqb_spec index (afirst a)); [|lia].
    inversion H. exists a. rewrite E.
    split; [reflexivity|]. split; [exact Hv|]. split; [reflexivity|].
    apply front_of_refl. exact Hv. }
  destruct (Z.le_gt_cases (a_toff a) index) as [Ht|Ht].
  - apply (truncateFront_tail_Ok a index w' Hv); auto; lia.
  - apply (truncateFront_pre_Ok a index w' Hv); auto; lia.
Qed.

(** ** [truncateBack] on a well-formed log *)

Lemma csegs_allsegs a :
  csegs a = (if a_stale a then [stale_seg] else []) ++ map cseg (allsegs a).
Proof. unfold csegs, allsegs. rewrite map_app. reflexivity. Qed.

Lemma afiles_allsegs a :
  afiles a (length (a_tds a))
  = map (fun s => (segmentName (a_off s), encode_all (a_ds s))) (allsegs a).
Proof. unfold afiles, allsegs. rewrite map_app, firstn_all. reflexivity. Qed.

Lemma content_allsegs a : content a = map (fun s => (a_off s, a_ds s)) (allsegs a).
Proof. unfold content, allsegs. rewrite map_app. reflexivity. Qed.

Lemma allsegs_length a : length (allsegs a) = S (length (a_pre a)).
Proof. unfold allsegs. rewrite length_app. cbn. lia. Qed.

Lemma take_allsegs a p :
  (p <= length (a_pre a))%nat -> take p (allsegs a) = take p (a_pre a).
Proof. intros H. unfold allsegs. rewrite take_app_le by exact H. reflexivity. Qed.

(** The bytes [truncateBack] keeps of the segment that holds the new last
    offset. *)
Lemma back_buf {B} (K : list byte -> M B) ds k w :
  0 <= k ->
  (let* ep := slice (positions 0 ds) 0 (k + 1) in
   let* epl := index_of ep (len ep - 1) in
   let* buf := slice (encode_all ds) 0 (Z.of_nat (end_ epl)) in
   K buf) w
  = if k + 1 <=? len ds then K (encode_all (take (S (Z.to_nat k)) ds)) w
    else Panic w.
Proof.
  intros Hk.
  destruct (Z.leb_spec (k + 1) (len ds)) as [Hle|Hgt].
  - assert (0 <= 0 <= k + 1) as H1 by lia.
    assert (k + 1 <= len (positions 0 ds)) as H2 by (rewrite len_positions; lia).
    rewrite (bind_ok _ _ _ _ _ (slice_ok (positions 0 ds) 0 (k + 1) w H1 H2)).
    rewrite Z.sub_0_r. change (Z.to_nat 0) with 0%nat. rewrite drop_0.
    destruct (lookup_lt_is_Some_2 ds (Z.to_nat k)) as [d Hd]; [unfold len in *; lia|].
    pose proof (positions_lookup ds 0 _ d Hd) as Hp.
    assert (len (take (Z.to_nat (k + 1)) (positions 0 ds)) - 1 = Z.of_nat (Z.to_nat k))
      as Hlen.
    { unfold len. rewrite length_take, positions_length. unfold len in Hle. lia. }
    rewrite Hlen.
    assert (take (Z.to_nat (k + 1)) (positions 0 ds) !! Z.to_nat k
            = Some (Bpos (0 + length (encode_all (take (Z.to_nat k) ds)))
                         (0 + length (encode_all (take (S (Z.to_nat k)) ds))))) as Hp0.
    { rewrite lookup_take. destruct (decide (Z.to_nat k < Z.to_nat (k + 1))%nat); [|lia].
      exact Hp. }
    rewrite (bind_ok _ _ _ _ _ (index_of_Some _ _ _ _ Hp0)).
    cbn [end_]. rewrite Nat.add_0_l.
    pose proof (encode_all_take_length ds (S (Z.to_nat k))) as Hsplit.
    assert (0 <= 0 <= Z.of_nat (length (encode_all (take (S (Z.to_nat k)) ds))))
      as H3 by lia.
    assert (Z.of_nat (length (encode_all (take (S (Z.to_nat k)) ds)))
            <= len (encode_all ds)) as H4 by (unfold len; lia).
    rewrite (bind_ok _ _ _ _ _ (slice_ok (encode_all ds) _ _ w H3 H4)).
    rewrite Z.sub_0_r, Nat2Z.id. change (Z.to_nat 0) with 0%nat. rewrite drop_0.
    rewrite (encode_all_split ds (S (Z.to_nat k))) at 1.
    rewrite take_app_length. reflexivity.
  - rewrite (bind_panic _ _ _ _
               (slice_panic (positions 0 ds) 0 (k + 1) w
                  ltac:(rewrite len_positions; lia))).
    reflexivity.
Qed.

(** Within the length, [a[:n]] does not look at the capacity. *)
Lemma reslice_le {A} (pad : A) cap (l : list A) n w :
  0 <= n <= len l -> reslice pad cap l n w = slice l 0 n w.
Proof.
  intros H. unfold reslice, slice, len in *.
  destruct (Z.leb_spec 0 n); [|lia].
  destruct (Z.leb_spec n (Z.max (Z.of_nat (length l)) cap)); [|lia].
  destruct (Z.leb_spec 0 0); [|lia].
  destruct (Z.leb_spec n (Z.of_nat (length l))); [|lia].
  cbn [andb]. replace (Z.to_nat (n - Z.of_nat (length l))) with 0%nat by lia.
  cbn [replicate]. rewrite app_nil_r, Z.sub_0_r. reflexivity.
Qed.

(** The bytes [truncateBack] keeps when the segment holds the new last
    offset: the capacity plays no part. *)
Lemma back_buf_held {B} (K : list byte -> M B) ecap ds k w :
  0 <= k -> k + 1 <= len ds ->
  (let* ep := reslice (Bpos 0 0) ecap (positions 0 ds) (k + 1) in
   let* epl := index_of ep (len ep - 1) in
   let* buf := slice (encode_all ds) 0 (Z.of_nat (end_ epl)) in
   K buf) w
  = K (encode_all (take (S (Z.to_nat k)) ds)) w.
Proof.
  intros Hk Hle.
  pose proof (back_buf K ds k w Hk) as Hb.
  destruct (Z.leb_spec (k + 1) (len ds)); [|lia].
  rewrite <- Hb. unfold bind at 1 5.
  rewrite reslice_le by (rewrite len_positions; lia). reflexivity.
Qed.

Lemma end_not_temp x : str_app (segmentName x) endSuffix <> tempFileName.
Proof. intros E. symmetry in E. revert E. apply temp_not_marker. Qed.

(** Deleting the last files of a directory given by a list. *)
Lemma delete_paths_list_to_map_r (ss : list segment) (F1 F2 : list (string * list byte)) :
  map path ss = F2.*1 -> NoDup (F1 ++ F2).*1 ->
  delete_paths ss (list_to_map (F1 ++ F2)) = list_to_map F1.
Proof.
  intros Hp Hnd.
  rewrite (list_to_map_proper (F1 ++ F2) (F2 ++ F1) Hnd (Permutation_app_comm _ _)).
  apply delete_paths_list_to_map; [exact Hp|].
  eapply NoDup_Permutation_proper; [|exact Hnd].
  apply fmap_Permutation, Permutation_app_comm.
Qed.

Lemma paths_csegs_drop a p :
  map path (drop (sh a + p) (csegs a))
  = (map (fun s => (segmentName (a_off s), encode_all (a_ds s)))
       (drop p (allsegs a))).*1.
Proof.
  rewrite csegs_allsegs. unfold sh. destruct (a_stale a); cbn [app Nat.add drop].
  - rewrite <- fmap_drop, map_map, <- list_fmap_compose. reflexivity.
  - rewrite <- fmap_drop, map_map, <- list_fmap_compose. reflexivity.
Qed.

Lemma take_csegs a p :
  (p <= length (a_pre a))%nat ->
  take (sh a + p) (csegs a)
  = (if a_stale a then [stale_seg] else []) ++ map cseg (take p (a_pre a)).
Proof.
  intros Hp. unfold csegs, sh. destruct (a_stale a); cbn [app Nat.add take].
  - rewrite take_app_le by (rewrite length_map; exact Hp).
    rewrite <- fmap_take. reflexivity.
  - rewrite take_app_le by (rewrite length_map; exact Hp).
    rewrite <- fmap_take. reflexivity.
Qed.

Lemma csegs_lookup_all a p s :
  allsegs a !! p = Some s -> csegs a !! (sh a + p)%nat = Some (cseg s).
Proof.
  intros H. rewrite csegs_allsegs. unfold sh. destruct (a_stale a); cbn [app Nat.add].
  - change (map cseg (allsegs a) !! p = Some (cseg s)).
    rewrite list_lookup_fmap, H. reflexivity.
  - rewrite list_lookup_fmap, H. reflexivity.
Qed.

Lemma same_content_allsegs a a' p s :
  same_content a a' -> allsegs a !! p = Some s ->
  exists s', allsegs a' !! p = Some s' /\ a_off s' = a_off s /\ a_ds s' = a_ds s.
Proof.
  intros [_ Hc] Hs. rewrite !content_allsegs in Hc.
  assert (map (fun s => (a_off s, a_ds s)) (allsegs a') !! p = Some (a_off s, a_ds s)) as E.
  { rewrite Hc, list_lookup_fmap, Hs. reflexivity. }
  rewrite list_lookup_fmap in E. destruct (allsegs a' !! p) as [s'|]; [|discriminate].
  cbn in E. inversion E. eauto.
Qed.

Lemma aspans_allsegs a :
  aspans a = map (fun s => (a_off s, length (a_ds s))) (allsegs a).
Proof. unfold aspans, allsegs. rewrite map_app. reflexivity. Qed.

Lemma afirst_take b p sb o st ds c :
  (p <= length (a_pre b))%nat -> allsegs b !! p = Some sb ->
  afirst (MkAState o st (take p (a_pre b)) (a_off sb) ds c) = afirst b.
Proof.
  unfold afirst, allsegs. cbn [a_pre a_toff].
  destruct (a_pre b) as [|s0 l]; intros Hp Hs.
  - assert (p = 0)%nat as -> by (cbn in Hp; lia). cbn in Hs. inversion Hs. reflexivity.
  - destruct p as [|p]; cbn in *; [inversion Hs|]; reflexivity.
Qed.

Lemma truncateBack_at a a1 ecap index p s w' :
  valid a -> valid a1 -> same_content a a1 -> a_stale a1 = a_stale a ->
  afirst a <= index < alast a ->
  allsegs a1 !! p = Some s -> a_off s <= index ->
  index - a_off s < len (a_ds s) ->
  findSegment (lg (repr0 a)) index = Z.of_nat (sh a + p) ->
  loadSegment index (repr0 a)
  = Ok (sh a + p)%nat (repr a1 (length (a_tds a)) (alast a)) ->
  csegs a1 !! (sh a + p)%nat = Some (full s) ->
  truncateBack ecap index (repr0 a) = Ok tt w' ->
  exists a', w' = repr0 a' /\ valid a' /\ a_opts a' = a_opts a /\
             back_of index a a'.
Proof.
  intros Hv Hv1 Hsc Hst Hr Hs Ho Hheld Hfind Hload Hfull H.
  unfold truncateBack in H. rewrite bind_get_log in H.
  change (firstOffset (lg (repr0 a))) with (afirst a) in H.
  change (lastOffset (lg (repr0 a))) with (alast a) in H.
  pose proof (valid_first_range a Hv) as Hfr.
  pose proof (valid_last_range a Hv) as Hlr.
  rewrite wrap64_id in H by (unfold in_int64, min_int64, max_int64 in *; lia).
  destruct (Z.eqb_spec index (afirst a - 1)); [lia|].
  destruct (Z.ltb_spec index (afirst a)); [lia|].
  destruct (Z.ltb_spec (alast a) index); [lia|]. cbn [orb] in H.
  destruct (Z.eqb_spec index (alast a)); [lia|].
  rewrite Hfind in H. rewrite (bind_ok _ _ _ _ _ Hload) in H.
  rewrite bind_get_log in H.
  rewrite (bind_ok _ _ _ _ _ (index_of_Some _ _ _ _ Hfull)) in H.
  cbn [epos ebuf offset full cseg set_res a_res a_off a_ds] in H.
  destruct (same_content_tail a a1 Hsc) as (Htoff & Htds & Hpre).
  assert (length (a_pre a1) = length (a_pre a)) as Hlen1
    by (apply (f_equal length) in Hpre; rewrite !length_map in Hpre; exact Hpre).
  assert (sh a1 = sh a) as Hsh1 by (unfold sh; rewrite Hst; reflexivity).
  pose proof (lookup_lt_Some _ _ _ Hs) as Hp. rewrite allsegs_length in Hp.
  assert (0 <= a_off s /\ a_off s + len (a_ds s) <= a_toff a1 + len (a_tds a1)) as Hos.
  { assert ((a_off s, length (a_ds s)) ∈ aspans a1) as Hin.
    { rewrite aspans_content, content_allsegs, map_map.
      apply list_elem_of_fmap. exists s. split; [reflexivity|].
      eapply list_elem_of_lookup_2; eauto. }
    pose proof (span_in_valid a1 _ Hv1 Hin) as [Hsp _]. cbn [fst snd] in Hsp.
    unfold len in *. split; [|lia].
    assert (a_off s ∈ aoffsets a1) as Hin2.
    { rewrite aoffsets_spans. apply list_elem_of_fmap.
      exists (a_off s, length (a_ds s)). auto. }
    apply (aoffsets_range a1 _ Hv1 Hin2). }
  assert (wrap64 (index - a_off s) = index - a_off s) as Hw1
    by (apply wrap64_id; unfold in_int64, min_int64, max_int64 in *; lia).
  rewrite Hw1 in H.
  rewrite wrap64_id in H by (unfold in_int64, min_int64, max_int64 in *; lia).
  assert (index - a_off s + 1 <= len (a_ds s)) as Hk by lia.
  rewrite back_buf_held in H by lia.
  set (k := Z.to_nat (index - a_off s)) in *.
  set (buf := encode_all (take (S k) (a_ds s))) in *.
  rewrite temp_rename_eq in H by (apply end_not_temp || apply disk_no_temp).
  apply with_recover_Ok_inv in H.
  hstep H (sfile_Close_eq (segmentName (a_toff a1))
             (length (encode_all (take (length (a_tds a)) (a_tds a1)))))
    by reflexivity.
  cbn [lg disk] in H.
  apply bind_Ok_inv in H as ([] & W4 & Hrm & H).
  unfold zrange in Hrm.
  change (segments (lg (repr a1 (length (a_tds a)) (alast a)))) with (csegs a1) in *.
  assert (len (csegs a1) = Z.of_nat (sh a + length (a_pre a) + 1)) as Hlc
    by (unfold len; rewrite csegs_length, Hsh1, Hlen1; reflexivity).
  rewrite Hlc in Hrm.
  apply remove_range_inv in Hrm as (-> & _ & _); [|lia].
  cbn [lg disk segments set_sfile] in H.
  change (segments (lg (repr a1 (length (a_tds a)) (alast a)))) with (csegs a1) in *.
  rewrite Nat2Z.id in H.
  rewrite take_ge in H by (rewrite length_drop, csegs_length, Hsh1, Hlen1; lia).
  set (endn := str_app (segmentName (a_off s)) endSuffix) in *.
  set (Ff := fun s : aseg => (segmentName (a_off s), encode_all (a_ds s))).
  set (F1 := map Ff (take p (a_pre a1))).
  assert (afiles a1 (length (a_tds a)) = F1 ++ map Ff (drop p (allsegs a1))) as HF.
  { rewrite <- Htds, afiles_allsegs. rewrite <- (take_drop p (allsegs a1)) at 1.
    rewrite map_app, take_allsegs by lia. reflexivity. }
  assert (endn ∉ (afiles a1 (length (a_tds a))).*1) as Hend.
  { rewrite afiles_names. intros Hin0.
    apply list_elem_of_fmap in Hin0 as (x & E & _). revert E.
    apply marker_name_not_segment. cbn. lia. }
  assert (delete_paths (drop (sh a + p)%nat (csegs a1))
            (<[endn := buf]> (disk (repr a1 (length (a_tds a)) (alast a))))
          = <[endn := buf]> (list_to_map F1)) as HD.
  { rewrite delete_paths_insert_ne.
    - f_equal. unfold repr. cbn [disk]. rewrite HF.
      apply delete_paths_list_to_map_r.
      + rewrite <- Hsh1. apply paths_csegs_drop.
      + rewrite <- HF. apply valid_names_NoDup. exact Hv1.
    - rewrite <- Hsh1, paths_csegs_drop. intros Hin0. apply Hend.
      rewrite HF, fmap_app. apply elem_of_app. right. exact Hin0. }
  rewrite HD in H. clear HD.
  assert (segmentName (a_off s) ∉ F1.*1) as Hnew.
  { pose proof (valid_names_NoDup a1 (length (a_tds a)) Hv1) as Hnd.
    rewrite HF, fmap_app in Hnd. apply NoDup_app in Hnd as (_ & Hdisj & _).
    intros Hin0. apply (Hdisj _ Hin0).
    apply list_elem_of_fmap. exists (Ff s). split; [reflexivity|].
    apply list_elem_of_fmap. exists s. split; [reflexivity|].
    apply (list_elem_of_lookup_2 _ 0). rewrite lookup_drop, Nat.add_0_r. exact Hs. }
  hstep H (fs_Rename_eq endn (segmentName (a_off s)) buf)
    by (cbn [disk]; apply lookup_insert_eq).
  cbn [lg disk] in H. rewrite delete_insert_eq in H.
  rewrite delete_id in H
    by (apply not_elem_of_list_to_map_1; intros Hin0; apply Hend;
        rewrite HF, fmap_app; apply elem_of_app; left; exact Hin0).
  hstep H (assign_open_eq (segmentName (a_off s)) buf)
    by (cbn [disk]; apply lookup_insert_eq).
  cbn [lg disk] in H.
  hstep H (sfile_SeekEnd_eq (segmentName (a_off s)) 0 buf)
    by (first [reflexivity | cbn [disk]; apply lookup_insert_eq]).
  cbn [lg disk] in H.
  change (Z.of_nat (length buf)) with (len buf) in H.
  rewrite Z.eqb_refl in H. cbn [negb] in H.
  hstep H (set_seg_at_eq (sh a + p)%nat (set_path (segmentName (a_off s))) (full s))
    by (exact Hfull).
  cbn [lg disk] in H. rewrite bind_get_log in H.
  cbn [lg disk segments set_segments set_sfile] in H.
  change (segments (lg (repr a1 (length (a_tds a)) (alast a)))) with (csegs a1) in H.
  set (f := set_path (segmentName (a_off s))) in *.
  assert (length (alter f (sh a + p)%nat (csegs a1)) = (sh a + length (a_pre a) + 1)%nat)
    as Hla by (rewrite length_alter, csegs_length, Hsh1, Hlen1; lia).
  match type of H with
  | bind (slice ?l ?lo ?hi) _ ?w = _ =>
      assert (0 <= lo <= hi) as Hb1 by lia;
      assert (hi <= len l) as Hb2 by (unfold len; rewrite Hla; lia);
      rewrite (bind_ok _ _ _ _ _ (slice_ok l lo hi w Hb1 Hb2)) in H;
      clear Hb1 Hb2
  end.
  rewrite (bind_ok _ _ _ _ _ (clearCache_eq _)) in H.
  rewrite bind_modify_log, bind_get_log in H.
  cbn [lg disk segments set_segments set_scache set_sfile set_lastOffset scache] in H.
  change (scache (lg (repr a1 (length (a_tds a)) (alast a)))) with (a_cache a1) in H.
  replace (Z.to_nat (Z.of_nat (sh a + p)%nat + 1)) with (S (sh a + p)%nat) in H by lia.
  rewrite foldr_alter_commute in H by (intros x; reflexivity).
  rewrite csegs_foldr_evict in H by (apply (v_cache a1 Hv1)).
  set (b := foldr a_evict a1 (a_cache a1)) in *.
  assert (valid b) as Hvb by (apply foldr_evict_valid; exact Hv1).
  assert (same_content a1 b) as Hscb by apply foldr_evict_content.
  assert (same_content a b) as Hsab by (eapply same_content_trans; eauto).
  assert (a_stale b = a_stale a) as Hstb
    by (unfold b; rewrite foldr_evict_stale; exact Hst).
  assert (sh b = sh a) as Hshb by (unfold sh; rewrite Hstb; reflexivity).
  destruct (same_content_tail a b Hsab) as (Htoffb & Htdsb & Hpreb).
  assert (length (a_pre b) = length (a_pre a)) as Hlenb
    by (apply (f_equal length) in Hpreb; rewrite !length_map in Hpreb; exact Hpreb).
  destruct (same_content_allsegs a1 b p s Hscb Hs) as (sb & Hsb & Hob & Hdb).
  pose proof (csegs_lookup_all b p sb Hsb) as Hcb. rewrite Hshb in Hcb.
  rewrite (take_alter_at f _ _ _ Hcb) in H.
  assert (length (take (sh a + p)%nat (csegs b)) = (sh a + p)%nat) as Hlt
    by (rewrite length_take, csegs_length, Hshb, Hlenb; lia).
  assert ((take (sh a + p)%nat (csegs b) ++ [f (cseg sb)]) !! (sh a + p)%nat
          = Some (f (cseg sb))) as Hlk.
  { rewrite lookup_app_r by lia. rewrite Hlt, Nat.sub_diag. reflexivity. }
  rewrite Hlk in H.
  assert (Forall small (a_ds s)) as Hsmall.
  { pose proof (v_small_pre a1 Hv1) as Hsm. pose proof (v_small_tl a1 Hv1) as Hst1.
    unfold allsegs in Hs. apply lookup_app_Some in Hs as [Hs|[_ Hs]].
    - rewrite Forall_forall in Hsm. apply Hsm. eapply list_elem_of_lookup_2; eauto.
    - destruct (p - length (a_pre a1))%nat as [|q]; [|destruct q; discriminate].
      cbn in Hs. inversion Hs; subst s. exact Hst1. }
  assert (Forall small (take (S k) (a_ds s))) as Hsmt by (apply Forall_take; exact Hsmall).
  match type of H with
  | loadSegmentEntries _ ?w = _ =>
      rewrite (loadSegmentEntries_eq (sh a + p)%nat (f (cseg sb)) buf
                 (positions 0 (take (S k) (a_ds s))) w) in H
  end.
  2:{ cbn [lg segments set_lastOffset set_segments]. exact Hlk. }
  2:{ cbn [disk]. unfold f. cbn [path set_path]. apply lookup_insert_eq. }
  2:{ apply parse_frames_encode. exact Hsmt. }
  cbn [lg disk segments set_lastOffset set_segments] in H.
  replace (sh a + p)%nat with (length (take (sh a + p)%nat (csegs b)) + 0)%nat in H at 1
    by lia.
  rewrite alter_app_r in H.
  match type of H with
  | context [alter ?g 0%nat [?x]] => change (alter g 0%nat [x]) with [g x] in H
  end.
  inversion H as [Hw]. clear H Hw.
  assert (length (take (S k) (a_ds s)) = S k) as Hlk2
    by (rewrite length_take; unfold k, len in *; lia).
  assert (p <= length (a_pre b))%nat as Hpb by lia.
  exists (MkAState (a_opts a) (a_stale a) (take p (a_pre b)) (a_off sb)
            (take (S k) (a_ds s)) []).
  split; [|split; [|split; [reflexivity|]]].
  3:{ split; [|split].
      - rewrite (afirst_take b p sb _ _ _ _ Hpb Hsb).
        apply (same_content_first a b Hsab).
      - unfold alast. cbn [a_toff a_tds]. unfold len. rewrite Hlk2, Hob.
        unfold k. lia.
      - intros off d. rewrite !aholds_holds.
        set (g := fun s : aseg => (a_off s, a_ds s)).
        assert (content a
                = map g (take p (a_pre b))
                  ++ (a_off sb, a_ds sb) :: map g (drop (S p) (allsegs b)))
          as Hca.
        { rewrite <- (proj2 Hsab), content_allsegs. fold g.
          rewrite <- (take_drop_middle _ _ _ Hsb) at 1.
          rewrite map_app, (take_allsegs b p Hpb). reflexivity. }
        unfold content at 1. cbn [a_pre a_toff a_tds]. fold g.
        rewrite Hca, <- Hdb.
        assert (index = a_off sb + Z.of_nat k) as Hik by (unfold k; lia).
        rewrite Hik. apply holds_back.
        + rewrite <- Hca, spans_content. apply (v_chain a Hv).
        + rewrite Hdb. unfold k, len in *. lia. }
  - unfold repr0, repr. f_equal.
    + apply Log_ext; log_fields.
      * apply (proj1 Hsc).
      * reflexivity.
      * reflexivity.
      * rewrite <- Hshb, (take_csegs b p Hpb), Hstb. unfold csegs.
        cbn [a_stale a_pre]. rewrite app_assoc. f_equal.
        unfold f, ctail, cseg, set_bufs, set_path. cbn [a_toff a_tds path offset].
        rewrite Hob. destruct (a_res sb); reflexivity.
      * rewrite (afirst_take b p sb _ _ _ _ Hpb Hsb).
        rewrite (same_content_first a a1 Hsc), (same_content_first a b Hsab).
        reflexivity.
      * unfold alast. cbn [a_toff a_tds]. unfold len. rewrite Hlk2, Hob.
        unfold k. lia.
      * cbn [a_toff a_tds]. rewrite firstn_all, Hob. reflexivity.
      * reflexivity.
    + unfold afiles. cbn [a_pre a_toff a_tds]. rewrite firstn_all, Hob.
      fold buf.
      assert (map Ff (take p (a_pre b)) = F1) as HF1.
      { unfold F1. rewrite !fmap_take. f_equal.
        apply (pre_map_content (fun o ds => (segmentName o, encode_all ds)) a1 b Hscb). }
      fold Ff. rewrite HF1.
      rewrite list_to_map_snoc by exact Hnew. reflexivity.
  - pose proof (v_chain b Hvb) as Hch. rewrite aspans_allsegs in Hch.
    rewrite <- (take_drop_middle _ _ _ Hsb) in Hch.
    rewrite map_app in Hch. cbn [map] in Hch.
    apply StronglySorted_app in Hch as (Hcross & Hs1 & _).
    rewrite (take_allsegs b p Hpb) in Hcross, Hs1.
    constructor; cbn [a_pre a_toff a_tds a_cache a_stale a_opts].
    + unfold aspans. cbn [a_pre a_toff a_tds]. apply StronglySorted_app_2.
      * intros x1 x2 Hx1 Hx2. apply list_elem_of_singleton in Hx2 as ->.
        pose proof (Hcross x1 _ Hx1 ltac:(apply elem_of_cons; left; reflexivity)) as Hx.
        unfold span_lt in *. cbn [fst snd] in *. exact Hx.
      * exact Hs1.
      * repeat constructor.
    + rewrite (afirst_take b p sb _ _ _ _ Hpb Hsb), (same_content_first a b Hsab).
      apply (v_first a Hv).
    + unfold len. rewrite Hlk2, Hob. unfold k. lia.
    + apply Forall_take. apply (v_small_pre b Hvb).
    + exact Hsmt.
    + constructor.
    + intros E. rewrite (afirst_take b p sb _ _ _ _ Hpb Hsb), (same_content_first a b Hsab).
      apply (v_stale a Hv E).
    + apply (v_size a Hv).
    + apply (v_csize a Hv).
Qed.

Lemma full_eq s s' : a_off s' = a_off s -> a_ds s' = a_ds s -> full s' = full s.
Proof. unfold full, cseg, set_res. cbn. intros -> ->. reflexivity. Qed.

(** A successful [TruncateBack] at an offset the log holds leaves a
    well-formed log that holds what the old one held up to that offset. *)
Lemma TruncateBack_repr a ecap index d w' :
  valid a -> aholds a index d ->
  TruncateBack ecap index (repr0 a) = Ok tt w' ->
  exists a', w' = repr0 a' /\ valid a' /\ a_opts a' = a_opts a /\
             back_of index a a'.
Proof.
  intros Hv Hd H. unfold TruncateBack in H.
  rewrite (bind_ok _ _ _ _ _ (guard_ok (repr0 a) eq_refl eq_refl)) in H.
  pose proof (valid_first_range a Hv) as Hfr.
  pose proof (valid_last_range a Hv) as Hlr.
  pose proof (aholds_in_range a index d Hv Hd) as Hrange.
  assert (wrap64 (afirst a - 1) = afirst a - 1) as Hw
    by (apply wrap64_id; unfold in_int64, min_int64, max_int64 in *; lia).
  destruct (Z.eq_dec index (alast a)) as [El|El].
  { unfold truncateBack in H. rewrite bind_get_log in H.
    change (firstOffset (lg (repr0 a))) with (afirst a) in H.
    change (lastOffset (lg (repr0 a))) with (alast a) in H.
    rewrite Hw in H. destruct (Z.eqb_spec index (afirst a - 1)); [lia|].
    destruct (Z.ltb_spec index (afirst a)); [lia|].
    destruct (Z.ltb_spec (alast a) index); [lia|]. cbn [orb] in H.
    destruct (Z.eqb_spec index (alast a)); [|lia].
    inversion H. exists a. rewrite El.
    split; [reflexivity|]. split; [exact Hv|]. split; [reflexivity|].
    apply back_of_refl. exact Hv. }
  destruct (Z.le_gt_cases (a_toff a) index) as [Ht|Ht].
  - apply (truncateBack_at a a ecap index (length (a_pre a))
             (MkASeg (a_toff a) (a_tds a) true) w' Hv Hv (same_content_refl a) eq_refl);
      auto.
    + lia.
    + unfold allsegs. rewrite lookup_app_r by lia. rewrite Nat.sub_diag. reflexivity.
    + cbn [a_off a_ds]. apply (aholds_tail a index d Hv Ht) in Hd.
      apply lookup_lt_Some in Hd. unfold len. lia.
    + apply findSegment_tail; auto.
    + apply loadSegment_tail; auto.
    + apply csegs_lookup_tail.
  - assert (afirst a <= index < a_toff a) as Hin by lia.
    destruct (loadSegment_pre a (length (a_tds a)) (alast a) index Hv Hin)
      as (i & s & a1 & Hs & Ho & Hnext & Hload & Hv1 & Hsc & Hst & Hfull & _).
    destruct (same_content_lookup a a1 i s Hsc Hs) as (s1 & Hs1 & Ho1 & Hd1).
    apply (truncateBack_at a a1 ecap index i s1 w' Hv Hv1 Hsc Hst); auto.
    + lia.
    + unfold allsegs. apply lookup_app_l_Some. exact Hs1.
    + lia.
    + rewrite Ho1, Hd1. apply (aholds_pre a i s index d Hv Hs Ho Ht Hnext) in Hd.
      apply lookup_lt_Some in Hd. unfold len. lia.
    + apply (findSegment_pre a _ _ index i s Hv Hs Ho Ht Hnext).
    + rewrite (full_eq s s1 Ho1 Hd1). exact Hfull.
Qed.

(** ** [ClearCache], [Clear] and [Sync] on a well-formed log *)

(** A state with the same content describes the same world up to the
    segment list and the cache. *)
Lemma repr0_by_content a b :
  same_content a b ->
  repr0 b
  = MkWorld (set_scache (a_cache b) (set_segments (csegs b) (lg (repr0 a))))
      (disk (repr0 a)).
Proof.
  intros H. destruct (same_content_tail a b H) as (Ht & Hd & Hp).
  unfold repr0, repr. f_equal.
  - apply Log_ext; log_fields.
    + apply (proj1 H).
    + reflexivity.
    + reflexivity.
    + reflexivity.
    + apply same_content_first. exact H.
    + apply same_content_last. exact H.
    + rewrite Ht, Hd. reflexivity.
    + reflexivity.
  - rewrite !afiles_content, (proj2 H). reflexivity.
Qed.

Lemma clearCache_repr a :
  valid a -> clearCache (repr0 a) = Ok tt (repr0 (a_clear a)).
Proof.
  intros Hv. rewrite clearCache_eq. f_equal.
  rewrite (repr0_by_content a (a_clear a) (same_content_clear a)).
  change (scache (lg (repr0 a))) with (a_cache a).
  change (segments (lg (repr0 a))) with (csegs a).
  rewrite csegs_foldr_evict by apply (v_cache a Hv). reflexivity.
Qed.

Lemma ClearCache_repr a :
  valid a -> ClearCache (repr0 a) = Ok tt (repr0 (a_clear a)).
Proof.
  intros Hv. unfold ClearCache.
  rewrite (bind_ok _ _ _ _ _ (guard_ok (repr0 a) eq_refl eq_refl)).
  apply clearCache_repr. exact Hv.
Qed.

Lemma Sync_repr a : Sync (repr0 a) = Ok tt (repr0 a).
Proof. reflexivity. Qed.

(** Removing the files of all segments empties the directory. *)
Lemma delete_all_segments a m lst :
  valid a ->
  foldl (fun fs s => delete (path s) fs) (disk (repr a m lst)) (csegs a) = ∅.
Proof.
  intros Hv. change (delete_paths (csegs a) (disk (repr a m lst)) = ∅).
  assert (delete_paths (map cseg (a_pre a) ++ [ctail a]) (disk (repr a m lst)) = ∅)
    as Hrest.
  { cbn [disk repr]. rewrite <- (app_nil_r (afiles a m)).
    rewrite (delete_paths_list_to_map _ (afiles a m) []).
    - reflexivity.
    - unfold afiles. rewrite fmap_app, map_app, map_map, <- list_fmap_compose.
      reflexivity.
    - rewrite app_nil_r. apply valid_names_NoDup. exact Hv. }
  unfold csegs. destruct (a_stale a) eqn:Hst; cbn [app]; [|exact Hrest].
  rewrite delete_paths_cons. cbn [path stale_seg].
  rewrite delete_id by (apply disk_no_zero; assumption). exact Hrest.
Qed.

(** [Clear] leaves the log of a fresh directory. *)
Lemma Clear_repr a :
  valid a ->
  Clear (repr0 a) = Ok tt (repr0 (MkAState (a_opts a) false [] 0 [] [])).
Proof.
  intros Hv. unfold Clear.
  rewrite (bind_ok _ _ _ _ _ (guard_ok (repr0 a) eq_refl eq_refl)).
  unfold clear. rewrite (bind_ok _ _ _ _ _ (clearCache_repr a Hv)).
  pose proof (valid_clear a Hv) as Hvc.
  pose proof (same_content_clear a) as Hsc.
  set (c := a_clear a) in *.
  rewrite bind_get_log, bind_modify_disk.
  change (segments (lg (repr0 c))) with (csegs c).
  unfold repr0 at 2. rewrite (delete_all_segments c _ _ Hvc).
  rewrite bind_modify_log. cbn [lg disk].
  unfold createInitialSegment. rewrite bind_modify_log, bind_get_log.
  cbn [lg disk].
  change (segments (set_lastOffset _ (set_firstOffset _ (set_segments ?l _))))
    with l.
  change (segments (set_segments [] (lg (repr0 c)))) with (@nil segment).
  cbn [app].
  rewrite (bind_ok _ _ _ _ _
             (index_of_Some [MkSegment (segmentName 0) 0 [] []] 0%nat _ _ eq_refl)).
  unfold assign_sfile, newFile. rewrite bind_modify_disk, ret_eq.
  cbn [lg disk path]. f_equal. unfold repr0, repr. f_equal.
  apply Log_ext; log_fields; try reflexivity.
  apply (proj1 Hsc).
Qed.

(** ** Closing and reopening keeps what the log holds *)

Lemma guard_Ok_inv w u w' :
  guard w = Ok u w' ->
  w' = w /\ closed (lg w) = false /\ corrupt (lg w) = false.
Proof.
  unfold guard. rewrite bind_get_log.
  destruct (corrupt (lg w)); [discriminate|].
  destruct (closed (lg w)); [discriminate|].
  intros E. inversion E. auto.
Qed.

Lemma TruncateFront_Ok_range w i w' :
  TruncateFront i w = Ok tt w' ->
  firstOffset (lg w) <= i <= lastOffset (lg w).
Proof.
  intros H. unfold TruncateFront in H.
  apply bind_Ok_inv in H as (u & w1 & Hg & H).
  apply guard_Ok_inv in Hg as (-> & _ & _).
  unfold truncateFront in H. rewrite bind_get_log in H.
  destruct (Z.ltb_spec i (firstOffset (lg w))) as [?|H1]; [discriminate|].
  destruct (Z.ltb_spec (lastOffset (lg w)) i) as [?|H2]; [discriminate|].
  lia.
Qed.

(** After a batch was appended the log holds an entry at its last offset:
    the last entry of the batch. *)
Lemma WriteBatch_last_held a a' es :
  batch_contig (alast a) es ->
  WriteBatch (mkBatch es) (repr0 a) = Ok tt (repr0 a') ->
  (forall off d, aholds a' off d <-> aholds a off d \/ (off, d) ∈ es) ->
  exists d, aholds a' (alast a') d.
Proof.
  intros Hb H Hh. destruct es as [|e0 es']; [contradiction|].
  unfold WriteBatch in H.
  rewrite (bind_ok _ _ _ _ _ (guard_ok (repr0 a) eq_refl eq_refl)) in H.
  rewrite entries_mkBatch in H. cbn [map len length] in H.
  destruct (Z.eqb_spec (Z.of_nat (S (length
              (map (fun e : Z * list byte => MkEntry e.1 (length e.2)) es')))) 0)
    as [?|_]; [lia|].
  assert (entries (mkBatch (e0 :: es')) !! 0%nat
          = Some (MkEntry (fst e0) (length (snd e0)))) as He0
    by (rewrite entries_mkBatch; reflexivity).
  destruct (writeBatch_post _ _ (repr0 a) He0 tt (repr0 a') H)
    as (_ & _ & bel & Hbel & Hl').
  rewrite entries_mkBatch, fmap_last in Hbel.
  destruct (last (e0 :: es')) as [[x d]|] eqn:Hel; [|discriminate].
  cbn in Hbel. inversion Hbel; subst bel. cbn [be_offset] in Hl'.
  change (lastOffset (lg (repr0 a'))) with (alast a') in Hl'.
  exists d. rewrite Hl'. apply Hh. right.
  rewrite last_lookup in Hel. eapply list_elem_of_lookup_2; exact Hel.
Qed.

(** A reached log is well formed, and when it is not empty it holds an
    entry at its last offset. *)
Lemma reached_repr_held o w :
  reached o w ->
  exists a, w = repr0 a /\ valid a /\ a_opts a = normalize o /\
            (afirst a <= alast a -> exists d, aholds a (alast a) d).
Proof.
  induction 1 as [w Ho|w w' es _ IH Hb Hw|w w' off d _ IH Hb Hw
                  |w w' i _ IH Ht|w w' ecap i d w1 _ IH Hrd Ht
                  |w w' off d _ IH Hr
                  |w w' _ IH Hr|w w' _ IH Hc|w w' _ IH Hc|w w' _ IH Hc].
  - rewrite open_repr in Ho. inversion Ho; subst w.
    exists (a_init o). split; [reflexivity|]. split; [apply valid_init|].
    split; [reflexivity|]. unfold afirst, alast, len. cbn. lia.
  - destruct IH as (a & -> & Hv & Hop & _).
    destruct (WriteBatch_repr a es Hv Hb) as (a' & Hw' & Hv' & Hop' & Hh).
    rewrite Hw' in Hw. inversion Hw; subst w'.
    exists a'. split; [reflexivity|]. split; [exact Hv'|].
    split; [congruence|]. intros _.
    apply (WriteBatch_last_held a a' es Hb Hw' Hh).
  - destruct IH as (a & -> & Hv & Hop & _).
    destruct (WriteBatch_repr a [(off, d)] Hv Hb) as (a' & Hw' & Hv' & Hop' & Hh).
    rewrite Write_WriteBatch, Hw' in Hw. inversion Hw; subst w'.
    exists a'. split; [reflexivity|]. split; [exact Hv'|].
    split; [congruence|]. intros _.
    apply (WriteBatch_last_held a a' [(off, d)] Hb Hw' Hh).
  - destruct IH as (a & -> & Hv & Hop & Hheld).
    pose proof (TruncateFront_Ok_range _ _ _ Ht) as Hrange.
    change (firstOffset (lg (repr0 a))) with (afirst a) in Hrange.
    change (lastOffset (lg (repr0 a))) with (alast a) in Hrange.
    destruct (TruncateFront_repr a i w' Hv Ht)
      as (a' & -> & Hv' & Hop' & Hf & Hl & Hh).
    exists a'. split; [reflexivity|]. split; [exact Hv'|].
    split; [congruence|]. intros _.
    destruct (Hheld ltac:(lia)) as [d Hd].
    exists d. rewrite Hl. apply Hh. split; [lia|exact Hd].
  - destruct IH as (a & -> & Hv & Hop & _).
    destruct (Read_Ok_repr a i d w1 Hv Hrd) as (_ & _ & _ & _ & Hd).
    destruct (TruncateBack_repr a ecap i d w' Hv Hd Ht)
      as (a' & -> & Hv' & Hop' & Hf & Hl & Hh).
    exists a'. split; [reflexivity|]. split; [exact Hv'|].
    split; [congruence|]. intros _.
    exists d. rewrite Hl. apply Hh. split; [lia|exact Hd].
  - destruct IH as (a & -> & Hv & Hop & Hheld).
    destruct (Read_Ok_repr a off d w' Hv Hr) as (a' & -> & Hv' & Hsc & _).
    exists a'. split; [reflexivity|]. split; [exact Hv'|].
    split; [rewrite (proj1 Hsc); exact Hop|].
    rewrite (same_content_first a a' Hsc), (same_content_last a a' Hsc).
    intros Hle. destruct (Hheld Hle) as [d0 Hd0]. exists d0.
    apply (same_content_aholds a a' _ _ Hsc). exact Hd0.
  - destruct IH as (a & -> & Hv & Hop & Hheld).
    rewrite (reopen_repr o a Hv Hop) in Hr. inversion Hr; subst w'.
    pose proof (same_content_reopen a) as Hsc.
    exists (a_reopen a). split; [reflexivity|].
    split; [apply valid_reopen; exact Hv|]. split; [exact Hop|].
    rewrite (same_content_first a _ Hsc), (same_content_last a _ Hsc).
    intros Hle. destruct (Hheld Hle) as [d0 Hd0]. exists d0.
    apply (same_content_aholds a _ _ _ Hsc). exact Hd0.
  - destruct IH as (a & -> & Hv & Hop & _).
    rewrite (Clear_repr a Hv) in Hc. inversion Hc; subst w'.
    exists (a_init o). split; [rewrite Hop; reflexivity|].
    split; [apply valid_init|]. split; [reflexivity|].
    unfold afirst, alast, len. cbn. lia.
  - destruct IH as (a & -> & Hv & Hop & Hheld).
    rewrite (ClearCache_repr a Hv) in Hc. inversion Hc; subst w'.
    pose proof (same_content_clear a) as Hsc.
    exists (a_clear a). split; [reflexivity|].
    split; [apply valid_clear; exact Hv|].
    split; [rewrite (proj1 Hsc); exact Hop|].
    rewrite (same_content_first a _ Hsc), (same_content_last a _ Hsc).
    intros Hle. destruct (Hheld Hle) as [d0 Hd0]. exists d0.
    apply (same_content_aholds a _ _ _ Hsc). exact Hd0.
  - destruct IH as (a & -> & Hv & Hop & Hheld).
    rewrite Sync_repr in Hc. inversion Hc; subst w'.
    exists a. auto.
Qed.

Lemma reached_repr o w :
  reached o w -> exists a, w = repr0 a /\ valid a /\ a_opts a = normalize o.
Proof.
  intros H. destruct (reached_repr_held o w H) as (a & Hw & Hv & Hop & _).
  exists a. auto.
Qed.

(** What [Read] returns depends on the content of the log alone. *)
Lemma Read_outcome_content a a' off :
  valid a -> valid a' -> same_content a a' ->
  outcome_of (Read off (repr0 a')) = outcome_of (Read off (repr0 a)).
Proof.
  intros Hv Hv' Hsc.
  pose proof (same_content_first a a' Hsc) as Hf.
  pose proof (same_content_last a a' Hsc) as Hl.
  destruct (Z.lt_ge_cases off (afirst a)) as [Hlo|Hlo].
  { rewrite !Read_repr_out by (rewrite ?Hf, ?Hl; auto). reflexivity. }
  destruct (Z.lt_ge_cases (alast a) off) as [Hhi|Hhi].
  { rewrite !Read_repr_out by (rewrite ?Hf, ?Hl; auto). reflexivity. }
  destruct (Read_repr a off Hv ltac:(lia))
    as (b & _ & _ & _ & [(d & Hd & HR)|(Hno & HR)]);
    destruct (Read_repr a' off Hv' ltac:(lia))
      as (b' & _ & _ & _ & [(d' & Hd' & HR')|(Hno' & HR')]);
    rewrite HR, HR'; cbn [outcome_of].
  - apply (same_content_aholds a a' off d' Hsc) in Hd'.
    rewrite (aholds_fun a off d d' Hv Hd Hd'). reflexivity.
  - exfalso. apply (Hno' d). apply (same_content_aholds a a' off d Hsc). exact Hd.
  - exfalso. apply (Hno d'). apply (same_content_aholds a a' off d' Hsc). exact Hd'.
  - reflexivity.
Qed.

Lemma FirstIndex_repr a : FirstIndex (repr0 a) = Ok (afirst a) (repr0 a).
Proof. reflexivity. Qed.

Lemma LastIndex_repr a : LastIndex (repr0 a) = Ok (alast a) (repr0 a).
Proof. reflexivity. Qed.

(** X2: for every log opened on an empty directory and then taken through
    calls that returned normally (appends whose offsets follow one another,
    start after the last offset and stay below the largest [int64];
    [TruncateFront]; [TruncateBack] at an offset for which [Read] returns an
    entry; reads; [Clear], [ClearCache], [Sync]; closing and reopening),
    [Close] followed by opening the same directory with the same options
    returns a log with the same first and last index and with the same
    outcome of [Read] at every offset. *)
Theorem reopen_keeps_log o w :
  reached o w ->
  exists w' f l,
    reopen o w = Ok tt w' /\
    outcome_of (FirstIndex w) = Returned f /\
    outcome_of (FirstIndex w') = Returned f /\
    outcome_of (LastIndex w) = Returned l /\
    outcome_of (LastIndex w') = Returned l /\
    (forall off, outcome_of (Read off w') = outcome_of (Read off w)).
Proof.
  intros H. destruct (reached_repr o w H) as (a & -> & Hv & Hop).
  exists (repr0 (a_reopen a)), (afirst a), (alast a).
  split; [apply reopen_repr; auto|].
  pose proof (same_content_reopen a) as Hsc.
  split; [reflexivity|].
  split; [rewrite FirstIndex_repr, (same_content_first a _ Hsc); reflexivity|].
  split; [reflexivity|].
  split; [rewrite LastIndex_repr, (same_content_last a _ Hsc); reflexivity|].
  intros off. apply Read_outcome_content; auto. apply valid_reopen. exact Hv.
Qed.

Lemma reopen_keeps_log_witness :
  exists w' f l,
    reopen DefaultOptions trunc_world = Ok tt w' /\
    outcome_of (FirstIndex trunc_world) = Returned f /\
    outcome_of (FirstIndex w') = Returned f /\
    outcome_of (LastIndex trunc_world) = Returned l /\
    outcome_of (LastIndex w') = Returned l /\
    (forall off, outcome_of (Read off w') = outcome_of (Read off trunc_world)).
Proof.
  apply (reopen_keeps_log DefaultOptions trunc_world).
  apply (reached_TruncateFront DefaultOptions two_entry_world trunc_world 1).
  - apply (reached_Write DefaultOptions one_entry_world two_entry_world
             1 (bytes_of "b")).
    + apply (reached_Write DefaultOptions fresh_world one_entry_world
               0 (bytes_of "a")).
      * apply reached_open. vm_compute. reflexivity.
      * unfold batch_contig. cbn [fst snd].
        split; [vm_compute; discriminate|]. split; [simpl; auto|].
        split; [vm_compute; discriminate|]. repeat constructor.
      * vm_compute. reflexivity.
    + unfold batch_contig. cbn [fst snd].
      split; [vm_compute; discriminate|]. split; [simpl; auto|].
      split; [vm_compute; discriminate|]. repeat constructor.
    + vm_compute. reflexivity.
  - vm_compute. reflexivity.
Defined.

(** * The entry codec and the segment names, on their own *)

Lemma putUvarint_length_le fuel : forall x,
  (length (Codec.putUvarint fuel x) <= fuel)%nat.
Proof.
  induction fuel as [|fuel IH]; intros x; simpl; [lia|].
  destruct (128 <=? x); simpl; [|lia]. specialize (IH (Z.shiftr x 7)). lia.
Qed.

(** X3: [appendUvarint] appends between one and ten bytes, and
    [binary.Uvarint] reads the value back from them, whatever follows, and
    reports how many bytes it read. *)
Theorem uvarint_round_trip (dst rest : list byte) (x : Z) :
  0 <= x < 2 ^ 64 ->
  exists enc,
    Codec.appendUvarint dst x = dst ++ enc /\
    (1 <= length enc <= 10)%nat /\
    Codec.Uvarint (enc ++ rest) = (x, Z.of_nat (length enc)).
Proof.
  intros Hx. exists (Codec.putUvarint 10 x).
  split; [|split].
  - unfold Codec.appendUvarint. rewrite Z.mod_small by lia. reflexivity.
  - pose proof (putUvarint_length_pos 10 x ltac:(lia)).
    pose proof (putUvarint_length_le 10 x). lia.
  - apply Uvarint_put. exact Hx.
Qed.

Lemma uvarint_round_trip_witness :
  exists enc,
    Codec.appendUvarint [] 300 = [] ++ enc /\
    (1 <= length enc <= 10)%nat /\
    Codec.Uvarint (enc ++ [x61]) = (300, Z.of_nat (length enc)).
Proof. apply (uvarint_round_trip [] [x61] 300). lia. Defined.

Lemma uvarint_loop_bounds buf : forall i x s v n,
  0 <= i -> 0 <= x -> 0 <= s ->
  Codec.uvarint_loop buf i x s = (v, n) -> 0 < n ->
  i < n <= i + len buf /\ 0 <= v.
Proof.
  induction buf as [|b buf IH]; intros i x s v n Hi Hx Hs H Hn.
  - simpl in H. inversion H. lia.
  - cbn [Codec.uvarint_loop] in H. unfold len. cbn [length].
    pose proof (byte_to_Z_range b) as Hb.
    destruct (Z.eqb_spec i 10); [inversion H; lia|].
    destruct (Z.ltb_spec (byte_to_Z b) 128).
    + destruct ((i =? 9) && (1 <? byte_to_Z b)); inversion H; subst; [lia|].
      split; [lia|]. apply Z.lor_nonneg. split; [lia|].
      apply Z.shiftl_nonneg. lia.
    + apply IH in H; try lia.
      * unfold len in H. lia.
      * apply Z.lor_nonneg. split; [lia|]. apply Z.shiftl_nonneg.
        apply Z.land_nonneg. lia.
Qed.

Lemma loadNextEntry_bounds data n :
  loadNextEntry data = inr n -> (0 < n <= length data)%nat.
Proof.
  unfold loadNextEntry, Codec.Uvarint.
  destruct (Codec.uvarint_loop data 0 0 0) as [size k] eqn:E.
  destruct (Z.leb_spec k 0) as [?|Hk]; [discriminate|].
  destruct (Z.ltb_spec (Z.of_nat (length data) - k) size) as [?|Hsz];
    [discriminate|].
  intros Hn. inversion Hn; subst n.
  apply uvarint_loop_bounds in E; unfold len in *; lia.
Qed.

Lemma load_frames_tiles fuel : forall data p eps,
  load_frames fuel data p = inr eps -> tiles p eps (p + length data).
Proof.
  induction fuel as [|fuel IH]; intros data p eps H.
  - destruct data; simpl in H; [|discriminate]. inversion H. simpl. lia.
  - destruct data as [|b data]; [inversion H; simpl; lia|].
    cbn [load_frames] in H.
    destruct (loadNextEntry (b :: data)) as [e|n] eqn:E; [discriminate|].
    destruct (load_frames fuel (drop n (b :: data)) (p + n)) as [e|l] eqn:El;
      [discriminate|].
    inversion H; subst eps. apply loadNextEntry_bounds in E.
    apply IH in El. rewrite length_drop in El.
    cbn [tiles pos end_]. split; [reflexivity|]. split; [lia|].
    replace (p + length (b :: data))%nat
      with (p + n + (length (b :: data) - n))%nat by lia.
    exact El.
Qed.

(** X4: when the decoding loop of [loadSegmentEntries] succeeds, the
    positions it returns split the whole file into consecutive byte ranges,
    none empty: the first starts at 0, each starts where the one before it
    ends, and the last ends at the length of the file. *)
Theorem parse_frames_tiles data eps :
  parse_frames data = inr eps -> tiles 0 eps (length data).
Proof. intros H. apply load_frames_tiles in H. exact H. Qed.

Lemma parse_frames_tiles_witness :
  tiles 0 [Bpos 0 2; Bpos 2 3] (length [x01; x61; x00]).
Proof.
  apply (parse_frames_tiles [x01; x61; x00] [Bpos 0 2; Bpos 2 3]).
  vm_compute. reflexivity.
Defined.

Lemma load_frames_err_frame fuel : forall data p e,
  (length data <= fuel)%nat -> load_frames fuel data p = inl e ->
  exists k, (k < length data)%nat /\ loadNextEntry (drop k data) = inl e.
Proof.
  induction fuel as [|fuel IH]; intros data p e Hf H.
  - destruct data; [discriminate|]. simpl in Hf. lia.
  - destruct data as [|b data]; [discriminate|].
    cbn [load_frames] in H.
    destruct (loadNextEntry (b :: data)) as [e'|n] eqn:E.
    + inversion H; subst e'. exists 0%nat. split; [simpl; lia|exact E].
    + destruct (load_frames fuel (drop n (b :: data)) (p + n)) as [e'|l] eqn:El;
        [|discriminate].
      inversion H; subst e'. apply loadNextEntry_bounds in E.
      apply IH in El; [|rewrite length_drop; simpl in *; lia].
      destruct El as (k & Hk & Hl). rewrite length_drop in Hk.
      rewrite drop_drop in Hl.
      exists (n + k)%nat. split; [lia|exact Hl].
Qed.

(** X5: the decoding loop of [loadSegmentEntries] fails only with
    [ErrCorrupt], and only when [loadNextEntry] rejects the bytes at some
    position of the file: a file made of well-formed frames is never
    reported corrupt. *)
Theorem parse_frames_error data e :
  parse_frames data = inl e ->
  e = ErrCorrupt /\
  exists k, (k < length data)%nat /\ loadNextEntry (drop k data) = inl ErrCorrupt.
Proof.
  intros H. pose proof (parse_frames_err data e H) as ->.
  split; [reflexivity|].
  apply (load_frames_err_frame (length data) data 0%nat); [lia|exact H].
Qed.

Lemma parse_frames_error_witness :
  ErrCorrupt = ErrCorrupt /\
  exists k, (k < length [x05; x61])%nat /\
            loadNextEntry (drop k [x05; x61]) = inl ErrCorrupt.
Proof. apply (parse_frames_error [x05; x61] ErrCorrupt). vm_compute. reflexivity. Defined.

Lemma appendEntries_encode ds :
  appendEntries ds = (encode_all ds, positions 0 ds).
Proof.
  unfold appendEntries. induction ds as [|d ds IH] using rev_ind; [reflexivity|].
  rewrite foldl_snoc, IH. cbn [fst snd].
  rewrite appendEntry_encode, positions_snoc. reflexivity.
Qed.

(** X6: the buffer [writeBatch] builds by calling [appendEntry] for each
    payload is read back by the decoding loop of [loadSegmentEntries] as
    exactly the positions [appendEntry] returned, one per payload, and the
    bytes at the [k]-th position pass the two checks of [Read] and decode to
    the [k]-th payload. *)
Theorem appendEntries_round_trip ds :
  Forall small ds ->
  parse_frames (fst (appendEntries ds)) = inr (snd (appendEntries ds)) /\
  length (snd (appendEntries ds)) = length ds /\
  forall k d, ds !! k = Some d ->
    exists ep, snd (appendEntries ds) !! k = Some ep /\
      let edata := entry_bytes (fst (appendEntries ds)) ep in
      0 < snd (Codec.Uvarint edata) /\
      fst (Codec.Uvarint edata) <= len edata - snd (Codec.Uvarint edata) /\
      take (Z.to_nat (fst (Codec.Uvarint edata)))
        (drop (Z.to_nat (snd (Codec.Uvarint edata))) edata) = d.
Proof.
  intros Hs. rewrite appendEntries_encode. cbn [fst snd].
  split; [apply parse_frames_encode; exact Hs|].
  split; [apply positions_length|].
  intros k d Hk. eexists. split; [apply (positions_lookup ds 0 k d Hk)|].
  unfold entry_bytes. cbn [pos end_ Nat.add]. rewrite (frame_at ds k d Hk).
  assert (small d) as Hd.
  { rewrite Forall_forall in Hs. apply Hs. eapply list_elem_of_lookup_2; eauto. }
  pose proof (decode_frame d Hd) as H.
  destruct (Codec.Uvarint (frame d)) as [size n]. cbn [fst snd].
  destruct H as (H1 & H2 & _ & H4). auto.
Qed.

Lemma appendEntries_round_trip_witness :
  parse_frames (fst (appendEntries [[x61]; []; [x62; x63]]))
  = inr (snd (appendEntries [[x61]; []; [x62; x63]])) /\
  length (snd (appendEntries [[x61]; []; [x62; x63]]))
  = length [[x61]; []; [x62; x63]] /\
  forall k d, [[x61]; []; [x62; x63]] !! k = Some d ->
    exists ep, snd (appendEntries [[x61]; []; [x62; x63]]) !! k = Some ep /\
      let edata := entry_bytes (fst (appendEntries [[x61]; []; [x62; x63]])) ep in
      0 < snd (Codec.Uvarint edata) /\
      fst (Codec.Uvarint edata) <= len edata - snd (Codec.Uvarint edata) /\
      take (Z.to_nat (fst (Codec.Uvarint edata)))
        (drop (Z.to_nat (snd (Codec.Uvarint edata))) edata) = d.
Proof.
  apply (appendEntries_round_trip [[x61]; []; [x62; x63]]).
  repeat constructor.
Defined.

(** ** Segment names *)

Lemma ParseInt_segmentName_neg x :
  min_int64 <= x < 0 -> ParseInt (segmentName x) = Some x.
Proof.
  intros Hx. unfold segmentName. destruct (Z.ltb_spec x 0); [|lia].
  destruct (pad_digits_head 18 (- x) "") as (d & r & Hd & E).
  unfold ParseInt. rewrite E. rewrite <- E.
  rewrite parse_pad_digits.
  - cbn [parse_digits]. unfold min_int64 in Hx.
    destruct (Z.ltb_spec (2 ^ 63) (0 * 10 ^ Z.of_nat 19 + - x)); [lia|].
    f_equal. lia.
  - unfold min_int64 in Hx. split; [lia|].
    eapply Z.le_lt_trans with (2 ^ 63); [lia|reflexivity].
Qed.

(** X7: for every [int64] offset, [segmentName] gives a name of exactly
    twenty characters, and [strconv.ParseInt] (as the scan of [load] calls
    it) gives the offset back from that name. *)
Theorem segmentName_round_trip x :
  in_int64 x ->
  String.length (segmentName x) = segmentFilenameLength /\
  ParseInt (str_prefix segmentFilenameLength (segmentName x)) = Some x.
Proof.
  intros Hx. split; [apply segmentName_length|].
  unfold str_prefix, segmentFilenameLength.
  rewrite <- (segmentName_length x) at 1. rewrite substring_all.
  unfold in_int64 in Hx. destruct (Z.lt_ge_cases x 0).
  - apply ParseInt_segmentName_neg. lia.
  - apply ParseInt_segmentName. lia.
Qed.

Lemma segmentName_round_trip_witness :
  String.length (segmentName (-42)) = segmentFilenameLength /\
  ParseInt (str_prefix segmentFilenameLength (segmentName (-42))) = Some (-42).
Proof.
  apply (segmentName_round_trip (-42)).
  unfold in_int64, min_int64, max_int64. lia.
Defined.

(** X8: the names of two offsets between 0 and the largest [int64] compare,
    byte by byte, as the offsets do: a directory listing sorted by name
    lists the segments by increasing base offset. *)
Theorem segmentName_order x y :
  0 <= x <= max_int64 -> 0 <= y <= max_int64 ->
  (name_le (segmentName x) (segmentName y) <-> x <= y).
Proof.
  intros Hx Hy. rewrite name_le_compare, segmentName_compare by assumption.
  reflexivity.
Qed.

Lemma segmentName_order_witness :
  name_le (segmentName 9) (segmentName 10) <-> 9 <= 10.
Proof.
  apply (segmentName_order 9 10); unfold max_int64; lia.
Defined.

(** * What a call never touches *)

Lemma quiet_bind {A B} (m : M A) (k : A -> M B) :
  quiet m -> (forall a, quiet (k a)) -> quiet (bind m k).
Proof.
  intros Hm Hk w. unfold bind. specialize (Hm w).
  destruct (m w) as [a w1|e w1|w1]; cbn [world_of] in *; [|exact Hm..].
  destruct (Hk a w1) as [H1 H2]. destruct Hm as [H3 H4].
  split; congruence.
Qed.

Lemma quiet_ret {A} (a : A) : quiet (ret a).
Proof. intros w. split; reflexivity. Qed.

Lemma quiet_fail {A} e : quiet (@fail A e).
Proof. intros w. split; reflexivity. Qed.

Lemma quiet_panic {A} : quiet (@panic A).
Proof. intros w. split; reflexivity. Qed.

Lemma quiet_get_log : quiet get_log.
Proof. intros w. split; reflexivity. Qed.

Lemma quiet_get_disk : quiet get_disk.
Proof. intros w. split; reflexivity. Qed.

Lemma quiet_index_of {A} (l : list A) i : quiet (index_of l i).
Proof.
  intros w. unfold index_of. destruct (0 <=? i); [|split; reflexivity].
  destruct (l !! Z.to_nat i); split; reflexivity.
Qed.

Lemma quiet_slice {A} (l : list A) lo hi : quiet (slice l lo hi).
Proof.
  intros w. unfold slice.
  destruct ((0 <=? lo) && (lo <=? hi) && (hi <=? Z.of_nat (length l)));
    split; reflexivity.
Qed.

Lemma quiet_when {A} b (m : M A) : quiet m -> quiet (when b m).
Proof.
  intros H. destruct b; [|apply quiet_ret].
  unfold when. apply quiet_bind; [exact H|]. intros _. apply quiet_ret.
Qed.

Lemma quiet_modify_segments f : quiet (modify_log (fun l => set_segments (f l) l)).
Proof. intros w. split; reflexivity. Qed.

Create HintDb quiet.
#[export] Hint Resolve quiet_ret quiet_fail quiet_panic quiet_get_log
  quiet_get_disk quiet_index_of quiet_slice quiet_modify_segments : quiet.

Ltac quiet :=
  repeat first
    [ solve [auto with quiet]
    | apply quiet_bind; [| intros ?]
    | apply quiet_when
    | match goal with
      | |- quiet (match ?x with _ => _ end) => destruct x
      | |- quiet (if ?x then _ else _) => destruct x
      | |- quiet (let '(_, _) := ?x in _) => destruct x
      end ].

Lemma quiet_fs_ReadFile n : quiet (fs_ReadFile n).
Proof. unfold fs_ReadFile. quiet. Qed.

#[export] Hint Resolve quiet_fs_ReadFile : quiet.

Lemma quiet_loadSegmentEntries i : quiet (loadSegmentEntries i).
Proof. unfold loadSegmentEntries. quiet. Qed.

Lemma quiet_pushCache i : quiet (pushCache i).
Proof.
  unfold pushCache. quiet.
  all: intros w; destruct o; split; reflexivity.
Qed.

#[export] Hint Resolve quiet_loadSegmentEntries quiet_pushCache : quiet.

Lemma quiet_loadSegment index : quiet (loadSegment index).
Proof. unfold loadSegment. quiet. Qed.

Lemma quiet_guard : quiet guard.
Proof. unfold guard. quiet. Qed.

#[export] Hint Resolve quiet_loadSegment quiet_guard : quiet.

Lemma quiet_Read off : quiet (Read off).
Proof. unfold Read. quiet. Qed.

(** X9: [Read] only reads: whether it returns data, returns an error or
    panics, it leaves every file of the directory, the first and last
    index and the [closed] and [corrupt] flags as they were (it may only
    load segments and move them in the cache). *)
Theorem Read_changes_nothing off w :
  disk (world_of (Read off w)) = disk w /\
  firstOffset (lg (world_of (Read off w))) = firstOffset (lg w) /\
  lastOffset (lg (world_of (Read off w))) = lastOffset (lg w) /\
  closed (lg (world_of (Read off w))) = closed (lg w) /\
  corrupt (lg (world_of (Read off w))) = corrupt (lg w).
Proof.
  destruct (quiet_Read off w) as [Hd Hb]. unfold bsig in Hb.
  inversion Hb. auto.
Qed.

(** ** After [Close] *)

Lemma Close_Ok_inv w w' :
  Close w = Ok tt w' ->
  closed (lg w') = true /\ corrupt (lg w') = false /\ disk w' = disk w /\
  sfile (lg w') = FClosed.
Proof.
  unfold Close. rewrite bind_get_log.
  destruct (closed (lg w)) eqn:Ec.
  { destruct (corrupt (lg w)); discriminate. }
  unfold syncNoMutex, doFSync, sfile_Close.
  rewrite bind_assoc, bind_get_log.
  destruct (sfile (lg w)) as [|n p|] eqn:Ef; try discriminate.
  rewrite bind_ret, bind_assoc, bind_get_log, Ef.
  rewrite bind_modify_log, bind_modify_log. cbn [lg disk].
  destruct (corrupt (lg w)) eqn:Ek; [discriminate|].
  intros H. inversion H; subst w'. cbn. rewrite Ek. auto.
Qed.

Lemma guard_closed w :
  closed (lg w) = true -> corrupt (lg w) = false -> guard w = Err ErrClosed w.
Proof.
  intros Hc Hk. unfold guard. rewrite bind_get_log, Hk, Hc. reflexivity.
Qed.

(** X10: after a [Close] that returned normally the directory is as it
    was, and every method of the log, [Close] included, returns [ErrClosed]
    and changes nothing. *)
Theorem closed_log_rejects w w' :
  Close w = Ok tt w' ->
  disk w' = disk w /\
  (forall off, Read off w' = Err ErrClosed w') /\
  (forall off d, Write off d w' = Err ErrClosed w') /\
  (forall b, WriteBatch b w' = Err ErrClosed w') /\
  FirstIndex w' = Err ErrClosed w' /\
  LastIndex w' = Err ErrClosed w' /\
  (forall i, TruncateFront i w' = Err ErrClosed w') /\
  (forall ecap i, TruncateBack ecap i w' = Err ErrClosed w') /\
  Clear w' = Err ErrClosed w' /\
  ClearCache w' = Err ErrClosed w' /\
  Sync w' = Err ErrClosed w' /\
  Close w' = Err ErrClosed w'.
Proof.
  intros H. destruct (Close_Ok_inv w w' H) as (Hc & Hk & Hd & _).
  pose proof (guard_closed w' Hc Hk) as Hg.
  split; [exact Hd|].
  repeat split; intros;
    try (unfold Read, Write, WriteBatch, FirstIndex, LastIndex, TruncateFront,
           TruncateBack, Clear, ClearCache, Sync;
         apply bind_err; exact Hg).
  unfold Close. rewrite bind_get_log, Hc, Hk. reflexivity.
Qed.

Lemma closed_log_rejects_witness :
  disk (world_of (Close one_entry_world)) = disk one_entry_world /\
  (forall off, Read off (world_of (Close one_entry_world))
               = Err ErrClosed (world_of (Close one_entry_world))) /\
  (forall off d, Write off d (world_of (Close one_entry_world))
                 = Err ErrClosed (world_of (Close one_entry_world))) /\
  (forall b, WriteBatch b (world_of (Close one_entry_world))
             = Err ErrClosed (world_of (Close one_entry_world))) /\
  FirstIndex (world_of (Close one_entry_world))
  = Err ErrClosed (world_of (Close one_entry_world)) /\
  LastIndex (world_of (Close one_entry_world))
  = Err ErrClosed (world_of (Close one_entry_world)) /\
  (forall i, TruncateFront i (world_of (Close one_entry_world))
             = Err ErrClosed (world_of (Close one_entry_world))) /\
  (forall ecap i, TruncateBack ecap i (world_of (Close one_entry_world))
                  = Err ErrClosed (world_of (Close one_entry_world))) /\
  Clear (world_of (Close one_entry_world))
  = Err ErrClosed (world_of (Close one_entry_world)) /\
  ClearCache (world_of (Close one_entry_world))
  = Err ErrClosed (world_of (Close one_entry_world)) /\
  Sync (world_of (Close one_entry_world))
  = Err ErrClosed (world_of (Close one_entry_world)) /\
  Close (world_of (Close one_entry_world))
  = Err ErrClosed (world_of (Close one_entry_world)).
Proof.
  apply (closed_log_rejects one_entry_world). vm_compute. reflexivity.
Defined.

(** ** The last index after an append *)

(** X11: whatever the state of the log and whatever the offsets in the
    batch, a [WriteBatch] of a batch that is not empty, when it returns
    normally, leaves [LastIndex] at the offset of the last entry of the
    batch. *)
Theorem WriteBatch_last_index b el w w' :
  last (entries b) = Some el ->
  WriteBatch b w = Ok tt w' ->
  LastIndex w' = Ok (be_offset el) w'.
Proof.
  intros Hl H. unfold WriteBatch in H.
  destruct (guard w) as [[] w1|e w1|w1] eqn:Eg;
    [|rewrite (bind_err _ _ _ _ _ Eg) in H; discriminate
     |rewrite (bind_panic _ _ _ _ Eg) in H; discriminate].
  rewrite (bind_ok _ _ _ _ _ Eg) in H.
  assert (w1 = w /\ closed (lg w) = false /\ corrupt (lg w) = false)
    as (-> & Hc & Hk).
  { revert Eg. unfold guard. rewrite bind_get_log.
    destruct (corrupt (lg w)); [discriminate|].
    destruct (closed (lg w)); [discriminate|].
    intros E. inversion E. auto. }
  destruct (entries b) as [|e0 es] eqn:Ee; [discriminate|].
  replace (len (e0 :: es) =? 0) with false in H
    by (symmetry; apply Z.eqb_neq; unfold len; simpl; lia).
  assert (entries b !! 0%nat = Some e0) as H0 by (rewrite Ee; reflexivity).
  destruct (writeBatch_post b e0 w H0 tt w' H) as ((Hc' & Hk') & _ & el' & Hl' & Hlast).
  rewrite Ee, Hl in Hl'. inversion Hl'; subst el'.
  rewrite LastIndex_eq by congruence. rewrite Hlast. reflexivity.
Qed.

Lemma WriteBatch_last_index_witness :
  LastIndex gap_world = Ok 2 gap_world.
Proof.
  apply (WriteBatch_last_index gap_batch (MkEntry 2 1) fresh_world gap_world).
  - reflexivity.
  - vm_compute. reflexivity.
Defined.

(** ** The binary search over the segments *)

(** X12: on a list of segments whose base offsets increase strictly,
    [findSegment(index)] returns the position of the last segment whose
    base offset is at most [index], and [-1] when every base offset is
    above [index]. *)
Theorem findSegment_spec l index :
  StronglySorted Z.lt (offset <$> segments l) ->
  -1 <= findSegment l index < len (segments l) /\
  (forall k s, Z.of_nat k <= findSegment l index ->
               segments l !! k = Some s -> offset s <= index) /\
  (forall k s, findSegment l index < Z.of_nat k ->
               segments l !! k = Some s -> index < offset s).
Proof.
  intros Hs. unfold findSegment, len.
  destruct (findSegment_loop_spec (segments l) index Hs
              (S (length (segments l))) 0 (length (segments l)))
    as (Hr & Hlo & Hhi).
  - lia.
  - lia.
  - intros k s Hk. lia.
  - intros k s Hk Hl. apply lookup_lt_Some in Hl. lia.
  - split; [|split].
    + destruct (Nat.eq_dec
                  (findSegment_loop (S (length (segments l))) (segments l) index 0
                     (length (segments l))) (length (segments l))) as [E|E]; lia.
    + intros k s Hk. apply Hlo. lia.
    + intros k s Hk. apply Hhi. lia.
Qed.

Lemma findSegment_spec_witness :
  -1 <= findSegment (lg jump_world) 3 < len (segments (lg jump_world)) /\
  (forall k s, Z.of_nat k <= findSegment (lg jump_world) 3 ->
               segments (lg jump_world) !! k = Some s -> offset s <= 3) /\
  (forall k s, findSegment (lg jump_world) 3 < Z.of_nat k ->
               segments (lg jump_world) !! k = Some s -> 3 < offset s).
Proof.
  apply (findSegment_spec (lg jump_world) 3).
  vm_compute. repeat constructor.
Defined.

(** ** [TruncateBack] at an offset between two segments *)

Lemma reslice_cap_mono {A} (pad : A) c c' (l : list A) n w x w' :
  c <= c' -> reslice pad c l n w = Ok x w' -> reslice pad c' l n w = Ok x w'.
Proof.
  unfold reslice. intros Hc.
  destruct (Z.leb_spec 0 n); cbn [andb]; [|discriminate].
  destruct (Z.leb_spec n (Z.max (len l) c)); [|discriminate].
  destruct (Z.leb_spec n (Z.max (len l) c')); [|lia].
  auto.
Qed.

(** A larger capacity never turns a normal return of [TruncateBack] into
    something else. *)
Lemma TruncateBack_cap_mono c c' i w w' :
  c <= c' -> TruncateBack c i w = Ok tt w' -> TruncateBack c' i w = Ok tt w'.
Proof.
  intros Hc H. unfold TruncateBack in *.
  apply bind_Ok_inv in H as (u & w1 & Hg & H).
  rewrite (bind_ok _ _ _ _ _ Hg).
  unfold truncateBack in *. rewrite bind_get_log in *.
  destruct (i =? wrap64 (firstOffset (lg w1) - 1)); [exact H|].
  destruct ((i <? firstOffset (lg w1)) || (lastOffset (lg w1) <? i)); [exact H|].
  destruct (i =? lastOffset (lg w1)); [exact H|].
  apply bind_Ok_inv in H as (si & w2 & Hl & H). rewrite (bind_ok _ _ _ _ _ Hl).
  rewrite bind_get_log in *.
  apply bind_Ok_inv in H as (s & w3 & Hs & H). rewrite (bind_ok _ _ _ _ _ Hs).
  apply bind_Ok_inv in H as (ep & w4 & Hr & H).
  rewrite (bind_ok _ _ _ _ _ (reslice_cap_mono _ _ _ _ _ _ _ _ Hc Hr)).
  exact H.
Qed.

(** X25: [TruncateBack] at an offset that no segment holds.  After
    [Write] at offsets 0, 1, 2 and 10 the log has [first_index() = 0],
    [last_index() = 10] and nothing at offsets 3 to 9.  When the positions
    slice of the segment at base offset 0 has capacity at least 4 (it has
    after three single appends), [TruncateBack(3)] returns normally: it
    re-slices the positions beyond their length, keeps an empty buffer,
    and leaves [first_index() = 0], [last_index() = 3] over one empty
    segment file.  The entries at offsets 0, 1 and 2 are lost ([Read(0)]
    returned ["a"] before and panics after), and after closing and
    reopening [last_index()] is -1. *)
Theorem TruncateBack_in_hole (ecap : Z) :
  4 <= ecap ->
  outcome_of (FirstIndex hole_world) = Returned 0 /\
  outcome_of (LastIndex hole_world) = Returned 10 /\
  outcome_of (Read 0 hole_world) = Returned (bytes_of "a") /\
  outcome_of (Read 3 hole_world) = Panicked /\
  TruncateBack ecap 3 hole_world = Ok tt hole_cut_world /\
  FirstIndex hole_cut_world = Ok 0 hole_cut_world /\
  LastIndex hole_cut_world = Ok 3 hole_cut_world /\
  map_to_list (disk hole_cut_world) = [(segmentName 0, [])] /\
  outcome_of (Read 0 hole_cut_world) = Panicked /\
  outcome_of (reopen DefaultOptions hole_cut_world) = Returned tt /\
  outcome_of (LastIndex (world_of (reopen DefaultOptions hole_cut_world)))
    = Returned (-1).
Proof.
  intros Hc.
  do 4 (split; [vm_compute; reflexivity|]).
  split.
  { apply (TruncateBack_cap_mono 4 ecap); [exact Hc|]. vm_compute. reflexivity. }
  vm_compute. repeat split; reflexivity.
Qed.

Lemma TruncateBack_in_hole_witness :
  outcome_of (FirstIndex hole_world) = Returned 0 /\
  outcome_of (LastIndex hole_world) = Returned 10 /\
  outcome_of (Read 0 hole_world) = Returned (bytes_of "a") /\
  outcome_of (Read 3 hole_world) = Panicked /\
  TruncateBack 4 3 hole_world = Ok tt hole_cut_world /\
  FirstIndex hole_cut_world = Ok 0 hole_cut_world /\
  LastIndex hole_cut_world = Ok 3 hole_cut_world /\
  map_to_list (disk hole_cut_world) = [(segmentName 0, [])] /\
  outcome_of (Read 0 hole_cut_world) = Panicked /\
  outcome_of (reopen DefaultOptions hole_cut_world) = Returned tt /\
  outcome_of (LastIndex (world_of (reopen DefaultOptions hole_cut_world)))
    = Returned (-1).
Proof. apply (TruncateBack_in_hole 4). lia. Defined.

(** * Properties of reached logs

    Below, a reached log ([reached]) is a log that was opened on an empty
    directory and then taken through calls that returned normally: appends
    whose offsets follow one another, start after the last offset and stay
    below the largest [int64]; [TruncateFront]; [TruncateBack] at an offset
    for which [Read] returns an entry; reads; [Clear], [ClearCache] and
    [Sync]; closing followed by reopening. *)

Lemma reached_two_entry : reached DefaultOptions two_entry_world.
Proof.
  apply (reached_Write DefaultOptions one_entry_world two_entry_world
           1 (bytes_of "b")).
  - apply (reached_Write DefaultOptions fresh_world one_entry_world
             0 (bytes_of "a")).
    + apply reached_open. vm_compute. reflexivity.
    + unfold batch_contig. cbn [fst snd].
      split; [vm_compute; discriminate|]. split; [simpl; auto|].
      split; [vm_compute; discriminate|]. repeat constructor.
    + vm_compute. reflexivity.
  - unfold batch_contig. cbn [fst snd].
    split; [vm_compute; discriminate|]. split; [simpl; auto|].
    split; [vm_compute; discriminate|]. repeat constructor.
  - vm_compute. reflexivity.
Qed.

(** ** Truncation keeps the other end of the log *)

(** X13: on a reached log, a [TruncateFront(i)]
    that returns normally had [i] between the first and the last index; it
    leaves the first index at [i] and the last index as it was; [Read]
    gives at every offset from [i] on what it gave before, and
    [ErrNotFound] below [i]. *)
Theorem TruncateFront_keeps_suffix o w i w' :
  reached o w -> TruncateFront i w = Ok tt w' ->
  firstOffset (lg w) <= i <= lastOffset (lg w) /\
  FirstIndex w' = Ok i w' /\
  LastIndex w' = Ok (lastOffset (lg w)) w' /\
  (forall off, i <= off ->
     outcome_of (Read off w') = outcome_of (Read off w)) /\
  (forall off, off < i -> Read off w' = Err ErrNotFound w').
Proof.
  intros Hr H. pose proof (TruncateFront_Ok_range w i w' H) as Hrange.
  destruct (reached_repr o w Hr) as (a & -> & Hv & _).
  destruct (TruncateFront_repr a i w' Hv H) as (a' & -> & Hv' & _ & Hfo).
  destruct Hfo as (Hf & Hl & Hh).
  change (firstOffset (lg (repr0 a))) with (afirst a) in *.
  change (lastOffset (lg (repr0 a))) with (alast a) in *.
  split; [exact Hrange|].
  split; [rewrite FirstIndex_repr, Hf; reflexivity|].
  split; [rewrite LastIndex_repr, Hl; reflexivity|].
  split.
  - intros off Hoff. apply Read_outcome_agree; auto.
    + rewrite Hf, Hl. lia.
    + intros d. rewrite Hh. tauto.
  - intros off Hoff. apply Read_repr_out. rewrite Hf. lia.
Qed.

Lemma TruncateFront_keeps_suffix_witness :
  firstOffset (lg two_entry_world) <= 1 <= lastOffset (lg two_entry_world) /\
  FirstIndex trunc_world = Ok 1 trunc_world /\
  LastIndex trunc_world = Ok (lastOffset (lg two_entry_world)) trunc_world /\
  (forall off, 1 <= off ->
     outcome_of (Read off trunc_world) = outcome_of (Read off two_entry_world)) /\
  (forall off, off < 1 -> Read off trunc_world = Err ErrNotFound trunc_world).
Proof.
  apply (TruncateFront_keeps_suffix DefaultOptions two_entry_world 1 trunc_world).
  - exact reached_two_entry.
  - vm_compute. reflexivity.
Defined.

(** X14: on a reached log, a [TruncateBack(i)] at an offset [i] for which
    [Read] returns an entry, when it returns normally (whatever the
    capacity of the positions slice), leaves the last index at [i] and the
    first index as it was; [Read] gives at every offset up to [i] what it
    gave before, and [ErrNotFound] above [i]. *)
Theorem TruncateBack_keeps_prefix o w ecap i d w1 w' :
  reached o w -> Read i w = Ok d w1 -> TruncateBack ecap i w = Ok tt w' ->
  FirstIndex w' = Ok (firstOffset (lg w)) w' /\
  LastIndex w' = Ok i w' /\
  (forall off, off <= i ->
     outcome_of (Read off w') = outcome_of (Read off w)) /\
  (forall off, i < off -> Read off w' = Err ErrNotFound w').
Proof.
  intros Hr Hrd H.
  destruct (reached_repr o w Hr) as (a & -> & Hv & _).
  change (firstOffset (lg (repr0 a))) with (afirst a) in *.
  destruct (Read_Ok_repr a i d w1 Hv Hrd) as (_ & _ & _ & _ & Hd).
  pose proof (aholds_in_range a i d Hv Hd) as Hrange.
  destruct (TruncateBack_repr a ecap i d w' Hv Hd H)
    as (a' & -> & Hv' & _ & Hf & Hl & Hh).
  split; [rewrite FirstIndex_repr, Hf; reflexivity|].
  split; [rewrite LastIndex_repr, Hl; reflexivity|].
  split.
  - intros off Hoff. apply Read_outcome_agree; auto.
    + rewrite Hf, Hl. lia.
    + intros d0. rewrite Hh. tauto.
  - intros off Hoff. apply Read_repr_out. rewrite Hl. lia.
Qed.

Lemma TruncateBack_keeps_prefix_witness :
  FirstIndex back_world = Ok (firstOffset (lg two_entry_world)) back_world /\
  LastIndex back_world = Ok 0 back_world /\
  (forall off, off <= 0 ->
     outcome_of (Read off back_world) = outcome_of (Read off two_entry_world)) /\
  (forall off, 0 < off -> Read off back_world = Err ErrNotFound back_world).
Proof.
  apply (TruncateBack_keeps_prefix DefaultOptions two_entry_world 2 0
           (bytes_of "a") (world_of (Read 0 two_entry_world)) back_world).
  - exact reached_two_entry.
  - vm_compute. reflexivity.
  - vm_compute. reflexivity.
Defined.

(** ** [Clear] *)



(** ** The directory *)

(** X16: in the directory of a reached log, every file is named by [segmentName] of an offset between 0 and the
    largest [int64], and the decoding loop of [loadSegmentEntries] accepts
    its content: no [TEMP] file and no marker file is left behind, and no
    file is corrupt. *)
Theorem reached_directory o w name c :
  reached o w -> disk w !! name = Some c ->
  exists x eps,
    0 <= x <= max_int64 /\ name = segmentName x /\ parse_frames c = inr eps.
Proof.
  intros Hr Hl. destruct (reached_repr o w Hr) as (a & -> & Hv & _).
  unfold repr0, repr in Hl. cbn [disk] in Hl.
  apply elem_of_list_to_map_2 in Hl. rewrite afiles_content in Hl.
  apply list_elem_of_fmap in Hl as ([x ds] & E & Hin). cbn [fst snd] in E.
  inversion E; subst name c. clear E.
  exists x, (positions 0 ds).
  apply content_elem in Hin as [(i & s & Hs & <- & <-)|[-> ->]].
  - split; [pose proof (valid_off_range a i s Hv Hs); lia|].
    split; [reflexivity|]. apply parse_frames_encode.
    pose proof (v_small_pre a Hv) as Hsm. rewrite Forall_forall in Hsm.
    apply Hsm. eapply list_elem_of_lookup_2; eauto.
  - split; [apply (valid_toff_range a Hv)|].
    split; [reflexivity|]. apply parse_frames_encode. apply (v_small_tl a Hv).
Qed.

Lemma reached_directory_witness :
  exists x eps,
    0 <= x <= max_int64 /\ segmentName 0 = segmentName x /\
    parse_frames [x01; x61; x01; x62] = inr eps.
Proof.
  apply (reached_directory DefaultOptions two_entry_world (segmentName 0)
           [x01; x61; x01; x62]).
  - exact reached_two_entry.
  - vm_compute. reflexivity.
Defined.

(** ** The cache does not show *)

(** X17: on a reached log, [ClearCache] returns
    normally, empties the cache, and changes neither the directory, nor the
    first and last index, nor the outcome of [Read] at any offset. *)
Theorem ClearCache_keeps_reads o w :
  reached o w ->
  exists w', ClearCache w = Ok tt w' /\
    scache (lg w') = [] /\ disk w' = disk w /\
    firstOffset (lg w') = firstOffset (lg w) /\
    lastOffset (lg w') = lastOffset (lg w) /\
    forall off, outcome_of (Read off w') = outcome_of (Read off w).
Proof.
  intros Hr. destruct (reached_repr o w Hr) as (a & -> & Hv & _).
  exists (repr0 (a_clear a)).
  pose proof (same_content_clear a) as Hsc.
  split; [apply ClearCache_repr; exact Hv|].
  split; [reflexivity|].
  rewrite (repr0_by_content a (a_clear a) Hsc).
  split; [reflexivity|]. split; [reflexivity|]. split; [reflexivity|].
  rewrite <- (repr0_by_content a (a_clear a) Hsc).
  intros off. apply Read_outcome_content; auto. apply valid_clear. exact Hv.
Qed.

Lemma ClearCache_keeps_reads_witness :
  exists w', ClearCache two_entry_world = Ok tt w' /\
    scache (lg w') = [] /\ disk w' = disk two_entry_world /\
    firstOffset (lg w') = firstOffset (lg two_entry_world) /\
    lastOffset (lg w') = lastOffset (lg two_entry_world) /\
    forall off, outcome_of (Read off w') = outcome_of (Read off two_entry_world).
Proof.
  apply (ClearCache_keeps_reads DefaultOptions two_entry_world).
  exact reached_two_entry.
Defined.

(** X18: on a reached log, a [Read], whatever
    its outcome, does not change the outcome of any later [Read]: what the
    cache holds is not observable. *)
Theorem Read_keeps_reads o w off off' :
  reached o w ->
  outcome_of (Read off' (world_of (Read off w))) = outcome_of (Read off' w).
Proof.
  intros Hr. destruct (reached_repr o w Hr) as (a & -> & Hv & _).
  destruct (Z.lt_ge_cases off (afirst a)) as [Hlo|Hlo].
  { rewrite (Read_repr_out a off) by auto. reflexivity. }
  destruct (Z.lt_ge_cases (alast a) off) as [Hhi|Hhi].
  { rewrite (Read_repr_out a off) by auto. reflexivity. }
  destruct (Read_repr a off Hv ltac:(lia))
    as (a' & Hv' & Hsc & _ & [(d & _ & HR)|(_ & HR)]);
    rewrite HR; cbn [world_of]; apply Read_outcome_content; auto.
Qed.

Lemma Read_keeps_reads_witness :
  outcome_of (Read 1 (world_of (Read 0 two_entry_world)))
  = outcome_of (Read 1 two_entry_world).
Proof.
  apply (Read_keeps_reads DefaultOptions two_entry_world 0 1).
  exact reached_two_entry.
Defined.

(** ** Appends keep what is there *)

(** X19: on a reached log (so also after truncations and reopening), a
    batch whose offsets follow one another
    and start after the last index is appended normally; [Read] then
    returns the payload of every entry of the batch, and at every offset up
    to the old last index it gives what it gave before. *)
Theorem append_keeps_reads o w es :
  reached o w -> batch_contig (lastOffset (lg w)) es ->
  exists w', WriteBatch (mkBatch es) w = Ok tt w' /\
    (forall off d, (off, d) ∈ es -> outcome_of (Read off w') = Returned d) /\
    (forall off, off <= lastOffset (lg w) ->
       outcome_of (Read off w') = outcome_of (Read off w)).
Proof.
  intros Hr Hb. destruct (reached_repr o w Hr) as (a & -> & Hv & _).
  change (lastOffset (lg (repr0 a))) with (alast a) in *.
  destruct (writeBatch_repr a es Hv Hb) as (a' & Hw & Hv' & _ & Hh).
  destruct (batch_contig_inv _ _ Hb) as (e0 & es' & Hes & Hlo & Hc & _ & _).
  assert (WriteBatch (mkBatch es) (repr0 a) = Ok tt (repr0 a')) as HW.
  { unfold WriteBatch.
    rewrite (bind_ok _ _ _ _ _ (guard_ok (repr0 a) eq_refl eq_refl)).
    rewrite entries_mkBatch, Hes. rewrite Hes in Hw. exact Hw. }
  exists (repr0 a'). split; [exact HW|]. split.
  - intros off d Hin.
    destruct (Read_holds a' off d Hv') as (a2 & -> & _); [|reflexivity].
    apply Hh. right. exact Hin.
  - intros off Hoff.
    assert (forall off1 d1, (off1, d1) ∈ es -> alast a < off1) as Hnew.
    { intros off1 d1 Hin. apply list_elem_of_lookup_1 in Hin as [j Hj].
      pose proof (contig_lookup es _ j _ Hc Hj) as E. cbn [fst] in E. lia. }
    assert (fst e0 <= alast a') as Hlast.
    { assert (aholds a' (fst e0) (snd e0)) as Hh0.
      { apply Hh. right. rewrite Hes. destruct e0. apply elem_of_cons. left. reflexivity. }
      apply (aholds_in_range a' _ _ Hv' Hh0). }
    assert (entries (mkBatch es) !! 0%nat
            = Some (MkEntry (fst e0) (length (snd e0)))) as H0
      by (rewrite entries_mkBatch, Hes; reflexivity).
    destruct (writeBatch_post (mkBatch es) _ (repr0 a) H0 tt (repr0 a') Hw)
      as (_ & (s & Hs & Hfirst) & _).
    change (segments (lg (repr0 a))) with (csegs a) in Hs.
    rewrite csegs_last in Hs. inversion Hs; subst s. clear Hs.
    change (firstOffset (lg (repr0 a'))) with (afirst a') in Hfirst.
    change (firstOffset (lg (repr0 a))) with (afirst a) in Hfirst.
    cbn [be_offset offset ebuf ctail] in Hfirst.
    destruct (Z.lt_ge_cases off (afirst a)) as [Hlt|Hge].
    + rewrite (Read_repr_out a off) by auto.
      rewrite (Read_repr_out a' off); [reflexivity|]. left. rewrite Hfirst.
      match goal with |- _ < (if ?c then _ else _) => destruct c end; lia.
    + assert (afirst a' = afirst a) as Hf.
      { rewrite Hfirst.
        destruct (Z.eqb_spec (a_toff a) 0) as [E0|E0];
          [|rewrite andb_false_r; reflexivity].
        destruct (Z.eqb_spec (len (encode_all (a_tds a))) 0) as [E1|E1];
          [|rewrite andb_false_r; reflexivity].
        apply len_encode_all_0 in E1. exfalso.
        pose proof (v_first a Hv). unfold alast in Hoff. rewrite E0, E1 in Hoff.
        unfold len in Hoff. cbn in Hoff. lia. }
      apply Read_outcome_agree; auto.
      * rewrite Hf. lia.
      * intros d. rewrite Hh. split; [|tauto].
        intros [H1|H2]; [exact H1|]. apply Hnew in H2. lia.
Qed.

Lemma append_keeps_reads_witness :
  exists w', WriteBatch (mkBatch [(5, bytes_of "c")]) trunc_world = Ok tt w' /\
    (forall off d, (off, d) ∈ [(5, bytes_of "c")] ->
       outcome_of (Read off w') = Returned d) /\
    (forall off, off <= lastOffset (lg trunc_world) ->
       outcome_of (Read off w') = outcome_of (Read off trunc_world)).
Proof.
  apply (append_keeps_reads DefaultOptions trunc_world [(5, bytes_of "c")]).
  - apply (reached_TruncateFront DefaultOptions two_entry_world trunc_world 1).
    + exact reached_two_entry.
    + vm_compute. reflexivity.
  - unfold batch_contig. cbn [fst snd].
    split; [vm_compute; discriminate|]. split; [simpl; auto|].
    split; [vm_compute; discriminate|]. repeat constructor.
Defined.

(** ** The bounds *)




(** * A crash at the commit point of a truncation *)

(** ** [truncateFront] is its commit followed by its clean-up *)

Lemma bind_cong_l {A B} (m : M A) (k k' : A -> M B) w :
  (forall a w1, m w = Ok a w1 -> k a w1 = k' a w1) -> bind m k w = bind m k' w.
Proof.
  intros H. unfold bind. destruct (m w) as [a w1|e w1|w1]; auto.
Qed.

Ltac split_step := rewrite bind_assoc; apply bind_cong_l; intros ? ? _.

Lemma with_recover_cong {A} (m m' : M A) w :
  m w = m' w -> with_recover m w = with_recover m' w.
Proof. unfold with_recover. intros ->. reflexivity. Qed.

Lemma truncateFront_split index w :
  truncateFront index w
  = (let* r := truncateFront_commit index in
     match r with
     | None => ret tt
     | Some x => truncateFront_cleanup index x
     end) w.
Proof.
  unfold truncateFront, truncateFront_commit. symmetry.
  split_step.
  destruct ((index <? firstOffset a) || (lastOffset a <? index));
    [rewrite bind_fail; reflexivity|].
  destruct (index =? firstOffset a); [rewrite bind_ret; reflexivity|].
  do 7 split_step.
  rewrite bind_assoc. apply bind_cong_l. intros ? ? _.
  rewrite bind_ret. unfold truncateFront_cleanup.
  apply with_recover_cong.
  unfold truncateFront_removals, truncateFront_finish.
  rewrite bind_assoc. reflexivity.
Qed.

(** ** Names of marker files *)

Lemma ascii_compare_refl c : Ascii.compare c c = Eq.
Proof. unfold Ascii.compare. apply N.compare_refl. Qed.

Lemma append_cons c a s : String.append (String c a) s = String c (String.append a s).
Proof. reflexivity. Qed.

Lemma append_nil s : String.append EmptyString s = s.
Proof. reflexivity. Qed.

(** A string is not above what it is a prefix of. *)
Lemma compare_app_prefix a s : String.compare a (str_app a s) <> Gt.
Proof.
  unfold str_app. induction a as [|c a IH].
  - rewrite append_nil. destruct s; discriminate.
  - rewrite append_cons. cbn [String.compare].
    rewrite ascii_compare_refl. exact IH.
Qed.

(** What follows two different strings of the same length does not change
    their order. *)
Lemma compare_app_l a : forall b s,
  String.length a = String.length b -> String.compare a b <> Eq ->
  String.compare (str_app a s) b = String.compare a b.
Proof.
  unfold str_app. induction a as [|c a IH]; intros [|d b] s Hl Hne;
    cbn [String.length] in Hl; try discriminate.
  - cbn in Hne. congruence.
  - rewrite append_cons. cbn [String.compare] in *.
    destruct (Ascii.compare c d); [|reflexivity..].
    apply IH; [lia|exact Hne].
Qed.

Lemma substring_app_l a s :
  String.substring 0 (String.length a) (str_app a s) = a.
Proof.
  unfold str_app. induction a as [|c a IH].
  - rewrite append_nil. destruct s; reflexivity.
  - rewrite append_cons. cbn [String.length String.substring].
    rewrite IH. reflexivity.
Qed.

Lemma substring_app_r a s :
  String.substring (String.length a) (String.length s) (str_app a s) = s.
Proof.
  unfold str_app. induction a as [|c a IH].
  - rewrite append_nil. apply substring_all.
  - rewrite append_cons. cbn [String.length String.substring]. exact IH.
Qed.

Lemma marker_after x i suffix :
  0 <= x <= max_int64 -> 0 <= i <= max_int64 -> x <= i ->
  name_le (segmentName x) (str_app (segmentName i) suffix).
Proof.
  intros Hx Hi Hle. apply name_le_compare.
  apply (string_compare_le_trans _ (segmentName i)).
  - apply name_le_compare. apply segmentName_order; assumption.
  - apply compare_app_prefix.
Qed.

Lemma marker_before y i suffix :
  0 <= y <= max_int64 -> 0 <= i <= max_int64 -> i < y ->
  name_le (str_app (segmentName i) suffix) (segmentName y).
Proof.
  intros Hy Hi Hlt. apply name_le_compare.
  assert (String.compare (segmentName i) (segmentName y) = Lt) as E.
  { rewrite segmentName_compare by assumption. apply Z.compare_lt_iff. exact Hlt. }
  rewrite compare_app_l; [congruence| |congruence].
  rewrite !segmentName_length. reflexivity.
Qed.

(** ** The listing of a directory with one more file *)

Lemma names_repr a m lst :
  valid a ->
  merge_sort name_le (map fst (map_to_list (disk (repr a m lst))))
  = segmentName <$> aoffsets a.
Proof.
  intros Hv. apply (StronglySorted_unique name_le).
  - apply StronglySorted_merge_sort; apply _.
  - apply names_sorted. exact Hv.
  - rewrite merge_sort_Permutation. unfold repr. cbn [disk].
    rewrite <- afiles_names with (m := m).
    apply fmap_Permutation. apply map_to_list_to_map.
    apply valid_names_NoDup. exact Hv.
Qed.

Lemma listing_insert (fs : FS) n c l1 l2 :
  fs !! n = None ->
  merge_sort name_le (map fst (map_to_list fs)) = l1 ++ l2 ->
  Forall (fun x => name_le x n) l1 -> Forall (fun y => name_le n y) l2 ->
  listing (<[n := c]> fs) = map (fun n => MkDirent n false) (l1 ++ n :: l2).
Proof.
  intros Hn Hl H1 H2. unfold listing. f_equal.
  assert (StronglySorted name_le (l1 ++ l2)) as Hs.
  { rewrite <- Hl. apply StronglySorted_merge_sort; apply _. }
  apply StronglySorted_app in Hs as (Hcross & Hs1 & Hs2).
  apply (StronglySorted_unique name_le).
  - apply StronglySorted_merge_sort; apply _.
  - apply StronglySorted_app_2.
    + intros x1 x2 Hx1 Hx2. apply elem_of_cons in Hx2 as [->|Hx2].
      * rewrite Forall_forall in H1. apply H1. exact Hx1.
      * apply Hcross; assumption.
    + exact Hs1.
    + constructor; assumption.
  - rewrite merge_sort_Permutation.
    rewrite (map_to_list_insert fs n c Hn). cbn [map fst].
    rewrite <- Permutation_middle. constructor.
    rewrite <- Hl. symmetry. apply merge_sort_Permutation.
Qed.

(** ** The scan of a listing with a [START] marker *)

Lemma scan_app l1 : forall st l2,
  scan st (l1 ++ l2)
  = match scan st l1 with
    | inl e => inl e
    | inr st' => scan st' l2
    end.
Proof.
  induction l1 as [|fi l1 IH]; intros st l2; [reflexivity|].
  cbn [app scan]. destruct (scan_entry st fi); [reflexivity|]. apply IH.
Qed.

Lemma has_marker_app x suffix :
  has_marker (str_app (segmentName x) suffix) suffix = true.
Proof.
  unfold has_marker, HasSuffix.
  rewrite str_app_length, segmentName_length. unfold segmentFilenameLength.
  rewrite Nat.eqb_refl. cbn [andb].
  assert ((String.length suffix <=? 20 + String.length suffix)%nat = true) as ->
    by (apply Nat.leb_le; lia).
  cbn [andb].
  replace (20 + String.length suffix - String.length suffix)%nat
    with (String.length (segmentName x)) by (rewrite segmentName_length; lia).
  rewrite substring_app_r. apply String.eqb_refl.
Qed.

Lemma prefix_marker x suffix :
  str_prefix segmentFilenameLength (str_app (segmentName x) suffix)
  = segmentName x.
Proof.
  unfold str_prefix, segmentFilenameLength.
  rewrite <- (segmentName_length x) at 1. apply substring_app_l.
Qed.

Lemma strip_marker x suffix :
  strip_suffix (str_app (segmentName x) suffix) suffix = segmentName x.
Proof.
  unfold strip_suffix, str_prefix. rewrite str_app_length.
  replace (String.length (segmentName x) + String.length suffix
           - String.length suffix)%nat
    with (String.length (segmentName x)) by lia.
  apply substring_app_l.
Qed.

Lemma scan_entry_start st i :
  0 <= i <= max_int64 ->
  scan_entry st (MkDirent (str_app (segmentName i) startSuffix) false)
  = inr (MkScan
           (sc_segments st
            ++ [MkSegment (str_app (segmentName i) startSuffix) i [] []])
           (len (sc_segments st)) (endIdx st) (truncateIdx st)).
Proof.
  intros Hi. unfold scan_entry. cbn [d_name d_isDir orb].
  rewrite str_app_length, segmentName_length. unfold segmentFilenameLength.
  change (20 + String.length startSuffix <? 20)%nat with false. cbv iota.
  change 20%nat with segmentFilenameLength at 1.
  rewrite prefix_marker, (ParseInt_segmentName i Hi).
  destruct (Z.eqb_spec i (-1)); [lia|].
  rewrite has_marker_app. rewrite orb_true_r. cbn [orb]. reflexivity.
Qed.

Lemma scan_with_start xs1 i xs2 :
  Forall (fun x => 0 <= x <= max_int64) xs1 -> 0 <= i <= max_int64 ->
  Forall (fun x => 0 <= x <= max_int64) xs2 ->
  scan scan_init
    (map (fun n => MkDirent n false)
       ((segmentName <$> xs1)
        ++ str_app (segmentName i) startSuffix :: (segmentName <$> xs2)))
  = inr (MkScan
           (map dseg xs1
            ++ MkSegment (str_app (segmentName i) startSuffix) i [] []
               :: map dseg xs2)
           (len xs1) (-1) (-1)).
Proof.
  intros H1 Hi H2. rewrite map_app, scan_app.
  rewrite (scan_segments xs1 scan_init H1).
  cbn [map scan]. rewrite (scan_entry_start _ i Hi).
  rewrite (scan_segments xs2 _ H2).
  cbn [sc_segments startIdx endIdx truncateIdx scan_init app].
  rewrite <- app_assoc. cbn [app]. unfold len. rewrite length_map.
  reflexivity.
Qed.

(** ** Removing files that are there *)

Lemma remove_range_ok n : forall lo w,
  0 <= lo ->
  (Z.to_nat lo + n <= length (segments (lg w)))%nat ->
  NoDup (map path (take n (drop (Z.to_nat lo) (segments (lg w))))) ->
  (forall s, s ∈ take n (drop (Z.to_nat lo) (segments (lg w))) ->
             is_Some (disk w !! path s)) ->
  remove_segments (map (fun k => lo + Z.of_nat k) (seq 0 n)) w
  = Ok tt (MkWorld (lg w)
             (delete_paths (take n (drop (Z.to_nat lo) (segments (lg w))))
                (disk w))).
Proof.
  induction n as [|n IH]; intros lo w Hlo Hlen Hnd Hex.
  - cbn. rewrite world_eta. reflexivity.
  - destruct (lookup_lt_is_Some_2 (segments (lg w)) (Z.to_nat lo)) as [s Hs];
      [lia|].
    rewrite (drop_S _ _ _ Hs) in *. cbn [take map] in *.
    apply NoDup_cons in Hnd as [Hnin Hnd].
    cbn [seq map]. unfold remove_segments. cbn [forM_].
    rewrite bind_assoc, bind_get_log. change (Z.of_nat 0) with 0.
    rewrite Z.add_0_r, bind_assoc.
    rewrite (bind_ok _ _ _ _ _ (index_of_Z _ _ _ _ Hlo Hs)).
    destruct (Hex s ltac:(apply elem_of_cons; left; reflexivity)) as [c Hc].
    unfold fs_Remove at 1. rewrite bind_assoc, bind_get_disk, Hc.
    rewrite bind_modify_disk.
    rewrite <- seq_shift, map_map.
    assert (map (fun k => lo + Z.of_nat (S k)) (seq 0 n)
            = map (fun k => (lo + 1) + Z.of_nat k) (seq 0 n)) as ->.
    { apply map_ext. intros k. lia. }
    fold (remove_segments (map (fun k => lo + 1 + Z.of_nat k) (seq 0 n))).
    rewrite IH; cbn [lg disk].
    + replace (Z.to_nat (lo + 1)) with (S (Z.to_nat lo)) by lia.
      rewrite delete_paths_cons. reflexivity.
    + lia.
    + lia.
    + replace (Z.to_nat (lo + 1)) with (S (Z.to_nat lo)) by lia. exact Hnd.
    + replace (Z.to_nat (lo + 1)) with (S (Z.to_nat lo)) by lia.
      intros t Ht. destruct (Hex t ltac:(apply elem_of_cons; right; exact Ht))
        as [ct Hct].
      exists ct. rewrite lookup_delete_ne; [exact Hct|].
      intros E. apply Hnin. rewrite E. apply list_elem_of_fmap. eauto.
Qed.

(** ** Logs described by what their segments hold *)

Lemma map_pair_eta {A B} (l : list (A * B)) : map (fun p => (fst p, snd p)) l = l.
Proof. induction l as [|[x y] l IH]; cbn; [|rewrite IH]; reflexivity. Qed.

Lemma content_a_of o c : c <> [] -> content (a_of o c) = c.
Proof.
  intros Hc. destruct (exists_last Hc) as (c0 & [x ds] & ->).
  unfold content, a_of. cbn [a_pre a_toff a_tds].
  rewrite removelast_last, last_snoc, map_map. cbn [a_off a_ds fst snd].
  rewrite map_pair_eta. reflexivity.
Qed.

Lemma content_Forall a :
  valid a ->
  Forall (fun p => 0 <= fst p /\ fst p + len (snd p) <= max_int64 /\
                   Forall small (snd p)) (content a).
Proof.
  intros Hv. apply Forall_forall. intros [x ds] Hin. cbn [fst snd].
  pose proof (v_last a Hv) as Hl.
  assert ((x, length ds) ∈ aspans a) as Hsp.
  { rewrite aspans_content. apply list_elem_of_fmap. exists (x, ds). auto. }
  pose proof (span_in_valid a _ Hv Hsp) as [Hb _]. cbn [fst snd] in Hb.
  apply content_elem in Hin as [(i & s & Hs & <- & <-)|[-> ->]].
  - split; [pose proof (valid_off_range a i s Hv Hs); lia|].
    split; [unfold len in *; lia|].
    pose proof (v_small_pre a Hv) as Hsm. rewrite Forall_forall in Hsm.
    apply Hsm. eapply list_elem_of_lookup_2; eauto.
  - split; [apply (valid_toff_range a Hv)|].
    split; [exact Hl|]. apply (v_small_tl a Hv).
Qed.

Lemma valid_a_of o c :
  c <> [] -> StronglySorted span_lt (spans c) ->
  Forall (fun p => 0 <= fst p /\ fst p + len (snd p) <= max_int64 /\
                   Forall small (snd p)) c ->
  0 < SegmentSize o -> 0 < SegmentCacheSize o ->
  valid (a_of o c).
Proof.
  intros Hc Hs Hall Hsz Hcs.
  pose proof (content_a_of o c Hc) as Hcont.
  rewrite Forall_forall in Hall.
  constructor.
  - rewrite <- spans_content, Hcont. exact Hs.
  - destruct (afirst_content (a_of o c)) as [ds Hd]. rewrite Hcont in Hd.
    apply list_elem_of_lookup_2 in Hd. apply (Hall _ Hd).
  - pose proof (content_lookup_tail (a_of o c)) as Ht. rewrite Hcont in Ht.
    apply list_elem_of_lookup_2 in Ht. apply (Hall _ Ht).
  - apply Forall_forall. intros s Hin.
    assert ((a_off s, a_ds s) ∈ content (a_of o c)) as Hin2.
    { unfold content. apply elem_of_app. left.
      apply list_elem_of_fmap. exists s. auto. }
    rewrite Hcont in Hin2. apply (Hall _ Hin2).
  - pose proof (content_lookup_tail (a_of o c)) as Ht. rewrite Hcont in Ht.
    apply list_elem_of_lookup_2 in Ht. apply (Hall _ Ht).
  - constructor.
  - intros E. discriminate.
  - exact Hsz.
  - exact Hcs.
Qed.

Lemma aoffsets_content a : aoffsets a = map fst (content a).
Proof. unfold aoffsets, content. rewrite map_app, map_map. reflexivity. Qed.

Lemma disk_content a :
  disk (repr0 a) = list_to_map (files (content a)).
Proof. unfold repr0, repr, files. cbn [disk]. rewrite afiles_content. reflexivity. Qed.

(** The state after the front of [c1 ++ (x, ds) :: c2] is cut at offset
    [x + k]. *)
Lemma valid_front a c1 x ds c2 (k : nat) :
  valid a -> content a = c1 ++ (x, ds) :: c2 -> (k < length ds)%nat ->
  valid (a_of (a_opts a) ((x + Z.of_nat k, drop k ds) :: c2)) /\
  front_of (x + Z.of_nat k) a (a_of (a_opts a) ((x + Z.of_nat k, drop k ds) :: c2)).
Proof.
  intros Hv Hc Hk.
  pose proof (content_Forall a Hv) as Hall. rewrite Hc in Hall.
  apply Forall_app in Hall as [_ Hall]. apply Forall_cons in Hall as [Hx Hall].
  cbn [fst snd] in Hx. destruct Hx as (Hx0 & Hxl & Hxs).
  pose proof (v_chain a Hv) as Hch. rewrite <- spans_content, Hc in Hch.
  assert (StronglySorted span_lt (spans ((x, ds) :: c2))) as Hch2.
  { unfold spans in *. rewrite map_app in Hch.
    apply StronglySorted_app_1_r in Hch. exact Hch. }
  assert ((x + Z.of_nat k, drop k ds) :: c2 <> []) as Hne by discriminate.
  pose proof (content_a_of (a_opts a) _ Hne) as Hcont.
  assert (valid (a_of (a_opts a) ((x + Z.of_nat k, drop k ds) :: c2))) as Hv'.
  { apply valid_a_of.
    - exact Hne.
    - unfold spans in *. cbn [map fst snd] in *.
      apply StronglySorted_inv in Hch2 as [Hs2 Hhd]. constructor; [exact Hs2|].
      eapply Forall_impl; [exact Hhd|]. intros y Hy.
      unfold span_lt in *. cbn [fst snd] in *.
      rewrite length_drop. lia.
    - constructor; [|exact Hall]. cbn [fst snd].
      split; [lia|]. split; [unfold len in *; rewrite length_drop; lia|].
      apply Forall_drop. exact Hxs.
    - apply (v_size a Hv).
    - apply (v_csize a Hv). }
  split; [exact Hv'|].
  split; [|split].
  - destruct (afirst_content (a_of (a_opts a) ((x + Z.of_nat k, drop k ds) :: c2)))
      as [ds0 Hd].
    rewrite Hcont in Hd. cbn in Hd. inversion Hd. reflexivity.
  - pose proof (content_lookup_tail a) as Ht. rewrite Hc in Ht.
    pose proof (content_lookup_tail
                  (a_of (a_opts a) ((x + Z.of_nat k, drop k ds) :: c2))) as Ht'.
    rewrite Hcont in Ht'.
    unfold alast.
    destruct c2 as [|p2 c2].
    + (* the cut segment is the tail *)
      assert (length (a_pre a) = length c1) as Hl1.
      { apply (f_equal length) in Hc. unfold content in Hc.
        rewrite !length_app, length_map in Hc. cbn in Hc. lia. }
      rewrite Hl1, lookup_app_r, Nat.sub_diag in Ht by lia.
      cbn in Ht. inversion Ht as [[E1 E2]].
      unfold a_of. cbn [a_toff a_tds last removelast]. cbn [fst snd].
      unfold len. rewrite length_drop, <- E2. lia.
    + assert (last (content a) = Some (a_toff a, a_tds a)) as La
        by (unfold content; apply last_snoc).
      rewrite Hc, last_app in La. cbn [last] in La.
      unfold a_of. cbn [a_toff a_tds]. cbn [last].
      destruct (last (p2 :: c2)) as [q|] eqn:Eq.
      * inversion La; subst q. reflexivity.
      * apply last_None in Eq. discriminate.
  - intros off d. rewrite !aholds_holds, Hcont, Hc.
    apply holds_front.
    + rewrite <- Hc, spans_content. apply (v_chain a Hv).
    + exact Hk.
Qed.

(** ** [load] on a directory with a [START] marker *)

(** On a directory of segment files only, [load] is the scan followed by
    its last part. *)
Lemma open_segments_only o a :
  valid a ->
  open o (disk (repr0 a))
  = load_finish
      (MkWorld (set_segments (map dseg (aoffsets a)) (new_log o))
         (disk (repr0 a))).
Proof.
  intros Hv. unfold open, load.
  rewrite (bind_ok _ _ _ _ _ (fs_ReadDir_eq _)). cbn [disk].
  fold (disk (repr0 a)). unfold repr0 at 1.
  rewrite (listing_repr a _ _ Hv).
  rewrite (scan_segments _ scan_init (aoffsets_Forall_range a Hv)).
  cbn [sc_segments scan_init app startIdx endIdx truncateIdx].
  rewrite bind_modify_log.
  destruct (head_offsets a) as [l0 Hl0].
  assert ((len (map dseg (aoffsets a)) =? 0) = false) as ->.
  { unfold len. rewrite length_map, Hl0. reflexivity. }
  change (markers_clash (MkScan (map dseg (aoffsets a)) (-1) (-1) (-1))) with false.
  cbv iota. change (negb (-1 =? -1)) with false.
  rewrite !when_false, !bind_ret. reflexivity.
Qed.

Lemma load_start_eq L fs segs1 i segs2 buf :
  segments L
  = segs1 ++ MkSegment (str_app (segmentName i) startSuffix) i [] [] :: segs2 ->
  NoDup (map path segs1) ->
  (forall s, s ∈ segs1 -> is_Some (fs !! path s)) ->
  str_app (segmentName i) startSuffix ∉ map path segs1 ->
  fs !! str_app (segmentName i) startSuffix = Some buf ->
  load_start (len segs1) (MkWorld L fs)
  = Ok tt (MkWorld
             (set_segments (MkSegment (segmentName i) i [] [] :: segs2) L)
             (<[segmentName i := buf]>
                (delete (str_app (segmentName i) startSuffix)
                   (delete_paths segs1 fs)))).
Proof.
  intros HL Hnd Hex Hnin Hbuf. unfold load_start, zrange.
  replace (Z.to_nat (len segs1 - 0)) with (length segs1) by (unfold len; lia).
  assert (take (length segs1) (drop (Z.to_nat 0) (segments L)) = segs1) as Htk.
  { cbn [Z.to_nat drop]. rewrite HL. apply take_app_length. }
  rewrite (bind_ok _ _ _ _ _ (remove_range_ok (length segs1) 0 (MkWorld L fs)
             ltac:(lia)
             ltac:(cbn [lg]; rewrite HL, length_app; cbn; lia)
             ltac:(cbn [lg]; rewrite Htk; exact Hnd)
             ltac:(cbn [lg disk]; rewrite Htk; exact Hex))).
  cbn [lg disk]. rewrite Htk. rewrite bind_get_log. cbn [lg].
  assert (0 <= len segs1 <= len (segments L)) as Hb1.
  { unfold len. rewrite HL, length_app. lia. }
  rewrite (bind_ok _ _ _ _ _ (slice_ok (segments L) (len segs1) (len (segments L))
                                _ Hb1 ltac:(lia))).
  assert (take (Z.to_nat (len (segments L) - len segs1))
            (drop (Z.to_nat (len segs1)) (segments L))
          = MkSegment (str_app (segmentName i) startSuffix) i [] [] :: segs2) as ->.
  { unfold len. rewrite Nat2Z.id, HL, drop_app_length.
    apply take_ge. rewrite length_app. lia. }
  rewrite bind_modify_log. cbn [lg disk].
  rewrite (bind_ok _ _ _ _ _
             (index_of_Some
                (MkSegment (str_app (segmentName i) startSuffix) i [] [] :: segs2)
                0%nat _ _ eq_refl)).
  cbn [path]. rewrite strip_marker.
  assert (delete_paths segs1 fs !! str_app (segmentName i) startSuffix = Some buf)
    as Hb2 by (rewrite delete_paths_lookup_ne; assumption).
  match goal with
  | |- bind (fs_Rename ?o ?n) _ ?w = _ =>
      rewrite (bind_ok _ _ _ _ _ (fs_Rename_eq o n buf w Hb2))
  end.
  cbn [lg disk].
  match goal with
  | |- set_seg_at _ ?f ?w = _ =>
      pose proof (set_seg_at_eq 0%nat f
                    (MkSegment (str_app (segmentName i) startSuffix) i [] []) w
                    eq_refl) as Hset;
      change (Z.of_nat 0) with 0 in Hset; rewrite Hset; clear Hset
  end.
  cbn [lg disk segments set_segments alter list_alter set_path path offset ebuf epos].
  reflexivity.
Qed.

Lemma paths_dseg_files c : map path (map dseg (map fst c)) = (files c).*1.
Proof.
  induction c as [|[y dy] c IH]; [reflexivity|].
  cbn [map fst snd files fmap list_fmap path dseg]. f_equal. exact IH.
Qed.

Lemma offset_has_file a m lst y :
  valid a -> y ∈ aoffsets a ->
  is_Some (disk (repr a m lst) !! segmentName y).
Proof.
  intros Hv Hy. unfold repr. cbn [disk].
  assert (segmentName y ∈ (afiles a m).*1) as Hin.
  { rewrite afiles_names. apply list_elem_of_fmap. eauto. }
  apply list_elem_of_fmap in Hin as ([n c] & E & Hin). cbn in E. subst n.
  exists c. apply elem_of_list_to_map_1; [|exact Hin].
  apply valid_names_NoDup. exact Hv.
Qed.

Lemma chain_before c1 x ds c2 y :
  StronglySorted span_lt (spans (c1 ++ (x, ds) :: c2)) ->
  y ∈ map fst c1 -> y < x.
Proof.
  intros Hs Hy. apply list_elem_of_fmap in Hy as ([y' dy] & -> & Hin).
  unfold spans in Hs. rewrite map_app in Hs.
  apply StronglySorted_app in Hs as (Hcross & _ & _).
  assert (span_lt (y', length dy) (x, length ds)) as [_ H].
  { apply Hcross.
    - apply list_elem_of_fmap. exists (y', dy). auto.
    - cbn [map fst snd]. apply elem_of_cons. left. reflexivity. }
  exact H.
Qed.

Lemma chain_after c1 x ds c2 y :
  StronglySorted span_lt (spans (c1 ++ (x, ds) :: c2)) ->
  y ∈ map fst c2 -> x + len ds <= y.
Proof.
  intros Hs Hy. apply list_elem_of_fmap in Hy as ([y' dy] & -> & Hin).
  unfold spans in Hs. rewrite map_app in Hs.
  apply StronglySorted_app in Hs as (_ & _ & Hs2).
  cbn [map fst snd] in Hs2. apply StronglySorted_inv in Hs2 as [_ Hall].
  rewrite Forall_forall in Hall.
  assert (span_lt (x, length ds) (y', length dy)) as [H _].
  { apply Hall. apply list_elem_of_fmap. exists (y', dy). auto. }
  exact H.
Qed.

(** Opening a directory that holds the segment files of a well-formed log
    and the [START] marker of a front truncation at offset [x + k], where
    [x] is the base offset of a segment with more than [k] entries: the
    files up to that segment are removed, the marker takes the name of a
    segment at [x + k], and the log holds what the old one held from
    [x + k] on. *)
Lemma open_with_start o a c1 x ds c2 (k : nat) :
  valid a -> a_opts a = normalize o ->
  content a = c1 ++ (x, ds) :: c2 -> (k < length ds)%nat ->
  open o (<[str_app (segmentName (x + Z.of_nat k)) startSuffix
            := encode_all (drop k ds)]> (disk (repr0 a)))
  = Ok tt (repr0 (a_reopen
                    (a_of (a_opts a) ((x + Z.of_nat k, drop k ds) :: c2)))).
Proof.
  intros Hv Hop Hc Hk.
  destruct (valid_front a c1 x ds c2 k Hv Hc Hk) as [Hv' _].
  set (i := x + Z.of_nat k) in *.
  set (buf := encode_all (drop k ds)) in *.
  set (A' := a_of (a_opts a) ((i, drop k ds) :: c2)) in *.
  set (sn := str_app (segmentName i) startSuffix).
  pose proof (v_chain a Hv) as Hch. rewrite <- spans_content, Hc in Hch.
  pose proof (content_Forall a Hv) as Hall. rewrite Hc in Hall.
  assert (Forall (fun y => 0 <= y <= max_int64) (map fst c1 ++ [x])) as Hr1.
  { pose proof (aoffsets_Forall_range a Hv) as Hr.
    rewrite aoffsets_content, Hc, map_app in Hr. cbn [map fst] in Hr.
    apply Forall_app in Hr as [Hra Hrb]. apply Forall_cons in Hrb as [Hrx _].
    apply Forall_app. split; [exact Hra|]. constructor; [exact Hrx|constructor]. }
  assert (Forall (fun y => 0 <= y <= max_int64) (map fst c2)) as Hr2.
  { pose proof (aoffsets_Forall_range a Hv) as Hr.
    rewrite aoffsets_content, Hc, map_app in Hr. cbn [map fst] in Hr.
    apply Forall_app in Hr as [_ Hrb]. apply Forall_cons in Hrb as [_ Hrb].
    exact Hrb. }
  assert (0 <= i <= max_int64) as Hi.
  { apply Forall_app in Hall as [_ Hall]. apply Forall_cons in Hall as [Hx _].
    cbn [fst snd] in Hx. unfold i, len in *. lia. }
  assert (aoffsets a = (map fst c1 ++ [x]) ++ map fst c2) as Hoff.
  { rewrite aoffsets_content, Hc, map_app. cbn [map fst].
    rewrite <- app_assoc. reflexivity. }
  assert (disk (repr0 a) !! sn = None) as Hno
    by (apply disk_no_marker; cbn; lia).
  unfold open, load.
  rewrite (bind_ok _ _ _ _ _ (fs_ReadDir_eq _)). cbn [disk].
  rewrite (listing_insert (disk (repr0 a)) sn buf
             (segmentName <$> (map fst c1 ++ [x])) (segmentName <$> map fst c2)).
  2:{ exact Hno. }
  2:{ unfold repr0. rewrite (names_repr a _ _ Hv), Hoff, fmap_app. reflexivity. }
  2:{ apply Forall_fmap, Forall_forall. intros y Hy. cbn.
      rewrite Forall_forall in Hr1. apply marker_after; auto.
      apply elem_of_app in Hy as [Hy|Hy].
      - pose proof (chain_before _ _ _ _ _ Hch Hy). unfold i. lia.
      - apply list_elem_of_singleton in Hy. unfold i. lia. }
  2:{ apply Forall_fmap, Forall_forall. intros y Hy. cbn.
      rewrite Forall_forall in Hr2. apply marker_before; auto.
      pose proof (chain_after _ _ _ _ _ Hch Hy). unfold i, len in *. lia. }
  unfold sn at 1. rewrite (scan_with_start _ i _ Hr1 Hi Hr2). fold sn.
  rewrite bind_modify_log. cbn [sc_segments lg disk].
  set (segs1 := map dseg (map fst c1 ++ [x])) in *.
  set (segs2 := map dseg (map fst c2)) in *.
  assert (len (map fst c1 ++ [x]) = len segs1) as Hl1
    by (unfold len, segs1; rewrite length_map; reflexivity).
  rewrite Hl1.
  assert ((len (segs1 ++ MkSegment sn i [] [] :: segs2) =? 0) = false) as ->.
  { apply Z.eqb_neq. unfold len. rewrite length_app. cbn. lia. }
  assert ((len segs1 =? -1) = false) as Hs1 by (apply Z.eqb_neq; unfold len; lia).
  unfold markers_clash. cbn [startIdx endIdx truncateIdx].
  rewrite Hs1. change (-1 =? -1) with true. cbn [negb andb orb].
  rewrite when_true, bind_assoc.
  assert (map path segs1 = segmentName <$> (map fst c1 ++ [x])) as Hp1.
  { unfold segs1. rewrite map_map. reflexivity. }
  assert (NoDup (map path segs1)) as Hnd.
  { rewrite Hp1. pose proof (valid_names_NoDup a 0 Hv) as Hn.
    rewrite afiles_names, Hoff, fmap_app in Hn.
    apply NoDup_app in Hn as (Hn & _ & _). exact Hn. }
  assert (forall s, s ∈ segs1 ->
            is_Some ((<[sn := buf]> (disk (repr0 a))) !! path s)) as Hex.
  { intros s Hs. assert (path s ∈ map path segs1) as Hps
      by (apply list_elem_of_fmap; eauto).
    rewrite Hp1 in Hps. apply list_elem_of_fmap in Hps as (y & Ey & Hy).
    rewrite Ey. rewrite lookup_insert_ne
      by (unfold sn; apply marker_name_not_segment; cbn; lia).
    apply offset_has_file; [exact Hv|]. rewrite Hoff.
    apply elem_of_app. left. exact Hy. }
  assert (sn ∉ map path segs1) as Hnin.
  { rewrite Hp1. intros Hin. apply list_elem_of_fmap in Hin as (y & Ey & _).
    revert Ey. unfold sn. apply marker_name_not_segment. cbn. lia. }
  assert ((<[sn := buf]> (disk (repr0 a))) !! sn = Some buf) as Hbuf
    by apply lookup_insert_eq.
  match goal with
  | |- bind (load_start _) _ (MkWorld ?L ?fs) = _ =>
      rewrite (bind_ok _ _ _ _ _
                 (load_start_eq L fs segs1 i segs2 buf eq_refl Hnd Hex Hnin Hbuf))
  end.
  rewrite bind_ret, when_false, bind_ret, when_false, bind_ret.
  match goal with
  | |- _ ?w = _ => change (load_finish w = Ok tt (repr0 (a_reopen A')))
  end.
  assert (aoffsets A' = i :: map fst c2) as HoA.
  { unfold A'. rewrite aoffsets_content, content_a_of by discriminate.
    reflexivity. }
  assert (<[segmentName i := buf]> (delete sn (delete_paths segs1
             (<[sn := buf]> (disk (repr0 a)))))
          = disk (repr0 A')) as HD.
  { rewrite delete_paths_insert_ne by exact Hnin.
    rewrite delete_insert_eq.
    rewrite (disk_content A'). unfold A' at 1.
    rewrite content_a_of by discriminate.
    unfold files. cbn [map fst snd]. rewrite list_to_map_cons. fold buf.
    f_equal.
    assert (delete_paths segs1 (disk (repr0 a))
            = list_to_map (files c2)) as Hdp.
    { rewrite (disk_content a), Hc.
      replace (c1 ++ (x, ds) :: c2) with ((c1 ++ [(x, ds)]) ++ c2)
        by (rewrite <- app_assoc; reflexivity).
      unfold files at 1. rewrite map_app. fold (files (c1 ++ [(x, ds)])).
      fold (files c2).
      apply delete_paths_list_to_map.
      - unfold segs1. rewrite <- (paths_dseg_files (c1 ++ [(x, ds)])).
        rewrite (map_app fst c1). reflexivity.
      - pose proof (valid_names_NoDup a (length (a_tds a)) Hv) as Hn.
        rewrite afiles_content, Hc in Hn.
        replace (c1 ++ (x, ds) :: c2) with ((c1 ++ [(x, ds)]) ++ c2) in Hn
          by (rewrite <- app_assoc; reflexivity).
        rewrite map_app in Hn. exact Hn. }
    rewrite Hdp. apply delete_id.
    apply not_elem_of_list_to_map_1. unfold files. intros Hin.
    rewrite <- list_fmap_compose in Hin.
    apply list_elem_of_fmap in Hin as (y & Ey & _). cbn in Ey.
    revert Ey. unfold sn. apply marker_name_not_segment. cbn. lia. }
  fold sn. rewrite HD.
  match goal with
  | |- load_finish (MkWorld ?L _) = _ =>
      replace L with (set_segments (map dseg (aoffsets A')) (new_log o))
  end.
  - rewrite <- (open_segments_only o A' Hv').
    apply open_repr_disk; [exact Hv'|]. unfold A'. cbn [a_opts a_of]. exact Hop.
  - rewrite HoA. reflexivity.
Qed.

(** ** The directory at the commit point *)

Lemma commit_front_world a index segIdx si l buf wc :
  valid a ->
  truncateFront_commit index (repr0 a) = Ok (Some (segIdx, si, l, buf)) wc ->
  exists a1 c1 o ds c2 (k : nat),
    valid a1 /\ same_content a a1 /\ a_stale a1 = a_stale a /\
    content a = c1 ++ (o, ds) :: c2 /\ index = o + Z.of_nat k /\
    (k < length ds)%nat /\
    segIdx = Z.of_nat (sh a + length c1) /\
    segments (lg wc) = csegs a1 /\
    disk wc
    = <[str_app (segmentName index) startSuffix := encode_all (drop k ds)]>
        (disk (repr0 a)).
Proof.
  intros Hv H. unfold truncateFront_commit in H. rewrite bind_get_log in H.
  change (firstOffset (lg (repr0 a))) with (afirst a) in H.
  change (lastOffset (lg (repr0 a))) with (alast a) in H.
  destruct (Z.ltb_spec index (afirst a)) as [?|Hlo]; [discriminate|].
  destruct (Z.ltb_spec (alast a) index) as [?|Hhi]; [discriminate|].
  cbn [orb] in H.
  destruct (Z.eqb_spec index (afirst a)) as [?|Hne]; [discriminate|].
  pose proof (valid_toff_range a Hv) as Htr.
  pose proof (valid_last_range a Hv) as Hlr.
  set (g := fun s : aseg => (a_off s, a_ds s)).
  destruct (Z.le_gt_cases (a_toff a) index) as [Ht|Ht].
  - (* the tail segment *)
    unfold repr0 in H.
    rewrite (findSegment_tail a _ _ index Hv Ht) in H.
    rewrite (bind_ok _ _ _ _ _ (loadSegment_tail a _ _ index Ht)) in H.
    rewrite bind_get_log in H.
    rewrite (bind_ok _ _ _ _ _ (index_of_Some _ _ _ _ (csegs_lookup_tail a))) in H.
    cbn [epos ebuf offset ctail] in H.
    rewrite wrap64_id in H by (unfold in_int64, min_int64, max_int64 in *; lia).
    rewrite front_buf in H by lia.
    destruct (Z.ltb_spec (index - a_toff a) (len (a_tds a))) as [Hk|Hk];
      [|discriminate].
    rewrite temp_rename_eq in H by (apply start_not_temp || apply disk_no_temp).
    inversion H; subst. clear H.
    exists a, (map g (a_pre a)), (a_toff a), (a_tds a), [],
      (Z.to_nat (index - a_toff a)).
    split; [exact Hv|]. split; [apply same_content_refl|].
    split; [reflexivity|]. split; [reflexivity|]. split; [lia|].
    split; [unfold len in *; lia|].
    split; [rewrite length_map; reflexivity|].
    split; reflexivity.
  - (* an earlier segment *)
    unfold repr0 in H.
    assert (afirst a <= index < a_toff a) as Hin by lia.
    destruct (loadSegment_pre a (length (a_tds a)) (alast a) index Hv Hin)
      as (i & s & a1 & Hs & Ho & Hnext & Hload & Hv1 & Hsc & Hst & Hfull & _).
    rewrite (findSegment_pre a _ _ index i s Hv Hs Ho Ht Hnext) in H.
    rewrite (bind_ok _ _ _ _ _ Hload) in H.
    rewrite bind_get_log in H.
    rewrite (bind_ok _ _ _ _ _ (index_of_Some _ _ _ _ Hfull)) in H.
    cbn [epos ebuf offset full cseg set_res a_res a_off a_ds] in H.
    pose proof (valid_off_range a i s Hv Hs) as Hor.
    rewrite wrap64_id in H by (unfold in_int64, min_int64, max_int64 in *; lia).
    rewrite front_buf in H by lia.
    destruct (Z.ltb_spec (index - a_off s) (len (a_ds s))) as [Hk|Hk];
      [|discriminate].
    rewrite temp_rename_eq in H by (apply start_not_temp || apply disk_no_temp).
    assert (disk (repr a1 (length (a_tds a)) (alast a)) = disk (repr0 a)) as Hd.
    { rewrite (repr0_same a a1 Hsc). rewrite !disk_content.
      rewrite (proj2 Hsc). reflexivity. }
    rewrite Hd in H.
    inversion H; subst. clear H.
    exists a1, (map g (take i (a_pre a))), (a_off s), (a_ds s),
      (map g (drop (S i) (a_pre a)) ++ [(a_toff a, a_tds a)]),
      (Z.to_nat (index - a_off s)).
    split; [exact Hv1|]. split; [exact Hsc|]. split; [exact Hst|].
    split; [|split; [lia|split; [unfold len in *; lia|]]].
    + unfold content. fold g. rewrite <- (take_drop_middle _ _ _ Hs) at 1.
      rewrite map_app, <- app_assoc. reflexivity.
    + split; [|split; reflexivity].
      rewrite length_map, length_take.
      apply lookup_lt_Some in Hs. f_equal. lia.
Qed.

Lemma commit_front_disk a index x wc :
  valid a ->
  truncateFront_commit index (repr0 a) = Ok (Some x) wc ->
  exists c1 o ds c2 (k : nat),
    content a = c1 ++ (o, ds) :: c2 /\ index = o + Z.of_nat k /\
    (k < length ds)%nat /\
    disk wc
    = <[str_app (segmentName index) startSuffix := encode_all (drop k ds)]>
        (disk (repr0 a)).
Proof.
  intros Hv H. destruct x as [[[segIdx si] l] buf].
  destruct (commit_front_world a index segIdx si l buf wc Hv H)
    as (a1 & c1 & o & ds & c2 & k & _ & _ & _ & Hc & Hi & Hk & _ & _ & Hd).
  exists c1, o, ds, c2, k. auto.
Qed.

(** X20: a crash right after the commit point of a front truncation.  On a
    reached log, when [truncateFront(i)] has
    renamed [TEMP] to the [START] marker and the process stops there,
    opening the directory it leaves returns normally and gives the
    truncated log: the first index is [i], the last index is the old one,
    [Read] gives at every offset from [i] on what it gave before the
    truncation, and [ErrNotFound] below [i]. *)
Theorem crash_after_front_commit o w i wc :
  reached o w ->
  (exists x, truncateFront_commit i w = Ok (Some x) wc) ->
  exists w', open o (disk wc) = Ok tt w' /\
    FirstIndex w' = Ok i w' /\
    LastIndex w' = Ok (lastOffset (lg w)) w' /\
    (forall off, i <= off ->
       outcome_of (Read off w') = outcome_of (Read off w)) /\
    (forall off, off < i -> Read off w' = Err ErrNotFound w').
Proof.
  intros Hr [x H]. destruct (reached_repr o w Hr) as (a & -> & Hv & Hop).
  destruct (commit_front_disk a i x wc Hv H)
    as (c1 & y & ds & c2 & k & Hc & -> & Hk & ->).
  destruct (valid_front a c1 y ds c2 k Hv Hc Hk) as [Hv' (Hf & Hl & Hh)].
  set (A' := a_of (a_opts a) ((y + Z.of_nat k, drop k ds) :: c2)) in *.
  pose proof (valid_reopen A' Hv') as Hvr.
  pose proof (same_content_reopen A') as Hsc.
  exists (repr0 (a_reopen A')).
  split; [apply (open_with_start o a c1 y ds c2 k Hv Hop Hc Hk)|].
  change (lastOffset (lg (repr0 a))) with (alast a).
  split; [rewrite FirstIndex_repr, (same_content_first _ _ Hsc), Hf; reflexivity|].
  split; [rewrite LastIndex_repr, (same_content_last _ _ Hsc), Hl; reflexivity|].
  split.
  - intros off Hoff. apply Read_outcome_agree; auto.
    + rewrite (same_content_first _ _ Hsc), (same_content_last _ _ Hsc), Hf, Hl.
      assert (afirst a <= y + Z.of_nat k) as Hle.
      { destruct (afirst_content a) as [d0 Hd0]. rewrite Hc in Hd0.
        destruct c1 as [|p1 c1].
        - cbn in Hd0. inversion Hd0. lia.
        - cbn in Hd0. inversion Hd0; subst p1.
          pose proof (v_chain a Hv) as Hch. rewrite <- spans_content, Hc in Hch.
          assert (afirst a ∈ map fst ((afirst a, d0) :: c1)) as Hin
            by (cbn; apply elem_of_cons; left; reflexivity).
          pose proof (chain_before _ _ _ _ _ Hch Hin). lia. }
      lia.
    + intros d. rewrite <- (same_content_aholds A' (a_reopen A') off d Hsc).
      rewrite Hh. tauto.
  - intros off Hoff. apply Read_repr_out.
    rewrite (same_content_first _ _ Hsc), Hf. lia.
Qed.

Lemma reached_late_start : reached DefaultOptions late_start_world.
Proof.
  apply (reached_Write DefaultOptions
           (world_of (Write 5 (bytes_of "a") fresh_world)) late_start_world
           6 (bytes_of "b")).
  - apply (reached_Write DefaultOptions fresh_world
             (world_of (Write 5 (bytes_of "a") fresh_world)) 5 (bytes_of "a")).
    + apply reached_open. vm_compute. reflexivity.
    + unfold batch_contig. cbn [fst snd].
      split; [vm_compute; discriminate|]. split; [simpl; auto|].
      split; [vm_compute; discriminate|]. repeat constructor.
    + vm_compute. reflexivity.
  - unfold batch_contig. cbn [fst snd].
    split; [vm_compute; discriminate|]. split; [simpl; auto|].
    split; [vm_compute; discriminate|]. repeat constructor.
  - vm_compute. reflexivity.
Qed.

Lemma crash_after_front_commit_witness :
  exists w', open DefaultOptions (disk front_commit_world) = Ok tt w' /\
    FirstIndex w' = Ok 6 w' /\
    LastIndex w' = Ok (lastOffset (lg late_start_world)) w' /\
    (forall off, 6 <= off ->
       outcome_of (Read off w') = outcome_of (Read off late_start_world)) /\
    (forall off, off < 6 -> Read off w' = Err ErrNotFound w').
Proof.
  apply (crash_after_front_commit DefaultOptions late_start_world 6
           front_commit_world).
  - exact reached_late_start.
  - eexists. vm_compute. reflexivity.
Defined.

(** * A crash at the commit point of a back truncation *)

(** ** [truncateBack] is its commit followed by its clean-up *)

Lemma truncateBack_split ecap index w :
  truncateBack ecap index w
  = (let* r := truncateBack_commit ecap index in
     match r with
     | BackAll first => truncateBackAll first
     | BackNothing => ret tt
     | BackCut segIdx si l s buf => truncateBack_cleanup index segIdx si l s buf
     end) w.
Proof.
  unfold truncateBack, truncateBack_commit. symmetry.
  split_step.
  destruct (index =? wrap64 (firstOffset a - 1)); [rewrite bind_ret; reflexivity|].
  destruct ((index <? firstOffset a) || (lastOffset a <? index));
    [rewrite bind_fail; reflexivity|].
  destruct (index =? lastOffset a); [rewrite bind_ret; reflexivity|].
  do 7 split_step.
  rewrite bind_assoc. apply bind_cong_l. intros ? ? _.
  rewrite bind_ret. unfold truncateBack_cleanup.
  apply with_recover_cong.
  unfold truncateBack_removals, truncateBack_finish.
  rewrite bind_assoc. reflexivity.
Qed.

(** ** The scan of a listing with an [END] marker *)

Lemma has_marker_length name suffix :
  String.length name <> (segmentFilenameLength + String.length suffix)%nat ->
  has_marker name suffix = false.
Proof.
  intros H. unfold has_marker.
  destruct (Nat.eqb_spec (String.length name)
              (segmentFilenameLength + String.length suffix)); [contradiction|].
  reflexivity.
Qed.

Lemma scan_entry_end st i :
  0 <= i <= max_int64 -> endIdx st = -1 ->
  scan_entry st (MkDirent (str_app (segmentName i) endSuffix) false)
  = inr (MkScan
           (sc_segments st
            ++ [MkSegment (str_app (segmentName i) endSuffix) i [] []])
           (startIdx st) (len (sc_segments st)) (truncateIdx st)).
Proof.
  intros Hi He. unfold scan_entry. cbn [d_name d_isDir orb].
  rewrite str_app_length, segmentName_length. unfold segmentFilenameLength.
  change (20 + String.length endSuffix <? 20)%nat with false. cbv iota.
  change 20%nat with segmentFilenameLength at 1.
  rewrite prefix_marker, (ParseInt_segmentName i Hi).
  destruct (Z.eqb_spec i (-1)); [lia|].
  rewrite has_marker_app.
  rewrite (has_marker_length _ startSuffix)
    by (rewrite str_app_length, segmentName_length; cbn; lia).
  rewrite (has_marker_length _ truncateSuffix)
    by (rewrite str_app_length, segmentName_length; cbn; lia).
  rewrite He. change (-1 =? -1) with true.
  rewrite orb_true_r. cbn [orb andb]. reflexivity.
Qed.

Lemma scan_with_end xs1 i xs2 :
  Forall (fun x => 0 <= x <= max_int64) xs1 -> 0 <= i <= max_int64 ->
  Forall (fun x => 0 <= x <= max_int64) xs2 ->
  scan scan_init
    (map (fun n => MkDirent n false)
       ((segmentName <$> xs1)
        ++ str_app (segmentName i) endSuffix :: (segmentName <$> xs2)))
  = inr (MkScan
           (map dseg xs1
            ++ MkSegment (str_app (segmentName i) endSuffix) i [] []
               :: map dseg xs2)
           (-1) (len xs1) (-1)).
Proof.
  intros H1 Hi H2. rewrite map_app, scan_app.
  rewrite (scan_segments xs1 scan_init H1).
  cbn [map scan]. rewrite (scan_entry_end _ i Hi) by reflexivity.
  rewrite (scan_segments xs2 _ H2).
  cbn [sc_segments startIdx endIdx truncateIdx scan_init app].
  rewrite <- app_assoc. cbn [app]. unfold len. rewrite length_map.
  reflexivity.
Qed.

(** ** Removing files in any order *)

Lemma delete_paths_lookup_in ss n fs :
  n ∈ map path ss -> delete_paths ss fs !! n = None.
Proof.
  revert fs. induction ss as [|s ss IH]; intros fs Hn.
  - apply elem_of_nil in Hn. contradiction.
  - rewrite delete_paths_cons. cbn [map] in Hn.
    destruct (decide (n ∈ map path ss)) as [Hin|Hnin].
    + apply IH. exact Hin.
    + apply elem_of_cons in Hn as [->|Hn]; [|contradiction].
      rewrite delete_paths_lookup_ne by exact Hnin. apply lookup_delete_eq.
Qed.

Lemma elem_of_rev {A} (x : A) l : x ∈ rev l <-> x ∈ l.
Proof. rewrite !list_elem_of_In. symmetry. apply in_rev. Qed.

Lemma delete_paths_rev ss fs : delete_paths (rev ss) fs = delete_paths ss fs.
Proof.
  apply map_eq. intros n.
  destruct (decide (n ∈ map path ss)) as [Hin|Hnin].
  - rewrite !delete_paths_lookup_in; [reflexivity|exact Hin|].
    rewrite map_rev. apply (proj2 (elem_of_rev _ _) Hin).
  - rewrite !delete_paths_lookup_ne; [reflexivity|exact Hnin|].
    rewrite map_rev. intros Hin. apply Hnin. apply (proj1 (elem_of_rev _ _) Hin).
Qed.

Lemma remove_list_ok L idxs : forall ss fs,
  Forall2 (fun i s => 0 <= i /\ segments L !! Z.to_nat i = Some s) idxs ss ->
  NoDup (map path ss) ->
  (forall s, s ∈ ss -> is_Some (fs !! path s)) ->
  remove_segments idxs (MkWorld L fs) = Ok tt (MkWorld L (delete_paths ss fs)).
Proof.
  induction idxs as [|i idxs IH]; intros ss fs HF Hnd Hex.
  - apply Forall2_nil_inv_l in HF. subst ss. reflexivity.
  - apply Forall2_cons_inv_l in HF as (s & ss' & [Hi Hs] & HF & ->).
    cbn [map] in Hnd. apply NoDup_cons in Hnd as [Hnin Hnd].
    unfold remove_segments. cbn [forM_].
    rewrite bind_assoc, bind_get_log, bind_assoc. cbn [lg].
    rewrite (bind_ok _ _ _ _ _ (index_of_Z _ _ _ _ Hi Hs)).
    destruct (Hex s ltac:(apply elem_of_cons; left; reflexivity)) as [c Hc].
    unfold fs_Remove at 1. rewrite bind_assoc, bind_get_disk. cbn [disk].
    rewrite Hc, bind_modify_disk. cbn [lg disk].
    fold (remove_segments idxs). rewrite delete_paths_cons.
    apply IH; [exact HF|exact Hnd|].
    intros t Ht. destruct (Hex t ltac:(apply elem_of_cons; right; exact Ht))
      as [ct Hct].
    exists ct. rewrite lookup_delete_ne; [exact Hct|].
    intros E. apply Hnin. rewrite E. apply list_elem_of_fmap. eauto.
Qed.

Lemma zrange_lookup lo hi : forall (l : list segment),
  0 <= lo -> hi = len l -> lo <= hi ->
  Forall2 (fun i s => 0 <= i /\ l !! Z.to_nat i = Some s)
    (zrange lo hi) (drop (Z.to_nat lo) l).
Proof.
  intros l Hlo -> Hle. unfold zrange.
  apply Forall2_same_length_lookup_2.
  - rewrite length_map, length_seq, length_drop. unfold len. lia.
  - intros j i s Hi Hs.
    rewrite list_lookup_fmap in Hi.
    destruct (seq 0 (Z.to_nat (len l - lo)) !! j) as [k|] eqn:Ek; [|discriminate].
    apply lookup_seq in Ek as [-> _]. cbn in Hi. inversion Hi; subst i.
    split; [lia|].
    rewrite lookup_drop in Hs. rewrite <- Hs. f_equal. lia.
Qed.

(** ** [load] on a directory with an [END] marker *)

Lemma Forall2_rev_2 {A B} (R : A -> B -> Prop) l k :
  Forall2 R l k -> Forall2 R (rev l) (rev k).
Proof.
  induction 1 as [|x y l k Hxy _ IH]; [constructor|].
  cbn [rev]. apply Forall2_app; [exact IH|]. constructor; [exact Hxy|constructor].
Qed.

Lemma load_end_eq L fs P i segs2 buf :
  segments L
  = P ++ dseg i :: MkSegment (str_app (segmentName i) endSuffix) i [] [] :: segs2 ->
  NoDup (map path segs2) ->
  (forall s, s ∈ segs2 -> is_Some (fs !! path s)) ->
  str_app (segmentName i) endSuffix ∉ map path segs2 ->
  fs !! str_app (segmentName i) endSuffix = Some buf ->
  load_end (len P + 1) (MkWorld L fs)
  = Ok tt (MkWorld
             (set_segments (P ++ [dseg i]) L)
             (<[segmentName i := buf]>
                (delete (str_app (segmentName i) endSuffix)
                   (delete_paths segs2 fs)))).
Proof.
  intros HL Hnd Hex Hnin Hbuf. unfold load_end.
  set (E := MkSegment (str_app (segmentName i) endSuffix) i [] []) in *.
  rewrite bind_get_log. cbn [lg].
  assert (len (segments L) = len P + 2 + len segs2) as HlenL.
  { unfold len. rewrite HL, length_app. cbn [length]. lia. }
  assert (drop (Z.to_nat (len P + 1 + 1)) (segments L) = segs2) as Hdr.
  { rewrite HL. replace (P ++ dseg i :: E :: segs2) with ((P ++ [dseg i; E]) ++ segs2)
      by (rewrite <- app_assoc; reflexivity).
    replace (Z.to_nat (len P + 1 + 1)) with (length (P ++ [dseg i; E]))
      by (rewrite length_app; unfold len; cbn [length]; lia).
    apply drop_app_length. }
  pose proof (zrange_lookup (len P + 1 + 1) (len (segments L)) (segments L)
                ltac:(unfold len; lia) eq_refl ltac:(unfold len in *; lia)) as HF.
  rewrite Hdr in HF. apply Forall2_rev_2 in HF.
  assert (NoDup (map path (rev segs2))) as Hnd'.
  { rewrite map_rev, <- (Permutation_rev (map path segs2)). exact Hnd. }
  assert (forall s, s ∈ rev segs2 -> is_Some (fs !! path s)) as Hex'.
  { intros s Hs. apply Hex. apply (proj1 (elem_of_rev _ _) Hs). }
  rewrite (bind_ok _ _ _ _ _ (remove_list_ok L _ (rev segs2) fs HF Hnd' Hex')).
  rewrite delete_paths_rev.
  assert (0 <= 0 <= len P + 1 + 1) as Hb1 by (unfold len; lia).
  rewrite (bind_ok _ _ _ _ _ (slice_ok (segments L) 0 (len P + 1 + 1) _ Hb1
                                ltac:(unfold len in *; lia))).
  assert (take (Z.to_nat (len P + 1 + 1 - 0)) (drop (Z.to_nat 0) (segments L))
          = P ++ [dseg i; E]) as ->.
  { cbn [Z.to_nat drop]. rewrite HL.
    replace (P ++ dseg i :: E :: segs2) with ((P ++ [dseg i; E]) ++ segs2)
      by (rewrite <- app_assoc; reflexivity).
    replace (Z.to_nat (len P + 1 + 1 - 0)) with (length (P ++ [dseg i; E]))
      by (rewrite length_app; unfold len; cbn [length]; lia).
    apply take_app_length. }
  rewrite bind_modify_log. cbn [lg disk].
  assert (len (P ++ [dseg i; E]) = len P + 2) as Hn
    by (unfold len; rewrite length_app; cbn [length]; lia).
  rewrite Hn.
  destruct (Z.ltb_spec 1 (len P + 2)) as [_|?]; [|unfold len in *; lia].
  rewrite !bind_assoc.
  assert ((P ++ [dseg i; E]) !! length P = Some (dseg i)) as HD
    by (rewrite lookup_app_r, Nat.sub_diag by lia; reflexivity).
  assert ((P ++ [dseg i; E]) !! S (length P) = Some E) as HE.
  { rewrite lookup_app_r by lia.
    replace (S (length P) - length P)%nat with 1%nat by lia. reflexivity. }
  rewrite (bind_ok _ _ _ _ _
             (index_of_Z _ (len P + 2 - 2) _ _ ltac:(unfold len; lia)
                ltac:(replace (Z.to_nat (len P + 2 - 2)) with (length P)
                        by (unfold len; lia); exact HD))).
  rewrite bind_assoc.
  rewrite (bind_ok _ _ _ _ _
             (index_of_Z _ (len P + 2 - 1) _ _ ltac:(unfold len; lia)
                ltac:(replace (Z.to_nat (len P + 2 - 1)) with (S (length P))
                        by (unfold len; lia); exact HE))).
  cbn [offset dseg E]. rewrite Z.eqb_refl.
  rewrite bind_modify_log. cbn [lg disk].
  assert (take (Z.to_nat (len P + 2 - 1))
            (<[Z.to_nat (len P + 2 - 2) := E]> (P ++ [dseg i; E]))
          = P ++ [E]) as ->.
  { replace (Z.to_nat (len P + 2 - 2)) with (length P + 0)%nat by (unfold len; lia).
    rewrite insert_app_r. cbn [insert list_insert].
    replace (P ++ [E; E]) with ((P ++ [E]) ++ [E])
      by (rewrite <- app_assoc; reflexivity).
    replace (Z.to_nat (len P + 2 - 1)) with (length (P ++ [E]))
      by (rewrite length_app; unfold len; cbn [length]; lia).
    apply take_app_length. }
  rewrite bind_get_log. cbn [lg segments set_segments].
  assert (len (P ++ [E]) - 1 = Z.of_nat (length P)) as Hlast
    by (unfold len; rewrite length_app; cbn [length]; lia).
  rewrite Hlast.
  assert ((P ++ [E]) !! length P = Some E) as HE2
    by (rewrite lookup_app_r, Nat.sub_diag by lia; reflexivity).
  rewrite (bind_ok _ _ _ _ _ (index_of_Some _ _ _ _ HE2)).
  cbn [path E]. rewrite strip_marker.
  assert (delete_paths segs2 fs !! str_app (segmentName i) endSuffix = Some buf)
    as Hb2 by (rewrite delete_paths_lookup_ne; assumption).
  match goal with
  | |- bind (fs_Rename ?o ?n) _ ?w = _ =>
      rewrite (bind_ok _ _ _ _ _ (fs_Rename_eq o n buf w Hb2))
  end.
  cbn [lg disk].
  match goal with
  | |- set_seg_at _ ?f ?w = _ =>
      rewrite (set_seg_at_eq (length P) f E w HE2)
  end.
  cbn [lg disk segments set_segments].
  f_equal. f_equal.
  replace (length P) with (length P + 0)%nat at 1 by lia.
  rewrite alter_app_r. reflexivity.
Qed.

(** The state after the back of [c1 ++ (x, ds) :: c2] is cut after offset
    [x + k]. *)
Lemma valid_back a c1 x ds c2 (k : nat) :
  valid a -> content a = c1 ++ (x, ds) :: c2 -> (k < length ds)%nat ->
  valid (a_of (a_opts a) (c1 ++ [(x, take (S k) ds)])) /\
  back_of (x + Z.of_nat k) a (a_of (a_opts a) (c1 ++ [(x, take (S k) ds)])).
Proof.
  intros Hv Hc Hk.
  pose proof (content_Forall a Hv) as Hall. rewrite Hc in Hall.
  apply Forall_app in Hall as [Hall1 Hall]. apply Forall_cons in Hall as [Hx _].
  cbn [fst snd] in Hx. destruct Hx as (Hx0 & Hxl & Hxs).
  pose proof (v_chain a Hv) as Hch. rewrite <- spans_content, Hc in Hch.
  assert (c1 ++ [(x, take (S k) ds)] <> []) as Hne by apply app_not_nil.
  pose proof (content_a_of (a_opts a) _ Hne) as Hcont.
  assert (length (take (S k) ds) = S k) as Hlt by (rewrite length_take; lia).
  assert (valid (a_of (a_opts a) (c1 ++ [(x, take (S k) ds)]))) as Hv'.
  { apply valid_a_of.
    - exact Hne.
    - unfold spans in *. rewrite map_app in *. cbn [map fst snd] in *.
      apply StronglySorted_app in Hch as (Hcross & Hs1 & _).
      apply StronglySorted_app_2.
      + intros y1 y2 Hy1 Hy2. apply list_elem_of_singleton in Hy2. subst y2.
        specialize (Hcross y1 (x, length ds) Hy1
                      ltac:(apply elem_of_cons; left; reflexivity)).
        unfold span_lt in *. cbn [fst snd] in *. lia.
      + exact Hs1.
      + repeat constructor.
    - apply Forall_app. split; [exact Hall1|]. constructor; [|constructor].
      cbn [fst snd]. split; [lia|]. split; [unfold len in *; lia|].
      apply Forall_take. exact Hxs.
    - apply (v_size a Hv).
    - apply (v_csize a Hv). }
  split; [exact Hv'|].
  split; [|split].
  - destruct (afirst_content (a_of (a_opts a) (c1 ++ [(x, take (S k) ds)])))
      as [d1 Hd1].
    rewrite Hcont in Hd1.
    destruct (afirst_content a) as [d0 Hd0]. rewrite Hc in Hd0.
    set (f1 := afirst (a_of (a_opts a) (c1 ++ [(x, take (S k) ds)]))) in *.
    clearbody f1.
    destruct c1 as [|p1 c1]; cbn in Hd0, Hd1; congruence.
  - unfold alast, a_of. cbn [a_toff a_tds]. rewrite last_snoc. cbn [fst snd].
    unfold len. rewrite Hlt. lia.
  - intros off d. rewrite !aholds_holds, Hcont, Hc.
    apply holds_back.
    + rewrite <- Hc, spans_content. apply (v_chain a Hv).
    + exact Hk.
Qed.

(** Opening a directory that holds the segment files of a well-formed log
    and the [END] marker of a back truncation at offset [x + k], where [x]
    is the base offset of a segment with more than [k] entries: the files
    after that segment are removed, the marker replaces the file of the
    segment, and the log holds what the old one held up to [x + k]. *)
Lemma open_with_end o a c1 x ds c2 (k : nat) :
  valid a -> a_opts a = normalize o ->
  content a = c1 ++ (x, ds) :: c2 -> (k < length ds)%nat ->
  open o (<[str_app (segmentName x) endSuffix
            := encode_all (take (S k) ds)]> (disk (repr0 a)))
  = Ok tt (repr0 (a_reopen
                    (a_of (a_opts a) (c1 ++ [(x, take (S k) ds)])))).
Proof.
  intros Hv Hop Hc Hk.
  destruct (valid_back a c1 x ds c2 k Hv Hc Hk) as [Hv' _].
  set (buf := encode_all (take (S k) ds)) in *.
  set (A' := a_of (a_opts a) (c1 ++ [(x, take (S k) ds)])) in *.
  set (sn := str_app (segmentName x) endSuffix).
  pose proof (v_chain a Hv) as Hch. rewrite <- spans_content, Hc in Hch.
  assert (Forall (fun y => 0 <= y <= max_int64) (map fst c1 ++ [x])) as Hr1.
  { pose proof (aoffsets_Forall_range a Hv) as Hr.
    rewrite aoffsets_content, Hc, map_app in Hr. cbn [map fst] in Hr.
    apply Forall_app in Hr as [Hra Hrb]. apply Forall_cons in Hrb as [Hrx _].
    apply Forall_app. split; [exact Hra|]. constructor; [exact Hrx|constructor]. }
  assert (Forall (fun y => 0 <= y <= max_int64) (map fst c2)) as Hr2.
  { pose proof (aoffsets_Forall_range a Hv) as Hr.
    rewrite aoffsets_content, Hc, map_app in Hr. cbn [map fst] in Hr.
    apply Forall_app in Hr as [_ Hrb]. apply Forall_cons in Hrb as [_ Hrb].
    exact Hrb. }
  assert (0 <= x <= max_int64) as Hx.
  { apply Forall_app in Hr1 as [_ Hr1]. apply Forall_cons in Hr1 as [Hr1 _].
    exact Hr1. }
  assert (aoffsets a = (map fst c1 ++ [x]) ++ map fst c2) as Hoff.
  { rewrite aoffsets_content, Hc, map_app. cbn [map fst].
    rewrite <- app_assoc. reflexivity. }
  assert (disk (repr0 a) !! sn = None) as Hno
    by (apply disk_no_marker; cbn; lia).
  unfold open, load.
  rewrite (bind_ok _ _ _ _ _ (fs_ReadDir_eq _)). cbn [disk].
  rewrite (listing_insert (disk (repr0 a)) sn buf
             (segmentName <$> (map fst c1 ++ [x])) (segmentName <$> map fst c2)).
  2:{ exact Hno. }
  2:{ unfold repr0. rewrite (names_repr a _ _ Hv), Hoff, fmap_app. reflexivity. }
  2:{ apply Forall_fmap, Forall_forall. intros y Hy. cbn.
      rewrite Forall_forall in Hr1. apply marker_after; auto.
      apply elem_of_app in Hy as [Hy|Hy].
      - pose proof (chain_before _ _ _ _ _ Hch Hy). lia.
      - apply list_elem_of_singleton in Hy. lia. }
  2:{ apply Forall_fmap, Forall_forall. intros y Hy. cbn.
      rewrite Forall_forall in Hr2. apply marker_before; auto.
      pose proof (chain_after _ _ _ _ _ Hch Hy). unfold len in *. lia. }
  unfold sn at 1. rewrite (scan_with_end _ x _ Hr1 Hx Hr2). fold sn.
  rewrite bind_modify_log. cbn [sc_segments lg disk].
  set (P := map dseg (map fst c1)) in *.
  set (segs2 := map dseg (map fst c2)) in *.
  assert (map dseg (map fst c1 ++ [x]) ++ MkSegment sn x [] [] :: segs2
          = P ++ dseg x :: MkSegment sn x [] [] :: segs2) as HL.
  { rewrite map_app, <- app_assoc. reflexivity. }
  rewrite HL.
  assert (len (map fst c1 ++ [x]) = len P + 1) as Hl1
    by (unfold len, P; rewrite length_app, !length_map; cbn [length]; lia).
  rewrite Hl1.
  assert ((len (P ++ dseg x :: MkSegment sn x [] [] :: segs2) =? 0) = false) as ->.
  { apply Z.eqb_neq. unfold len. rewrite length_app. cbn. lia. }
  assert ((len P + 1 =? -1) = false) as Hs1 by (apply Z.eqb_neq; unfold len; lia).
  unfold markers_clash. cbn [startIdx endIdx truncateIdx].
  rewrite Hs1. change (-1 =? -1) with true. cbn [negb andb orb].
  rewrite when_false, bind_ret, when_true, bind_assoc.
  assert (map path segs2 = segmentName <$> map fst c2) as Hp2.
  { unfold segs2. rewrite map_map. reflexivity. }
  assert (NoDup (map path segs2)) as Hnd.
  { rewrite Hp2. pose proof (valid_names_NoDup a 0 Hv) as Hn.
    rewrite afiles_names, Hoff, fmap_app in Hn.
    apply NoDup_app in Hn as (_ & _ & Hn). exact Hn. }
  assert (forall s, s ∈ segs2 ->
            is_Some ((<[sn := buf]> (disk (repr0 a))) !! path s)) as Hex.
  { intros s Hs. assert (path s ∈ map path segs2) as Hps
      by (apply list_elem_of_fmap; eauto).
    rewrite Hp2 in Hps. apply list_elem_of_fmap in Hps as (y & Ey & Hy).
    rewrite Ey. rewrite lookup_insert_ne
      by (unfold sn; apply marker_name_not_segment; cbn; lia).
    apply offset_has_file; [exact Hv|]. rewrite Hoff.
    apply elem_of_app. right. exact Hy. }
  assert (sn ∉ map path segs2) as Hnin.
  { rewrite Hp2. intros Hin. apply list_elem_of_fmap in Hin as (y & Ey & _).
    revert Ey. unfold sn. apply marker_name_not_segment. cbn. lia. }
  assert ((<[sn := buf]> (disk (repr0 a))) !! sn = Some buf) as Hbuf
    by apply lookup_insert_eq.
  match goal with
  | |- bind (load_end _) _ (MkWorld ?L ?fs) = _ =>
      rewrite (bind_ok _ _ _ _ _
                 (load_end_eq L fs P x segs2 buf eq_refl Hnd Hex Hnin Hbuf))
  end.
  rewrite bind_ret, when_false, bind_ret.
  match goal with
  | |- _ ?w = _ => change (load_finish w = Ok tt (repr0 (a_reopen A')))
  end.
  assert (aoffsets A' = map fst c1 ++ [x]) as HoA.
  { unfold A'. rewrite aoffsets_content, content_a_of by apply app_not_nil.
    rewrite map_app. reflexivity. }
  assert (NoDup (files (c1 ++ (x, ds) :: c2)).*1) as Hnames.
  { pose proof (valid_names_NoDup a (length (a_tds a)) Hv) as Hn.
    rewrite afiles_content, Hc in Hn. exact Hn. }
  assert (<[segmentName x := buf]> (delete sn (delete_paths segs2
             (<[sn := buf]> (disk (repr0 a)))))
          = disk (repr0 A')) as HD.
  { rewrite delete_paths_insert_ne by exact Hnin.
    rewrite delete_insert_eq.
    rewrite (disk_content A'). unfold A' at 1.
    rewrite content_a_of by apply app_not_nil.
    assert (delete_paths segs2 (disk (repr0 a))
            = list_to_map (files (c1 ++ [(x, ds)]))) as Hdp.
    { rewrite (disk_content a), Hc.
      replace (c1 ++ (x, ds) :: c2) with ((c1 ++ [(x, ds)]) ++ c2)
        by (rewrite <- app_assoc; reflexivity).
      unfold files at 1. rewrite map_app. fold (files (c1 ++ [(x, ds)])).
      fold (files c2).
      apply delete_paths_list_to_map_r.
      - unfold segs2. rewrite <- (paths_dseg_files c2). reflexivity.
      - replace (c1 ++ (x, ds) :: c2) with ((c1 ++ [(x, ds)]) ++ c2) in Hnames
          by (rewrite <- app_assoc; reflexivity).
        unfold files in Hnames. rewrite map_app in Hnames. exact Hnames. }
    rewrite Hdp.
    rewrite delete_id.
    2:{ apply not_elem_of_list_to_map_1. unfold files. intros Hin.
        rewrite <- list_fmap_compose in Hin.
        apply list_elem_of_fmap in Hin as (y & Ey & _). cbn in Ey.
        revert Ey. unfold sn. apply marker_name_not_segment. cbn. lia. }
    assert (segmentName x ∉ (files c1).*1) as Hx1.
    { unfold files in Hnames. rewrite map_app, fmap_app in Hnames.
      apply NoDup_app in Hnames as (_ & Hdis & _).
      intros Hin. apply (Hdis _ Hin). cbn. apply elem_of_cons. left. reflexivity. }
    unfold files. rewrite !map_app. cbn [map fst snd]. fold (files c1).
    rewrite !list_to_map_snoc by exact Hx1.
    apply insert_insert_eq. }
  fold sn. rewrite HD.
  match goal with
  | |- load_finish (MkWorld ?L _) = _ =>
      replace L with (set_segments (map dseg (aoffsets A')) (new_log o))
  end.
  - rewrite <- (open_segments_only o A' Hv').
    apply open_repr_disk; [exact Hv'|]. unfold A'. cbn [a_opts a_of]. exact Hop.
  - rewrite HoA, map_app. reflexivity.
Qed.

(** ** The directory at the commit point *)

Lemma commit_back_world a ecap index d segIdx si l s buf wc :
  valid a -> aholds a index d ->
  truncateBack_commit ecap index (repr0 a) = Ok (BackCut segIdx si l s buf) wc ->
  exists a1 c1 o ds c2 (k : nat),
    valid a1 /\ same_content a a1 /\ a_stale a1 = a_stale a /\
    content a = c1 ++ (o, ds) :: c2 /\ index = o + Z.of_nat k /\
    (k < length ds)%nat /\
    segIdx = Z.of_nat (sh a + length c1) /\
    segments (lg wc) = csegs a1 /\
    disk wc
    = <[str_app (segmentName o) endSuffix := encode_all (take (S k) ds)]>
        (disk (repr0 a)).
Proof.
  intros Hv Hheld H. unfold truncateBack_commit in H. rewrite bind_get_log in H.
  change (firstOffset (lg (repr0 a))) with (afirst a) in H.
  change (lastOffset (lg (repr0 a))) with (alast a) in H.
  pose proof (valid_first_range a Hv) as Hfr.
  pose proof (valid_toff_range a Hv) as Htr.
  pose proof (valid_last_range a Hv) as Hlr.
  rewrite wrap64_id in H by (unfold in_int64, min_int64, max_int64 in *; lia).
  destruct (Z.eqb_spec index (afirst a - 1)); [discriminate|].
  destruct (Z.ltb_spec index (afirst a)) as [?|Hlo]; [discriminate|].
  destruct (Z.ltb_spec (alast a) index) as [?|Hhi]; [discriminate|].
  cbn [orb] in H.
  destruct (Z.eqb_spec index (alast a)) as [?|Hne]; [discriminate|].
  set (g := fun s : aseg => (a_off s, a_ds s)).
  destruct (Z.le_gt_cases (a_toff a) index) as [Ht|Ht].
  - (* the tail segment *)
    unfold repr0 in H.
    rewrite (findSegment_tail a _ _ index Hv Ht) in H.
    rewrite (bind_ok _ _ _ _ _ (loadSegment_tail a _ _ index Ht)) in H.
    rewrite bind_get_log in H.
    rewrite (bind_ok _ _ _ _ _ (index_of_Some _ _ _ _ (csegs_lookup_tail a))) in H.
    cbn [epos ebuf offset ctail] in H.
    rewrite (wrap64_id (index - a_toff a)) in H
      by (unfold in_int64, min_int64, max_int64 in *; lia).
    rewrite wrap64_id in H by (unfold in_int64, min_int64, max_int64 in *; lia).
    assert (index - a_toff a + 1 <= len (a_tds a)) as Hk.
    { apply (aholds_tail a index d Hv Ht) in Hheld.
      apply lookup_lt_Some in Hheld. unfold len. lia. }
    rewrite back_buf_held in H by lia.
    rewrite temp_rename_eq in H by (apply end_not_temp || apply disk_no_temp).
    inversion H; subst. clear H.
    exists a, (map g (a_pre a)), (a_toff a), (a_tds a), [],
      (Z.to_nat (index - a_toff a)).
    split; [exact Hv|]. split; [apply same_content_refl|].
    split; [reflexivity|]. split; [reflexivity|]. split; [lia|].
    split; [unfold len in *; lia|].
    split; [rewrite length_map; reflexivity|].
    split; reflexivity.
  - (* an earlier segment *)
    unfold repr0 in H.
    assert (afirst a <= index < a_toff a) as Hin by lia.
    destruct (loadSegment_pre a (length (a_tds a)) (alast a) index Hv Hin)
      as (i & s0 & a1 & Hs & Ho & Hnext & Hload & Hv1 & Hsc & Hst & Hfull & _).
    rewrite (findSegment_pre a _ _ index i s0 Hv Hs Ho Ht Hnext) in H.
    rewrite (bind_ok _ _ _ _ _ Hload) in H.
    rewrite bind_get_log in H.
    rewrite (bind_ok _ _ _ _ _ (index_of_Some _ _ _ _ Hfull)) in H.
    cbn [epos ebuf offset full cseg set_res a_res a_off a_ds] in H.
    pose proof (valid_off_range a i s0 Hv Hs) as Hor.
    rewrite (wrap64_id (index - a_off s0)) in H
      by (unfold in_int64, min_int64, max_int64 in *; lia).
    rewrite wrap64_id in H by (unfold in_int64, min_int64, max_int64 in *; lia).
    assert (index - a_off s0 + 1 <= len (a_ds s0)) as Hk.
    { apply (aholds_pre a i s0 index d Hv Hs Ho Ht Hnext) in Hheld.
      apply lookup_lt_Some in Hheld. unfold len. lia. }
    rewrite back_buf_held in H by lia.
    rewrite temp_rename_eq in H by (apply end_not_temp || apply disk_no_temp).
    assert (disk (repr a1 (length (a_tds a)) (alast a)) = disk (repr0 a)) as Hd.
    { rewrite (repr0_same a a1 Hsc). rewrite !disk_content.
      rewrite (proj2 Hsc). reflexivity. }
    rewrite Hd in H.
    inversion H; subst. clear H.
    exists a1, (map g (take i (a_pre a))), (a_off s0), (a_ds s0),
      (map g (drop (S i) (a_pre a)) ++ [(a_toff a, a_tds a)]),
      (Z.to_nat (index - a_off s0)).
    split; [exact Hv1|]. split; [exact Hsc|]. split; [exact Hst|].
    split; [|split; [lia|split; [unfold len in *; lia|]]].
    + unfold content. fold g. rewrite <- (take_drop_middle _ _ _ Hs) at 1.
      rewrite map_app, <- app_assoc. reflexivity.
    + split; [|split; reflexivity].
      rewrite length_map, length_take.
      apply lookup_lt_Some in Hs. f_equal. lia.
Qed.

Lemma commit_back_disk a ecap index d segIdx si l s buf wc :
  valid a -> aholds a index d ->
  truncateBack_commit ecap index (repr0 a) = Ok (BackCut segIdx si l s buf) wc ->
  exists c1 o ds c2 (k : nat),
    content a = c1 ++ (o, ds) :: c2 /\ index = o + Z.of_nat k /\
    (k < length ds)%nat /\
    disk wc
    = <[str_app (segmentName o) endSuffix := encode_all (take (S k) ds)]>
        (disk (repr0 a)).
Proof.
  intros Hv Hheld H.
  destruct (commit_back_world a ecap index d segIdx si l s buf wc Hv Hheld H)
    as (a1 & c1 & o & ds & c2 & k & _ & _ & _ & Hc & Hi & Hk & _ & _ & Hd).
  exists c1, o, ds, c2, k. auto.
Qed.

(** X21: a crash right after the commit point of a back truncation.  On a
    reached log, when [truncateBack(i)] at an offset [i] for which [Read]
    returns an entry has renamed [TEMP] to the [END] marker and the process
    stops there, opening the directory it leaves returns normally and gives
    the truncated log: the first index is the old one, the last index is
    [i], [Read] gives at every offset up to [i] what it gave before the
    truncation, and [ErrNotFound] above [i]. *)
Theorem crash_after_back_commit o w ecap i d w1 wc :
  reached o w -> Read i w = Ok d w1 ->
  (exists segIdx si l s buf,
     truncateBack_commit ecap i w = Ok (BackCut segIdx si l s buf) wc) ->
  exists w', open o (disk wc) = Ok tt w' /\
    FirstIndex w' = Ok (firstOffset (lg w)) w' /\
    LastIndex w' = Ok i w' /\
    (forall off, off <= i ->
       outcome_of (Read off w') = outcome_of (Read off w)) /\
    (forall off, i < off -> Read off w' = Err ErrNotFound w').
Proof.
  intros Hr Hrd (segIdx & si & l & s & buf & H).
  destruct (reached_repr o w Hr) as (a & -> & Hv & Hop).
  destruct (Read_Ok_repr a i d w1 Hv Hrd) as (_ & _ & _ & _ & Hheld).
  destruct (commit_back_disk a ecap i d segIdx si l s buf wc Hv Hheld H)
    as (c1 & y & ds & c2 & k & Hc & -> & Hk & ->).
  destruct (valid_back a c1 y ds c2 k Hv Hc Hk) as [Hv' (Hf & Hl & Hh)].
  set (A' := a_of (a_opts a) (c1 ++ [(y, take (S k) ds)])) in *.
  pose proof (valid_reopen A' Hv') as Hvr.
  pose proof (same_content_reopen A') as Hsc.
  exists (repr0 (a_reopen A')).
  split; [apply (open_with_end o a c1 y ds c2 k Hv Hop Hc Hk)|].
  change (firstOffset (lg (repr0 a))) with (afirst a).
  split; [rewrite FirstIndex_repr, (same_content_first _ _ Hsc), Hf; reflexivity|].
  split; [rewrite LastIndex_repr, (same_content_last _ _ Hsc), Hl; reflexivity|].
  split.
  - intros off Hoff. apply Read_outcome_agree; auto.
    + rewrite (same_content_first _ _ Hsc), (same_content_last _ _ Hsc), Hf, Hl.
      assert (y + Z.of_nat k <= alast a) as Hle.
      { pose proof (aholds_in_range a _ _ Hv Hheld). lia. }
      lia.
    + intros d0. rewrite <- (same_content_aholds A' (a_reopen A') off d0 Hsc).
      rewrite Hh. tauto.
  - intros off Hoff. apply Read_repr_out.
    rewrite (same_content_last _ _ Hsc), Hl. lia.
Qed.

Lemma crash_after_back_commit_witness :
  exists w', open DefaultOptions (disk back_commit_world) = Ok tt w' /\
    FirstIndex w' = Ok (firstOffset (lg two_entry_world)) w' /\
    LastIndex w' = Ok 0 w' /\
    (forall off, off <= 0 ->
       outcome_of (Read off w') = outcome_of (Read off two_entry_world)) /\
    (forall off, 0 < off -> Read off w' = Err ErrNotFound w').
Proof.
  apply (crash_after_back_commit DefaultOptions two_entry_world 2 0
           (bytes_of "a") (world_of (Read 0 two_entry_world)) back_commit_world).
  - exact reached_two_entry.
  - vm_compute. reflexivity.
  - do 5 eexists. vm_compute. reflexivity.
Defined.

(** * A crash during the clean-up of a truncation *)

(** ** The removal loops, interrupted *)

Lemma forM_app {A} (f : A -> M unit) l1 l2 w :
  forM_ (l1 ++ l2) f w = (exec forM_ l1 f then forM_ l2 f) w.
Proof.
  revert w. induction l1 as [|i l1 IH]; intros w.
  - reflexivity.
  - cbn [app forM_]. rewrite bind_assoc. apply bind_cong_l. intros ? w1 _.
    apply IH.
Qed.

Lemma remove_segments_app l1 l2 w :
  remove_segments (l1 ++ l2) w
  = (exec remove_segments l1 then remove_segments l2) w.
Proof. apply forM_app. Qed.

Lemma map_seq_from {A} (f : nat -> A) a n :
  map f (seq a n) = map (fun k => f (a + k)%nat) (seq 0 n).
Proof.
  rewrite <- (Nat.add_0_r a) at 1. rewrite <- fmap_add_seq.
  change (map f (Nat.add a <$> seq 0 n)) with (map f (map (Nat.add a) (seq 0 n))).
  apply map_map.
Qed.

Lemma zrange_split lo j hi :
  lo <= j <= hi -> zrange lo hi = zrange lo j ++ zrange j hi.
Proof.
  intros H. unfold zrange.
  replace (Z.to_nat (hi - lo)) with (Z.to_nat (j - lo) + Z.to_nat (hi - j))%nat
    by lia.
  rewrite seq_app, map_app. f_equal.
  rewrite Nat.add_0_l, map_seq_from. apply map_ext. intros k. lia.
Qed.

(** The removal loop of [truncateFront] is its first [j] rounds followed by
    the others. *)
Lemma truncateFront_removals_split segIdx l j w :
  0 <= j <= segIdx + 1 ->
  truncateFront_removals segIdx l (segIdx + 1) w
  = (exec truncateFront_removals segIdx l j then
     remove_segments (zrange j (segIdx + 1))) w.
Proof.
  intros Hj. unfold truncateFront_removals.
  rewrite (zrange_split 0 j (segIdx + 1) Hj), bind_assoc.
  apply bind_cong_l. intros ? w1 _. apply remove_segments_app.
Qed.

(** The removal loop of [truncateBack] is its rounds below [hi] followed by
    the others. *)
Lemma truncateBack_removals_split segIdx hi n w :
  segIdx <= hi <= n ->
  truncateBack_removals segIdx n w
  = (exec truncateBack_removals segIdx hi then
     remove_segments (zrange hi n)) w.
Proof.
  intros Hj. unfold truncateBack_removals.
  rewrite (zrange_split segIdx hi n Hj), bind_assoc.
  apply bind_cong_l. intros ? w1 _. apply remove_segments_app.
Qed.

(** ** Directories given by what their files hold *)

Lemma files_names c : (files c).*1 = segmentName <$> map fst c.
Proof.
  unfold files. induction c as [|[y dy] c IH]; [reflexivity|].
  cbn [map fmap list_fmap fst snd]. f_equal. exact IH.
Qed.

Lemma files_NoDup c :
  StronglySorted Z.lt (map fst c) ->
  Forall (fun y => 0 <= y <= max_int64) (map fst c) ->
  NoDup (files c).*1.
Proof.
  intros Hs Hr. rewrite files_names. rewrite Forall_forall in Hr.
  apply NoDup_fmap_2_strong.
  - intros x y Hx Hy. apply segmentName_inj; auto.
  - apply (StronglySorted_NoDup Z.lt); [intros x; lia|exact Hs].
Qed.

Lemma names_files c :
  StronglySorted Z.lt (map fst c) ->
  Forall (fun y => 0 <= y <= max_int64) (map fst c) ->
  merge_sort name_le (map fst (map_to_list (list_to_map (files c) : FS)))
  = segmentName <$> map fst c.
Proof.
  intros Hs Hr. apply (StronglySorted_unique name_le).
  - apply StronglySorted_merge_sort; apply _.
  - apply (StronglySorted_fmap_in segmentName Z.lt name_le); [|exact Hs].
    rewrite Forall_forall in Hr.
    intros x y Hx Hy Hlt. apply segmentName_mono; auto.
  - rewrite merge_sort_Permutation, <- files_names.
    apply fmap_Permutation. apply map_to_list_to_map.
    apply files_NoDup; assumption.
Qed.

Lemma files_app c1 c2 : files (c1 ++ c2) = files c1 ++ files c2.
Proof. unfold files. apply map_app. Qed.

Lemma files_lookup c y :
  StronglySorted Z.lt (map fst c) ->
  Forall (fun y => 0 <= y <= max_int64) (map fst c) ->
  y ∈ map fst c ->
  is_Some ((list_to_map (files c) : FS) !! segmentName y).
Proof.
  intros Hs Hr Hy.
  assert (segmentName y ∈ (files c).*1) as Hin.
  { rewrite files_names. apply list_elem_of_fmap. eauto. }
  apply list_elem_of_fmap in Hin as ([n v] & E & Hin). cbn in E. subst n.
  exists v. apply elem_of_list_to_map_1; [|exact Hin].
  apply files_NoDup; assumption.
Qed.

Lemma files_no_marker c x suffix :
  (0 < String.length suffix)%nat ->
  (list_to_map (files c) : FS) !! str_app (segmentName x) suffix = None.
Proof.
  intros H. apply not_elem_of_list_to_map_1. rewrite files_names.
  intros Hin. apply list_elem_of_fmap in Hin as (y & Ey & _).
  revert Ey. apply marker_name_not_segment. exact H.
Qed.

(** ** [load] on a directory with a [START] marker, whatever was removed *)

(** Opening a directory that holds the [START] marker of a front truncation
    at offset [i], segment files at lower base offsets ([c0], which are
    removed unread) and the segment files that follow the cut ([c2]). *)
Lemma open_start_files o opts c0 i ds' c2 :
  opts = normalize o ->
  valid (a_of opts ((i, ds') :: c2)) ->
  StronglySorted Z.lt (map fst (c0 ++ c2)) ->
  Forall (fun y => 0 <= y <= max_int64) (map fst (c0 ++ c2)) ->
  Forall (fun y => y <= i) (map fst c0) ->
  Forall (fun y => i < y) (map fst c2) ->
  open o (<[str_app (segmentName i) startSuffix := encode_all ds']>
            (list_to_map (files (c0 ++ c2))))
  = Ok tt (repr0 (a_reopen (a_of opts ((i, ds') :: c2)))).
Proof.
  intros Hop Hv' Hs Hr H0 H2.
  set (buf := encode_all ds').
  set (A' := a_of opts ((i, ds') :: c2)) in *.
  set (sn := str_app (segmentName i) startSuffix).
  set (D0 := list_to_map (files (c0 ++ c2)) : FS).
  assert (aoffsets A' = i :: map fst c2) as HoA.
  { unfold A'. rewrite aoffsets_content, content_a_of by discriminate.
    reflexivity. }
  assert (0 <= i <= max_int64) as Hi.
  { apply (aoffsets_range A' i Hv'). rewrite HoA. apply elem_of_cons. auto. }
  pose proof Hr as Hr'. rewrite map_app in Hr'.
  apply Forall_app in Hr' as [Hr0 Hr2].
  assert (D0 !! sn = None) as Hno by (apply files_no_marker; cbn; lia).
  unfold open, load.
  rewrite (bind_ok _ _ _ _ _ (fs_ReadDir_eq _)). cbn [disk].
  rewrite (listing_insert D0 sn buf
             (segmentName <$> map fst c0) (segmentName <$> map fst c2)).
  2:{ exact Hno. }
  2:{ unfold D0. rewrite (names_files _ Hs Hr), map_app, fmap_app. reflexivity. }
  2:{ apply Forall_fmap, Forall_forall. intros y Hy. cbn.
      rewrite Forall_forall in Hr0, H0. apply marker_after; auto. }
  2:{ apply Forall_fmap, Forall_forall. intros y Hy. cbn.
      rewrite Forall_forall in Hr2, H2. apply marker_before; auto. }
  unfold sn at 1. rewrite (scan_with_start _ i _ Hr0 Hi Hr2). fold sn.
  rewrite bind_modify_log. cbn [sc_segments lg disk].
  set (segs1 := map dseg (map fst c0)) in *.
  set (segs2 := map dseg (map fst c2)) in *.
  assert (len (map fst c0) = len segs1) as Hl1
    by (unfold len, segs1; rewrite !length_map; reflexivity).
  rewrite Hl1.
  assert ((len (segs1 ++ MkSegment sn i [] [] :: segs2) =? 0) = false) as ->.
  { apply Z.eqb_neq. unfold len. rewrite length_app. cbn. lia. }
  assert ((len segs1 =? -1) = false) as Hs1 by (apply Z.eqb_neq; unfold len; lia).
  unfold markers_clash. cbn [startIdx endIdx truncateIdx].
  rewrite Hs1. change (-1 =? -1) with true. cbn [negb andb orb].
  rewrite when_true, bind_assoc.
  assert (map path segs1 = segmentName <$> map fst c0) as Hp1.
  { unfold segs1. rewrite map_map. reflexivity. }
  pose proof (files_NoDup _ Hs Hr) as Hnames.
  assert (NoDup (map path segs1)) as Hnd.
  { rewrite Hp1. rewrite files_names, map_app, fmap_app in Hnames.
    apply NoDup_app in Hnames as (Hn & _ & _). exact Hn. }
  assert (forall s, s ∈ segs1 -> is_Some ((<[sn := buf]> D0) !! path s)) as Hex.
  { intros s Hin. assert (path s ∈ map path segs1) as Hps
      by (apply list_elem_of_fmap; eauto).
    rewrite Hp1 in Hps. apply list_elem_of_fmap in Hps as (y & Ey & Hy).
    rewrite Ey. rewrite lookup_insert_ne
      by (unfold sn; apply marker_name_not_segment; cbn; lia).
    apply files_lookup; [exact Hs|exact Hr|].
    rewrite map_app. apply elem_of_app. left. exact Hy. }
  assert (sn ∉ map path segs1) as Hnin.
  { rewrite Hp1. intros Hin. apply list_elem_of_fmap in Hin as (y & Ey & _).
    revert Ey. unfold sn. apply marker_name_not_segment. cbn. lia. }
  assert ((<[sn := buf]> D0) !! sn = Some buf) as Hbuf
    by apply lookup_insert_eq.
  match goal with
  | |- bind (load_start _) _ (MkWorld ?L ?fs) = _ =>
      rewrite (bind_ok _ _ _ _ _
                 (load_start_eq L fs segs1 i segs2 buf eq_refl Hnd Hex Hnin Hbuf))
  end.
  rewrite bind_ret, when_false, bind_ret, when_false, bind_ret.
  match goal with
  | |- _ ?w = _ => change (load_finish w = Ok tt (repr0 (a_reopen A')))
  end.
  assert (<[segmentName i := buf]> (delete sn (delete_paths segs1
             (<[sn := buf]> D0)))
          = disk (repr0 A')) as HD.
  { rewrite delete_paths_insert_ne by exact Hnin.
    rewrite delete_insert_eq.
    rewrite (disk_content A'). unfold A' at 1.
    rewrite content_a_of by discriminate.
    unfold files at 1. cbn [map fst snd]. rewrite list_to_map_cons. fold buf.
    fold (files c2). f_equal.
    assert (delete_paths segs1 D0 = list_to_map (files c2)) as Hdp.
    { unfold D0. rewrite files_app.
      apply delete_paths_list_to_map.
      - rewrite Hp1, files_names. reflexivity.
      - rewrite <- files_app. exact Hnames. }
    rewrite Hdp. apply delete_id. apply files_no_marker. cbn. lia. }
  fold sn. rewrite HD.
  match goal with
  | |- load_finish (MkWorld ?L _) = _ =>
      replace L with (set_segments (map dseg (aoffsets A')) (new_log o))
  end.
  - rewrite <- (open_segments_only o A' Hv').
    apply open_repr_disk; [exact Hv'|]. unfold A'. cbn [a_opts a_of]. exact Hop.
  - rewrite HoA. reflexivity.
Qed.

(** ** The directory after some rounds of the removal loop *)

Lemma when_close_inv b w w1 :
  when b sfile_Close w = Ok tt w1 ->
  segments (lg w1) = segments (lg w) /\ disk w1 = disk w.
Proof.
  destruct b; [|intros H; inversion H; auto].
  rewrite when_true. intros H. apply bind_Ok_inv in H as ([] & w2 & Hc & Hr).
  inversion Hr; subst w2. unfold sfile_Close in Hc. rewrite bind_get_log in Hc.
  destruct (sfile (lg w)); try discriminate. inversion Hc. auto.
Qed.

Lemma files_take n c : (files (take n c)).*1 = take n (files c).*1.
Proof. unfold files. rewrite <- fmap_take. f_equal. symmetry. apply firstn_map. Qed.

Lemma paths_take_csegs a n :
  a_stale a = false ->
  map path (take n (csegs a)) = (files (take n (content a))).*1.
Proof.
  intros Hst. rewrite files_take.
  change (map path (take n (csegs a))) with (path <$> take n (csegs a)).
  rewrite fmap_take. f_equal.
  change (path <$> csegs a) with (map path (csegs a)).
  rewrite (paths_csegs a (length (a_tds a)) Hst), afiles_content. reflexivity.
Qed.

Lemma content_names_NoDup a : valid a -> NoDup (files (content a)).*1.
Proof.
  intros Hv. pose proof (valid_names_NoDup a (length (a_tds a)) Hv) as Hn.
  rewrite afiles_content in Hn. exact Hn.
Qed.

Lemma front_removals_disk a a1 index segIdx l j wc wj c1 o ds c2 buf :
  valid a -> same_content a a1 -> a_stale a1 = a_stale a ->
  content a = c1 ++ (o, ds) :: c2 ->
  segIdx = Z.of_nat (sh a + length c1) ->
  segments (lg wc) = csegs a1 ->
  disk wc = <[str_app (segmentName index) startSuffix := buf]> (disk (repr0 a)) ->
  0 <= j <= segIdx + 1 ->
  truncateFront_removals segIdx l j wc = Ok tt wj ->
  exists n, (n <= length c1 + 1)%nat /\
    disk wj = <[str_app (segmentName index) startSuffix := buf]>
                (list_to_map (files (drop n (content a)))).
Proof.
  intros Hv Hsc Hst Hc Hsi Hseg Hdisk Hj H.
  unfold truncateFront_removals in H.
  apply bind_Ok_inv in H as ([] & w1 & Hcl & Hrm).
  apply when_close_inv in Hcl as [Hsg Hdk].
  unfold zrange in Hrm. rewrite Z.sub_0_r in Hrm.
  apply remove_range_inv in Hrm as (-> & Hlen & Hfirst); [|lia].
  cbn [disk]. rewrite Hsg, Hseg in *. rewrite Hdk, Hdisk in *.
  change (Z.to_nat 0) with 0%nat in *. rewrite drop_0 in *.
  destruct (Z.to_nat j) as [|n'] eqn:En.
  - exists 0%nat. split; [lia|]. rewrite take_0, drop_0, disk_content.
    reflexivity.
  - destruct (Hfirst ltac:(lia)) as (s & Hs0 & Hfile).
    assert (a_stale a = false) as Hns.
    { destruct (a_stale a) eqn:Est; [|reflexivity]. exfalso.
      rewrite (csegs_lookup_stale a1) in Hs0 by congruence.
      inversion Hs0; subst s. cbn [path stale_seg] in Hfile.
      rewrite lookup_insert_ne in Hfile
        by (apply marker_name_not_segment; cbn; lia).
      unfold repr0 in Hfile. rewrite (disk_no_zero a _ _ Hv Est) in Hfile.
      destruct Hfile; discriminate. }
    assert (a_stale a1 = false) as Hns1 by congruence.
    unfold sh in Hsi. rewrite Hns in Hsi.
    exists (S n'). split; [lia|].
    rewrite delete_paths_insert_ne.
    2:{ rewrite (paths_take_csegs a1 _ Hns1), files_names.
        intros Hin. apply list_elem_of_fmap in Hin as (y & Ey & _).
        revert Ey. apply marker_name_not_segment. cbn. lia. }
    f_equal. rewrite disk_content.
    rewrite <- (take_drop (S n') (content a)) at 1. rewrite files_app.
    apply delete_paths_list_to_map.
    + rewrite (paths_take_csegs a1 _ Hns1), (proj2 Hsc). reflexivity.
    + rewrite <- files_app, take_drop. apply content_names_NoDup. exact Hv.
Qed.

(** What a caller sees of a log cut at the front. *)
Lemma front_cut_seen a a' i :
  valid a -> valid a' -> front_of i a a' -> afirst a <= i ->
  FirstIndex (repr0 a') = Ok i (repr0 a') /\
  LastIndex (repr0 a') = Ok (alast a) (repr0 a') /\
  (forall off, i <= off ->
     outcome_of (Read off (repr0 a')) = outcome_of (Read off (repr0 a))) /\
  (forall off, off < i -> Read off (repr0 a') = Err ErrNotFound (repr0 a')).
Proof.
  intros Hv Hv' (Hf & Hl & Hh) Hle.
  split; [rewrite FirstIndex_repr, Hf; reflexivity|].
  split; [rewrite LastIndex_repr, Hl; reflexivity|].
  split.
  - intros off Hoff. apply Read_outcome_agree; auto.
    + lia.
    + intros d. rewrite Hh. tauto.
  - intros off Hoff. apply Read_repr_out. rewrite Hf. lia.
Qed.

Lemma front_of_reopen i a a' :
  front_of i a a' -> front_of i a (a_reopen a').
Proof.
  intros (Hf & Hl & Hh). pose proof (same_content_reopen a') as Hsc.
  split; [rewrite (same_content_first _ _ Hsc); exact Hf|].
  split; [rewrite (same_content_last _ _ Hsc); exact Hl|].
  intros off d.
  rewrite <- (same_content_aholds a' (a_reopen a') off d Hsc). apply Hh.
Qed.

Lemma cut_after_first a c1 y ds c2 :
  valid a -> content a = c1 ++ (y, ds) :: c2 -> afirst a <= y.
Proof.
  intros Hv Hc. destruct (afirst_content a) as [d0 Hd0]. rewrite Hc in Hd0.
  destruct c1 as [|p1 c1].
  - cbn in Hd0. inversion Hd0. lia.
  - cbn in Hd0. inversion Hd0; subst p1.
    pose proof (v_chain a Hv) as Hch. rewrite <- spans_content, Hc in Hch.
    assert (afirst a ∈ map fst ((afirst a, d0) :: c1)) as Hin
      by (cbn; apply elem_of_cons; left; reflexivity).
    pose proof (chain_before _ _ _ _ _ Hch Hin). lia.
Qed.

(** X22: a crash during the clean-up of a front truncation.  On a reached
    log, when [truncateFront(i)] has put the
    [START] marker in place and has then run any number [j] of rounds of
    its removal loop, and the process stops there, opening the directory
    it leaves returns normally and gives the truncated log: the first
    index is [i], the last index is the old one, [Read] gives at every
    offset from [i] on what it gave before the truncation, and
    [ErrNotFound] below [i]. *)
Theorem crash_in_front_cleanup o w i segIdx si l buf wc j wj :
  reached o w ->
  truncateFront_commit i w = Ok (Some (segIdx, si, l, buf)) wc ->
  0 <= j <= segIdx + 1 ->
  truncateFront_removals segIdx l j wc = Ok tt wj ->
  exists w', open o (disk wj) = Ok tt w' /\
    FirstIndex w' = Ok i w' /\
    LastIndex w' = Ok (lastOffset (lg w)) w' /\
    (forall off, i <= off ->
       outcome_of (Read off w') = outcome_of (Read off w)) /\
    (forall off, off < i -> Read off w' = Err ErrNotFound w').
Proof.
  intros Hr H Hj Hrm. destruct (reached_repr o w Hr) as (a & -> & Hv & Hop).
  destruct (commit_front_world a i segIdx si l buf wc Hv H)
    as (a1 & c1 & y & ds & c2 & k & Hv1 & Hsc & Hst & Hc & -> & Hk & Hsi
        & Hseg & Hd).
  destruct (front_removals_disk a a1 _ segIdx l j wc wj c1 y ds c2 _
              Hv Hsc Hst Hc Hsi Hseg Hd Hj Hrm) as (n & Hn & Hdj).
  destruct (valid_front a c1 y ds c2 k Hv Hc Hk) as [Hv' Hfront].
  set (A' := a_of (a_opts a) ((y + Z.of_nat k, drop k ds) :: c2)) in *.
  exists (repr0 (a_reopen A')).
  split.
  - rewrite Hdj, Hc.
    pose proof (aoffsets_sorted a Hv) as Hso.
    pose proof (aoffsets_Forall_range a Hv) as Hra.
    pose proof (v_chain a Hv) as Hch. rewrite <- spans_content, Hc in Hch.
    rewrite aoffsets_content, Hc in Hso, Hra.
    replace (c1 ++ (y, ds) :: c2) with ((c1 ++ [(y, ds)]) ++ c2) in *
      by (rewrite <- app_assoc; reflexivity).
    rewrite drop_app_le by (rewrite length_app; cbn [length]; lia).
    rewrite <- (take_drop n (c1 ++ [(y, ds)])), <- app_assoc, map_app in Hso, Hra.
    apply StronglySorted_app in Hso as (_ & _ & Hso).
    apply Forall_app in Hra as [_ Hra].
    apply open_start_files; auto.
    + change (map fst (drop n (c1 ++ [(y, ds)])))
        with (fst <$> drop n (c1 ++ [(y, ds)])).
      rewrite fmap_drop. apply Forall_drop.
      apply Forall_forall. intros z Hz.
      change (fst <$> c1 ++ [(y, ds)]) with (map fst (c1 ++ [(y, ds)])) in Hz.
      rewrite map_app in Hz. apply elem_of_app in Hz as [Hz|Hz].
      * rewrite <- app_assoc in Hch.
        pose proof (chain_before _ _ _ _ _ Hch Hz). lia.
      * apply list_elem_of_singleton in Hz. cbn in Hz. lia.
    + apply Forall_forall. intros z Hz. rewrite <- app_assoc in Hch.
      pose proof (chain_after _ _ _ _ _ Hch Hz). unfold len in *. lia.
  - change (lastOffset (lg (repr0 a))) with (alast a).
    apply front_cut_seen.
    + exact Hv.
    + apply valid_reopen. exact Hv'.
    + apply front_of_reopen. exact Hfront.
    + pose proof (cut_after_first a c1 y ds c2 Hv Hc). lia.
Qed.

(** ** [load] on a directory with an [END] marker, whatever was removed *)

(** [load_end] when the file that the marker replaces is gone. *)
Lemma load_end_eq_gone L fs P i segs2 buf :
  segments L
  = P ++ MkSegment (str_app (segmentName i) endSuffix) i [] [] :: segs2 ->
  Forall (fun s => offset s <> i) P ->
  NoDup (map path segs2) ->
  (forall s, s ∈ segs2 -> is_Some (fs !! path s)) ->
  str_app (segmentName i) endSuffix ∉ map path segs2 ->
  fs !! str_app (segmentName i) endSuffix = Some buf ->
  load_end (len P) (MkWorld L fs)
  = Ok tt (MkWorld
             (set_segments (P ++ [dseg i]) L)
             (<[segmentName i := buf]>
                (delete (str_app (segmentName i) endSuffix)
                   (delete_paths segs2 fs)))).
Proof.
  intros HL HP Hnd Hex Hnin Hbuf. unfold load_end.
  set (E := MkSegment (str_app (segmentName i) endSuffix) i [] []) in *.
  rewrite bind_get_log. cbn [lg].
  assert (len (segments L) = len P + 1 + len segs2) as HlenL.
  { unfold len. rewrite HL, length_app. cbn [length]. lia. }
  assert (drop (Z.to_nat (len P + 1)) (segments L) = segs2) as Hdr.
  { rewrite HL. replace (P ++ E :: segs2) with ((P ++ [E]) ++ segs2)
      by (rewrite <- app_assoc; reflexivity).
    replace (Z.to_nat (len P + 1)) with (length (P ++ [E]))
      by (rewrite length_app; unfold len; cbn [length]; lia).
    apply drop_app_length. }
  pose proof (zrange_lookup (len P + 1) (len (segments L)) (segments L)
                ltac:(unfold len; lia) eq_refl ltac:(unfold len in *; lia)) as HF.
  rewrite Hdr in HF. apply Forall2_rev_2 in HF.
  assert (NoDup (map path (rev segs2))) as Hnd'.
  { rewrite map_rev, <- (Permutation_rev (map path segs2)). exact Hnd. }
  assert (forall s, s ∈ rev segs2 -> is_Some (fs !! path s)) as Hex'.
  { intros s Hs. apply Hex. apply (proj1 (elem_of_rev _ _) Hs). }
  rewrite (bind_ok _ _ _ _ _ (remove_list_ok L _ (rev segs2) fs HF Hnd' Hex')).
  rewrite delete_paths_rev.
  assert (0 <= 0 <= len P + 1) as Hb1 by (unfold len; lia).
  rewrite (bind_ok _ _ _ _ _ (slice_ok (segments L) 0 (len P + 1) _ Hb1
                                ltac:(unfold len in *; lia))).
  assert (take (Z.to_nat (len P + 1 - 0)) (drop (Z.to_nat 0) (segments L))
          = P ++ [E]) as ->.
  { cbn [Z.to_nat drop]. rewrite HL.
    replace (P ++ E :: segs2) with ((P ++ [E]) ++ segs2)
      by (rewrite <- app_assoc; reflexivity).
    replace (Z.to_nat (len P + 1 - 0)) with (length (P ++ [E]))
      by (rewrite length_app; unfold len; cbn [length]; lia).
    apply take_app_length. }
  rewrite bind_modify_log. cbn [lg disk].
  assert (len (P ++ [E]) = len P + 1) as Hn
    by (unfold len; rewrite length_app; cbn [length]; lia).
  rewrite Hn.
  assert ((P ++ [E]) !! length P = Some E) as HE
    by (rewrite lookup_app_r, Nat.sub_diag by lia; reflexivity).
  assert ((if 1 <? len P + 1
           then let* a := index_of (P ++ [E]) (len P + 1 - 2) in
                let* b := index_of (P ++ [E]) (len P + 1 - 1) in
                if offset a =? offset b
                then modify_log (set_segments
                       (take (Z.to_nat (len P + 1 - 1))
                          (<[Z.to_nat (len P + 1 - 2) := b]> (P ++ [E]))))
                else ret tt
           else ret tt)
            (MkWorld (set_segments (P ++ [E]) L) (delete_paths segs2 fs))
          = Ok tt (MkWorld (set_segments (P ++ [E]) L) (delete_paths segs2 fs)))
    as Hmid.
  { destruct (Z.ltb_spec 1 (len P + 1)) as [Hlt|_]; [|reflexivity].
    destruct (lookup_lt_is_Some_2 P (length P - 1)) as [a Ha];
      [unfold len in Hlt; lia|].
    assert ((P ++ [E]) !! (length P - 1)%nat = Some a) as Ha'
      by (apply lookup_app_l_Some; exact Ha).
    rewrite (bind_ok _ _ _ _ _
               (index_of_Z _ (len P + 1 - 2) _ _ ltac:(unfold len in *; lia)
                  ltac:(replace (Z.to_nat (len P + 1 - 2)) with (length P - 1)%nat
                          by (unfold len in *; lia); exact Ha'))).
    rewrite (bind_ok _ _ _ _ _
               (index_of_Z _ (len P + 1 - 1) _ _ ltac:(unfold len; lia)
                  ltac:(replace (Z.to_nat (len P + 1 - 1)) with (length P)
                          by (unfold len; lia); exact HE))).
    rewrite Forall_forall in HP.
    assert (offset a <> i) as Hai
      by (apply HP; eapply list_elem_of_lookup_2; exact Ha).
    cbn [offset E]. destruct (Z.eqb_spec (offset a) i); [contradiction|].
    reflexivity. }
  rewrite (bind_ok _ _ _ _ _ Hmid).
  rewrite bind_get_log. cbn [lg segments set_segments].
  assert (len (P ++ [E]) - 1 = Z.of_nat (length P)) as Hlast
    by (unfold len; rewrite length_app; cbn [length]; lia).
  rewrite Hlast.
  rewrite (bind_ok _ _ _ _ _ (index_of_Some _ _ _ _ HE)).
  cbn [path E]. rewrite strip_marker.
  assert (delete_paths segs2 fs !! str_app (segmentName i) endSuffix = Some buf)
    as Hb2 by (rewrite delete_paths_lookup_ne; assumption).
  match goal with
  | |- bind (fs_Rename ?o ?n) _ ?w = _ =>
      rewrite (bind_ok _ _ _ _ _ (fs_Rename_eq o n buf w Hb2))
  end.
  cbn [lg disk].
  match goal with
  | |- set_seg_at _ ?f ?w = _ =>
      rewrite (set_seg_at_eq (length P) f E w HE)
  end.
  cbn [lg disk segments set_segments].
  f_equal. f_equal.
  replace (length P) with (length P + 0)%nat at 1 by lia.
  rewrite alter_app_r. reflexivity.
Qed.

(** Opening a directory that holds the [END] marker of a back truncation
    in the segment at base offset [x], the segment files before it
    ([c1]), the file the marker replaces if it is still there ([cx]), and
    segment files at higher base offsets ([c3], which are removed
    unread). *)
Lemma open_end_files o opts c1 x ds' cx c3 :
  opts = normalize o ->
  valid (a_of opts (c1 ++ [(x, ds')])) ->
  cx = [] \/ (exists ds, cx = [(x, ds)]) ->
  StronglySorted Z.lt (map fst (c1 ++ cx ++ c3)) ->
  Forall (fun y => 0 <= y <= max_int64) (map fst (c1 ++ cx ++ c3)) ->
  Forall (fun y => x < y) (map fst c3) ->
  open o (<[str_app (segmentName x) endSuffix := encode_all ds']>
            (list_to_map (files (c1 ++ cx ++ c3))))
  = Ok tt (repr0 (a_reopen (a_of opts (c1 ++ [(x, ds')])))).
Proof.
  intros Hop Hv' Hcx Hs Hr H3.
  rewrite (app_assoc c1 cx c3) in *.
  set (buf := encode_all ds').
  set (A' := a_of opts (c1 ++ [(x, ds')])) in *.
  set (sn := str_app (segmentName x) endSuffix).
  set (D0 := list_to_map (files ((c1 ++ cx) ++ c3)) : FS).
  assert (content A' = c1 ++ [(x, ds')]) as HcA
    by (apply content_a_of, app_not_nil).
  assert (aoffsets A' = map fst c1 ++ [x]) as HoA.
  { rewrite aoffsets_content, HcA, map_app. reflexivity. }
  assert (0 <= x <= max_int64) as Hx.
  { apply (aoffsets_range A' x Hv'). rewrite HoA. apply elem_of_app. right.
    apply list_elem_of_singleton. reflexivity. }
  assert (forall y, y ∈ map fst c1 -> y < x) as H1.
  { intros y Hy. pose proof (aoffsets_sorted A' Hv') as Hso. rewrite HoA in Hso.
    apply StronglySorted_app in Hso as (Hcross & _ & _).
    apply Hcross; [exact Hy|]. apply list_elem_of_singleton. reflexivity. }
  assert (forall y, y ∈ map fst cx -> y = x) as Hx1.
  { intros y Hy. destruct Hcx as [->|[ds ->]].
    - apply elem_of_nil in Hy. contradiction.
    - apply list_elem_of_singleton in Hy. exact Hy. }
  pose proof Hr as Hr'. rewrite map_app in Hr'.
  apply Forall_app in Hr' as [Hr1 Hr3].
  assert (D0 !! sn = None) as Hno by (apply files_no_marker; cbn; lia).
  unfold open, load.
  rewrite (bind_ok _ _ _ _ _ (fs_ReadDir_eq _)). cbn [disk].
  rewrite (listing_insert D0 sn buf
             (segmentName <$> map fst (c1 ++ cx)) (segmentName <$> map fst c3)).
  2:{ exact Hno. }
  2:{ unfold D0. rewrite (names_files _ Hs Hr), map_app, fmap_app. reflexivity. }
  2:{ apply Forall_fmap, Forall_forall. intros y Hy. cbn.
      rewrite Forall_forall in Hr1. apply marker_after; auto.
      rewrite map_app in Hy. apply elem_of_app in Hy as [Hy|Hy].
      - pose proof (H1 y Hy). lia.
      - pose proof (Hx1 y Hy). lia. }
  2:{ apply Forall_fmap, Forall_forall. intros y Hy. cbn.
      rewrite Forall_forall in Hr3, H3. apply marker_before; auto. }
  unfold sn at 1. rewrite (scan_with_end _ x _ Hr1 Hx Hr3). fold sn.
  rewrite bind_modify_log. cbn [sc_segments lg disk].
  set (P := map dseg (map fst c1)) in *.
  set (segs3 := map dseg (map fst c3)) in *.
  assert ((len (map dseg (map fst (c1 ++ cx)) ++ MkSegment sn x [] [] :: segs3)
           =? 0) = false) as ->.
  { apply Z.eqb_neq. unfold len. rewrite length_app. cbn. lia. }
  assert ((len (map fst (c1 ++ cx)) =? -1) = false) as Hs1
    by (apply Z.eqb_neq; unfold len; lia).
  unfold markers_clash. cbn [startIdx endIdx truncateIdx].
  rewrite Hs1. change (-1 =? -1) with true. cbn [negb andb orb].
  rewrite when_false, bind_ret, when_true, bind_assoc.
  assert (map path segs3 = segmentName <$> map fst c3) as Hp3.
  { unfold segs3. rewrite map_map. reflexivity. }
  pose proof (files_NoDup _ Hs Hr) as Hnames.
  assert (NoDup (map path segs3)) as Hnd.
  { rewrite Hp3. rewrite files_names, map_app, fmap_app in Hnames.
    apply NoDup_app in Hnames as (_ & _ & Hn). exact Hn. }
  assert (forall s, s ∈ segs3 -> is_Some ((<[sn := buf]> D0) !! path s)) as Hex.
  { intros s Hin. assert (path s ∈ map path segs3) as Hps
      by (apply list_elem_of_fmap; eauto).
    rewrite Hp3 in Hps. apply list_elem_of_fmap in Hps as (y & Ey & Hy).
    rewrite Ey. rewrite lookup_insert_ne
      by (unfold sn; apply marker_name_not_segment; cbn; lia).
    apply files_lookup; [exact Hs|exact Hr|].
    rewrite map_app. apply elem_of_app. right. exact Hy. }
  assert (sn ∉ map path segs3) as Hnin.
  { rewrite Hp3. intros Hin. apply list_elem_of_fmap in Hin as (y & Ey & _).
    revert Ey. unfold sn. apply marker_name_not_segment. cbn. lia. }
  assert ((<[sn := buf]> D0) !! sn = Some buf) as Hbuf
    by apply lookup_insert_eq.
  match goal with
  | |- bind (load_end _) _ (MkWorld ?L ?fs) = _ =>
      assert (load_end (len (map fst (c1 ++ cx))) (MkWorld L fs)
              = Ok tt (MkWorld
                         (set_segments (P ++ [dseg x]) L)
                         (<[segmentName x := buf]>
                            (delete sn (delete_paths segs3 fs))))) as Hle
  end.
  { destruct Hcx as [->|[ds ->]].
    - rewrite app_nil_r. fold P.
      replace (len (map fst c1)) with (len P)
        by (unfold len, P; rewrite !length_map; reflexivity).
      apply load_end_eq_gone; auto.
      apply Forall_forall. intros s Hin. unfold P in Hin.
      apply list_elem_of_fmap in Hin as (y & -> & Hy). cbn [offset dseg].
      pose proof (H1 y Hy). lia.
    - rewrite !map_app. cbn [map fst]. fold P.
      replace (len (map fst c1 ++ [x])) with (len P + 1)
        by (unfold len, P; rewrite length_app, !length_map; cbn [length]; lia).
      apply load_end_eq; auto.
      rewrite <- app_assoc. reflexivity. }
  rewrite (bind_ok _ _ _ _ _ Hle). clear Hle.
  rewrite bind_ret, when_false, bind_ret.
  match goal with
  | |- _ ?w = _ => change (load_finish w = Ok tt (repr0 (a_reopen A')))
  end.
  assert (segmentName x ∉ (files c1).*1) as Hxn.
  { pose proof (content_names_NoDup A' Hv') as Hn.
    rewrite HcA, files_app, fmap_app in Hn.
    apply NoDup_app in Hn as (_ & Hdis & _).
    intros Hin. apply (Hdis _ Hin). cbn. apply elem_of_cons. left. reflexivity. }
  assert (<[segmentName x := buf]> (delete sn (delete_paths segs3
             (<[sn := buf]> D0)))
          = disk (repr0 A')) as HD.
  { rewrite delete_paths_insert_ne by exact Hnin.
    rewrite delete_insert_eq.
    assert (delete_paths segs3 D0 = list_to_map (files (c1 ++ cx))) as Hdp.
    { unfold D0. rewrite files_app.
      apply delete_paths_list_to_map_r.
      - rewrite Hp3, files_names. reflexivity.
      - rewrite <- files_app. exact Hnames. }
    rewrite Hdp.
    rewrite delete_id by (apply files_no_marker; cbn; lia).
    rewrite (disk_content A'), HcA, !files_app.
    change (files [(x, ds')]) with [(segmentName x, buf)].
    rewrite (list_to_map_snoc (files c1)) by exact Hxn.
    destruct Hcx as [->|[ds ->]].
    - change (files []) with (@nil (string * list byte)).
      rewrite app_nil_r. reflexivity.
    - change (files [(x, ds)]) with [(segmentName x, encode_all ds)].
      rewrite (list_to_map_snoc (files c1)) by exact Hxn.
      apply insert_insert_eq. }
  fold sn. rewrite HD.
  match goal with
  | |- load_finish (MkWorld ?L _) = _ =>
      replace L with (set_segments (map dseg (aoffsets A')) (new_log o))
  end.
  - rewrite <- (open_segments_only o A' Hv').
    apply open_repr_disk; [exact Hv'|]. unfold A'. cbn [a_opts a_of]. exact Hop.
  - rewrite HoA, map_app. reflexivity.
Qed.

Lemma close_inv w w1 :
  sfile_Close w = Ok tt w1 ->
  segments (lg w1) = segments (lg w) /\ disk w1 = disk w.
Proof.
  unfold sfile_Close. rewrite bind_get_log.
  destruct (sfile (lg w)); try discriminate. intros H. inversion H. auto.
Qed.

Lemma paths_drop_csegs a p :
  map path (drop (sh a + p) (csegs a)) = (files (drop p (content a))).*1.
Proof.
  rewrite paths_csegs_drop, content_allsegs. unfold files. f_equal.
  rewrite skipn_map, map_map. reflexivity.
Qed.

Lemma delete_paths_middle (ss : list segment)
    (F1 Fm F2 : list (string * list byte)) :
  map path ss = Fm.*1 -> NoDup (F1 ++ Fm ++ F2).*1 ->
  delete_paths ss (list_to_map (F1 ++ Fm ++ F2)) = list_to_map (F1 ++ F2).
Proof.
  intros Hp Hnd.
  assert (F1 ++ Fm ++ F2 ≡ₚ Fm ++ F1 ++ F2) as Hperm
    by apply Permutation_app_swap_app.
  rewrite (list_to_map_proper _ _ Hnd Hperm).
  apply delete_paths_list_to_map; [exact Hp|].
  eapply NoDup_Permutation_proper; [|exact Hnd].
  apply fmap_Permutation. symmetry. exact Hperm.
Qed.

Lemma back_removals_disk a a1 o segIdx hi wc wj c1 ds c2 buf :
  valid a -> same_content a a1 -> a_stale a1 = a_stale a ->
  content a = c1 ++ (o, ds) :: c2 ->
  segIdx = Z.of_nat (sh a + length c1) ->
  segments (lg wc) = csegs a1 ->
  disk wc = <[str_app (segmentName o) endSuffix := buf]> (disk (repr0 a)) ->
  segIdx <= hi ->
  truncateBack_removals segIdx hi wc = Ok tt wj ->
  exists n,
    disk wj = <[str_app (segmentName o) endSuffix := buf]>
                (list_to_map (files (c1 ++ drop n ((o, ds) :: c2)))).
Proof.
  intros Hv Hsc Hst Hc Hsi Hseg Hdisk Hj H.
  unfold truncateBack_removals in H.
  apply bind_Ok_inv in H as ([] & w1 & Hcl & Hrm).
  apply close_inv in Hcl as [Hsg Hdk].
  unfold zrange in Hrm.
  apply remove_range_inv in Hrm as (-> & _ & _); [|lia].
  cbn [disk]. rewrite Hsg, Hseg, Hdk, Hdisk.
  set (n := Z.to_nat (hi - segIdx)).
  exists n.
  assert (Z.to_nat segIdx = (sh a1 + length c1)%nat) as ->
    by (unfold sh in *; rewrite Hst; lia).
  assert (map path (take n (drop (sh a1 + length c1) (csegs a1)))
          = (files (take n ((o, ds) :: c2))).*1) as Hp.
  { change (map path (take n ?l)) with (path <$> take n l).
    rewrite fmap_take.
    change (path <$> ?l) with (map path l).
    rewrite paths_drop_csegs, (proj2 Hsc), Hc, drop_app_length.
    symmetry. apply files_take. }
  rewrite delete_paths_insert_ne.
  2:{ rewrite Hp, files_names.
      intros Hin. apply list_elem_of_fmap in Hin as (y & Ey & _).
      revert Ey. apply marker_name_not_segment. cbn. lia. }
  f_equal. rewrite disk_content, Hc.
  rewrite <- (take_drop n ((o, ds) :: c2)) at 1.
  rewrite !files_app.
  apply delete_paths_middle; [exact Hp|].
  rewrite <- !files_app, take_drop, <- Hc. apply content_names_NoDup. exact Hv.
Qed.

(** What a caller sees of a log cut at the back. *)
Lemma back_cut_seen a a' i :
  valid a -> valid a' -> back_of i a a' -> i <= alast a ->
  FirstIndex (repr0 a') = Ok (afirst a) (repr0 a') /\
  LastIndex (repr0 a') = Ok i (repr0 a') /\
  (forall off, off <= i ->
     outcome_of (Read off (repr0 a')) = outcome_of (Read off (repr0 a))) /\
  (forall off, i < off -> Read off (repr0 a') = Err ErrNotFound (repr0 a')).
Proof.
  intros Hv Hv' (Hf & Hl & Hh) Hle.
  split; [rewrite FirstIndex_repr, Hf; reflexivity|].
  split; [rewrite LastIndex_repr, Hl; reflexivity|].
  split.
  - intros off Hoff. apply Read_outcome_agree; auto.
    + lia.
    + intros d. rewrite Hh. tauto.
  - intros off Hoff. apply Read_repr_out. rewrite Hl. lia.
Qed.

Lemma back_of_reopen i a a' :
  back_of i a a' -> back_of i a (a_reopen a').
Proof.
  intros (Hf & Hl & Hh). pose proof (same_content_reopen a') as Hsc.
  split; [rewrite (same_content_first _ _ Hsc); exact Hf|].
  split; [rewrite (same_content_last _ _ Hsc); exact Hl|].
  intros off d.
  rewrite <- (same_content_aholds a' (a_reopen a') off d Hsc). apply Hh.
Qed.

Lemma cut_before_last a c1 y ds c2 (k : nat) :
  valid a -> content a = c1 ++ (y, ds) :: c2 -> (k < length ds)%nat ->
  y + Z.of_nat k <= alast a.
Proof.
  intros Hv Hc Hk. destruct (lookup_lt_is_Some_2 ds k Hk) as [d Hd].
  assert (aholds a (y + Z.of_nat k) d) as Hho.
  { rewrite aholds_holds, Hc. apply holds_app. right.
    apply holds_cons. left. apply holds_single. split; [lia|].
    rewrite <- Hd. f_equal. lia. }
  pose proof (aholds_in_range a _ _ Hv Hho). lia.
Qed.

(** X23: a crash during the clean-up of a back truncation.  On a reached
    log, when [truncateBack(i)] at an offset [i] for which [Read] returns
    an entry has put the [END] marker in place and has then closed the
    tail file and run any number of rounds of its removal loop (the
    indices from [segIdx] up to, not including, [hi]), and the process
    stops there, opening the directory it leaves returns normally and
    gives the truncated log: the first index is the old one, the last
    index is [i], [Read] gives at every offset up to [i] what it gave
    before the truncation, and [ErrNotFound] above [i]. *)
Theorem crash_in_back_cleanup o w ecap i d w1 segIdx si l s buf wc hi wj :
  reached o w -> Read i w = Ok d w1 ->
  truncateBack_commit ecap i w = Ok (BackCut segIdx si l s buf) wc ->
  segIdx <= hi ->
  truncateBack_removals segIdx hi wc = Ok tt wj ->
  exists w', open o (disk wj) = Ok tt w' /\
    FirstIndex w' = Ok (firstOffset (lg w)) w' /\
    LastIndex w' = Ok i w' /\
    (forall off, off <= i ->
       outcome_of (Read off w') = outcome_of (Read off w)) /\
    (forall off, i < off -> Read off w' = Err ErrNotFound w').
Proof.
  intros Hr Hrd H Hj Hrm. destruct (reached_repr o w Hr) as (a & -> & Hv & Hop).
  destruct (Read_Ok_repr a i d w1 Hv Hrd) as (_ & _ & _ & _ & Hheld).
  destruct (commit_back_world a ecap i d segIdx si l s buf wc Hv Hheld H)
    as (a1 & c1 & y & ds & c2 & k & Hv1 & Hsc & Hst & Hc & -> & Hk & Hsi
        & Hseg & Hd).
  destruct (back_removals_disk a a1 y segIdx hi wc wj c1 ds c2 _
              Hv Hsc Hst Hc Hsi Hseg Hd Hj Hrm) as (n & Hdj).
  destruct (valid_back a c1 y ds c2 k Hv Hc Hk) as [Hv' Hback].
  set (A' := a_of (a_opts a) (c1 ++ [(y, take (S k) ds)])) in *.
  exists (repr0 (a_reopen A')).
  split.
  - rewrite Hdj.
    pose proof (aoffsets_sorted a Hv) as Hso.
    pose proof (aoffsets_Forall_range a Hv) as Hra.
    pose proof (v_chain a Hv) as Hch. rewrite <- spans_content, Hc in Hch.
    rewrite aoffsets_content, Hc in Hso, Hra.
    assert (Forall (fun z => y < z) (map fst c2)) as H2.
    { apply Forall_forall. intros z Hz.
      pose proof (chain_after _ _ _ _ _ Hch Hz). unfold len in *. lia. }
    destruct n as [|n'].
    + rewrite drop_0.
      change (c1 ++ (y, ds) :: c2) with (c1 ++ [(y, ds)] ++ c2) in *.
      apply open_end_files; eauto.
    + cbn [drop].
      change (c1 ++ drop n' c2) with (c1 ++ [] ++ drop n' c2).
      rewrite map_app in Hso, Hra. cbn [map fst] in Hso, Hra.
      apply StronglySorted_app in Hso as (Hcross & Hso1 & Hso2).
      apply StronglySorted_inv in Hso2 as [Hso2 _].
      apply Forall_app in Hra as [Hra1 Hra2].
      apply Forall_cons in Hra2 as [_ Hra2].
      assert (map fst (drop n' c2) = drop n' (map fst c2)) as Hmd
        by (symmetry; apply skipn_map).
      apply open_end_files; auto.
      * cbn [app]. rewrite map_app, Hmd. apply StronglySorted_app_2.
        -- intros x1 x2 Hx1 Hx2. apply Hcross; [exact Hx1|].
           apply elem_of_cons. right.
           apply (subseteq_drop n' (map fst c2)). exact Hx2.
        -- exact Hso1.
        -- rewrite <- (take_drop n' (map fst c2)) in Hso2.
           apply StronglySorted_app in Hso2 as (_ & _ & Hso2). exact Hso2.
      * cbn [app]. rewrite map_app, Hmd. apply Forall_app. split; [exact Hra1|].
        apply Forall_drop. exact Hra2.
      * rewrite Hmd. apply Forall_drop. exact H2.
  - change (firstOffset (lg (repr0 a))) with (afirst a).
    apply back_cut_seen.
    + exact Hv.
    + apply valid_reopen. exact Hv'.
    + apply back_of_reopen. exact Hback.
    + apply (cut_before_last a c1 y ds c2 k Hv Hc Hk).
Qed.

Lemma crash_in_front_cleanup_witness :
  exists w', open DefaultOptions (disk front_removed_world) = Ok tt w' /\
    FirstIndex w' = Ok 1 w' /\
    LastIndex w' = Ok (lastOffset (lg two_entry_world)) w' /\
    (forall off, 1 <= off ->
       outcome_of (Read off w') = outcome_of (Read off two_entry_world)) /\
    (forall off, off < 1 -> Read off w' = Err ErrNotFound w').
Proof.
  eapply (crash_in_front_cleanup DefaultOptions two_entry_world 1 0 _
            (lg front_marked_world) _ front_marked_world 1
            front_removed_world).
  - exact reached_two_entry.
  - vm_compute. reflexivity.
  - lia.
  - vm_compute. reflexivity.
Defined.

Lemma crash_in_back_cleanup_witness :
  exists w', open DefaultOptions (disk back_removed_world) = Ok tt w' /\
    FirstIndex w' = Ok (firstOffset (lg two_entry_world)) w' /\
    LastIndex w' = Ok 0 w' /\
    (forall off, off <= 0 ->
       outcome_of (Read off w') = outcome_of (Read off two_entry_world)) /\
    (forall off, 0 < off -> Read off w' = Err ErrNotFound w').
Proof.
  eapply (crash_in_back_cleanup DefaultOptions two_entry_world 2 0
            (bytes_of "a") (world_of (Read 0 two_entry_world)) 0 _ _ _ _
            back_commit_world 1 back_removed_world).
  - exact reached_two_entry.
  - vm_compute. reflexivity.
  - vm_compute. reflexivity.
  - lia.
  - vm_compute. reflexivity.
Defined.
